(** * Private variable analysis of TSAR (lib/Analysis/Memory/PrivateAnalysis.cpp)

  A shallow embedding of the loop-carried dependence and privatization
  classification engine: the trait lattice, the dependence records, the
  dependence collector, the explicit access and pointer resolvers, the
  first-private refiner, the per-node result store and the coverage closure,
  followed by the properties proved about them. *)

From Stdlib Require Import ZArith Lia.
From stdpp Require Import gmap list fin_maps option.

Set Warnings "-register-all,-clear-no-such-hyp".

(** ** Bit traits *)

Module BitMemoryTrait.

#[local] Open Scope Z_scope.

(** Modelled from the spec: BitMemoryTrait.h (the identifiers of the trait
    bitset, its default value and the helpers dropUnitFlag and
    dropSharedFlag) is not among the sources.  The spec describes a bitset
    whose merge is a conjunction, with NoAccess as top and Dependency as
    bottom, and the single-bit flags AddressAccess and HeaderAccess.  Every
    identifier is NoAccess with some bits cleared:

      bit 8  cleared by HeaderAccess          (unit flag)
      bit 7  cleared by AddressAccess         (unit flag)
      bit 6  cleared by every access
      bit 5  cleared by the private family and by Dependency
      bit 4  cleared by Dependency only
      bit 3  cleared by LastPrivate and DynamicPrivate
      bit 2  cleared by SecondToLastPrivate and DynamicPrivate
      bit 1  cleared by Shared                (shared-join flag)
      bit 0  cleared by FirstPrivate

    Dependency clears every bit below the unit flags. *)
Definition Id : Type := Z.

Definition NoAccess : Id := 0x1ff.
Definition HeaderAccess : Id := 0x0ff.
Definition AddressAccess : Id := 0x17f.
Definition Readonly : Id := 0x1bf.
Definition Shared : Id := 0x1bd.
Definition Private : Id := 0x19f.
Definition FirstPrivate : Id := 0x19e.
Definition SecondToLastPrivate : Id := 0x19b.
Definition LastPrivate : Id := 0x197.
Definition DynamicPrivate : Id := 0x193.
Definition Dependency : Id := 0x180.

(** The bits of the unit flags and of the shared-join flag. *)
Definition AllUnitFlags : Id := 0x180.
Definition SharedJoin : Id := 0x002.

(** [operator&] and [operator&=]. *)
Definition conj (a b : Id) : Id := Z.land a b.

(** The default constructed trait, [BitMemoryTrait()]. *)
Definition default : Id := NoAccess.

Definition dropUnitFlag (T : Id) : Id := Z.lor T AllUnitFlags.
Definition dropSharedFlag (T : Id) : Id := Z.lor T SharedJoin.

End BitMemoryTrait.

Notation "a &' b" := (BitMemoryTrait.conj a b) (at level 40, left associativity).

(** ** Kinds of dependence and their flags *)

Inductive DepKind : Type := Flow | Anti | Output.

#[global] Instance DepKind_eq_dec : EqDecision DepKind.
Proof. solve_decision. Defined.

#[global] Instance DepKind_countable : Countable DepKind.
Proof.
refine (inj_countable'
          (λ k, match k with Flow => 0 | Anti => 1 | Output => 2 end)
          (λ n, match n with 0 => Flow | 1 => Anti | _ => Output end) _).
intros []; reflexivity.
Defined.

(** The order in which [for_each] visits the traits of a descriptor
  [TraitDescriptor<Flow, Anti, Output>]. *)
Definition allDepKinds : list DepKind := [Flow; Anti; Output].

Definition for_each_kind (Dptr : gset DepKind) : list DepKind :=
filter (λ k, k ∈ Dptr) allDepKinds.

(** A [bcl::tagged_tuple] with one component per kind of dependence. *)
Record Tagged (A : Type) : Type := mkTagged { tFlow : A; tAnti : A; tOutput : A }.
Arguments mkTagged {A} _ _ _.
Arguments tFlow {A} _.
Arguments tAnti {A} _.
Arguments tOutput {A} _.

Definition tget {A} (k : DepKind) (t : Tagged A) : A :=
match k with Flow => tFlow t | Anti => tAnti t | Output => tOutput t end.

Definition tset {A} (k : DepKind) (v : A) (t : Tagged A) : Tagged A :=
match k with
| Flow => mkTagged v (tAnti t) (tOutput t)
| Anti => mkTagged (tFlow t) v (tOutput t)
| Output => mkTagged (tFlow t) (tAnti t) v
end.

Module Dependence.

#[local] Open Scope Z_scope.

(** Modelled from the spec: the enumeration trait::Dependence::Flag is not
    among the sources; the spec lists may, load/store cause, call cause,
    unknown cause and unknown distance as independent flags, so each is
    one bit and [No] is the empty mask. *)
Definition Flag : Type := Z.

Definition No : Flag := 0.
Definition May : Flag := 1.
Definition LoadStoreCause : Flag := 2.
Definition CallCause : Flag := 4.
Definition UnknownCause : Flag := 8.
Definition UnknownDistance : Flag := 16.

(** [F & UnknownDistance], read as a condition. *)
Definition hasUnknownDistance (F : Flag) : bool :=
  negb (Z.land F UnknownDistance =? 0)%Z.

End Dependence.

(** ** Distances *)

(** A distance is a [const SCEV *]: scalar evolution expressions are unique,
  so the pointer identifies the expression. *)
Definition SCEV : Type := positive.

(** Expressions built by the scalar evolution queries of SummarizeFunctor. *)
Inductive SCEVExpr : Type :=
| SCEVRef (D : SCEV)
| getNegativeSCEV (e : SCEVExpr)
| getNotSCEV (e : SCEVExpr)
| getSMaxExpr (a b : SCEVExpr)
| getUMaxExpr (Ops : list SCEVExpr).

(** [trait::IRDependence]: flags and a distance range, each bound possibly
  null. *)
Record IRDependence : Type := mkIRDependence {
irFlags : Dependence.Flag;
irDistance : option SCEVExpr * option SCEVExpr
}.

(** ** Dependence records *)

Module DependenceImp.

Abbreviation Distances := (gset SCEV).
Abbreviation Descriptor := (gset DepKind).

Record t : Type := mk {
  mDptr : Descriptor;
  mDists : Tagged Distances;
  mFlags : Tagged Dependence.Flag
}.

(** [new DependenceImp]: an empty descriptor, no distances, no flags. *)
Definition empty : t :=
  mk ∅ (mkTagged ∅ ∅ ∅) (mkTagged Dependence.No Dependence.No Dependence.No).

(** The state of an UpdateFunctor besides the record it updates. *)
Record UpdateFunctor : Type := mkUpdateFunctor {
  mFlag : Dependence.Flag;
  mDist : option SCEV
}.

(** [UpdateFunctor::operator()<Trait>]. *)
Definition UpdateFunctor_call (k : DepKind) (st : t * UpdateFunctor)
  : t * UpdateFunctor :=
  let '(Dep, fn) := st in
  let Dptr' := {[k]} ∪ mDptr Dep in
  let Flag' :=
    match mDist fn with
    | None => Z.lor (mFlag fn) Dependence.UnknownDistance
    | Some _ => mFlag fn
    end in
  let Flags' := Z.lor (tget k (mFlags Dep)) Flag' in
  let Dists' :=
    if Dependence.hasUnknownDistance Flags' then ∅
    else match mDist fn with
         | Some D => {[D]} ∪ tget k (mDists Dep)
         | None => tget k (mDists Dep)
         end in
  (mk Dptr' (tset k Dists' (mDists Dep)) (tset k Flags' (mFlags Dep)),
   mkUpdateFunctor Flag' (mDist fn)).

(** [update] from a descriptor, a flag and a distance. *)
Definition update (Dptr : Descriptor) (F : Dependence.Flag)
    (Dist : option SCEV) (Dep : t) : t :=
  fst (foldl (λ st k, UpdateFunctor_call k st)
             (Dep, mkUpdateFunctor F Dist) (for_each_kind Dptr)).

(** [UpdateDepFunctor::operator()<Trait>]. *)
Definition UpdateDepFunctor_call (Src : t) (k : DepKind) (Dep : t) : t :=
  let Dptr' := {[k]} ∪ mDptr Dep in
  let Flags' := Z.lor (tget k (mFlags Dep)) (tget k (mFlags Src)) in
  let Dists' :=
    if Dependence.hasUnknownDistance Flags' then ∅
    else tget k (mDists Dep) ∪ tget k (mDists Src) in
  mk Dptr' (tset k Dists' (mDists Dep)) (tset k Flags' (mFlags Dep)).

(** [update] from another record.  When a record is merged into itself every
    step rereads components it has just written with the values they
    already had, so reading [Src] before the loop gives the same result. *)
Definition updateFrom (Src : t) (Dep : t) : t :=
  foldl (λ d k, UpdateDepFunctor_call Src k d) Dep (for_each_kind (mDptr Src)).

(** [SummarizeFunctor::operator()<Trait>], as the dependence it stores for
    the trait. *)
Definition SummarizeFunctor_call (k : DepKind) (Dep : t) : IRDependence :=
  let F := tget k (mFlags Dep) in
  if Dependence.hasUnknownDistance F then mkIRDependence F (None, None)
  else
    let MaxOps :=
      (λ D, getSMaxExpr (getNegativeSCEV (SCEVRef D)) (SCEVRef D))
        <$> elements (tget k (mDists Dep)) in
    let MinOps := getNotSCEV <$> MaxOps in
    mkIRDependence F
      (Some (getNotSCEV (getUMaxExpr MinOps)), Some (getUMaxExpr MaxOps)).

(** The operations that change a record. *)
Inductive Op : Type :=
| OpUpdate (Dptr : Descriptor) (F : Dependence.Flag) (Dist : option SCEV)
| OpMerge (Src : t).

Definition apply (Dep : t) (o : Op) : t :=
  match o with
  | OpUpdate Dptr F Dist => update Dptr F Dist Dep
  | OpMerge Src => updateFrom Src Dep
  end.

Definition run (ops : list Op) (Dep : t) : t := foldl apply Dep ops.

(** A kind whose distance is unknown stores no distance. *)
Definition Consistent (Dep : t) : Prop :=
  ∀ k, Dependence.hasUnknownDistance (tget k (mFlags Dep)) = true →
       tget k (mDists Dep) = ∅.

(** The flags of a record only grow. *)
Definition FlagsGrow (Dep Dep' : t) : Prop :=
  ∀ k, Dependence.hasUnknownDistance (tget k (mFlags Dep)) = true →
       Dependence.hasUnknownDistance (tget k (mFlags Dep')) = true.

End DependenceImp.

(** ** The dependence test oracle *)

Module llvm.

(** [Dependence::DVEntry]: the direction of a dependence at one loop level. *)
Inductive DVEntry : Type := NONE | LT | EQ | LE | GT | NE | GE | ALL.

#[global] Instance DVEntry_eq_dec : EqDecision DVEntry.
Proof. solve_decision. Defined.

(** What the collector reads of a [Dependence]: its kind, and the direction
    and the distance at a loop level (levels count from 1, the distance may
    be null). *)
Record Dependence : Type := mkDependence {
  isOutput : bool;
  isFlow : bool;
  isAnti : bool;
  getDirection : nat → DVEntry;
  getDistance : nat → option SCEV
}.

End llvm.

(** ** Memory locations and the alias tree *)

(** An [llvm::Value *] or [llvm::Instruction *]. *)
Definition Value : Type := positive.

Record MemoryLocation : Type := mkMemoryLocation {
  Ptr : Value;
  Size : N;
  AATags : N
}.

#[global] Instance MemoryLocation_eq_dec : EqDecision MemoryLocation.
Proof. solve_decision. Defined.

(** A node of an estimate memory tree: the pointers of the locations it
    stands for, their size and alias information, and the locations it
    extends (its children). [emId] stands for the address of the node. *)
Inductive EstimateMemory : Type :=
| mkEM (id : positive) (ptrs : list Value) (size : N) (aainfo : N)
       (children : list EstimateMemory).

Definition emId (EM : EstimateMemory) : positive :=
  match EM with mkEM id _ _ _ _ => id end.
Definition emPtrs (EM : EstimateMemory) : list Value :=
  match EM with mkEM _ ptrs _ _ _ => ptrs end.
Definition getSize (EM : EstimateMemory) : N :=
  match EM with mkEM _ _ size _ _ => size end.
Definition getAAInfo (EM : EstimateMemory) : N :=
  match EM with mkEM _ _ _ aa _ => aa end.
Definition emChildren (EM : EstimateMemory) : list EstimateMemory :=
  match EM with mkEM _ _ _ _ children => children end.

Definition isLeaf (EM : EstimateMemory) : bool :=
  match emChildren EM with [] => true | _ => false end.

(** A node of the alias tree; [anId] stands for its address. *)
Inductive AliasNode : Type :=
| mkAliasNode (id : positive) (children : list AliasNode).

Definition anId (N : AliasNode) : positive :=
  match N with mkAliasNode id _ => id end.
Definition anChildren (N : AliasNode) : list AliasNode :=
  match N with mkAliasNode _ children => children end.

(** The queries of the alias tree used by the pass.  [find] is asserted to
    succeed wherever it is called. *)
Record AliasTree : Type := mkAliasTree {
  find : MemoryLocation → EstimateMemory;
  findUnknown : Value → positive;
  getAliasNode : EstimateMemory → positive
}.

(** [DependenceMap]: the dependence record of an estimate memory. *)
Abbreviation DependenceMap := (gmap positive DependenceImp.t).

(** ** Dependence collector *)

(** [updateDependence]: the record is created on first use. *)
Definition updateDependence (EM : EstimateMemory)
    (Dptr : DependenceImp.Descriptor) (F : Dependence.Flag)
    (Dist : option SCEV) (Deps : DependenceMap) : DependenceMap :=
  let Dep := default DependenceImp.empty (Deps !! emId EM) in
  <[emId EM := DependenceImp.update Dptr F Dist Dep]> Deps.

(** The test of one outer direction in [insertDependence]. *)
Definition outerDirectionIgnored (Dir : llvm.DVEntry) : bool :=
  bool_decide (Dir ≠ llvm.EQ) && bool_decide (Dir ≠ llvm.ALL) &&
  bool_decide (Dir ≠ llvm.LE) && bool_decide (Dir ≠ llvm.GE).

(** The loop over the outer depths, [true] when it returns from
    [insertDependence]. *)
Fixpoint outerLoopReturns (Dep : llvm.Dependence) (OuterDepths : list nat)
  : bool :=
  match OuterDepths with
  | [] => false
  | OuterDepth :: rest =>
      if outerDirectionIgnored (llvm.getDirection Dep OuterDepth) then true
      else outerLoopReturns Dep rest
  end.

(** The descriptor [Dptr] built by [insertDependence]. *)
Definition insertDependence_Dptr (Dep : llvm.Dependence) (Dir : llvm.DVEntry)
  : DependenceImp.Descriptor :=
  if llvm.isOutput Dep then {[Output]}
  else if bool_decide (Dir = llvm.ALL) then {[Flow; Anti]}
  else if llvm.isFlow Dep then
    if bool_decide (Dir = llvm.LT) || bool_decide (Dir = llvm.LE)
    then {[Flow]} else {[Anti]}
  else if llvm.isAnti Dep then
    if bool_decide (Dir = llvm.LT) || bool_decide (Dir = llvm.LE)
    then {[Anti]} else {[Flow]}
  else {[Flow; Anti]}.

Section Collector.

Variable mAliasTree : AliasTree.

(** [insertDependence]; [LoopDepth] is [L.getLoopDepth()]. *)
Definition insertDependence (Dep : llvm.Dependence)
    (Src Dst : MemoryLocation) (Flag : Dependence.Flag) (LoopDepth : nat)
    (Deps : DependenceMap) : DependenceMap :=
  if outerLoopReturns Dep (seq 1 (LoopDepth - 1)) then Deps
  else
    let Dir := llvm.getDirection Dep LoopDepth in
    if bool_decide (Dir = llvm.EQ) then Deps
    else
      let Dptr := insertDependence_Dptr Dep Dir in
      let Dist := llvm.getDistance Dep LoopDepth in
      let F := Z.lor Dependence.LoadStoreCause Flag in
      updateDependence (find mAliasTree Dst) Dptr F Dist
        (updateDependence (find mAliasTree Src) Dptr F Dist Deps).

(** The part of [collectDependencies] run on two load or store locations:
    the oracle's answer [D] is dropped when it is null or an input
    dependence. *)
Definition collectLoadStorePair (D : option llvm.Dependence)
    (Src Dst : MemoryLocation) (LoopDepth : nat) (Deps : DependenceMap)
  : DependenceMap :=
  match D with
  | None => Deps
  | Some D =>
      if negb (llvm.isAnti D) && negb (llvm.isFlow D) && negb (llvm.isOutput D)
      then Deps
      else insertDependence D Src Dst Dependence.No LoopDepth Deps
  end.

End Collector.

(** ** Data-flow facts consumed by the pass *)

(** A set of locations of the data-flow analyses, by its two queries. *)
Record LocationDFValue : Type := mkLocationDFValue {
  contain : MemoryLocation → bool;
  overlap : MemoryLocation → bool
}.

Record DefinitionInfo : Type := mkDefinitionInfo {
  MustReach : LocationDFValue;
  MayReach : LocationDFValue
}.

Record DefUseSet : Type := mkDefUseSet {
  getExplicitAccesses : list MemoryLocation;
  getExplicitUnknowns : list Value;
  hasUse : MemoryLocation → bool;
  hasDef : MemoryLocation → bool;
  hasMayDef : MemoryLocation → bool
}.

(** ** The state of the analysis of one loop *)

(** A trait of a location is an object of a list node ([TraitList],
    [UnknownList]) that [ExplicitAccesses] and [ExplicitUnknowns] point to.
    The objects are kept in a store, indexed by their address; a list node
    and a map entry hold the address. *)
Abbreviation TraitList := (list (EstimateMemory * nat)).
Abbreviation UnknownList := (list (Value * nat)).

Record PassState : Type := mkPassState {
  traits : list BitMemoryTrait.Id;
  ExplicitAccesses : gmap positive nat;
  ExplicitUnknowns : gmap positive (positive * nat);
  NodeTraits : gmap positive (TraitList * UnknownList)
}.

Definition setTraits (st : PassState) (m : list BitMemoryTrait.Id)
  : PassState :=
  mkPassState m (ExplicitAccesses st) (ExplicitUnknowns st) (NodeTraits st).

(** A loop over a container whose body may fail an assertion. *)
Fixpoint forEach {A S : Type} (body : A → S → option S) (l : list A) (s : S)
  : option S :=
  match l with
  | [] => Some s
  | x :: rest => s' ← body x s; forEach body rest s'
  end.

(** ** Explicit access resolver *)

(** [SharedTrait] and [DefTrait] of [resolveAccesses], after the test of
    [Deps.count(Base)]. *)
Definition SharedTrait (Deps : DependenceMap) (Base : EstimateMemory)
  : BitMemoryTrait.Id :=
  match Deps !! emId Base with
  | None => BitMemoryTrait.Shared
  | Some _ => BitMemoryTrait.NoAccess
  end.

Definition DefTrait (Deps : DependenceMap) (Base : EstimateMemory)
  : BitMemoryTrait.Id :=
  match Deps !! emId Base with
  | None => BitMemoryTrait.Shared
  | Some _ => BitMemoryTrait.Dependency
  end.

Section Resolvers.

Variable mAliasTree : AliasTree.
(** [CS && AA.onlyReadsMemory(CS)] for an instruction. *)
Variable onlyReadsMemoryCall : Value → bool.
(** [dyn_cast<LoadInst>] on a pointer, with [MemoryLocation::get] of the
    load when it succeeds. *)
Variable asLoadInst : Value → option MemoryLocation.

Variable DefUse : DefUseSet.
(** [LS.getOut()], [LatchDF->getOut()] and [ExitDF->getOut()]. *)
Variable LiveOut : LocationDFValue.
Variable LatchDefs ExitingDefs : DefinitionInfo.
Variable Deps : DependenceMap.

(** What [resolveAccesses] conjoins into the traits of [Loc]. *)
Definition accessTrait (Loc : MemoryLocation) (Base : EstimateMemory)
  : BitMemoryTrait.Id :=
  if negb (hasUse DefUse Loc) then
    if negb (overlap LiveOut Loc) then
      BitMemoryTrait.Private &' SharedTrait Deps Base
    else if hasDef DefUse Loc then
      BitMemoryTrait.LastPrivate &' SharedTrait Deps Base
    else if contain (MustReach LatchDefs) Loc &&
            negb (overlap (MayReach ExitingDefs) Loc) then
      BitMemoryTrait.SecondToLastPrivate &' BitMemoryTrait.FirstPrivate
        &' SharedTrait Deps Base
    else
      BitMemoryTrait.DynamicPrivate &' BitMemoryTrait.FirstPrivate
        &' SharedTrait Deps Base
  else if hasMayDef DefUse Loc || hasDef DefUse Loc then DefTrait Deps Base
  else BitMemoryTrait.Readonly.

(** The registration of [Base] at its first visit: a new list node with a
    default trait at the front of the list of its alias node. *)
Definition registerAccess (Base : EstimateMemory) (st : PassState)
  : option (nat * PassState) :=
  match ExplicitAccesses st !! emId Base with
  | Some cell => Some (cell, st)
  | None =>
      '(TL, UL) ← NodeTraits st !! getAliasNode mAliasTree Base;
      let cell := length (traits st) in
      Some (cell,
            mkPassState (traits st ++ [BitMemoryTrait.default])
              (<[emId Base := cell]> (ExplicitAccesses st))
              (ExplicitUnknowns st)
              (<[getAliasNode mAliasTree Base := ((Base, cell) :: TL, UL)]>
                 (NodeTraits st)))
  end.

(** The body of the first loop of [resolveAccesses]. *)
Definition resolveAccess (Loc : MemoryLocation) (st : PassState)
  : option PassState :=
  let Base := find mAliasTree Loc in
  '(cell, st) ← registerAccess Base st;
  CurrTraits ← traits st !! cell;
  Some (setTraits st (<[cell := CurrTraits &' accessTrait Loc Base]> (traits st))).

(** The body of the second loop of [resolveAccesses]. *)
Definition resolveUnknown (Unknown : Value) (st : PassState)
  : option PassState :=
  let N := findUnknown mAliasTree Unknown in
  '(TL, UL) ← NodeTraits st !! N;
  let TID := if onlyReadsMemoryCall Unknown then BitMemoryTrait.Readonly
             else BitMemoryTrait.Dependency in
  let cell := length (traits st) in
  Some (mkPassState (traits st ++ [TID])
          (ExplicitAccesses st)
          (match ExplicitUnknowns st !! Unknown with
           | Some _ => ExplicitUnknowns st
           | None => <[Unknown := (N, cell)]> (ExplicitUnknowns st)
           end)
          (<[N := (TL, (Unknown, cell) :: UL)]> (NodeTraits st))).

Definition resolveAccesses (st : PassState) : option PassState :=
  st ← forEach resolveAccess (getExplicitAccesses DefUse) st;
  forEach resolveUnknown (getExplicitUnknowns DefUse) st.

(** ** Pointer resolver *)

(** The first test of [resolvePointers]: the traits need no refinement. *)
Definition pointerTraitResolved (T : BitMemoryTrait.Id) : bool :=
  bool_decide (BitMemoryTrait.dropSharedFlag (BitMemoryTrait.dropUnitFlag T)
               = BitMemoryTrait.Private) ||
  bool_decide (BitMemoryTrait.dropUnitFlag T = BitMemoryTrait.Readonly) ||
  bool_decide (BitMemoryTrait.dropUnitFlag T = BitMemoryTrait.Shared).

(** The body of the loop of [resolvePointers]. *)
Definition resolvePointer (Loc : MemoryLocation) (st : PassState)
  : option PassState :=
  match asLoadInst (Ptr Loc) with
  | None => Some st
  | Some LI =>
      let EM := find mAliasTree Loc in
      LocTraits ← ExplicitAccesses st !! emId EM;
      T ← traits st !! LocTraits;
      if pointerTraitResolved T then Some st
      else
        let Ptr := find mAliasTree LI in
        PtrTraits ← ExplicitAccesses st !! emId Ptr;
        PT ← traits st !! PtrTraits;
        if bool_decide (BitMemoryTrait.dropUnitFlag PT = BitMemoryTrait.Readonly)
        then Some st
        else Some (setTraits st
                     (<[LocTraits := T &' BitMemoryTrait.Dependency]> (traits st)))
  end.

Definition resolvePointers (st : PassState) : option PassState :=
  forEach resolvePointer (getExplicitAccesses DefUse) st.

End Resolvers.

(** ** Descriptors of the results *)

Module trait.

(** The traits a descriptor of the results can hold. *)
Inductive Id : Type :=
| NoAccess | Readonly | Shared | Private | FirstPrivate
| SecondToLastPrivate | LastPrivate | DynamicPrivate
| AddressAccess | HeaderAccess | ExplicitAccess
| Dep (k : DepKind).

#[global] Instance Id_eq_dec : EqDecision Id.
Proof. solve_decision. Defined.

Definition code (t : Id) : nat :=
  match t with
  | NoAccess => 0 | Readonly => 1 | Shared => 2 | Private => 3
  | FirstPrivate => 4 | SecondToLastPrivate => 5 | LastPrivate => 6
  | DynamicPrivate => 7 | AddressAccess => 8 | HeaderAccess => 9
  | ExplicitAccess => 10 | Dep Flow => 11 | Dep Anti => 12 | Dep Output => 13
  end.

Definition decode (n : nat) : Id :=
  match n with
  | 0 => NoAccess | 1 => Readonly | 2 => Shared | 3 => Private
  | 4 => FirstPrivate | 5 => SecondToLastPrivate | 6 => LastPrivate
  | 7 => DynamicPrivate | 8 => AddressAccess | 9 => HeaderAccess
  | 10 => ExplicitAccess | 11 => Dep Flow | 12 => Dep Anti | _ => Dep Output
  end.

#[global] Instance Id_countable : Countable Id.
Proof.
  refine (inj_countable' code decode _).
  intros [| | | | | | | | | | |[]]; reflexivity.
Defined.

End trait.

(** Modelled from the spec: MemoryDescriptor (a [bcl::TraitDescriptor]) and
    the operations [is], [set] and [unset] on it are not among the sources;
    the spec describes a descriptor as a set of trait bits, so [is] is
    membership, [set] adds traits and [unset] removes them. *)
Abbreviation MemoryDescriptor := (gset trait.Id).

(** The three traits of [DependenceImp::Descriptor] in a memory descriptor. *)
Definition depTraits : MemoryDescriptor :=
  {[trait.Dep Flow; trait.Dep Anti; trait.Dep Output]}.

(** [bcl::trait::unset<DependenceImp::Descriptor>]. *)
Definition unsetDeps (Dptr : MemoryDescriptor) : MemoryDescriptor :=
  Dptr ∖ depTraits.

(** The kinds of dependence set in a memory descriptor. *)
Definition depKindsOf (Dptr : MemoryDescriptor) : DependenceImp.Descriptor :=
  filter (λ k, trait.Dep k ∈ Dptr) (list_to_set allDepKinds).

(** [bcl::trait::set(From, To)] into a [DependenceImp::Descriptor]: the
    kinds of dependence set in [From] are set in [To]. *)
Definition setFromMemory (From : MemoryDescriptor)
    (To : DependenceImp.Descriptor) : DependenceImp.Descriptor :=
  To ∪ depKindsOf From.

(** [bcl::trait::set(From, To)] from a [DependenceImp::Descriptor]. *)
Definition setFromDeps (From : DependenceImp.Descriptor)
    (To : MemoryDescriptor) : MemoryDescriptor :=
  To ∪ set_map trait.Dep From.

(** [EstimateMemoryTrait]: a descriptor of an estimate memory, with the
    dependence stored for each kind that has one. *)
Record EstimateMemoryTrait : Type := mkEstimateMemoryTrait {
  emtMemory : EstimateMemory;
  emtDptr : MemoryDescriptor;
  emtDeps : Tagged (option IRDependence)
}.

Record UnknownMemoryTrait : Type := mkUnknownMemoryTrait {
  umtMemory : Value;
  umtDptr : MemoryDescriptor
}.

(** [AliasTrait]: the descriptor of an alias node, the traits of its
    estimate memory (what a range-based for visits) and of its unknown
    memory, both keyed by the memory. *)
Record AliasTrait : Type := mkAliasTrait {
  atDptr : MemoryDescriptor;
  atAccesses : gmap positive EstimateMemoryTrait;
  atUnknowns : gmap positive UnknownMemoryTrait
}.

(** [DependencySet]: the trait of each alias node that has one. *)
Abbreviation DependencySet := (gmap positive AliasTrait).

(** [insert] of a set keyed by the memory: an element that is already there
    is kept. *)
Definition insertIfAbsent {V : Type} (k : positive) (v : V) (m : gmap positive V)
  : gmap positive V :=
  match m !! k with Some _ => m | None => <[k := v]> m end.

(** [set<Trait>(new IRDependence(...))] on the traits of a memory. *)
Definition setDependence (k : DepKind) (D : IRDependence)
    (T : EstimateMemoryTrait) : EstimateMemoryTrait :=
  mkEstimateMemoryTrait (emtMemory T) ({[trait.Dep k]} ∪ emtDptr T)
    (tset k (Some D) (emtDeps T)).

(** ** First-private refiner *)

(** [df_begin(EM)] to [df_end(EM)]: the node, then the subtrees of its
    children. *)
Fixpoint df (EM : EstimateMemory) : list EstimateMemory :=
  match EM with
  | mkEM _ _ _ _ children => EM :: flat_map df children
  end.

(** The lambda [isAmbiguousCover] of [checkFirstPrivate]. *)
Definition isAmbiguousCover (Reach : LocationDFValue) (EM : EstimateMemory)
  : bool :=
  forallb (λ Ptr, contain Reach (mkMemoryLocation Ptr (getSize EM) (getAAInfo EM)))
    (emPtrs EM).

Section FirstPrivate.

Variable LatchDefs ExitingDefs : DefinitionInfo.
(** [cover] of MemoryCoverage.h, which is not among the sources, applied to
    the alias tree and its numbering: whether the locations of the range
    cover [EM]. *)
Variable cover : EstimateMemory → list EstimateMemory → bool.

(** Whether the loop of [checkFirstPrivate] pushes [Descendant]. *)
Definition isDefLeaf (Dptr : MemoryDescriptor) (Descendant : EstimateMemory)
  : bool :=
  if negb (isLeaf Descendant) then false
  else if bool_decide (trait.LastPrivate ∈ Dptr) then
    isAmbiguousCover (MustReach ExitingDefs) Descendant
  else if bool_decide (trait.SecondToLastPrivate ∈ Dptr) then
    isAmbiguousCover (MustReach LatchDefs) Descendant ||
    isAmbiguousCover (MustReach ExitingDefs) Descendant
  else true.

Definition DefLeafs (Dptr : MemoryDescriptor) (EM : EstimateMemory)
  : list EstimateMemory :=
  filter (λ D, isDefLeaf Dptr D = true) (df EM).

(** [checkFirstPrivate]: the traits of the list node [TraitItr] and the
    descriptor [Dptr] are updated. *)
Definition checkFirstPrivate (TraitItr : EstimateMemory * nat)
    (Dptr : MemoryDescriptor) (mem : list BitMemoryTrait.Id)
  : option (list BitMemoryTrait.Id * MemoryDescriptor) :=
  if bool_decide (trait.FirstPrivate ∈ Dptr) ||
     (bool_decide (trait.LastPrivate ∉ Dptr) &&
      bool_decide (trait.SecondToLastPrivate ∉ Dptr))
  then Some (mem, Dptr)
  else if cover TraitItr.1 (DefLeafs Dptr TraitItr.1) then Some (mem, Dptr)
  else
    T ← mem !! TraitItr.2;
    Some (<[TraitItr.2 := T &' BitMemoryTrait.FirstPrivate]> mem,
          {[trait.FirstPrivate]} ∪ Dptr).

End FirstPrivate.

(** ** Results of an alias node *)

(** The local state of [storeResults] when a node has several locations:
    the store of the traits, [*NodeTraitItr], [CombinedTrait] and
    [CombinedDepDptr]. *)
Record StoreState : Type := mkStoreState {
  stTraits : list BitMemoryTrait.Id;
  stNode : AliasTrait;
  stCombinedTrait : BitMemoryTrait.Id;
  stCombinedDepDptr : DependenceImp.Descriptor
}.

(** The last update of [CombinedTrait]. *)
Definition combineTrait (CombinedTrait : BitMemoryTrait.Id) : BitMemoryTrait.Id :=
  CombinedTrait &'
    (if bool_decide (BitMemoryTrait.dropUnitFlag CombinedTrait = BitMemoryTrait.Readonly)
     then BitMemoryTrait.Readonly
     else if bool_decide (BitMemoryTrait.dropUnitFlag CombinedTrait = BitMemoryTrait.Shared)
     then BitMemoryTrait.Shared
     else BitMemoryTrait.Dependency).

Section StoreResults.

Variable mAliasTree : AliasTree.
(** [BitMemoryTrait::toDescriptor] of BitMemoryTrait.cpp, which is not among
    the sources; the statistic it counts is left out. *)
Variable toDescriptor : BitMemoryTrait.Id → MemoryDescriptor.
Variable LatchDefs ExitingDefs : DefinitionInfo.
Variable cover : EstimateMemory → list EstimateMemory → bool.

Variable N : positive.
Variable ExplicitAccesses : gmap positive nat.
Variable ExplicitUnknowns : gmap positive (positive * nat).
Variable Deps : DependenceMap.

(** The lambda [storeDepIfNeed], on the traits [EMTraitItr] points to. *)
Definition storeDepIfNeed (EM : EstimateMemory) (T : EstimateMemoryTrait)
  : option EstimateMemoryTrait :=
  Dep ← Deps !! emId EM;
  Some (foldl (λ T k, setDependence k (DependenceImp.SummarizeFunctor_call k Dep) T)
          T (for_each_kind (DependenceImp.mDptr Dep))).

(** The test that sets [trait::ExplicitAccess] for an estimate memory. *)
Definition isExplicitAccess (mem : list BitMemoryTrait.Id) (EM : EstimateMemory)
  : option bool :=
  match ExplicitAccesses !! emId EM with
  | None => Some false
  | Some cell =>
      T ← mem !! cell;
      Some (bool_decide (BitMemoryTrait.dropUnitFlag T ≠ BitMemoryTrait.NoAccess)
            && bool_decide (getAliasNode mAliasTree EM = N))
  end.

(** The same test for an unknown memory. *)
Definition isExplicitUnknown (mem : list BitMemoryTrait.Id) (U : Value)
  : option bool :=
  match ExplicitUnknowns !! U with
  | None => Some false
  | Some (Node, cell) =>
      T ← mem !! cell;
      Some (bool_decide (BitMemoryTrait.dropUnitFlag T ≠ BitMemoryTrait.NoAccess)
            && bool_decide (Node = N))
  end.

Definition setExplicit (b : bool) (Dptr : MemoryDescriptor) : MemoryDescriptor :=
  if b then {[trait.ExplicitAccess]} ∪ Dptr else Dptr.

Definition noDeps : Tagged (option IRDependence) := mkTagged None None None.

(** The body of the loop over the estimate memory of the node. *)
Definition storeMemory (EMI : EstimateMemory * nat) (st : StoreState)
  : option StoreState :=
  T ← stTraits st !! EMI.2;
  let CombinedTrait := stCombinedTrait st &' T in
  '(mem, Dptr) ← checkFirstPrivate LatchDefs ExitingDefs cover EMI
                    (toDescriptor T) (stTraits st);
  explicit ← isExplicitAccess mem EMI.1;
  let NodeDptr := setExplicit explicit (atDptr (stNode st)) in
  let Dptr := unsetDeps (setExplicit explicit Dptr) in
  let Accesses :=
    insertIfAbsent (emId EMI.1) (mkEstimateMemoryTrait EMI.1 Dptr noDeps)
      (atAccesses (stNode st)) in
  T' ← mem !! EMI.2;
  if bool_decide (BitMemoryTrait.dropUnitFlag T' = BitMemoryTrait.Dependency)
  then
    EMTrait ← Accesses !! emId EMI.1;
    EMTrait ← storeDepIfNeed EMI.1 EMTrait;
    Some (mkStoreState mem
            (mkAliasTrait NodeDptr (<[emId EMI.1 := EMTrait]> Accesses)
               (atUnknowns (stNode st)))
            CombinedTrait
            (setFromMemory (emtDptr EMTrait) (stCombinedDepDptr st)))
  else
    Some (mkStoreState mem
            (mkAliasTrait NodeDptr Accesses (atUnknowns (stNode st)))
            CombinedTrait (stCombinedDepDptr st)).

(** The body of the loop over the unknown memory of the node. *)
Definition storeUnknown (U : Value * nat) (st : StoreState)
  : option StoreState :=
  T ← stTraits st !! U.2;
  let CombinedTrait := stCombinedTrait st &' T in
  explicit ← isExplicitUnknown (stTraits st) U.1;
  let NodeDptr := setExplicit explicit (atDptr (stNode st)) in
  let Dptr := setExplicit explicit (toDescriptor T) in
  let CombinedDepDptr :=
    if bool_decide (BitMemoryTrait.dropUnitFlag T = BitMemoryTrait.Dependency)
    then stCombinedDepDptr st ∪ list_to_set allDepKinds
    else stCombinedDepDptr st in
  Some (mkStoreState (stTraits st)
          (mkAliasTrait NodeDptr (atAccesses (stNode st))
             (insertIfAbsent U.1 (mkUnknownMemoryTrait U.1 Dptr)
                (atUnknowns (stNode st))))
          CombinedTrait CombinedDepDptr).

(** Both loops, from a new trait of the node. *)
Definition storeLoops (Traits : TraitList * UnknownList)
    (mem : list BitMemoryTrait.Id) : option StoreState :=
  st ← forEach storeMemory Traits.1
         (mkStoreState mem (mkAliasTrait ∅ ∅ ∅) BitMemoryTrait.default ∅);
  forEach storeUnknown Traits.2 st.

(** The end of [storeResults]: the descriptor of the node is replaced by the
    one of the combined trait, and the kinds of dependence of the node are
    set for every estimate memory of the node. *)
Definition storeCombined (st : StoreState) : AliasTrait :=
  let CombinedTrait := combineTrait (stCombinedTrait st) in
  let Dptr :=
    setFromDeps (stCombinedDepDptr st) (unsetDeps (toDescriptor CombinedTrait)) in
  mkAliasTrait
    (if bool_decide (trait.ExplicitAccess ∈ atDptr (stNode st))
     then {[trait.ExplicitAccess]} ∪ Dptr else Dptr)
    ((λ T, mkEstimateMemoryTrait (emtMemory T)
             (setFromDeps (stCombinedDepDptr st) (emtDptr T)) (emtDeps T))
       <$> atAccesses (stNode st))
    (atUnknowns (stNode st)).

(** The case of a node with one estimate memory and no unknown memory. *)
Definition storeSingle (EMI : EstimateMemory * nat)
    (mem : list BitMemoryTrait.Id)
  : option (list BitMemoryTrait.Id * AliasTrait) :=
  T ← mem !! EMI.2;
  '(mem, Dptr) ← checkFirstPrivate LatchDefs ExitingDefs cover EMI
                    (toDescriptor T) mem;
  explicit ← isExplicitAccess mem EMI.1;
  let Dptr := unsetDeps (setExplicit explicit Dptr) in
  let EMTrait := mkEstimateMemoryTrait EMI.1 Dptr noDeps in
  T' ← mem !! EMI.2;
  if bool_decide (BitMemoryTrait.dropUnitFlag T' = BitMemoryTrait.Dependency)
  then
    EMTrait ← storeDepIfNeed EMI.1 EMTrait;
    Some (mem, mkAliasTrait (emtDptr EMTrait) {[emId EMI.1 := EMTrait]} ∅)
  else Some (mem, mkAliasTrait Dptr {[emId EMI.1 := EMTrait]} ∅).

(** [storeResults] for the node [N]; the results must not be stored yet. *)
Definition storeResults (Traits : TraitList * UnknownList)
    (mem : list BitMemoryTrait.Id) (DS : DependencySet)
  : option (list BitMemoryTrait.Id * DependencySet) :=
  match DS !! N with
  | Some _ => None
  | None =>
      match Traits with
      | ([], []) => Some (mem, DS)
      | ([EMI], []) =>
          '(mem, Node) ← storeSingle EMI mem;
          Some (mem, <[N := Node]> DS)
      | _ =>
          st ← storeLoops Traits mem;
          Some (stTraits st, <[N := storeCombined st]> DS)
      end
  end.

End StoreResults.

(** ** Coverage closure *)

(** [df_begin(&Child)] to [df_end(&Child)] in the alias tree. *)
Fixpoint dfNodes (Node : AliasNode) : list AliasNode :=
  match Node with
  | mkAliasNode _ children => Node :: flat_map dfNodes children
  end.

(** The body of the innermost loop at the end of [propagateTraits]. *)
Definition closeDescendant (DS : DependencySet) (Descendant : AliasNode)
  : DependencySet :=
  match DS !! anId Descendant with
  | Some Itr =>
      if bool_decide (trait.NoAccess ∉ atDptr Itr)
      then <[anId Descendant :=
               mkAliasTrait (depTraits ∪ atDptr Itr) (atAccesses Itr)
                 (atUnknowns Itr)]> DS
      else DS
  | None => DS
  end.

(** The loops over the nodes of [Coverage], their children and the
    descendants of each child. *)
Definition closeCoverage (Coverage : list AliasNode) (DS : DependencySet)
  : DependencySet :=
  foldl (λ DS Node,
           foldl (λ DS Child, foldl closeDescendant DS (dfNodes Child))
             DS (anChildren Node))
    DS Coverage.

Section Propagate.

(** [explicitAccessCoverage] of MemoryCoverage.h, which is not among the
    sources: the nodes whose descendants are covered by explicitly accessed
    memory. *)
Variable explicitAccessCoverage : DependencySet → list AliasNode.

(** The end of [propagateTraits], after the walk of the alias tree has
    stored the results of every node in [DS]. *)
Definition propagateCoverage (DS : DependencySet) : DependencySet :=
  closeCoverage (explicitAccessCoverage DS) DS.

End Propagate.

(** ** Vocabulary of the statements *)

(** An outer direction that lets [insertDependence] go on. *)
Definition outerDirectionKept (Dir : llvm.DVEntry) : Prop :=
  Dir = llvm.EQ ∨ Dir = llvm.ALL ∨ Dir = llvm.LE ∨ Dir = llvm.GE.

(** The dependence is dropped: some loop level that strictly encloses the
    loop has a direction that is not kept, or the direction at the level of
    the loop is EQ. *)
Definition dependenceDropped (Dep : llvm.Dependence) (LoopDepth : nat) : Prop :=
  (∃ d, 1 ≤ d < LoopDepth ∧ ¬ outerDirectionKept (llvm.getDirection Dep d)) ∨
  llvm.getDirection Dep LoopDepth = llvm.EQ.

(** An input dependence: neither a flow, nor an anti, nor an output one. *)
Definition inputDependence (Dep : llvm.Dependence) : Prop :=
  llvm.isAnti Dep = false ∧ llvm.isFlow Dep = false ∧ llvm.isOutput Dep = false.

(** The same with every enclosing level in place of some. *)
Definition droppedAtEveryOuterLevel (Dep : llvm.Dependence) (LoopDepth : nat)
  : Prop :=
  (∀ d, 1 ≤ d < LoopDepth → ¬ outerDirectionKept (llvm.getDirection Dep d)) ∨
  llvm.getDirection Dep LoopDepth = llvm.EQ.

(** A forward direction. *)
Definition forwardDirection (Dir : llvm.DVEntry) : Prop :=
  Dir = llvm.LT ∨ Dir = llvm.LE.

(** [Rec] records the kinds [K] with the flag [F]. *)
Definition recordsKinds (Rec : DependenceImp.t) (K : DependenceImp.Descriptor)
    (F : Dependence.Flag) : Prop :=
  K ⊆ DependenceImp.mDptr Rec ∧
  ∀ k, k ∈ K → Z.land (tget k (DependenceImp.mFlags Rec)) F ≠ 0%Z.

(** The traits that [resolvePointers] leaves alone: Private (whatever the
    shared-join flag), Readonly or Shared, whatever the unit flags. *)
Definition traitResolved (T : BitMemoryTrait.Id) : Prop :=
  BitMemoryTrait.dropSharedFlag (BitMemoryTrait.dropUnitFlag T)
    = BitMemoryTrait.Private ∨
  BitMemoryTrait.dropUnitFlag T = BitMemoryTrait.Readonly ∨
  BitMemoryTrait.dropUnitFlag T = BitMemoryTrait.Shared.

(** The traits of [Base] before a visit of [resolveAccesses]: the ones it
    has, or the default ones of a new list node. *)
Definition traitsBefore (st : PassState) (Base : EstimateMemory)
    (Old : BitMemoryTrait.Id) : Prop :=
  match ExplicitAccesses st !! emId Base with
  | Some cell => traits st !! cell = Some Old
  | None => Old = BitMemoryTrait.default
  end.

(** A state in which [Base] can be visited: its traits, if it has some, are
    in the store, and its alias node has its lists. *)
Definition visitable (mAliasTree : AliasTree) (st : PassState)
    (Base : EstimateMemory) : Prop :=
  match ExplicitAccesses st !! emId Base with
  | Some cell => cell < length (traits st)
  | None => is_Some (NodeTraits st !! getAliasNode mAliasTree Base)
  end.

(** [D] is a strict descendant of [Node] in the alias tree. *)
Inductive StrictDescendant : AliasNode → AliasNode → Prop :=
| descendant_child Node Child :
    Child ∈ anChildren Node → StrictDescendant Node Child
| descendant_below Node Child D :
    Child ∈ anChildren Node → StrictDescendant Child D →
    StrictDescendant Node D.

(** The closure may add the three kinds of dependence to the descriptor of a
    node, and changes nothing else. *)
Definition onlyAddsDependence (Itr Itr' : AliasTrait) : Prop :=
  atDptr Itr ⊆ atDptr Itr' ∧
  atDptr Itr' ⊆ atDptr Itr ∪ depTraits ∧
  atAccesses Itr' = atAccesses Itr ∧
  atUnknowns Itr' = atUnknowns Itr.

(** The lists of a node for which [storeResults] combines the traits:
    several estimate memory locations, or some unknown memory. *)
Definition severalLocations (Traits : TraitList * UnknownList) : Prop :=
  match Traits with
  | ([], []) | ([_], []) => False
  | _ => True
  end.

(** The addresses of the traits of the list nodes of a node. *)
Definition traitCells (Traits : TraitList * UnknownList) : list nat :=
  Traits.1.*2 ++ Traits.2.*2.

(** The conjunction of a list of traits, from the default trait. *)
Definition conjAll (Ts : list BitMemoryTrait.Id) : BitMemoryTrait.Id :=
  foldl BitMemoryTrait.conj BitMemoryTrait.default Ts.

(** In [st] every estimate memory of the node has its kinds of dependence
    among the combined ones. *)
Definition kindsCombined (st : StoreState) : Prop :=
  ∀ id T, atAccesses (stNode st) !! id = Some T →
          depKindsOf (emtDptr T) ⊆ stCombinedDepDptr st.

(** The lists of a node can be stored: the traits of their nodes and the
    traits that the maps of explicit accesses point to are in the store, and
    an estimate memory whose traits are Dependency, before or after
    FirstPrivate is conjoined into them, has a dependence record. *)
Definition storable (ExplicitAccesses : gmap positive nat)
    (ExplicitUnknowns : gmap positive (positive * nat)) (Deps : DependenceMap)
    (Traits : TraitList * UnknownList) (mem : list BitMemoryTrait.Id) : Prop :=
  (∀ EMI, EMI ∈ Traits.1 →
     EMI.2 < length mem ∧
     (∀ c, ExplicitAccesses !! emId EMI.1 = Some c → c < length mem) ∧
     (∀ T, mem !! EMI.2 = Some T →
           BitMemoryTrait.dropUnitFlag T = BitMemoryTrait.Dependency ∨
           BitMemoryTrait.dropUnitFlag (T &' BitMemoryTrait.FirstPrivate)
             = BitMemoryTrait.Dependency →
           is_Some (Deps !! emId EMI.1))) ∧
  (∀ U, U ∈ Traits.2 →
     U.2 < length mem ∧
     (∀ n c, ExplicitUnknowns !! U.1 = Some (n, c) → c < length mem)).

(** ** Sample inputs *)

Module Sample.

(** An alias tree in which every location is an estimate memory of its own,
    in an alias node of its own. *)
Definition memoryOf (Loc : MemoryLocation) : EstimateMemory :=
  mkEM (Ptr Loc) [Ptr Loc] (Size Loc) (AATags Loc) [].

Definition tree : AliasTree := mkAliasTree memoryOf (λ U, U) emId.

Definition X : MemoryLocation := mkMemoryLocation 1%positive 4%N 0%N.
Definition Y : MemoryLocation := mkMemoryLocation 2%positive 4%N 0%N.

(** A flow dependence of a loop at depth 3 that the first enclosing loop
    carries forward. *)
Definition carriedOutside : llvm.Dependence :=
  llvm.mkDependence false true false
    (λ d, match d with 1 => llvm.LT | 2 => llvm.EQ | _ => llvm.LT end)
    (λ _, Some 1%positive).

(** A flow, an anti and an output dependence with one direction at every
    level. *)
Definition flowDep (Dir : llvm.DVEntry) : llvm.Dependence :=
  llvm.mkDependence false true false (λ _, Dir) (λ _, Some 1%positive).
Definition antiDep (Dir : llvm.DVEntry) : llvm.Dependence :=
  llvm.mkDependence false false true (λ _, Dir) (λ _, Some 1%positive).
Definition outputDep (Dir : llvm.DVEntry) : llvm.Dependence :=
  llvm.mkDependence true false false (λ _, Dir) (λ _, None).

(** An input dependence of a loop at depth 2: the enclosing loop has the
    direction EQ and the loop the direction LT. *)
Definition inputDep : llvm.Dependence :=
  llvm.mkDependence false false false
    (λ d, match d with 1 => llvm.EQ | _ => llvm.LT end) (λ _, None).

End Sample.

Module SampleLoop.

(** A loop that accesses a scalar [X] written before it is read in every
    iteration and dead after the loop, a scalar [Y] read before it is
    written, a pointer [P] that is only read, the location [Q] that [P]
    points to, written and live after the loop, a pointer [R] that is read
    and written, and the location [S] that [R] points to, written and live
    after the loop. *)
Definition X : MemoryLocation := mkMemoryLocation 1%positive 4%N 0%N.
Definition Y : MemoryLocation := mkMemoryLocation 2%positive 4%N 0%N.
Definition P : MemoryLocation := mkMemoryLocation 3%positive 8%N 0%N.
Definition Q : MemoryLocation := mkMemoryLocation 4%positive 4%N 0%N.
Definition R : MemoryLocation := mkMemoryLocation 5%positive 8%N 0%N.
Definition S : MemoryLocation := mkMemoryLocation 6%positive 4%N 0%N.

Definition isAt (ptrs : list positive) (Loc : MemoryLocation) : bool :=
  bool_decide (Ptr Loc ∈ ptrs).

Definition defUse : DefUseSet :=
  mkDefUseSet [X; Y; P; Q; R; S] []
    (isAt [2; 3; 5]%positive) (isAt [1; 2; 4; 5; 6]%positive) (isAt []).

Definition liveOut : LocationDFValue :=
  mkLocationDFValue (isAt [4; 6]%positive) (isAt [4; 6]%positive).

Definition noDefs : DefinitionInfo :=
  mkDefinitionInfo (mkLocationDFValue (isAt []) (isAt []))
                   (mkLocationDFValue (isAt []) (isAt [])).

(** The values 4 and 6 are loads of the pointers at 3 and 5. *)
Definition asLoadInst (V : Value) : option MemoryLocation :=
  if bool_decide (V = 4%positive) then Some P
  else if bool_decide (V = 6%positive) then Some R
  else None.

(** The state before [resolveAccesses]: every alias node has empty lists. *)
Definition start : PassState :=
  mkPassState [] ∅ ∅
    (list_to_map ((λ n, (n, ([], []))) <$> [1; 2; 3; 4; 5; 6]%positive)).

(** The dependence map of a loop in which only [Y] carries a dependence, and
    of one in which [X] does too. *)
Definition depsY : DependenceMap :=
  {[2%positive :=
      DependenceImp.update {[Flow]} Dependence.LoadStoreCause (Some 1%positive)
        DependenceImp.empty]}.

Definition depsXY : DependenceMap :=
  <[1%positive :=
      DependenceImp.update {[Output]} Dependence.LoadStoreCause None
        DependenceImp.empty]> depsY.

Definition resolved (Deps : DependenceMap) : option PassState :=
  st ← resolveAccesses Sample.tree (λ _, false) defUse liveOut noDefs noDefs
         Deps start;
  resolvePointers Sample.tree asLoadInst defUse st.

End SampleLoop.

(** The state of the sample loop after [resolveAccesses], when only [Y]
    carries a dependence. *)
Definition sampleAccessed : PassState :=
  default SampleLoop.start
    (resolveAccesses Sample.tree (λ _, false) SampleLoop.defUse
       SampleLoop.liveOut SampleLoop.noDefs SampleLoop.noDefs SampleLoop.depsY
       SampleLoop.start).

Module SampleTree.

(** An estimate memory [A] of two scalars [A0] and [A1]. *)
Definition A0 : EstimateMemory := mkEM 11 [11%positive] 4 0 [].
Definition A1 : EstimateMemory := mkEM 12 [12%positive] 4 0 [].
Definition A : EstimateMemory := mkEM 10 [10%positive] 8 0 [A0; A1].

(** The locations of the range cover a memory when every leaf below it is in
    the range. *)
Definition cover (EM : EstimateMemory) (Leafs : list EstimateMemory) : bool :=
  forallb (λ D, negb (isLeaf D) || bool_decide (emId D ∈ emId <$> Leafs)) (df EM).

(** Definitions that reach the exit of the loop: of both scalars, and of the
    first only. *)
Definition reach (ptrs : list positive) : DefinitionInfo :=
  mkDefinitionInfo
    (mkLocationDFValue (λ Loc, bool_decide (Ptr Loc ∈ ptrs))
                       (λ Loc, bool_decide (Ptr Loc ∈ ptrs)))
    (mkLocationDFValue (λ Loc, bool_decide (Ptr Loc ∈ ptrs))
                       (λ Loc, bool_decide (Ptr Loc ∈ ptrs))).

(** An alias tree: a root with the child [n2], which has the children [n3]
    and [n4]. *)
Definition n3 : AliasNode := mkAliasNode 3 [].
Definition n4 : AliasNode := mkAliasNode 4 [].
Definition n2 : AliasNode := mkAliasNode 2 [n3; n4].
Definition n1 : AliasNode := mkAliasNode 1 [n2].

(** Results in which [n3] is shared and [n4] is not accessed. *)
Definition results : DependencySet :=
  {[ 2%positive := mkAliasTrait {[trait.Readonly]} ∅ ∅;
     3%positive := mkAliasTrait {[trait.Shared; trait.ExplicitAccess]} ∅ ∅;
     4%positive := mkAliasTrait {[trait.NoAccess]} ∅ ∅ ]}.

End SampleTree.

Module SampleStore.

(** A conversion of traits to descriptors for the examples: the unit flags,
    then NoAccess, Readonly or Shared, or else the shared-join flag and the
    kind of privatization, or the three kinds of dependence. *)
Definition toDescriptor (T : BitMemoryTrait.Id) : MemoryDescriptor :=
  (if Z.testbit T 7 then ∅ else {[trait.AddressAccess]}) ∪
  (if Z.testbit T 8 then ∅ else {[trait.HeaderAccess]}) ∪
  (let U := BitMemoryTrait.dropUnitFlag T in
   if bool_decide (U = BitMemoryTrait.NoAccess) then {[trait.NoAccess]}
   else if bool_decide (U = BitMemoryTrait.Readonly) then {[trait.Readonly]}
   else if bool_decide (U = BitMemoryTrait.Shared) then {[trait.Shared]}
   else if bool_decide (U = BitMemoryTrait.Dependency) then depTraits
   else
     (if Z.testbit T 1 then ∅ else {[trait.Shared]}) ∪
     (let V := BitMemoryTrait.dropSharedFlag U in
      if bool_decide (V = BitMemoryTrait.Private) then {[trait.Private]}
      else if bool_decide (V = BitMemoryTrait.FirstPrivate)
      then {[trait.FirstPrivate]}
      else if bool_decide (V = BitMemoryTrait.LastPrivate)
      then {[trait.LastPrivate]}
      else if bool_decide (V = BitMemoryTrait.SecondToLastPrivate)
      then {[trait.SecondToLastPrivate]}
      else if bool_decide (V = BitMemoryTrait.DynamicPrivate)
      then {[trait.DynamicPrivate]}
      else if bool_decide (V = BitMemoryTrait.LastPrivate &' BitMemoryTrait.FirstPrivate)
      then {[trait.LastPrivate; trait.FirstPrivate]}
      else if bool_decide (V = BitMemoryTrait.SecondToLastPrivate
                               &' BitMemoryTrait.FirstPrivate)
      then {[trait.SecondToLastPrivate; trait.FirstPrivate]}
      else if bool_decide (V = BitMemoryTrait.DynamicPrivate
                               &' BitMemoryTrait.FirstPrivate)
      then {[trait.DynamicPrivate; trait.FirstPrivate]}
      else depTraits)).

(** Two estimate memory locations [B] and [C] of one alias node. *)
Definition B : EstimateMemory := mkEM 21 [21%positive] 4 0 [].
Definition C : EstimateMemory := mkEM 22 [22%positive] 4 0 [].

Definition tree : AliasTree := mkAliasTree Sample.memoryOf (λ U, U) (λ _, 7%positive).

(** [storeResults] for the node 7 that holds [B] and [C] with the given
    traits, both accessed explicitly, and the unknown memory [Unknowns]. *)
Definition store (TB TC : BitMemoryTrait.Id) (Unknowns : list BitMemoryTrait.Id)
    (Deps : DependenceMap)
  : option (list BitMemoryTrait.Id * DependencySet) :=
  storeResults tree toDescriptor (SampleTree.reach []) (SampleTree.reach [])
    SampleTree.cover 7 {[21%positive := 0; 22%positive := 1]} ∅ Deps
    ([(B, 0); (C, 1)], imap (λ i _, (Pos.of_nat (30 + i), 2 + i)) Unknowns)
    ([TB; TC] ++ Unknowns) ∅.

(** A record of a flow dependence of [B], and one of an anti dependence of
    [C]. *)
Definition deps : DependenceMap :=
  {[21%positive :=
      DependenceImp.update {[Flow]} Dependence.LoadStoreCause (Some 1%positive)
        DependenceImp.empty;
    22%positive :=
      DependenceImp.update {[Anti]} Dependence.LoadStoreCause None
        DependenceImp.empty]}.

End SampleStore.

(** ** Vocabulary of the further statements *)

(** The flag that an UpdateFunctor stores for a distance [Dist]. *)
Definition storedFlag (F : Dependence.Flag) (Dist : option SCEV)
  : Dependence.Flag :=
  match Dist with
  | None => Z.lor F Dependence.UnknownDistance
  | Some _ => F
  end.

(** A kind of the descriptor whose distance is known stores a distance. *)
Definition Summarizable (Dep : DependenceImp.t) : Prop :=
  ∀ k, k ∈ DependenceImp.mDptr Dep →
       Dependence.hasUnknownDistance (tget k (DependenceImp.mFlags Dep)) = false →
       tget k (DependenceImp.mDists Dep) ≠ ∅.

(** The records that updates build from a new record, where a record is
    merged only from a record built in this way. *)
Inductive Built : DependenceImp.t → Prop :=
| built_empty : Built DependenceImp.empty
| built_update Dptr F Dist Dep :
    Built Dep → Built (DependenceImp.update Dptr F Dist Dep)
| built_merge Src Dep :
    Built Src → Built Dep → Built (DependenceImp.updateFrom Src Dep).


(** What an operation on a record contributes: the kinds it visits, the flag
    it joins to a kind, and the distances it offers to a kind. *)
Definition opDptr (o : DependenceImp.Op) : DependenceImp.Descriptor :=
  match o with
  | DependenceImp.OpUpdate Dptr _ _ => Dptr
  | DependenceImp.OpMerge Src => DependenceImp.mDptr Src
  end.

Definition opFlag (o : DependenceImp.Op) (k : DepKind) : Dependence.Flag :=
  match o with
  | DependenceImp.OpUpdate _ F Dist => storedFlag F Dist
  | DependenceImp.OpMerge Src => tget k (DependenceImp.mFlags Src)
  end.

Definition opDists (o : DependenceImp.Op) (k : DepKind)
  : DependenceImp.Distances :=
  match o with
  | DependenceImp.OpUpdate _ _ (Some D) => {[D]}
  | DependenceImp.OpUpdate _ _ None => ∅
  | DependenceImp.OpMerge Src => tget k (DependenceImp.mDists Src)
  end.

(** Every bit of [F] is a bit of [F']. *)
Definition flagsIncluded (F F' : Dependence.Flag) : Prop := Z.land F F' = F.


(** ** Merge of dependence records *)

(** [mergeDependence]: a record stored for [From] is merged into the record
    of [To], which is created on first use; with no record for [From], the
    record of [To] is created only when [ToTrait] is Dependency whatever its
    unit flags. *)
Definition mergeDependence (To : EstimateMemory) (ToTrait : BitMemoryTrait.Id)
    (From : EstimateMemory) (Deps : DependenceMap) : DependenceMap :=
  match Deps !! emId From with
  | Some FromDep =>
      let Dep := default DependenceImp.empty (Deps !! emId To) in
      <[emId To := DependenceImp.updateFrom FromDep Dep]> Deps
  | None =>
      if bool_decide (BitMemoryTrait.dropUnitFlag ToTrait
                      ≠ BitMemoryTrait.Dependency)
      then Deps
      else <[emId To := default DependenceImp.empty (Deps !! emId To)]> Deps
  end.

(** ** The instructions of a loop *)

(** [AccessInfo]: how an instruction accesses a location. *)
Inductive AccessInfo : Type := AccessNo | AccessMay | AccessMust.

Definition isAccessNo (A : AccessInfo) : bool :=
  match A with AccessNo => true | _ => false end.

(** The class of an instruction: a load or a store with [isUnordered()] and
    the location [MemoryLocation::get] gives for it, or another one. *)
Inductive InstKind : Type :=
| LoadInst (isUnordered : bool) (Loc : MemoryLocation)
| StoreInst (isUnordered : bool) (Loc : MemoryLocation)
| OtherInst.

(** What the pass reads of an instruction: [isMemoryMarker] is a
    memory-marker intrinsic, [isCallSite] a non-null [ImmutableCallSite],
    [instMemory] the locations [for_each_memory] passes to its first
    function, with the read and the write access. *)
Record Instruction : Type := mkInstruction {
  instValue : Value;
  instKind : InstKind;
  mayReadOrWriteMemory : bool;
  isMemoryMarker : bool;
  isCallSite : bool;
  instMemory : list (MemoryLocation * AccessInfo * AccessInfo);
  instUnknownMemory : bool
}.

(** [getLoadOrStoreLocation]: [None] is the empty location, whose pointer is
    null. *)
Definition getLoadOrStoreLocation (I : Instruction) : option MemoryLocation :=
  match instKind I with
  | LoadInst true Loc => Some Loc
  | StoreInst true Loc => Some Loc
  | _ => None
  end.

(** The descriptor with Flow, Anti and Output set. *)
Definition allKinds : DependenceImp.Descriptor := {[Flow; Anti; Output]}.

Section CollectDependencies.

Variable mAliasTree : AliasTree.
(** [AA.getModRefInfo(I, Loc) == ModRefInfo::NoModRef]. *)
Variable isNoModRef : Instruction → MemoryLocation → bool.
(** [mDepInfo->depends(Src, Dst, true)], null when there is no dependence. *)
Variable depends : Instruction → Instruction → option llvm.Dependence.
(** [L->getLoopDepth()]. *)
Variable LoopDepth : nat.

(** The lambda [insertUnknownDep] of [collectDependencies]. *)
Definition insertUnknownDep (Src Dst : Instruction) (Flag : Dependence.Flag)
    (Deps : DependenceMap) (M : MemoryLocation * AccessInfo * AccessInfo)
  : DependenceMap :=
  let '(Loc, R, W) := M in
  if isAccessNo R && isAccessNo W then Deps
  else if isNoModRef Src Loc then Deps
  else if isNoModRef Dst Loc then Deps
  else updateDependence (find mAliasTree Loc) allKinds Flag None Deps.

(** The body of the inner loop for a source that is no load or store. *)
Definition collectUnknownPair (Src Dst : Instruction) (Deps : DependenceMap)
  : DependenceMap :=
  if negb (mayReadOrWriteMemory Dst) then Deps
  else if isMemoryMarker Dst then Deps
  else
    let Flag :=
      Z.lor (Z.lor Dependence.May Dependence.UnknownDistance)
            (if negb (isCallSite Src) && negb (isCallSite Dst)
             then Dependence.UnknownCause else Dependence.CallCause) in
    foldl (insertUnknownDep Src Dst Flag)
      (foldl (insertUnknownDep Src Dst Flag) Deps (instMemory Src))
      (instMemory Dst).

(** The body of the inner loop for a load or a store of [SrcLoc]. *)
Definition collectKnownPair (Src : Instruction) (SrcLoc : MemoryLocation)
    (Dst : Instruction) (Deps : DependenceMap) : DependenceMap :=
  match getLoadOrStoreLocation Dst with
  | None =>
      if negb (mayReadOrWriteMemory Dst) then Deps
      else if isMemoryMarker Dst then Deps
      else if isNoModRef Dst SrcLoc then Deps
      else
        let Flag :=
          Z.lor (Z.lor Dependence.May Dependence.UnknownDistance)
                (if negb (isCallSite Dst)
                 then Dependence.UnknownCause else Dependence.CallCause) in
        updateDependence (find mAliasTree SrcLoc) allKinds Flag None Deps
  | Some DstLoc =>
      collectLoadStorePair mAliasTree (depends Src Dst) SrcLoc DstLoc
        LoopDepth Deps
  end.

(** The body of the outer loop: [Dsts] are the instructions from the source
    to the end of the loop. *)
Definition collectSource (Src : Instruction) (Dsts : list Instruction)
    (Deps : DependenceMap) : DependenceMap :=
  if negb (mayReadOrWriteMemory Src) then Deps
  else
    match getLoadOrStoreLocation Src with
    | None =>
        if isMemoryMarker Src then Deps
        else foldl (λ D Dst, collectUnknownPair Src Dst D) Deps Dsts
    | Some SrcLoc =>
        foldl (λ D Dst, collectKnownPair Src SrcLoc Dst D) Deps Dsts
    end.

(** [collectDependencies] on the instructions of the blocks of the loop. *)
Fixpoint collectDependencies (LoopInsts : list Instruction)
    (Deps : DependenceMap) : DependenceMap :=
  match LoopInsts with
  | [] => Deps
  | Src :: rest =>
      collectDependencies rest (collectSource Src (Src :: rest) Deps)
  end.

End CollectDependencies.

(** Every record of the map is built from a new one by updates and merges. *)
Definition DepsBuilt (Deps : DependenceMap) : Prop :=
  map_Forall (λ _ Rec, Built Rec) Deps.

(** The map [Deps'] has a record wherever [Deps] has one, with at least its
    kinds and its flags. *)
Definition DepsGrow (Deps Deps' : DependenceMap) : Prop :=
  ∀ id Rec, Deps !! id = Some Rec →
    ∃ Rec', Deps' !! id = Some Rec' ∧
      DependenceImp.mDptr Rec ⊆ DependenceImp.mDptr Rec' ∧
      ∀ k, flagsIncluded (tget k (DependenceImp.mFlags Rec))
                         (tget k (DependenceImp.mFlags Rec')).


Module SampleInsts.

(** A loop that stores to [X], calls a function that may access any memory
    and loads [Y]; no dependence is reported between the store and the
    load. *)
Definition storeX : Instruction :=
  mkInstruction 10%positive (StoreInst true Sample.X) true false false
    [(Sample.X, AccessNo, AccessMust)] false.
Definition call : Instruction :=
  mkInstruction 11%positive OtherInst true false true [] true.
Definition loadY : Instruction :=
  mkInstruction 12%positive (LoadInst true Sample.Y) true false false
    [(Sample.Y, AccessMust, AccessNo)] false.

Definition isNoModRef (I : Instruction) (Loc : MemoryLocation) : bool := false.
Definition depends (Src Dst : Instruction) : option llvm.Dependence := None.

End SampleInsts.


(** ** Header accesses *)

Section HeaderAccesses.

Variable mAliasTree : AliasTree.

(** The first function that [collectHeaderAccesses] passes to
    [for_each_memory]. *)
Definition headerMemory (M : MemoryLocation * AccessInfo * AccessInfo)
    (st : PassState) : option PassState :=
  let '(Loc, R, W) := M in
  if isAccessNo R && isAccessNo W then Some st
  else
    let EM := find mAliasTree Loc in
    cell ← ExplicitAccesses st !! emId EM;
    T ← traits st !! cell;
    Some (setTraits st (<[cell := T &' BitMemoryTrait.HeaderAccess]> (traits st))).

(** The second function, called for an instruction that accesses unknown
    memory. *)
Definition headerUnknown (I : Instruction) (st : PassState)
  : option PassState :=
  '(_, cell) ← ExplicitUnknowns st !! instValue I;
  T ← traits st !! cell;
  Some (setTraits st (<[cell := T &' BitMemoryTrait.HeaderAccess]> (traits st))).

(** The body of the loop over the instructions of the header.  The two
    functions conjoin the same trait into traits, so the order of their
    calls does not show in the result. *)
Definition collectHeaderAccess (I : Instruction) (st : PassState)
  : option PassState :=
  if negb (mayReadOrWriteMemory I) then Some st
  else
    st ← forEach headerMemory (instMemory I) st;
    if instUnknownMemory I then headerUnknown I st else Some st.

(** [collectHeaderAccesses] on the instructions of the header of the loop. *)
Definition collectHeaderAccesses (Header : list Instruction) (st : PassState)
  : option PassState :=
  forEach collectHeaderAccess Header st.

End HeaderAccesses.

(** ** Address resolver *)

(** The first value of the top-level parent of an estimate memory: an
    alloca, declared in the loop or not, a global variable, or another
    value. *)
Inductive RootKind : Type :=
| RootAlloca (inLoop : bool)
| RootGlobal
| RootOther.

(** What [resolveAddresses] reads of a user of a pointer: it is an
    instruction of the loop, it is a ptrtoint, it is a store whose value
    operand is the pointer. *)
Record User : Type := mkUser {
  isLoopInstruction : bool;
  isPtrToInt : bool;
  storesPointer : bool
}.

(** The loop over the users of a pointer, [true] when it reaches its
    [break]. *)
Fixpoint addressRemembered (Users : list User) : bool :=
  match Users with
  | [] => false
  | U :: rest =>
      if negb (isLoopInstruction U) then addressRemembered rest
      else if isPtrToInt U || storesPointer U then true
      else addressRemembered rest
  end.

Section Addresses.

Variable mAliasTree : AliasTree.
(** [DefUse.getAddressAccesses()]. *)
Variable getAddressAccesses : list Value.
(** The class of [Base->getTopLevelParent()->front()]. *)
Variable rootKind : EstimateMemory → RootKind.
(** [Ptr->users()]. *)
Variable users : Value → list User.

(** The statements before the [break]. *)
Definition rememberAddress (Base : EstimateMemory) (st : PassState)
  : option PassState :=
  match ExplicitAccesses st !! emId Base with
  | Some cell =>
      T ← traits st !! cell;
      Some (setTraits st
              (<[cell := T &' BitMemoryTrait.AddressAccess]> (traits st)))
  | None =>
      '(TL, UL) ← NodeTraits st !! getAliasNode mAliasTree Base;
      let cell := length (traits st) in
      Some (mkPassState
              (traits st ++
                 [BitMemoryTrait.NoAccess &' BitMemoryTrait.AddressAccess])
              (<[emId Base := cell]> (ExplicitAccesses st))
              (ExplicitUnknowns st)
              (<[getAliasNode mAliasTree Base := ((Base, cell) :: TL, UL)]>
                 (NodeTraits st)))
  end.

(** The body of the loop of [resolveAddresses]. *)
Definition resolveAddress (Ptr : Value) (st : PassState) : option PassState :=
  let Base := find mAliasTree (mkMemoryLocation Ptr 0%N 0%N) in
  match rootKind Base with
  | RootOther => Some st
  | RootAlloca true => Some st
  | RootAlloca false | RootGlobal =>
      if addressRemembered (users Ptr) then rememberAddress Base st
      else Some st
  end.

Definition resolveAddresses (st : PassState) : option PassState :=
  forEach resolveAddress getAddressAccesses st.

End Addresses.

(** ** States of the analysis of a loop *)

(** The traits are within the bits of the lattice. *)
Definition inLattice (T : BitMemoryTrait.Id) : Prop :=
  T &' BitMemoryTrait.NoAccess = T.

(** The pointers of the state are valid: a trait that a map points to is the
    trait of a node of the list of the alias node of its memory, and the
    nodes of a list have traits of their own. *)
Record ValidState (mAliasTree : AliasTree) (st : PassState) : Prop := {
  valid_access : ∀ id cell, ExplicitAccesses st !! id = Some cell →
    ∃ Base TL UL, emId Base = id ∧
      NodeTraits st !! getAliasNode mAliasTree Base = Some (TL, UL) ∧
      (Base, cell) ∈ TL;
  valid_unknown : ∀ U N cell, ExplicitUnknowns st !! U = Some (N, cell) →
    ∃ TL UL, NodeTraits st !! N = Some (TL, UL) ∧ (U, cell) ∈ UL;
  valid_lists : ∀ N TL UL, NodeTraits st !! N = Some (TL, UL) →
    NoDup (traitCells (TL, UL)) ∧
    Forall (λ c, c < length (traits st)) (traitCells (TL, UL));
  valid_traits : Forall inLattice (traits st)
}.

(** The state [st'] extends [st]: the maps and the store keep what they
    have, every list keeps its nodes, and a trait only loses bits. *)
Record Extends (st st' : PassState) : Prop := {
  ext_accesses : ExplicitAccesses st ⊆ ExplicitAccesses st';
  ext_unknowns : ExplicitUnknowns st ⊆ ExplicitUnknowns st';
  ext_lists : ∀ N TL UL, NodeTraits st !! N = Some (TL, UL) →
    ∃ TL' UL', NodeTraits st' !! N = Some (TL', UL') ∧
               TL ⊆ TL' ∧ UL ⊆ UL';
  ext_traits : ∀ c T, traits st !! c = Some T →
    ∃ T', traits st' !! c = Some T' ∧ T' &' T = T'
}.

(** The state in which [resolveCandidats] starts the analysis of a loop:
    every alias node of [Nodes] has a list of each kind, both empty. *)
Definition initialState (Nodes : gset positive) : PassState :=
  mkPassState [] ∅ ∅ (gset_to_gmap ([], []) Nodes).


(** The traits of [st'] are the ones of [st], but for those that satisfy
    [G], into which [X] may be conjoined. *)
Definition conjoins (X : BitMemoryTrait.Id) (G : BitMemoryTrait.Id → Prop)
    (st st' : PassState) : Prop :=
  ∀ c T, traits st !! c = Some T →
    traits st' !! c = Some T ∨ (G T ∧ traits st' !! c = Some (T &' X)).

(** The maps and the lists of [st'] are the ones of [st]. *)
Definition sameMaps (st st' : PassState) : Prop :=
  ExplicitAccesses st' = ExplicitAccesses st ∧
  ExplicitUnknowns st' = ExplicitUnknowns st ∧
  NodeTraits st' = NodeTraits st ∧
  length (traits st') = length (traits st).

(** The memory that an instruction of the header accesses has traits. *)
Definition headerRegistered (mAliasTree : AliasTree) (st : PassState)
    (I : Instruction) : Prop :=
  mayReadOrWriteMemory I = true →
  Forall (λ M : MemoryLocation * AccessInfo * AccessInfo,
            isAccessNo M.1.2 && isAccessNo M.2 = false →
            is_Some (ExplicitAccesses st !! emId (find mAliasTree M.1.1)))
    (instMemory I) ∧
  (instUnknownMemory I = true →
   is_Some (ExplicitUnknowns st !! instValue I)).

(** A location whose pointer is loaded has traits, and so has the memory of
    the pointer. *)
Definition pointerRegistered (mAliasTree : AliasTree)
    (asLoadInst : Value → option MemoryLocation) (st : PassState)
    (Loc : MemoryLocation) : Prop :=
  ∀ LI, asLoadInst (Ptr Loc) = Some LI →
    is_Some (ExplicitAccesses st !! emId (find mAliasTree Loc)) ∧
    is_Some (ExplicitAccesses st !! emId (find mAliasTree LI)).


(** The traits of a memory that an instruction accesses have HeaderAccess
    conjoined. *)
Definition headerMarked (mAliasTree : AliasTree) (st : PassState)
    (M : MemoryLocation * AccessInfo * AccessInfo) : Prop :=
  isAccessNo M.1.2 && isAccessNo M.2 = false →
  ∃ c T, ExplicitAccesses st !! emId (find mAliasTree M.1.1) = Some c ∧
         traits st !! c = Some T ∧ T &' BitMemoryTrait.HeaderAccess = T.


(** A memory that has traits in [st'] and none in [st] has the traits of an
    address access only, in a node that [st] does not have. *)
Definition addsAddresses (st st' : PassState) : Prop :=
  ∀ id c, ExplicitAccesses st !! id = None →
    ExplicitAccesses st' !! id = Some c →
    traits st !! c = None ∧
    traits st' !! c
      = Some (BitMemoryTrait.NoAccess &' BitMemoryTrait.AddressAccess).

(** The address [Ptr] is remembered by [resolveAddresses]. *)
Definition addressUsed (mAliasTree : AliasTree)
    (rootKind : EstimateMemory → RootKind) (users : Value → list User)
    (Ptr : Value) : Prop :=
  (rootKind (find mAliasTree (mkMemoryLocation Ptr 0%N 0%N)) = RootAlloca false ∨
   rootKind (find mAliasTree (mkMemoryLocation Ptr 0%N 0%N)) = RootGlobal) ∧
  addressRemembered (users Ptr) = true.

(** The traits of the memory of [Ptr] have AddressAccess conjoined. *)
Definition addressMarked (mAliasTree : AliasTree) (st : PassState)
    (Ptr : Value) : Prop :=
  ∃ c T, ExplicitAccesses st
           !! emId (find mAliasTree (mkMemoryLocation Ptr 0%N 0%N)) = Some c ∧
         traits st !! c = Some T ∧ T &' BitMemoryTrait.AddressAccess = T.


(** ** The analysis of a loop before the propagation *)

Section Candidates.

Variable mAliasTree : AliasTree.
Variable onlyReadsMemoryCall : Value → bool.
Variable asLoadInst : Value → option MemoryLocation.
Variable isNoModRef : Instruction → MemoryLocation → bool.
Variable depends : Instruction → Instruction → option llvm.Dependence.
Variable LoopDepth : nat.
Variable DefUse : DefUseSet.
Variable getAddressAccesses : list Value.
Variable rootKind : EstimateMemory → RootKind.
Variable users : Value → list User.
Variable LiveOut : LocationDFValue.
Variable LatchDefs ExitingDefs : DefinitionInfo.

(** The body of [resolveCandidats] for a loop, up to the call of
    [propagateTraits]: [Nodes] are the alias nodes of the tree, [LoopInsts]
    the instructions of the loop and [Header] those of its header. *)
Definition resolveCandidats (Nodes : gset positive)
    (LoopInsts Header : list Instruction) : option (DependenceMap * PassState) :=
  let Deps :=
    collectDependencies mAliasTree isNoModRef depends LoopDepth LoopInsts ∅ in
  st ← resolveAccesses mAliasTree onlyReadsMemoryCall DefUse LiveOut LatchDefs
         ExitingDefs Deps (initialState Nodes);
  st ← collectHeaderAccesses mAliasTree Header st;
  st ← resolvePointers mAliasTree asLoadInst DefUse st;
  st ← resolveAddresses mAliasTree getAddressAccesses rootKind users st;
  Some (Deps, st).

End Candidates.

(** The estimate memory of the explicit accesses of a loop. *)
Definition explicitMemory (mAliasTree : AliasTree) (DefUse : DefUseSet)
  : list positive :=
  (λ Loc, emId (find mAliasTree Loc)) <$> getExplicitAccesses DefUse.

(** The memory that an instruction of the header accesses is accessed
    explicitly in the loop. *)
Definition headerListed (mAliasTree : AliasTree) (DefUse : DefUseSet)
    (I : Instruction) : Prop :=
  mayReadOrWriteMemory I = true →
  Forall (λ M : MemoryLocation * AccessInfo * AccessInfo,
            isAccessNo M.1.2 && isAccessNo M.2 = false →
            emId (find mAliasTree M.1.1) ∈ explicitMemory mAliasTree DefUse)
    (instMemory I) ∧
  (instUnknownMemory I = true → instValue I ∈ getExplicitUnknowns DefUse).

(** The memory of a loaded pointer of a location is accessed explicitly in
    the loop. *)
Definition pointerListed (mAliasTree : AliasTree)
    (asLoadInst : Value → option MemoryLocation) (DefUse : DefUseSet)
    (Loc : MemoryLocation) : Prop :=
  ∀ LI, asLoadInst (Ptr Loc) = Some LI →
    emId (find mAliasTree LI) ∈ explicitMemory mAliasTree DefUse.

Module SampleStages.

(** The sample loop, with a header that loads [Y] and stores to [X], the
    address of [X] converted to an integer in the loop, and every root a
    global variable. *)
Definition nodes : gset positive := list_to_set [1; 2; 3; 4; 5; 6]%positive.
Definition header : list Instruction := [SampleInsts.loadY; SampleInsts.storeX].
Definition addresses : list Value := [1%positive].
Definition rootKind (EM : EstimateMemory) : RootKind := RootGlobal.
Definition users (V : Value) : list User :=
  [mkUser false false true; mkUser true true false].

(** The states after each resolver, from the state in which every node has
    empty lists. *)
Definition accessed : PassState :=
  default (initialState nodes)
    (resolveAccesses Sample.tree (λ _, false) SampleLoop.defUse
       SampleLoop.liveOut SampleLoop.noDefs SampleLoop.noDefs SampleLoop.depsY
       (initialState nodes)).
Definition marked : PassState :=
  default accessed (collectHeaderAccesses Sample.tree header accessed).
Definition pointed : PassState :=
  default marked
    (resolvePointers Sample.tree SampleLoop.asLoadInst SampleLoop.defUse marked).

End SampleStages.


(** The descriptor of a node that the closure reaches. *)
Definition closeTrait (Itr : AliasTrait) : AliasTrait :=
  mkAliasTrait (depTraits ∪ atDptr Itr) (atAccesses Itr) (atUnknowns Itr).

(** The node [n] is strictly below a node of [Coverage]. *)
Definition belowCoverage (Coverage : list AliasNode) (n : positive) : Prop :=
  ∃ Node D, Node ∈ Coverage ∧ StrictDescendant Node D ∧ anId D = n.


(** ** Propagation of traits to a node *)

Section Propagation.

Variable mAliasTree : AliasTree.
(** [EM->getParent()], its parent and so on, up to the top-level parent. *)
Variable parents : EstimateMemory → list EstimateMemory.
(** [ancestor] of EstimateMemory.h, which is not among the sources. *)
Variable ancestor : EstimateMemory → EstimateMemory → option EstimateMemory.
(** The alias node for which the traits are propagated. *)
Variable N : positive.

Definition getParent (EM : EstimateMemory) : option EstimateMemory :=
  head (parents EM).

(** Equality of two pointers to estimate memory, the first possibly null. *)
Definition isMemory (A : option EstimateMemory) (EM : EstimateMemory) : bool :=
  match A with
  | Some A => bool_decide (emId A = emId EM)
  | None => false
  end.

(** The [while] loop of [removeRedundant], along the chain of parents. *)
Fixpoint topInNode (Current : EstimateMemory) (chain : list EstimateMemory)
  : EstimateMemory :=
  match chain with
  | [] => Current
  | Parent :: rest =>
      if bool_decide (getAliasNode mAliasTree Parent = N)
      then topInNode Parent rest
      else Current
  end.

(** The [for] loop of [removeRedundant] over the nodes after the current
    one, whose traits are at [ccell]: whether the current node is erased,
    and the nodes that remain after it. *)
Fixpoint absorb (Current : EstimateMemory) (ccell : nat) (rest : TraitList)
    (mem : list BitMemoryTrait.Id) (Deps : DependenceMap)
  : option (bool * TraitList * list BitMemoryTrait.Id * DependenceMap) :=
  match rest with
  | [] => Some (false, [], mem, Deps)
  | (EMI, icell) :: rest' =>
      if bool_decide (emId Current = emId EMI) then
        TI ← mem !! icell;
        TC ← mem !! ccell;
        Some (true, rest, <[icell := TI &' TC]> mem, Deps)
      else
        let Ancestor := ancestor Current EMI in
        if isMemory Ancestor EMI then
          TI ← mem !! icell;
          TC ← mem !! ccell;
          Some (true, rest, <[icell := TI &' TC]> mem,
                mergeDependence EMI (TI &' TC) Current Deps)
        else if isMemory Ancestor Current then
          TC ← mem !! ccell;
          TI ← mem !! icell;
          absorb Current ccell rest' (<[ccell := TC &' TI]> mem)
            (mergeDependence Current (TC &' TI) EMI Deps)
        else
          '(erased, rem, mem, Deps) ← absorb Current ccell rest' mem Deps;
          Some (erased, (EMI, icell) :: rem, mem, Deps)
  end.

(** [removeRedundant] for the node [Curr] of the list and the nodes [rest]
    after it: the current node if it is kept, with the memory it stands for
    afterwards, and the nodes that remain after it. *)
Definition removeRedundant (Curr : EstimateMemory * nat) (rest : TraitList)
    (mem : list BitMemoryTrait.Id) (Deps : DependenceMap)
  : option (option (EstimateMemory * nat) * TraitList
            * list BitMemoryTrait.Id * DependenceMap) :=
  TC ← mem !! Curr.2;
  let Current :=
    if bool_decide (getAliasNode mAliasTree Curr.1 = N)
    then topInNode Curr.1 (parents Curr.1) else Curr.1 in
  let Deps :=
    if bool_decide (getAliasNode mAliasTree Curr.1 = N)
    then mergeDependence Current TC Curr.1 Deps else Deps in
  '(erased, rem, mem, Deps) ← absorb Current Curr.2 rest mem Deps;
  Some (if (erased : bool) then None else Some (Current, Curr.2),
        rem, mem, Deps).

(** The loop of [propagateTraits] that calls [removeRedundant] until the
    end of the list; [fuel] bounds the number of calls. *)
Fixpoint removeRedundantLoop (fuel : nat) (TL : TraitList)
    (mem : list BitMemoryTrait.Id) (Deps : DependenceMap)
  : option (TraitList * list BitMemoryTrait.Id * DependenceMap) :=
  match TL with
  | [] => Some ([], mem, Deps)
  | Curr :: rest =>
      match fuel with
      | 0 => None
      | S fuel =>
          '(kept, rem, mem, Deps) ← removeRedundant Curr rest mem Deps;
          '(TL, mem, Deps) ← removeRedundantLoop fuel rem mem Deps;
          Some (match kept with Some C => C :: TL | None => TL end, mem, Deps)
      end
  end.

(** The body of the loop of [propagateTraits] over the list of a child: the
    node [EMToT] of the child is moved to the list [TL] of the node, under
    the parent of its memory when the parent belongs to the node.  The
    statement that pushes the parent follows an [else] without braces, and
    is run whether the parent is accessed explicitly or not. *)
Definition promote (ExplicitAccesses : gmap positive nat)
    (EMToT : EstimateMemory * nat)
    (st : TraitList * list BitMemoryTrait.Id * DependenceMap)
  : option (TraitList * list BitMemoryTrait.Id * DependenceMap) :=
  let '(TL, mem, Deps) := st in
  T ← mem !! EMToT.2;
  match getParent EMToT.1 with
  | Some Parent =>
      if bool_decide (getAliasNode mAliasTree Parent = N) then
        match ExplicitAccesses !! emId Parent with
        | Some pcell =>
            TP ← mem !! pcell;
            let mem := <[pcell := TP &' T]> mem in
            Some ((Parent, length mem) :: TL, mem ++ [T],
                  mergeDependence Parent (TP &' T) EMToT.1 Deps)
        | None =>
            Some ((Parent, length mem) :: TL, mem ++ [T],
                  mergeDependence Parent T EMToT.1 Deps)
        end
      else Some ((EMToT.1, length mem) :: TL, mem ++ [T], Deps)
  | None => Some ((EMToT.1, length mem) :: TL, mem ++ [T], Deps)
  end.

End Propagation.


(** The conjunction of the traits at the cells of a list. *)
Definition conjAt (mem : list BitMemoryTrait.Id) (cells : list nat)
  : BitMemoryTrait.Id :=
  conjAll ((λ c, default BitMemoryTrait.NoAccess (mem !! c)) <$> cells).

(** The cell of the current node, when it is kept. *)
Definition keptCell (erased : bool) (ccell : nat) : list nat :=
  if erased then [] else [ccell].


(** The memory that a list node stands for after [removeRedundant]: for a
    memory of the node [N], the last memory of [N] along its chain of
    parents. *)
Definition largestInNode (mAliasTree : AliasTree)
    (parents : EstimateMemory → list EstimateMemory) (N : positive)
    (EM : EstimateMemory) : EstimateMemory :=
  if bool_decide (getAliasNode mAliasTree EM = N)
  then topInNode mAliasTree N EM (parents EM) else EM.


Section PropagateLists.

Variable mAliasTree : AliasTree.
Variable parents : EstimateMemory → list EstimateMemory.
Variable ancestor : EstimateMemory → EstimateMemory → option EstimateMemory.
Variable N : positive.
Variable ExplicitAccesses : gmap positive nat.

(** The part of the visit of a node by [propagateTraits] that works on the
    lists of estimate memory: the lists [Children] of the children, in the
    order in which they are popped, are moved to the list of the node, and
    the redundant nodes of the result are removed. *)
Definition propagateLists (Children : list TraitList)
    (st : TraitList * list BitMemoryTrait.Id * DependenceMap)
  : option (TraitList * list BitMemoryTrait.Id * DependenceMap) :=
  '(TL, mem, Deps) ←
    forEach (λ CT st, forEach (promote mAliasTree parents N ExplicitAccesses)
                        CT st) Children st;
  removeRedundantLoop mAliasTree parents ancestor N (length TL) TL mem Deps.

End PropagateLists.

(** The traits of a parent of a memory of [CT] that belongs to the node [N]
    and is accessed explicitly are in the store, in no node of [CT]. *)
Definition parentsApart (mAliasTree : AliasTree)
    (parents : EstimateMemory → list EstimateMemory) (N : positive)
    (ExplicitAccesses : gmap positive nat) (CT : TraitList)
    (mem : list BitMemoryTrait.Id) : Prop :=
  ∀ E P c, E ∈ CT → getParent parents E.1 = Some P →
    getAliasNode mAliasTree P = N → ExplicitAccesses !! emId P = Some c →
    c < length mem ∧ c ∉ CT.*2.


(** The explicit accesses of [Locs] to the estimate memory [id]. *)
Definition accessesOf (mAliasTree : AliasTree) (id : positive)
    (Locs : list MemoryLocation) : list MemoryLocation :=
  filter (λ L, emId (find mAliasTree L) = id) Locs.

(** In [st] the traits of every estimate memory with traits are the
    conjunction of what [resolveAccesses] conjoins for the accesses [Locs]
    to it, the memory of each access of [Locs] has traits, and two memories
    do not share their traits. *)
Definition accessesConjoined (mAliasTree : AliasTree)
    (A : MemoryLocation → BitMemoryTrait.Id) (Locs : list MemoryLocation)
    (st : PassState) : Prop :=
  (∀ id cell, ExplicitAccesses st !! id = Some cell →
     traits st !! cell = Some (conjAll (A <$> accessesOf mAliasTree id Locs))) ∧
  (∀ id, ExplicitAccesses st !! id = None → accessesOf mAliasTree id Locs = []) ∧
  (∀ id1 id2 c, ExplicitAccesses st !! id1 = Some c →
                ExplicitAccesses st !! id2 = Some c → id1 = id2).

(** The memory of the pointer [LI] has Readonly traits in [st], whatever
    their unit flags. *)
Definition pointerReadonly (mAliasTree : AliasTree) (st : PassState)
    (LI : MemoryLocation) : Prop :=
  ∃ pcell PT,
    ExplicitAccesses st !! emId (find mAliasTree LI) = Some pcell ∧
    traits st !! pcell = Some PT ∧
    BitMemoryTrait.dropUnitFlag PT = BitMemoryTrait.Readonly.

(** The visit of [resolvePointers] to [L] conjoins Dependency into the traits
    at [cell]: the pointer of [L] is loaded, [cell] holds the traits of the
    memory of [L], they are not resolved in [st], and the memory of the
    pointer is not Readonly in [st]. *)
Definition refinesAt (mAliasTree : AliasTree)
    (asLoadInst : Value → option MemoryLocation) (st : PassState)
    (cell : nat) (L : MemoryLocation) : Prop :=
  ∃ LI T,
    asLoadInst (Ptr L) = Some LI ∧
    ExplicitAccesses st !! emId (find mAliasTree L) = Some cell ∧
    traits st !! cell = Some T ∧
    ¬ traitResolved T ∧ ¬ pointerReadonly mAliasTree st LI.

(** The state [s] of the loop of [resolvePointers] that started in [st] and
    has visited [visited]: Dependency is conjoined into the traits at which
    a visited location refines, and into no other. *)
Definition pointersRefined (mAliasTree : AliasTree)
    (asLoadInst : Value → option MemoryLocation) (st : PassState)
    (visited : list MemoryLocation) (s : PassState) : Prop :=
  sameMaps st s ∧
  ∀ c T, traits st !! c = Some T →
    (traits s !! c = Some T ∨
     (¬ traitResolved T ∧
      traits s !! c = Some (T &' BitMemoryTrait.Dependency))) ∧
    ((∃ L, L ∈ visited ∧ refinesAt mAliasTree asLoadInst st c L) →
     traits s !! c = Some (T &' BitMemoryTrait.Dependency)) ∧
    ((∀ L, L ∈ visited → ¬ refinesAt mAliasTree asLoadInst st c L) →
     traits s !! c = Some T).

(** * Properties *)

(** ** Dependence records *)

Lemma tget_tset {A} (k k' : DepKind) (v : A) (t : Tagged A) :
  tget k' (tset k v t) = if decide (k = k') then v else tget k' t.
Proof. destruct k, k'; reflexivity. Qed.

Lemma hasUnknownDistance_lor (a b : Dependence.Flag) :
  Dependence.hasUnknownDistance (Z.lor a b) =
  Dependence.hasUnknownDistance a || Dependence.hasUnknownDistance b.
Proof.
  unfold Dependence.hasUnknownDistance.
  rewrite Z.land_lor_distr_l.
  destruct (Z.eqb_spec (Z.land a Dependence.UnknownDistance) 0) as [Ha|Ha];
    destruct (Z.eqb_spec (Z.land b Dependence.UnknownDistance) 0) as [Hb|Hb];
    destruct (Z.eqb_spec
                (Z.lor (Z.land a Dependence.UnknownDistance)
                       (Z.land b Dependence.UnknownDistance)) 0) as [Hab|Hab];
    try reflexivity; exfalso.
  - apply Hab. rewrite Ha, Hb. reflexivity.
  - apply Z.lor_eq_0_iff in Hab. tauto.
  - apply Z.lor_eq_0_iff in Hab. tauto.
  - apply Z.lor_eq_0_iff in Hab. tauto.
Qed.

Lemma hasUnknownDistance_UnknownDistance :
  Dependence.hasUnknownDistance Dependence.UnknownDistance = true.
Proof. reflexivity. Qed.

Module DependenceImpFacts.
Import DependenceImp.

Lemma Consistent_empty : Consistent empty.
Proof. intros []; reflexivity. Qed.

Lemma UpdateFunctor_call_Consistent k Dep fn :
  Consistent Dep → Consistent (UpdateFunctor_call k (Dep, fn)).1.
Proof.
  intros HC k'. cbn. rewrite !tget_tset.
  destruct (decide (k = k')) as [->|Hne]; [|apply HC].
  intros ->. reflexivity.
Qed.

Lemma UpdateFunctor_call_FlagsGrow k Dep fn :
  FlagsGrow Dep (UpdateFunctor_call k (Dep, fn)).1.
Proof.
  intros k'. cbn. rewrite tget_tset.
  destruct (decide (k = k')) as [->|Hne]; [|done].
  rewrite hasUnknownDistance_lor. intros ->. reflexivity.
Qed.

Lemma UpdateFunctor_call_mDist k Dep fn :
  mDist (UpdateFunctor_call k (Dep, fn)).2 = mDist fn.
Proof. reflexivity. Qed.

Lemma UpdateFunctor_call_null k Dep fn :
  mDist fn = None →
  Dependence.hasUnknownDistance
    (tget k (mFlags (UpdateFunctor_call k (Dep, fn)).1)) = true.
Proof.
  intros Hnull. cbn. rewrite tget_tset, Hnull.
  destruct (decide (k = k)); [|done].
  rewrite !hasUnknownDistance_lor, hasUnknownDistance_UnknownDistance.
  rewrite !orb_true_r. reflexivity.
Qed.

(** The loop of [update] over the kinds of a descriptor. *)
Lemma update_loop l Dep fn :
  let r := foldl (λ st k, UpdateFunctor_call k st) (Dep, fn) l in
  (Consistent Dep → Consistent r.1) ∧ FlagsGrow Dep r.1 ∧ mDist r.2 = mDist fn ∧
  (mDist fn = None →
   ∀ k, k ∈ l → Dependence.hasUnknownDistance (tget k (mFlags r.1)) = true).
Proof.
  induction l as [|k l IH] using rev_ind; cbn.
  - split_and!; [done|intros k; done|done|]. intros _ k Hk. inversion Hk.
  - rewrite foldl_app. cbn.
    destruct IH as (IHC & IHG & IHD & IHN).
    destruct (foldl (λ st k0, UpdateFunctor_call k0 st) (Dep, fn) l)
      as [Dep1 fn1] eqn:Hfold.
    cbn in IHC, IHG, IHD, IHN. split_and!.
    + intros HC. apply UpdateFunctor_call_Consistent. auto.
    + intros k' Hk'. apply UpdateFunctor_call_FlagsGrow. auto.
    + rewrite UpdateFunctor_call_mDist. exact IHD.
    + intros Hnull k' Hk'. apply elem_of_app in Hk' as [Hk'|Hk'].
      * apply UpdateFunctor_call_FlagsGrow. auto.
      * apply list_elem_of_singleton in Hk' as ->.
        apply UpdateFunctor_call_null. congruence.
Qed.

Lemma elem_of_for_each_kind k (Dptr : gset DepKind) :
  k ∈ for_each_kind Dptr ↔ k ∈ Dptr.
Proof.
  unfold for_each_kind, allDepKinds. rewrite list_elem_of_filter.
  split; [tauto|]. intros Hk. split; [done|]. destruct k; set_solver.
Qed.

Lemma update_Consistent Dptr F Dist Dep :
  Consistent Dep → Consistent (update Dptr F Dist Dep).
Proof. intros HC. unfold update. by apply update_loop. Qed.

Lemma update_null Dptr F Dep k :
  k ∈ Dptr →
  Dependence.hasUnknownDistance (tget k (mFlags (update Dptr F None Dep))) = true.
Proof.
  intros Hk. unfold update.
  apply (update_loop (for_each_kind Dptr) Dep (mkUpdateFunctor F None));
    [done|]. by apply elem_of_for_each_kind.
Qed.

Lemma UpdateDepFunctor_call_Consistent Src k Dep :
  Consistent Dep → Consistent (UpdateDepFunctor_call Src k Dep).
Proof.
  intros HC k'. cbn. rewrite !tget_tset.
  destruct (decide (k = k')) as [->|Hne]; [|apply HC].
  intros ->. reflexivity.
Qed.

Lemma updateFrom_Consistent Src Dep :
  Consistent Dep → Consistent (updateFrom Src Dep).
Proof.
  unfold updateFrom. generalize (for_each_kind (mDptr Src)) as l.
  intros l. revert Dep. induction l as [|k l IH]; intros Dep HC; cbn; [done|].
  apply IH. by apply UpdateDepFunctor_call_Consistent.
Qed.

Lemma run_Consistent ops Dep : Consistent Dep → Consistent (run ops Dep).
Proof.
  unfold run. revert Dep. induction ops as [|o ops IH]; intros Dep HC; cbn;
    [done|].
  apply IH. destruct o; cbn;
    [by apply update_Consistent | by apply updateFrom_Consistent].
Qed.

Lemma SummarizeFunctor_call_range k Dep :
  if Dependence.hasUnknownDistance (tget k (mFlags Dep))
  then irDistance (SummarizeFunctor_call k Dep) = (None, None)
  else ∃ lo hi, irDistance (SummarizeFunctor_call k Dep) = (Some lo, Some hi).
Proof.
  unfold SummarizeFunctor_call.
  destruct (Dependence.hasUnknownDistance (tget k (mFlags Dep))); cbn; eauto.
Qed.

End DependenceImpFacts.

(** C10. In a dependence record obtained from a new one by any sequence of
    updates (from a descriptor, a flag and a distance, or merged from another
    record), a kind whose flags contain UnknownDistance has an empty set of
    distances; an update with a null distance sets UnknownDistance for every
    kind of its descriptor; and the summary of a kind has a range with both
    bounds exactly when UnknownDistance is not set, and no bound otherwise. *)
Theorem DependenceImp_unknown_distance (ops : list DependenceImp.Op)
    (k : DepKind) :
  let Dep := DependenceImp.run ops DependenceImp.empty in
  (Z.land (tget k (DependenceImp.mFlags Dep)) Dependence.UnknownDistance ≠ 0%Z →
   tget k (DependenceImp.mDists Dep) = ∅) ∧
  (∀ Dptr F Dep0, k ∈ Dptr →
     Z.land (tget k (DependenceImp.mFlags (DependenceImp.update Dptr F None Dep0)))
       Dependence.UnknownDistance ≠ 0%Z) ∧
  (∀ Dep0,
     (Z.land (tget k (DependenceImp.mFlags Dep0)) Dependence.UnknownDistance = 0%Z →
      ∃ lo hi, irDistance (DependenceImp.SummarizeFunctor_call k Dep0)
               = (Some lo, Some hi)) ∧
     (Z.land (tget k (DependenceImp.mFlags Dep0)) Dependence.UnknownDistance ≠ 0%Z →
      irDistance (DependenceImp.SummarizeFunctor_call k Dep0) = (None, None))).
Proof.
  assert (Hbool : ∀ F, Z.land F Dependence.UnknownDistance ≠ 0%Z ↔
                       Dependence.hasUnknownDistance F = true).
  { intros F. unfold Dependence.hasUnknownDistance.
    destruct (Z.eqb_spec (Z.land F Dependence.UnknownDistance) 0); cbn;
      split; congruence. }
  cbn zeta. split_and!.
  - rewrite Hbool.
    apply (DependenceImpFacts.run_Consistent ops _
             DependenceImpFacts.Consistent_empty k).
  - intros Dptr F Dep0 Hk. rewrite Hbool.
    by apply DependenceImpFacts.update_null.
  - intros Dep0.
    pose proof (DependenceImpFacts.SummarizeFunctor_call_range k Dep0) as Hs.
    split; intros HF.
    + destruct (Dependence.hasUnknownDistance (tget k (DependenceImp.mFlags Dep0)))
        eqn:HU; [|done].
      apply Hbool in HU. done.
    + apply Hbool in HF. rewrite HF in Hs. done.
Qed.

(** ** Dependence collector *)

Lemma land_lor_nonzero (a b m : Z) :
  Z.land (Z.lor a b) m ≠ 0%Z ↔ Z.land a m ≠ 0%Z ∨ Z.land b m ≠ 0%Z.
Proof.
  rewrite Z.land_lor_distr_l, Z.lor_eq_0_iff.
  destruct (decide (Z.land a m = 0%Z)), (decide (Z.land b m = 0%Z)); tauto.
Qed.

Lemma outerDirectionIgnored_spec Dir :
  outerDirectionIgnored Dir = true ↔ ¬ outerDirectionKept Dir.
Proof.
  unfold outerDirectionKept.
  destruct Dir; cbn; split; try done; intros H; try (exfalso; apply H; tauto);
    intuition congruence.
Qed.

Lemma outerLoopReturns_spec Dep l :
  outerLoopReturns Dep l = true ↔
  ∃ d, d ∈ l ∧ ¬ outerDirectionKept (llvm.getDirection Dep d).
Proof.
  induction l as [|d l IH]; cbn.
  - split; [done|]. intros (d & Hd & _). inversion Hd.
  - destruct (outerDirectionIgnored (llvm.getDirection Dep d)) eqn:Hd.
    + split; [|done]. intros _. exists d. split; [left|].
      by apply outerDirectionIgnored_spec.
    + rewrite IH. split.
      * intros (d' & Hd' & Hk). exists d'. split; [by right|done].
      * intros (d' & Hd' & Hk). apply elem_of_cons in Hd' as [->|Hd'].
        -- apply outerDirectionIgnored_spec in Hk. congruence.
        -- eauto.
Qed.

Lemma outerLoopReturns_depth Dep LoopDepth :
  outerLoopReturns Dep (seq 1 (LoopDepth - 1)) = true ↔
  ∃ d, 1 ≤ d < LoopDepth ∧ ¬ outerDirectionKept (llvm.getDirection Dep d).
Proof.
  rewrite outerLoopReturns_spec. split; intros (d & Hd & Hk); exists d.
  - split; [|done]. apply list_elem_of_In, in_seq in Hd. lia.
  - split; [|done]. apply list_elem_of_In, in_seq. lia.
Qed.

Lemma insertDependence_dropped mAliasTree Dep Src Dst Flag LoopDepth Deps :
  dependenceDropped Dep LoopDepth →
  insertDependence mAliasTree Dep Src Dst Flag LoopDepth Deps = Deps.
Proof.
  intros [Houter|Heq]; unfold insertDependence.
  - apply outerLoopReturns_depth in Houter. by rewrite Houter.
  - destruct (outerLoopReturns _ _); [done|].
    by rewrite bool_decide_eq_true_2.
Qed.

Lemma insertDependence_kept mAliasTree Dep Src Dst Flag LoopDepth Deps :
  ¬ dependenceDropped Dep LoopDepth →
  insertDependence mAliasTree Dep Src Dst Flag LoopDepth Deps =
  let Dptr := insertDependence_Dptr Dep (llvm.getDirection Dep LoopDepth) in
  let Dist := llvm.getDistance Dep LoopDepth in
  let F := Z.lor Dependence.LoadStoreCause Flag in
  updateDependence (find mAliasTree Dst) Dptr F Dist
    (updateDependence (find mAliasTree Src) Dptr F Dist Deps).
Proof.
  intros Hkept. unfold insertDependence.
  destruct (outerLoopReturns _ _) eqn:Houter.
  - exfalso. apply Hkept. left. by apply outerLoopReturns_depth.
  - rewrite bool_decide_eq_false_2; [done|].
    intros Heq. apply Hkept. by right.
Qed.

(** The loop of [update]: what it leaves in the record. *)
Lemma update_loop_records l Dep fn m :
  let r := foldl (λ st k, DependenceImp.UpdateFunctor_call k st) (Dep, fn) l in
  DependenceImp.mDptr Dep ⊆ DependenceImp.mDptr r.1 ∧
  (∀ k, Z.land (tget k (DependenceImp.mFlags Dep)) m ≠ 0%Z →
        Z.land (tget k (DependenceImp.mFlags r.1)) m ≠ 0%Z) ∧
  (Z.land (DependenceImp.mFlag fn) m ≠ 0%Z →
   Z.land (DependenceImp.mFlag r.2) m ≠ 0%Z) ∧
  (∀ k, k ∈ l →
     k ∈ DependenceImp.mDptr r.1 ∧
     (Z.land (DependenceImp.mFlag fn) m ≠ 0%Z →
      Z.land (tget k (DependenceImp.mFlags r.1)) m ≠ 0%Z)).
Proof.
  induction l as [|k l IH] using rev_ind; cbn.
  - split_and!; [done|done|done|]. intros k Hk. inversion Hk.
  - rewrite foldl_app. cbn.
    destruct IH as (IHD & IHF & IHf & IHk).
    destruct (foldl (λ st k0, DependenceImp.UpdateFunctor_call k0 st) (Dep, fn) l)
      as [Dep1 fn1] eqn:Hfold.
    cbn in IHD, IHF, IHf, IHk.
    assert (Hstep : ∀ k', Z.land (tget k' (DependenceImp.mFlags Dep1)) m ≠ 0%Z →
              Z.land (tget k' (DependenceImp.mFlags
                (DependenceImp.UpdateFunctor_call k (Dep1, fn1)).1)) m ≠ 0%Z).
    { intros k' Hk'. cbn. rewrite tget_tset.
      destruct (decide (k = k')) as [->|]; [|done].
      apply land_lor_nonzero. by left. }
    assert (Hfn : Z.land (DependenceImp.mFlag fn1) m ≠ 0%Z →
              Z.land (DependenceImp.mFlag
                (DependenceImp.UpdateFunctor_call k (Dep1, fn1)).2) m ≠ 0%Z).
    { intros Hm. cbn. destruct (DependenceImp.mDist fn1); [done|].
      apply land_lor_nonzero. by left. }
    split_and!.
    + cbn. set_solver.
    + intros k' Hk'. apply Hstep. auto.
    + intros Hm. apply Hfn. auto.
    + intros k' Hk'. apply elem_of_app in Hk' as [Hk'|Hk'].
      * destruct (IHk k' Hk') as [Hin Hfl]. split; [cbn; set_solver|].
        intros Hm. apply Hstep. auto.
      * apply list_elem_of_singleton in Hk' as ->. split; [cbn; set_solver|].
        intros Hm. cbn. rewrite tget_tset. destruct (decide (k = k)); [|done].
        apply land_lor_nonzero. right.
        specialize (IHf Hm).
        destruct (DependenceImp.mDist fn1); [done|].
        apply land_lor_nonzero. by left.
Qed.

Lemma update_records Dptr F Dist Dep K m :
  Z.land F m ≠ 0%Z →
  recordsKinds Dep K m ∨ K ⊆ Dptr →
  recordsKinds (DependenceImp.update Dptr F Dist Dep) K m.
Proof.
  intros HF HK. unfold DependenceImp.update.
  pose proof (update_loop_records (for_each_kind Dptr) Dep
                (DependenceImp.mkUpdateFunctor F Dist) m) as (HD & HFl & _ & Hk).
  cbn zeta in *. destruct HK as [[HK1 HK2]|HK].
  - split; [set_solver|]. intros k Hk'. apply HFl. auto.
  - split.
    + intros k Hk'. apply Hk. apply DependenceImpFacts.elem_of_for_each_kind. auto.
    + intros k Hk'. apply Hk; [|done].
      apply DependenceImpFacts.elem_of_for_each_kind. auto.
Qed.

Lemma updateDependence_records EM EM' Dptr F Dist Deps K m :
  Z.land F m ≠ 0%Z →
  (∃ Rec, Deps !! emId EM' = Some Rec ∧ recordsKinds Rec K m) ∨
  (emId EM' = emId EM ∧ K ⊆ Dptr) →
  ∃ Rec, updateDependence EM Dptr F Dist Deps !! emId EM' = Some Rec ∧
         recordsKinds Rec K m.
Proof.
  intros HF HK. unfold updateDependence.
  destruct (decide (emId EM = emId EM')) as [Heq|Hne].
  - rewrite Heq, lookup_insert_eq. eexists. split; [done|].
    apply update_records; [done|].
    destruct HK as [(Rec & HRec & HK)|[_ HK]]; [|by right].
    left. by rewrite HRec.
  - rewrite lookup_insert_ne by done.
    destruct HK as [HK|[Heq _]]; [done|]. congruence.
Qed.

(** C3, as amended. When a dependence is not dropped, the kinds recorded are
    Output for an output dependence; otherwise Flow and Anti for the
    direction ALL; otherwise, for a flow dependence, Flow when the direction
    is forward (LT or LE) and Anti when it is not, and for an anti
    dependence Anti when the direction is forward and Flow when it is not.
    These kinds are recorded with the flag LoadStoreCause in the records of
    the estimate memory of both locations. *)
Theorem insertDependence_classifies (mAliasTree : AliasTree)
    (Dep : llvm.Dependence) (Src Dst : MemoryLocation) (Flag : Dependence.Flag)
    (LoopDepth : nat) (Deps : DependenceMap) :
  ¬ dependenceDropped Dep LoopDepth →
  let Dir := llvm.getDirection Dep LoopDepth in
  let K := insertDependence_Dptr Dep Dir in
  let Deps' := insertDependence mAliasTree Dep Src Dst Flag LoopDepth Deps in
  (llvm.isOutput Dep = true → K = {[Output]}) ∧
  (llvm.isOutput Dep = false → Dir = llvm.ALL → K = {[Flow; Anti]}) ∧
  (llvm.isOutput Dep = false → Dir ≠ llvm.ALL → llvm.isFlow Dep = true →
     (forwardDirection Dir → K = {[Flow]}) ∧
     (¬ forwardDirection Dir → K = {[Anti]})) ∧
  (llvm.isOutput Dep = false → Dir ≠ llvm.ALL → llvm.isFlow Dep = false →
   llvm.isAnti Dep = true →
     (forwardDirection Dir → K = {[Anti]}) ∧
     (¬ forwardDirection Dir → K = {[Flow]})) ∧
  (∀ Loc, Loc = Src ∨ Loc = Dst →
     ∃ Rec, Deps' !! emId (find mAliasTree Loc) = Some Rec ∧
            recordsKinds Rec K Dependence.LoadStoreCause).
Proof.
  intros Hkept Dir K Deps'. split_and!.
  - intros HO. subst K. unfold insertDependence_Dptr. by rewrite HO.
  - intros HO HA. subst K. unfold insertDependence_Dptr.
    rewrite HO, bool_decide_eq_true_2; done.
  - intros HO HA HF. subst K. unfold insertDependence_Dptr, forwardDirection.
    rewrite HO, HF, bool_decide_eq_false_2 by done.
    split; intros HD.
    + destruct HD as [->| ->]; reflexivity.
    + destruct Dir; cbn; try reflexivity; exfalso; apply HD; tauto.
  - intros HO HA HF HAn. subst K. unfold insertDependence_Dptr, forwardDirection.
    rewrite HO, HF, HAn, bool_decide_eq_false_2 by done.
    split; intros HD.
    + destruct HD as [->| ->]; reflexivity.
    + destruct Dir; cbn; try reflexivity; exfalso; apply HD; tauto.
  - intros Loc HLoc. subst Deps'. rewrite insertDependence_kept by done.
    cbn zeta. fold Dir. fold K.
    assert (HF : Z.land (Z.lor Dependence.LoadStoreCause Flag)
                   Dependence.LoadStoreCause ≠ 0%Z).
    { apply land_lor_nonzero. left. done. }
    apply updateDependence_records; [done|].
    destruct HLoc as [->| ->].
    + left. apply updateDependence_records; [done|]. by right.
    + by right.
Qed.

(** C4, as amended. [insertDependence] records nothing when some loop level
    strictly enclosing the loop has a direction outside EQ, ALL, LE and GE,
    or when the direction at the level of the loop is EQ; in every other
    case it updates the record of the source and then the record of the
    destination, so that both have one.  The collector calls it for the
    flow, anti and output dependences that the oracle reports for two load
    or store locations, and records nothing for an input dependence. *)
Theorem insertDependence_drops (mAliasTree : AliasTree)
    (Dep : llvm.Dependence) (Src Dst : MemoryLocation) (Flag : Dependence.Flag)
    (LoopDepth : nat) (Deps : DependenceMap) :
  let Deps' := insertDependence mAliasTree Dep Src Dst Flag LoopDepth Deps in
  (dependenceDropped Dep LoopDepth → Deps' = Deps) ∧
  (¬ dependenceDropped Dep LoopDepth →
     Deps' =
       updateDependence (find mAliasTree Dst)
         (insertDependence_Dptr Dep (llvm.getDirection Dep LoopDepth))
         (Z.lor Dependence.LoadStoreCause Flag) (llvm.getDistance Dep LoopDepth)
         (updateDependence (find mAliasTree Src)
            (insertDependence_Dptr Dep (llvm.getDirection Dep LoopDepth))
            (Z.lor Dependence.LoadStoreCause Flag)
            (llvm.getDistance Dep LoopDepth) Deps) ∧
     is_Some (Deps' !! emId (find mAliasTree Src)) ∧
     is_Some (Deps' !! emId (find mAliasTree Dst))) ∧
  (inputDependence Dep →
     collectLoadStorePair mAliasTree (Some Dep) Src Dst LoopDepth Deps = Deps) ∧
  (¬ inputDependence Dep →
     collectLoadStorePair mAliasTree (Some Dep) Src Dst LoopDepth Deps
     = insertDependence mAliasTree Dep Src Dst Dependence.No LoopDepth Deps).
Proof.
  cbn zeta. split_and!.
  - apply insertDependence_dropped.
  - intros Hkept. rewrite insertDependence_kept by done. cbn zeta.
    split; [done|]. unfold updateDependence at 1 3. split.
    + destruct (decide (emId (find mAliasTree Dst) = emId (find mAliasTree Src)))
        as [->|Hne].
      * rewrite lookup_insert_eq. done.
      * rewrite lookup_insert_ne by done. unfold updateDependence.
        rewrite lookup_insert_eq. done.
    + rewrite lookup_insert_eq. done.
  - intros (HA & HF & HO). unfold collectLoadStorePair.
    by rewrite HA, HF, HO.
  - intros Hin. unfold collectLoadStorePair, inputDependence in *.
    destruct (llvm.isAnti Dep), (llvm.isFlow Dep), (llvm.isOutput Dep);
      cbn; try reflexivity.
    exfalso. by apply Hin.
Qed.

Lemma insertDependence_classifies_witness :
  ∃ Rec,
    insertDependence Sample.tree (Sample.flowDep llvm.LT) Sample.X Sample.Y
      Dependence.No 1 ∅ !! emId (find Sample.tree Sample.Y) = Some Rec ∧
    recordsKinds Rec {[Flow]} Dependence.LoadStoreCause.
Proof.
  destruct (insertDependence_classifies Sample.tree (Sample.flowDep llvm.LT)
              Sample.X Sample.Y Dependence.No 1 ∅) as (_ & _ & _ & _ & H).
  - intros [(d & Hd & _)|H]; [lia|discriminate].
  - exact (H Sample.Y (or_intror eq_refl)).
Defined.

(** C3, the sentence as written fails: a forward anti dependence is recorded
    as Anti and a backward one as Flow, in the records of both locations. *)
Lemma insertDependence_anti_by_sign :
  ¬ dependenceDropped (Sample.antiDep llvm.LT) 1 ∧
  (DependenceImp.mDptr <$>
     insertDependence Sample.tree (Sample.antiDep llvm.LT) Sample.X Sample.Y
       Dependence.No 1 ∅ !! emId (find Sample.tree Sample.X)) = Some {[Anti]} ∧
  (DependenceImp.mDptr <$>
     insertDependence Sample.tree (Sample.antiDep llvm.LT) Sample.X Sample.Y
       Dependence.No 1 ∅ !! emId (find Sample.tree Sample.Y)) = Some {[Anti]} ∧
  (DependenceImp.mDptr <$>
     insertDependence Sample.tree (Sample.antiDep llvm.GT) Sample.X Sample.Y
       Dependence.No 1 ∅ !! emId (find Sample.tree Sample.X)) = Some {[Flow]} ∧
  ({[Anti]} : gset DepKind) ≠ {[Flow]}.
Proof.
  split_and!.
  - intros [(d & Hd & _)|H]; [lia|discriminate].
  - vm_compute. reflexivity.
  - vm_compute. reflexivity.
  - vm_compute. reflexivity.
  - vm_compute. discriminate.
Qed.

Lemma insertDependence_drops_witness :
  insertDependence Sample.tree (Sample.flowDep llvm.EQ) Sample.X Sample.Y
    Dependence.No 2 ∅ = ∅ ∧
  is_Some (insertDependence Sample.tree (Sample.flowDep llvm.LE) Sample.X
             Sample.Y Dependence.No 2 ∅ !! emId (find Sample.tree Sample.Y)).
Proof.
  destruct (insertDependence_drops Sample.tree (Sample.flowDep llvm.EQ)
              Sample.X Sample.Y Dependence.No 2 ∅) as (Hdrop & _).
  destruct (insertDependence_drops Sample.tree (Sample.flowDep llvm.LE)
              Sample.X Sample.Y Dependence.No 2 ∅) as (_ & Hkeep & _).
  split.
  - apply Hdrop. right. reflexivity.
  - apply Hkeep.
    intros [(d & Hd & Hk)|H]; [|discriminate].
    apply Hk. right. right. left. reflexivity.
Defined.

(** C4, the sentence as written fails in both directions.  A dependence of a
    loop at depth 3 with the directions LT, EQ, LT is not outside EQ, ALL,
    LE, GE at every enclosing level, and not EQ at the level of the loop;
    nothing is recorded for it.  A dependence of a loop at depth 1 has no
    enclosing level, so every enclosing level has a direction outside the
    set; it is recorded.  An input dependence with the directions EQ, LT at
    depth 2 is in neither case, and nothing is recorded for it. *)
Lemma insertDependence_some_outer_level :
  ¬ droppedAtEveryOuterLevel Sample.carriedOutside 3 ∧
  insertDependence Sample.tree Sample.carriedOutside Sample.X Sample.Y
    Dependence.No 3 ∅ = ∅ ∧
  droppedAtEveryOuterLevel (Sample.flowDep llvm.LT) 1 ∧
  is_Some (insertDependence Sample.tree (Sample.flowDep llvm.LT) Sample.X
             Sample.Y Dependence.No 1 ∅ !! emId (find Sample.tree Sample.X)) ∧
  ¬ droppedAtEveryOuterLevel Sample.inputDep 2 ∧
  collectLoadStorePair Sample.tree (Some Sample.inputDep) Sample.X Sample.Y 2 ∅
    = ∅.
Proof.
  split_and!.
  - intros [H|H]; [|discriminate].
    apply (H 2); [lia|]. left. reflexivity.
  - vm_compute. reflexivity.
  - left. intros d Hd. lia.
  - vm_compute. eexists. reflexivity.
  - intros [H|H]; [|discriminate].
    apply (H 1); [lia|]. left. reflexivity.
  - vm_compute. reflexivity.
Qed.

Lemma DependenceImp_unknown_distance_witness :
  tget Flow (DependenceImp.mDists
    (DependenceImp.run
       [DependenceImp.OpUpdate {[Flow; Anti]} Dependence.LoadStoreCause (Some 7%positive);
        DependenceImp.OpUpdate {[Flow]} Dependence.May None]
       DependenceImp.empty)) = ∅ ∧
  tget Anti (DependenceImp.mDists
    (DependenceImp.run
       [DependenceImp.OpUpdate {[Flow; Anti]} Dependence.LoadStoreCause (Some 7%positive);
        DependenceImp.OpUpdate {[Flow]} Dependence.May None]
       DependenceImp.empty)) = {[7%positive]}.
Proof.
  split.
  - apply (DependenceImp_unknown_distance
             [DependenceImp.OpUpdate {[Flow; Anti]} Dependence.LoadStoreCause
                (Some 7%positive);
              DependenceImp.OpUpdate {[Flow]} Dependence.May None] Flow).
    vm_compute. discriminate.
  - vm_compute. reflexivity.
Defined.

(** ** Explicit access resolver *)

Section ResolverFacts.

Variable mAliasTree : AliasTree.
Variable asLoadInst : Value → option MemoryLocation.
Variable DefUse : DefUseSet.
Variable LiveOut : LocationDFValue.
Variable LatchDefs ExitingDefs : DefinitionInfo.
Variable Deps : DependenceMap.

Lemma registerAccess_spec Base st :
  visitable mAliasTree st Base →
  ∃ cell st1 Old,
    registerAccess mAliasTree Base st = Some (cell, st1) ∧
    traitsBefore st Base Old ∧
    ExplicitAccesses st1 !! emId Base = Some cell ∧
    traits st1 !! cell = Some Old ∧
    length (traits st) ≤ length (traits st1) ∧
    (∀ c, c < length (traits st) → c ≠ cell →
          traits st1 !! c = traits st !! c).
Proof.
  unfold visitable, registerAccess, traitsBefore.
  destruct (ExplicitAccesses st !! emId Base) as [cell|] eqn:HEA.
  - intros Hlt. apply lookup_lt_is_Some in Hlt as [Old HOld].
    exists cell, st, Old. split_and!; done.
  - intros [[TL UL] HN]. rewrite HN. cbn.
    do 3 eexists. split; [reflexivity|]. split; [reflexivity|].
    split_and!; cbn.
    + by rewrite lookup_insert_eq.
    + by rewrite list_lookup_middle.
    + rewrite length_app. lia.
    + intros c Hc _. by rewrite lookup_app_l.
Qed.

Lemma accessTrait_private_cases Loc Base :
  hasUse DefUse Loc = false →
  ∃ Kind,
    accessTrait DefUse LiveOut LatchDefs ExitingDefs Deps Loc Base
      = Kind &' SharedTrait Deps Base ∧
    (overlap LiveOut Loc = false → Kind = BitMemoryTrait.Private) ∧
    (overlap LiveOut Loc = true → hasDef DefUse Loc = true →
       Kind = BitMemoryTrait.LastPrivate) ∧
    (overlap LiveOut Loc = true → hasDef DefUse Loc = false →
     contain (MustReach LatchDefs) Loc = true →
     overlap (MayReach ExitingDefs) Loc = false →
       Kind = BitMemoryTrait.SecondToLastPrivate &' BitMemoryTrait.FirstPrivate) ∧
    (overlap LiveOut Loc = true → hasDef DefUse Loc = false →
     contain (MustReach LatchDefs) Loc = false ∨
     overlap (MayReach ExitingDefs) Loc = true →
       Kind = BitMemoryTrait.DynamicPrivate &' BitMemoryTrait.FirstPrivate).
Proof.
  intros HU. unfold accessTrait. rewrite HU. cbn.
  destruct (overlap LiveOut Loc), (hasDef DefUse Loc),
    (contain (MustReach LatchDefs) Loc), (overlap (MayReach ExitingDefs) Loc);
    cbn; eexists; (split; [reflexivity|]); split_and!; intros; try done;
    intuition congruence.
Qed.

(** One visit of the loop of [resolveAccesses].  For a location that is not
    used before its definition in the loop, the visit succeeds in a state
    where the location can be visited, and conjoins into the traits of its estimate memory one
    kind together with SharedTrait: Private when the location is not live
    after the loop; LastPrivate when it is live and has a must definition
    in the loop; SecondToLastPrivate and FirstPrivate when it is live, has
    no must definition, is a must-reaching definition at the latch and is
    not a may-reaching definition at the exit; DynamicPrivate and
    FirstPrivate otherwise.  The traits of no other memory change.  A
    location met for the first time that is not live after the loop and has
    no recorded dependence is Private once the shared-join flag is
    dropped. *)
Theorem resolveAccess_private_kinds (Loc : MemoryLocation) (st : PassState) :
  hasUse DefUse Loc = false →
  visitable mAliasTree st (find mAliasTree Loc) →
  ∃ st' cell Old Kind,
    resolveAccess mAliasTree DefUse LiveOut LatchDefs ExitingDefs Deps Loc st
      = Some st' ∧
    traitsBefore st (find mAliasTree Loc) Old ∧
    ExplicitAccesses st' !! emId (find mAliasTree Loc) = Some cell ∧
    traits st' !! cell
      = Some (Old &' (Kind &' SharedTrait Deps (find mAliasTree Loc))) ∧
    (overlap LiveOut Loc = false → Kind = BitMemoryTrait.Private) ∧
    (overlap LiveOut Loc = true → hasDef DefUse Loc = true →
       Kind = BitMemoryTrait.LastPrivate) ∧
    (overlap LiveOut Loc = true → hasDef DefUse Loc = false →
     contain (MustReach LatchDefs) Loc = true →
     overlap (MayReach ExitingDefs) Loc = false →
       Kind = BitMemoryTrait.SecondToLastPrivate &' BitMemoryTrait.FirstPrivate) ∧
    (overlap LiveOut Loc = true → hasDef DefUse Loc = false →
     contain (MustReach LatchDefs) Loc = false ∨
     overlap (MayReach ExitingDefs) Loc = true →
       Kind = BitMemoryTrait.DynamicPrivate &' BitMemoryTrait.FirstPrivate) ∧
    (∀ c, c < length (traits st) → c ≠ cell →
          traits st' !! c = traits st !! c) ∧
    (ExplicitAccesses st !! emId (find mAliasTree Loc) = None →
     Deps !! emId (find mAliasTree Loc) = None →
     overlap LiveOut Loc = false →
     ∃ T, traits st' !! cell = Some T ∧
          BitMemoryTrait.dropSharedFlag (BitMemoryTrait.dropUnitFlag T)
            = BitMemoryTrait.Private).
Proof.
  intros HU Hvis.
  destruct (registerAccess_spec _ _ Hvis)
    as (cell & st1 & Old & Hreg & HOld & HEA & Hcell & Hlen & Hframe).
  destruct (accessTrait_private_cases Loc (find mAliasTree Loc) HU)
    as (Kind & HKind & HP & HL & HS & HD).
  assert (Hlt : cell < length (traits st1)).
  { apply lookup_lt_is_Some. eauto. }
  exists (setTraits st1
            (<[cell := Old &' accessTrait DefUse LiveOut LatchDefs ExitingDefs
                               Deps Loc (find mAliasTree Loc)]> (traits st1))),
    cell, Old, Kind.
  split_and!; try done.
  - unfold resolveAccess. rewrite Hreg. cbn. rewrite Hcell. reflexivity.
  - cbn. rewrite list_lookup_insert_eq by done. by rewrite HKind.
  - intros c Hc Hne. cbn. rewrite list_lookup_insert_ne by done. auto.
  - intros Hnew Hdeps Hlive. eexists. split.
    + cbn. rewrite list_lookup_insert_eq by done. reflexivity.
    + unfold traitsBefore in HOld. rewrite Hnew in HOld. subst Old.
      rewrite HKind, (HP Hlive). unfold SharedTrait. rewrite Hdeps.
      reflexivity.
Qed.

(** C8, as amended. [SharedTrait] and [DefTrait] are both Shared exactly
    when the estimate memory has no record in the dependence map; when it
    has one, [DefTrait] is Dependency and [SharedTrait] is NoAccess, which a
    conjunction leaves out: a location read before it is written gets
    [DefTrait], and one that is not read first and is dead after the loop
    gets Private with [SharedTrait]. *)
Theorem resolveAccesses_SharedTrait_DefTrait (Loc : MemoryLocation)
    (Base : EstimateMemory) :
  (SharedTrait Deps Base = BitMemoryTrait.Shared ↔ Deps !! emId Base = None) ∧
  (DefTrait Deps Base = BitMemoryTrait.Shared ↔ Deps !! emId Base = None) ∧
  SharedTrait Deps Base =
    (if bool_decide (is_Some (Deps !! emId Base))
     then BitMemoryTrait.NoAccess else BitMemoryTrait.Shared) ∧
  DefTrait Deps Base =
    (if bool_decide (is_Some (Deps !! emId Base))
     then BitMemoryTrait.Dependency else BitMemoryTrait.Shared) ∧
  (hasUse DefUse Loc = true →
   hasMayDef DefUse Loc || hasDef DefUse Loc = true →
     accessTrait DefUse LiveOut LatchDefs ExitingDefs Deps Loc Base
       = DefTrait Deps Base) ∧
  (hasUse DefUse Loc = false → overlap LiveOut Loc = false →
     accessTrait DefUse LiveOut LatchDefs ExitingDefs Deps Loc Base
       = BitMemoryTrait.Private &' SharedTrait Deps Base).
Proof.
  split_and!.
  - unfold SharedTrait. destruct (Deps !! emId Base); split; done.
  - unfold DefTrait. destruct (Deps !! emId Base); split; done.
  - unfold SharedTrait. destruct (Deps !! emId Base) eqn:H.
    + by rewrite bool_decide_eq_true_2.
    + rewrite bool_decide_eq_false_2; [done|]. by intros [? ?].
  - unfold DefTrait. destruct (Deps !! emId Base) eqn:H.
    + by rewrite bool_decide_eq_true_2.
    + rewrite bool_decide_eq_false_2; [done|]. by intros [? ?].
  - intros HU HD. unfold accessTrait. rewrite HU. cbn. by rewrite HD.
  - intros HU HL. unfold accessTrait. rewrite HU, HL. reflexivity.
Qed.

(** ** Pointer resolver *)

Lemma pointerTraitResolved_spec T :
  pointerTraitResolved T = true ↔ traitResolved T.
Proof.
  unfold pointerTraitResolved, traitResolved.
  rewrite !orb_true_iff, !bool_decide_eq_true. tauto.
Qed.

Lemma resolvePointer_frame Loc st st' :
  resolvePointer mAliasTree asLoadInst Loc st = Some st' →
  ExplicitAccesses st' = ExplicitAccesses st ∧
  ExplicitUnknowns st' = ExplicitUnknowns st ∧
  NodeTraits st' = NodeTraits st ∧
  length (traits st') = length (traits st) ∧
  (∀ c, (is_Some (asLoadInst (Ptr Loc)) →
         ExplicitAccesses st !! emId (find mAliasTree Loc) ≠ Some c) →
        traits st' !! c = traits st !! c).
Proof.
  unfold resolvePointer.
  destruct (asLoadInst (Ptr Loc)) as [LI|]; [|intros [= <-]; done].
  destruct (ExplicitAccesses st !! emId (find mAliasTree Loc)) as [cell|];
    [|done]. cbn.
  destruct (traits st !! cell) as [T|]; [|done]. cbn.
  destruct (pointerTraitResolved T); [intros [= <-]; done|].
  destruct (ExplicitAccesses st !! emId (find mAliasTree LI)) as [pcell|];
    [|done]. cbn.
  destruct (traits st !! pcell) as [PT|]; [|done]. cbn.
  destruct (bool_decide _); intros [= <-]; [done|].
  cbn. split_and!; try done.
  - by rewrite length_insert.
  - intros c Hc. apply list_lookup_insert_ne. intros ->. by apply Hc.
Qed.

(** One visit of the loop of [resolvePointers].  For a location whose
    pointer is loaded from memory, with traits [T], the visit changes
    nothing when [T] is Private, Readonly or Shared, or when the traits [PT] of the memory of the pointer
    are Readonly, and in every other case conjoins Dependency into [T];
    whatever the location, the traits of every other memory, the maps and
    the lists stay as they are, and so they do over the whole loop of
    [resolvePointers] for the traits that belong to no location with a
    loaded pointer. *)
Theorem resolvePointer_refines (Loc LI : MemoryLocation) (st : PassState)
    (cell : nat) (T : BitMemoryTrait.Id) :
  asLoadInst (Ptr Loc) = Some LI →
  ExplicitAccesses st !! emId (find mAliasTree Loc) = Some cell →
  traits st !! cell = Some T →
  (traitResolved T → resolvePointer mAliasTree asLoadInst Loc st = Some st) ∧
  (∀ pcell PT,
     ExplicitAccesses st !! emId (find mAliasTree LI) = Some pcell →
     traits st !! pcell = Some PT →
     (BitMemoryTrait.dropUnitFlag PT = BitMemoryTrait.Readonly →
        resolvePointer mAliasTree asLoadInst Loc st = Some st) ∧
     (¬ traitResolved T →
      BitMemoryTrait.dropUnitFlag PT ≠ BitMemoryTrait.Readonly →
        ∃ st', resolvePointer mAliasTree asLoadInst Loc st = Some st' ∧
               traits st' !! cell = Some (T &' BitMemoryTrait.Dependency) ∧
               (∀ c, c ≠ cell → traits st' !! c = traits st !! c) ∧
               ExplicitAccesses st' = ExplicitAccesses st ∧
               NodeTraits st' = NodeTraits st)) ∧
  (∀ st0 st0',
     resolvePointers mAliasTree asLoadInst DefUse st0 = Some st0' →
     ExplicitAccesses st0' = ExplicitAccesses st0 ∧
     NodeTraits st0' = NodeTraits st0 ∧
     ∀ c, (∀ L, L ∈ getExplicitAccesses DefUse →
                is_Some (asLoadInst (Ptr L)) →
                ExplicitAccesses st0 !! emId (find mAliasTree L) ≠ Some c) →
          traits st0' !! c = traits st0 !! c).
Proof.
  intros HLI HEA HT. split_and!.
  - intros Hres. unfold resolvePointer. rewrite HLI, HEA. cbn. rewrite HT. cbn.
    apply pointerTraitResolved_spec in Hres. by rewrite Hres.
  - intros pcell PT HPEA HPT. split.
    + intros HRO. unfold resolvePointer. rewrite HLI, HEA. cbn. rewrite HT. cbn.
      destruct (pointerTraitResolved T); [done|].
      rewrite HPEA. cbn. rewrite HPT. cbn.
      by rewrite bool_decide_eq_true_2.
    + intros Hres HRO. eexists. split.
      * unfold resolvePointer. rewrite HLI, HEA. cbn. rewrite HT. cbn.
        destruct (pointerTraitResolved T) eqn:HR.
        { apply pointerTraitResolved_spec in HR. contradiction. }
        rewrite HPEA. cbn. rewrite HPT. cbn.
        rewrite (bool_decide_eq_false_2
                   (BitMemoryTrait.dropUnitFlag PT = BitMemoryTrait.Readonly))
          by done.
        reflexivity.
      * cbn. split_and!; try done.
        -- apply list_lookup_insert_eq. apply lookup_lt_is_Some. eauto.
        -- intros c Hc. by apply list_lookup_insert_ne.
  - unfold resolvePointers. generalize (getExplicitAccesses DefUse) as l.
    induction l as [|L l IH]; intros st0 st0'; cbn.
    + intros [= <-]. done.
    + destruct (resolvePointer mAliasTree asLoadInst L st0) as [st1|] eqn:H1;
        [|done]. cbn. intros Hrest.
      apply resolvePointer_frame in H1 as (HEA1 & _ & HNT1 & _ & Hfr1).
      apply IH in Hrest as (HEA2 & HNT2 & Hfr2).
      split_and!; [congruence|congruence|].
      intros c Hc. rewrite Hfr2, Hfr1; [done|..].
      * intros HL. apply Hc; [left|done].
      * intros L' HL' HLoad. rewrite HEA1. apply Hc; [by right|done].
Qed.

End ResolverFacts.

Lemma resolveAccess_private_kinds_witness :
  ∃ st' cell T,
    resolveAccess Sample.tree SampleLoop.defUse SampleLoop.liveOut
      SampleLoop.noDefs SampleLoop.noDefs SampleLoop.depsY SampleLoop.X
      SampleLoop.start = Some st' ∧
    ExplicitAccesses st' !! emId (find Sample.tree SampleLoop.X) = Some cell ∧
    traits st' !! cell = Some T ∧
    BitMemoryTrait.dropSharedFlag (BitMemoryTrait.dropUnitFlag T)
      = BitMemoryTrait.Private.
Proof.
  destruct (resolveAccess_private_kinds Sample.tree SampleLoop.defUse
              SampleLoop.liveOut SampleLoop.noDefs SampleLoop.noDefs
              SampleLoop.depsY SampleLoop.X SampleLoop.start)
    as (st' & cell & Old & Kind & Hrun & _ & HEA & _ & _ & _ & _ & _ & _ & Hpriv).
  - reflexivity.
  - vm_compute. eexists. reflexivity.
  - destruct Hpriv as (T & HT & HP); [reflexivity..|].
    exists st', cell, T. split_and!; assumption.
Defined.

Lemma resolveAccesses_SharedTrait_DefTrait_witness :
  SharedTrait SampleLoop.depsY (find Sample.tree SampleLoop.X)
    = BitMemoryTrait.Shared ∧
  DefTrait SampleLoop.depsY (find Sample.tree SampleLoop.Y)
    = BitMemoryTrait.Dependency.
Proof.
  pose proof (resolveAccesses_SharedTrait_DefTrait SampleLoop.defUse
                SampleLoop.liveOut SampleLoop.noDefs SampleLoop.noDefs
                SampleLoop.depsY SampleLoop.X (find Sample.tree SampleLoop.X))
    as (HS & _).
  pose proof (resolveAccesses_SharedTrait_DefTrait SampleLoop.defUse
                SampleLoop.liveOut SampleLoop.noDefs SampleLoop.noDefs
                SampleLoop.depsY SampleLoop.Y (find Sample.tree SampleLoop.Y))
    as (_ & _ & _ & HD & _).
  split.
  - apply HS. reflexivity.
  - rewrite HD. reflexivity.
Defined.

(** C8, the sentence as written fails: when the estimate memory has a record
    in the dependence map, [SharedTrait] is NoAccess and not Dependency, so a
    location written before it is read and dead after the loop keeps
    Private, where a conjunction with Dependency would leave Dependency. *)
Lemma SharedTrait_of_recorded_dependence :
  is_Some (SampleLoop.depsXY !! emId (find Sample.tree SampleLoop.X)) ∧
  SharedTrait SampleLoop.depsXY (find Sample.tree SampleLoop.X)
    = BitMemoryTrait.NoAccess ∧
  SharedTrait SampleLoop.depsXY (find Sample.tree SampleLoop.X)
    ≠ BitMemoryTrait.Dependency ∧
  (traits <$>
     resolveAccess Sample.tree SampleLoop.defUse SampleLoop.liveOut
       SampleLoop.noDefs SampleLoop.noDefs SampleLoop.depsXY SampleLoop.X
       SampleLoop.start) = Some [BitMemoryTrait.Private] ∧
  BitMemoryTrait.Private &' BitMemoryTrait.Dependency ≠ BitMemoryTrait.Private.
Proof.
  split_and!.
  - vm_compute. eexists. reflexivity.
  - reflexivity.
  - vm_compute. discriminate.
  - vm_compute. reflexivity.
  - vm_compute. discriminate.
Qed.

Lemma resolvePointer_refines_witness :
  ∃ st',
    resolvePointer Sample.tree SampleLoop.asLoadInst SampleLoop.S sampleAccessed
      = Some st' ∧
    traits st' !! 5 = Some BitMemoryTrait.Dependency ∧
    resolvePointer Sample.tree SampleLoop.asLoadInst SampleLoop.Q sampleAccessed
      = Some sampleAccessed.
Proof.
  destruct (resolvePointer_refines Sample.tree SampleLoop.asLoadInst
              SampleLoop.defUse SampleLoop.S SampleLoop.R sampleAccessed
              5 405%Z) as (_ & H & _);
    [vm_compute; reflexivity..|].
  destruct (H 4 445%Z) as (_ & H'); [vm_compute; reflexivity..|].
  destruct H' as (st' & Hrun & HT & _).
  - intros [HR|[HR|HR]]; vm_compute in HR; discriminate.
  - vm_compute. discriminate.
  - exists st'. split_and!; [exact Hrun|exact HT|].
    destruct (resolvePointer_refines Sample.tree SampleLoop.asLoadInst
                SampleLoop.defUse SampleLoop.Q SampleLoop.P sampleAccessed
                3 405%Z) as (_ & HQ & _);
      [vm_compute; reflexivity..|].
    apply (HQ 2 447%Z); [vm_compute; reflexivity..].
Defined.

(** ** First-private refiner *)

Lemma isAmbiguousCover_spec Reach EM :
  isAmbiguousCover Reach EM = true ↔
  ∀ Ptr, Ptr ∈ emPtrs EM →
         contain Reach (mkMemoryLocation Ptr (getSize EM) (getAAInfo EM)) = true.
Proof.
  unfold isAmbiguousCover. rewrite forallb_forall.
  split; intros H p Hp; apply H; by apply list_elem_of_In.
Qed.

Section FirstPrivateFacts.

Variable LatchDefs ExitingDefs : DefinitionInfo.
Variable cover : EstimateMemory → list EstimateMemory → bool.

Lemma elem_of_DefLeafs Dptr EM D :
  D ∈ DefLeafs LatchDefs ExitingDefs Dptr EM ↔
  D ∈ df EM ∧ isDefLeaf LatchDefs ExitingDefs Dptr D = true.
Proof. unfold DefLeafs. rewrite list_elem_of_filter. tauto. Qed.

Lemma checkFirstPrivate_frame TraitItr Dptr mem mem' Dptr' :
  checkFirstPrivate LatchDefs ExitingDefs cover TraitItr Dptr mem
    = Some (mem', Dptr') →
  length mem' = length mem ∧
  (∀ c, c ≠ TraitItr.2 → mem' !! c = mem !! c) ∧
  unsetDeps Dptr ⊆ unsetDeps Dptr'.
Proof.
  unfold checkFirstPrivate.
  destruct (_ || _); [intros [= <- <-]; done|].
  destruct (cover _ _); [intros [= <- <-]; done|].
  destruct (mem !! TraitItr.2) as [T|]; [|done]. cbn. intros [= <- <-].
  split_and!.
  - by rewrite length_insert.
  - intros c Hc. by apply list_lookup_insert_ne.
  - unfold unsetDeps. set_solver.
Qed.

(** C2. For a memory whose descriptor has LastPrivate or SecondToLastPrivate
    and not FirstPrivate, [checkFirstPrivate] collects the leaves below the
    memory every pointer of which is in the must-reaching definitions at
    the exit of the loop (LastPrivate), or at the latch or at the exit
    (SecondToLastPrivate alone).  When the coverage test says that these
    leaves cover the memory, the traits and the descriptor stay as they
    are; otherwise FirstPrivate is conjoined into the traits of the memory
    and set in the descriptor. *)
Theorem checkFirstPrivate_refines (TraitItr : EstimateMemory * nat)
    (Dptr : MemoryDescriptor) (mem : list BitMemoryTrait.Id)
    (T : BitMemoryTrait.Id) :
  trait.FirstPrivate ∉ Dptr →
  trait.LastPrivate ∈ Dptr ∨ trait.SecondToLastPrivate ∈ Dptr →
  mem !! TraitItr.2 = Some T →
  (∀ D, D ∈ DefLeafs LatchDefs ExitingDefs Dptr TraitItr.1 ↔
        D ∈ df TraitItr.1 ∧ isLeaf D = true ∧
        if bool_decide (trait.LastPrivate ∈ Dptr)
        then isAmbiguousCover (MustReach ExitingDefs) D = true
        else isAmbiguousCover (MustReach LatchDefs) D = true ∨
             isAmbiguousCover (MustReach ExitingDefs) D = true) ∧
  (cover TraitItr.1 (DefLeafs LatchDefs ExitingDefs Dptr TraitItr.1) = true →
     checkFirstPrivate LatchDefs ExitingDefs cover TraitItr Dptr mem
       = Some (mem, Dptr)) ∧
  (cover TraitItr.1 (DefLeafs LatchDefs ExitingDefs Dptr TraitItr.1) = false →
     checkFirstPrivate LatchDefs ExitingDefs cover TraitItr Dptr mem
       = Some (<[TraitItr.2 := T &' BitMemoryTrait.FirstPrivate]> mem,
               {[trait.FirstPrivate]} ∪ Dptr)).
Proof.
  intros HF HL HT.
  assert (Hgo : bool_decide (trait.FirstPrivate ∈ Dptr) ||
                (bool_decide (trait.LastPrivate ∉ Dptr) &&
                 bool_decide (trait.SecondToLastPrivate ∉ Dptr)) = false).
  { rewrite (bool_decide_eq_false_2 _ HF). cbn.
    apply andb_false_iff.
    destruct HL as [HL|HL]; [left|right]; apply bool_decide_eq_false_2; tauto. }
  split_and!.
  - intros D. rewrite elem_of_DefLeafs. unfold isDefLeaf.
    destruct (isLeaf D); cbn; [|naive_solver].
    destruct (bool_decide (trait.LastPrivate ∈ Dptr)) eqn:HLP; [tauto|].
    rewrite bool_decide_eq_true_2.
    + rewrite orb_true_iff. tauto.
    + apply bool_decide_eq_false in HLP. tauto.
  - intros Hc. unfold checkFirstPrivate. by rewrite Hgo, Hc.
  - intros Hc. unfold checkFirstPrivate. rewrite Hgo, Hc, HT. reflexivity.
Qed.

(** A descriptor that is FirstPrivate already, or neither LastPrivate nor
    SecondToLastPrivate, is left alone. *)
Lemma checkFirstPrivate_skips TraitItr Dptr mem :
  trait.FirstPrivate ∈ Dptr ∨
  ((trait.LastPrivate ∉ Dptr) ∧ (trait.SecondToLastPrivate ∉ Dptr)) →
  checkFirstPrivate LatchDefs ExitingDefs cover TraitItr Dptr mem
    = Some (mem, Dptr).
Proof.
  intros H. unfold checkFirstPrivate.
  assert (Hskip : bool_decide (trait.FirstPrivate ∈ Dptr) ||
                  (bool_decide (trait.LastPrivate ∉ Dptr) &&
                   bool_decide (trait.SecondToLastPrivate ∉ Dptr)) = true).
  { apply orb_true_iff. destruct H as [H|[H1 H2]]; [left|right].
    - by apply bool_decide_eq_true_2.
    - apply andb_true_iff. split; by apply bool_decide_eq_true_2. }
  by rewrite Hskip.
Qed.

End FirstPrivateFacts.

Lemma checkFirstPrivate_refines_witness :
  checkFirstPrivate (SampleTree.reach []) (SampleTree.reach [11; 12]%positive)
    SampleTree.cover (SampleTree.A, 0) {[trait.LastPrivate]}
    [BitMemoryTrait.LastPrivate]
  = Some ([BitMemoryTrait.LastPrivate], {[trait.LastPrivate]}) ∧
  checkFirstPrivate (SampleTree.reach []) (SampleTree.reach [11]%positive)
    SampleTree.cover (SampleTree.A, 0) {[trait.LastPrivate]}
    [BitMemoryTrait.LastPrivate]
  = Some ([BitMemoryTrait.LastPrivate &' BitMemoryTrait.FirstPrivate],
          {[trait.FirstPrivate; trait.LastPrivate]}).
Proof.
  split.
  - apply (checkFirstPrivate_refines (SampleTree.reach [])
             (SampleTree.reach [11; 12]%positive) SampleTree.cover
             (SampleTree.A, 0) {[trait.LastPrivate]}
             [BitMemoryTrait.LastPrivate] BitMemoryTrait.LastPrivate).
    + set_solver.
    + left. set_solver.
    + reflexivity.
    + vm_compute. reflexivity.
  - apply (checkFirstPrivate_refines (SampleTree.reach [])
             (SampleTree.reach [11]%positive) SampleTree.cover
             (SampleTree.A, 0) {[trait.LastPrivate]}
             [BitMemoryTrait.LastPrivate] BitMemoryTrait.LastPrivate).
    + set_solver.
    + left. set_solver.
    + reflexivity.
    + vm_compute. reflexivity.
Defined.

(** ** Coverage closure *)

Lemma onlyAddsDependence_refl Itr : onlyAddsDependence Itr Itr.
Proof. unfold onlyAddsDependence. set_solver. Qed.

Lemma onlyAddsDependence_trans Itr1 Itr2 Itr3 :
  onlyAddsDependence Itr1 Itr2 → onlyAddsDependence Itr2 Itr3 →
  onlyAddsDependence Itr1 Itr3.
Proof.
  unfold onlyAddsDependence.
  intros (H1 & H2 & H3 & H4) (H5 & H6 & H7 & H8).
  split_and!; [set_solver|set_solver|congruence|congruence].
Qed.

Lemma closeDescendant_step DS D n :
  match DS !! n with
  | None => closeDescendant DS D !! n = None
  | Some Itr => ∃ Itr', closeDescendant DS D !! n = Some Itr' ∧
                        onlyAddsDependence Itr Itr'
  end.
Proof.
  unfold closeDescendant.
  destruct (DS !! anId D) as [ItrD|] eqn:HD.
  - destruct (bool_decide (trait.NoAccess ∉ atDptr ItrD)).
    + destruct (decide (anId D = n)) as [<-|Hne].
      * rewrite HD, lookup_insert_eq. eexists. split; [done|].
        unfold onlyAddsDependence. cbn. set_solver.
      * rewrite lookup_insert_ne by done.
        destruct (DS !! n); [|done]. eauto using onlyAddsDependence_refl.
    + destruct (DS !! n); [|done]. eauto using onlyAddsDependence_refl.
  - destruct (DS !! n); [|done]. eauto using onlyAddsDependence_refl.
Qed.

Lemma closeDescendants_grow l DS n :
  match DS !! n with
  | None => foldl closeDescendant DS l !! n = None
  | Some Itr => ∃ Itr', foldl closeDescendant DS l !! n = Some Itr' ∧
                        onlyAddsDependence Itr Itr'
  end.
Proof.
  revert DS. induction l as [|D l IH]; intros DS; cbn.
  - destruct (DS !! n); [|done]. eauto using onlyAddsDependence_refl.
  - pose proof (closeDescendant_step DS D n) as Hstep.
    pose proof (IH (closeDescendant DS D)) as Hrest.
    destruct (DS !! n) as [Itr|].
    + destruct Hstep as (Itr1 & H1 & HG1). rewrite H1 in Hrest.
      destruct Hrest as (Itr2 & H2 & HG2).
      eauto using onlyAddsDependence_trans.
    + by rewrite Hstep in Hrest.
Qed.

Lemma closeDescendants_force l DS D Itr :
  D ∈ l → DS !! anId D = Some Itr → trait.NoAccess ∉ atDptr Itr →
  ∃ Itr', foldl closeDescendant DS l !! anId D = Some Itr' ∧
          depTraits ⊆ atDptr Itr'.
Proof.
  revert DS Itr. induction l as [|D' l IH]; intros DS Itr HD HItr HNA.
  - inversion HD.
  - cbn. apply elem_of_cons in HD as [<-|HD].
    + assert (Hstep : closeDescendant DS D !! anId D
                      = Some (mkAliasTrait (depTraits ∪ atDptr Itr)
                                (atAccesses Itr) (atUnknowns Itr))).
      { unfold closeDescendant. rewrite HItr.
        rewrite bool_decide_eq_true_2 by done. by rewrite lookup_insert_eq. }
      pose proof (closeDescendants_grow l (closeDescendant DS D) (anId D))
        as Hrest.
      rewrite Hstep in Hrest. destruct Hrest as (Itr' & H' & HG).
      exists Itr'. split; [done|].
      destruct HG as (HG & _). cbn in HG. set_solver.
    + pose proof (closeDescendant_step DS D' (anId D)) as Hstep.
      rewrite HItr in Hstep. destruct Hstep as (Itr1 & H1 & HG1).
      apply (IH _ Itr1); [done|done|].
      destruct HG1 as (_ & HG1 & _). unfold depTraits in HG1. set_solver.
Qed.

Lemma foldl_flat_map {A B C : Type} (f : A → B → A) (g : C → list B)
    (l : list C) (a : A) :
  foldl (λ a x, foldl f a (g x)) a l = foldl f a (flat_map g l).
Proof.
  revert a. induction l as [|x l IH]; intros a; cbn; [done|].
  by rewrite foldl_app, IH.
Qed.

Lemma closeCoverage_visits Coverage DS :
  closeCoverage Coverage DS =
  foldl closeDescendant DS
    (flat_map (λ Node, flat_map dfNodes (anChildren Node)) Coverage).
Proof.
  unfold closeCoverage.
  rewrite <- (foldl_flat_map closeDescendant
                (λ Node, flat_map dfNodes (anChildren Node))).
  revert DS. induction Coverage as [|Node l IH]; intros DS; cbn; [done|].
  rewrite (foldl_flat_map closeDescendant dfNodes). apply IH.
Qed.

Lemma dfNodes_self D : D ∈ dfNodes D.
Proof. destruct D. cbn. left. Qed.

Lemma dfNodes_below Node Child D :
  Child ∈ anChildren Node → D ∈ dfNodes Child → D ∈ dfNodes Node.
Proof.
  intros HC HD. destruct Node as [id children]. cbn in *. right.
  apply list_elem_of_In, in_flat_map. exists Child.
  split; by apply list_elem_of_In.
Qed.

Lemma StrictDescendant_visited Node D :
  StrictDescendant Node D → D ∈ flat_map dfNodes (anChildren Node).
Proof.
  induction 1 as [Node Child HC|Node Child D HC HD IH].
  - apply list_elem_of_In, in_flat_map. exists Child.
    split; apply list_elem_of_In; [done|apply dfNodes_self].
  - apply list_elem_of_In, in_flat_map. exists Child.
    split; [by apply list_elem_of_In|].
    apply list_elem_of_In, in_flat_map in IH as (C' & HC' & HD').
    apply list_elem_of_In.
    eapply dfNodes_below; apply list_elem_of_In; eauto.
Qed.

(** C7. After the closure, every strict descendant of a node of the
    coverage that has a stored descriptor which is not NoAccess has Flow,
    Anti and Output in its descriptor; and the closure removes no trait from
    the descriptor of any node: a stored descriptor keeps all its traits,
    gains at most Flow, Anti and Output, keeps the traits of its memory, and
    no node gains or loses a descriptor. *)
Theorem propagateCoverage_adds_dependence
    (explicitAccessCoverage : DependencySet → list AliasNode)
    (DS : DependencySet) :
  (∀ Node D Itr,
     Node ∈ explicitAccessCoverage DS → StrictDescendant Node D →
     DS !! anId D = Some Itr → trait.NoAccess ∉ atDptr Itr →
     ∃ Itr', propagateCoverage explicitAccessCoverage DS !! anId D = Some Itr' ∧
             trait.Dep Flow ∈ atDptr Itr' ∧ trait.Dep Anti ∈ atDptr Itr' ∧
             trait.Dep Output ∈ atDptr Itr') ∧
  (∀ n Itr, DS !! n = Some Itr →
     ∃ Itr', propagateCoverage explicitAccessCoverage DS !! n = Some Itr' ∧
             onlyAddsDependence Itr Itr') ∧
  (∀ n, DS !! n = None →
        propagateCoverage explicitAccessCoverage DS !! n = None).
Proof.
  unfold propagateCoverage. rewrite closeCoverage_visits. split_and!.
  - intros Node D Itr HN HD HItr HNA.
    destruct (closeDescendants_force
                (flat_map (λ Node, flat_map dfNodes (anChildren Node))
                   (explicitAccessCoverage DS)) DS D Itr)
      as (Itr' & H' & Hdep); [|done|done|].
    + apply list_elem_of_In, in_flat_map. exists Node.
      split; apply list_elem_of_In; [done|by apply StrictDescendant_visited].
    + exists Itr'. unfold depTraits in Hdep. set_solver.
  - intros n Itr HItr.
    pose proof (closeDescendants_grow
                  (flat_map (λ Node, flat_map dfNodes (anChildren Node))
                     (explicitAccessCoverage DS)) DS n) as H.
    by rewrite HItr in H.
  - intros n Hn.
    pose proof (closeDescendants_grow
                  (flat_map (λ Node, flat_map dfNodes (anChildren Node))
                     (explicitAccessCoverage DS)) DS n) as H.
    by rewrite Hn in H.
Qed.

Lemma propagateCoverage_adds_dependence_witness :
  (atDptr <$> propagateCoverage (λ _, [SampleTree.n1]) SampleTree.results
                !! 3%positive)
    = Some ({[trait.Dep Flow; trait.Dep Anti; trait.Dep Output;
              trait.Shared; trait.ExplicitAccess]}) ∧
  propagateCoverage (λ _, [SampleTree.n1]) SampleTree.results !! 4%positive
    = SampleTree.results !! 4%positive ∧
  ∃ Itr', propagateCoverage (λ _, [SampleTree.n1]) SampleTree.results
            !! 3%positive = Some Itr' ∧
          trait.Dep Flow ∈ atDptr Itr' ∧ trait.Dep Anti ∈ atDptr Itr' ∧
          trait.Dep Output ∈ atDptr Itr'.
Proof.
  split_and!.
  - vm_compute. reflexivity.
  - vm_compute. reflexivity.
  - apply (proj1 (propagateCoverage_adds_dependence (λ _, [SampleTree.n1])
                    SampleTree.results)
             SampleTree.n1 SampleTree.n3
             (mkAliasTrait {[trait.Shared; trait.ExplicitAccess]} ∅ ∅)).
    + left.
    + eapply descendant_below; [left|]. apply descendant_child. left.
    + vm_compute. reflexivity.
    + cbn. set_solver.
Defined.

(** ** Results of an alias node *)

Lemma elem_of_depKindsOf k (Dptr : MemoryDescriptor) :
  k ∈ depKindsOf Dptr ↔ trait.Dep k ∈ Dptr.
Proof.
  unfold depKindsOf. rewrite elem_of_filter, elem_of_list_to_set.
  split; [tauto|]. intros H. split; [done|].
  unfold allDepKinds. destruct k; set_solver.
Qed.

Lemma depKindsOf_unsetDeps Dptr : depKindsOf (unsetDeps Dptr) = ∅.
Proof.
  apply set_eq. intros k. rewrite elem_of_depKindsOf.
  unfold unsetDeps, depTraits. destruct k; set_solver.
Qed.

Lemma depKindsOf_union D1 D2 :
  depKindsOf (D1 ∪ D2) = depKindsOf D1 ∪ depKindsOf D2.
Proof.
  apply set_eq. intros k.
  rewrite elem_of_union, !elem_of_depKindsOf. set_solver.
Qed.

Lemma depKindsOf_setExplicit b Dptr :
  depKindsOf (setExplicit b Dptr) = depKindsOf Dptr.
Proof.
  destruct b; [|done]. cbn. apply set_eq. intros k.
  rewrite !elem_of_depKindsOf. set_solver.
Qed.

Lemma depKindsOf_setFromDeps K Dptr :
  depKindsOf (setFromDeps K Dptr) = depKindsOf Dptr ∪ K.
Proof.
  apply set_eq. intros k. unfold setFromDeps.
  rewrite elem_of_union, !elem_of_depKindsOf, elem_of_union, elem_of_map.
  split.
  - intros [H|(k' & [= <-] & H)]; tauto.
  - intros [H|H]; [tauto|]. right. eauto.
Qed.

Lemma unsetDeps_setFromDeps K Dptr :
  unsetDeps (setFromDeps K Dptr) = unsetDeps Dptr.
Proof.
  apply set_eq. intros x. unfold unsetDeps, setFromDeps, depTraits.
  rewrite !elem_of_difference, elem_of_union, elem_of_map.
  split; [|tauto]. intros [[H|(k & -> & H)] Hn]; [tauto|].
  exfalso. apply Hn. destruct k; set_solver.
Qed.

Lemma unsetDeps_union D1 D2 :
  unsetDeps (D1 ∪ D2) = unsetDeps D1 ∪ unsetDeps D2.
Proof. unfold unsetDeps. set_solver. Qed.

Lemma dropUnitFlag_conj a b :
  BitMemoryTrait.dropUnitFlag (a &' b) =
  BitMemoryTrait.dropUnitFlag a &' BitMemoryTrait.dropUnitFlag b.
Proof. unfold BitMemoryTrait.dropUnitFlag, BitMemoryTrait.conj.
  apply Z.lor_land_distr_l. Qed.

Lemma dropUnitFlag_conj_Dependency a :
  BitMemoryTrait.dropUnitFlag (a &' BitMemoryTrait.Dependency)
  = BitMemoryTrait.Dependency.
Proof.
  rewrite dropUnitFlag_conj.
  unfold BitMemoryTrait.dropUnitFlag, BitMemoryTrait.conj.
  change (Z.lor BitMemoryTrait.Dependency BitMemoryTrait.AllUnitFlags)
    with BitMemoryTrait.AllUnitFlags.
  change BitMemoryTrait.Dependency with BitMemoryTrait.AllUnitFlags.
  apply Z.bits_inj'. intros n Hn.
  rewrite Z.land_spec, Z.lor_spec.
  destruct (Z.testbit a n), (Z.testbit BitMemoryTrait.AllUnitFlags n); reflexivity.
Qed.

(** The classification that [combineTrait] leaves. *)
Lemma combineTrait_class C :
  (BitMemoryTrait.dropUnitFlag C = BitMemoryTrait.Readonly →
   BitMemoryTrait.dropUnitFlag (combineTrait C) = BitMemoryTrait.Readonly) ∧
  (BitMemoryTrait.dropUnitFlag C = BitMemoryTrait.Shared →
   BitMemoryTrait.dropUnitFlag (combineTrait C) = BitMemoryTrait.Shared) ∧
  (BitMemoryTrait.dropUnitFlag C ≠ BitMemoryTrait.Readonly →
   BitMemoryTrait.dropUnitFlag C ≠ BitMemoryTrait.Shared →
   BitMemoryTrait.dropUnitFlag (combineTrait C) = BitMemoryTrait.Dependency).
Proof.
  unfold combineTrait. split_and!.
  - intros H. rewrite bool_decide_eq_true_2 by done.
    rewrite dropUnitFlag_conj, H. reflexivity.
  - intros H. rewrite bool_decide_eq_false_2 by (rewrite H; done).
    rewrite bool_decide_eq_true_2 by done.
    rewrite dropUnitFlag_conj, H. reflexivity.
  - intros H1 H2. rewrite !bool_decide_eq_false_2 by done.
    apply dropUnitFlag_conj_Dependency.
Qed.

Lemma dropUnitFlag_foldl_conj acc Ts :
  BitMemoryTrait.dropUnitFlag (foldl BitMemoryTrait.conj acc Ts) =
  foldl BitMemoryTrait.conj (BitMemoryTrait.dropUnitFlag acc)
    (BitMemoryTrait.dropUnitFlag <$> Ts).
Proof.
  revert acc. induction Ts as [|T Ts IH]; intros acc; cbn; [done|].
  by rewrite IH, dropUnitFlag_conj.
Qed.

(** Traits that are all [X], for an idempotent [X] below the default trait,
    have the conjunction [X]. *)
Lemma conjAll_same X Ts :
  X &' X = X → BitMemoryTrait.dropUnitFlag BitMemoryTrait.default &' X = X →
  Ts ≠ [] → Forall (λ T, BitMemoryTrait.dropUnitFlag T = X) Ts →
  BitMemoryTrait.dropUnitFlag (conjAll Ts) = X.
Proof.
  intros HX HD Hne Hall. unfold conjAll. rewrite dropUnitFlag_foldl_conj.
  destruct Ts as [|T Ts]; [done|].
  inversion_clear Hall as [|T0 Ts0 HT Hall']. cbn. rewrite HT, HD.
  clear HT Hne. induction Hall' as [|T' Ts' HT' _ IH]; cbn; [done|].
  by rewrite HT', HX.
Qed.

Lemma insertIfAbsent_lookup {V : Type} (k k' : positive) (v : V)
    (m : gmap positive V) :
  insertIfAbsent k v m !! k' =
  match m !! k' with
  | Some x => Some x
  | None => if decide (k = k') then Some v else None
  end.
Proof.
  unfold insertIfAbsent. destruct (m !! k) as [x|] eqn:Hk.
  - destruct (m !! k') eqn:Hk'; [done|].
    destruct (decide (k = k')) as [->|]; [congruence|done].
  - destruct (decide (k = k')) as [->|Hne].
    + by rewrite lookup_insert_eq, Hk.
    + rewrite lookup_insert_ne by done. by destruct (m !! k').
Qed.

Lemma foldl_setDependence (f : DepKind → IRDependence) l T :
  depKindsOf (emtDptr (foldl (λ T k, setDependence k (f k) T) T l))
  = depKindsOf (emtDptr T) ∪ list_to_set l.
Proof.
  revert T. induction l as [|k l IH]; intros T; cbn.
  - set_solver.
  - rewrite IH. cbn. rewrite depKindsOf_union.
    assert (depKindsOf {[trait.Dep k]} = {[k]}) as ->.
    { apply set_eq. intros k'. rewrite elem_of_depKindsOf. set_solver. }
    set_solver.
Qed.

Lemma list_to_set_for_each_kind (Dptr : gset DepKind) :
  list_to_set (for_each_kind Dptr) = Dptr.
Proof.
  apply set_eq. intros k.
  by rewrite elem_of_list_to_set, DependenceImpFacts.elem_of_for_each_kind.
Qed.

Lemma Forall2_lookup_frame (m m' : list BitMemoryTrait.Id) (cs : list nat)
    (Ts : list BitMemoryTrait.Id) :
  (∀ c, c ∈ cs → m' !! c = m !! c) →
  Forall2 (λ c T, m' !! c = Some T) cs Ts →
  Forall2 (λ c T, m !! c = Some T) cs Ts.
Proof.
  intros Hfr H. induction H as [|c T cs Ts Hc _ IH]; constructor.
  - rewrite <- Hfr; [done|left].
  - apply IH. intros c' Hc'. apply Hfr. by right.
Qed.

Section StoreFacts.

Variable mAliasTree : AliasTree.
Variable toDescriptor : BitMemoryTrait.Id → MemoryDescriptor.
Variable LatchDefs ExitingDefs : DefinitionInfo.
Variable cover : EstimateMemory → list EstimateMemory → bool.
Variable N : positive.
Variable ExplicitAccesses : gmap positive nat.
Variable ExplicitUnknowns : gmap positive (positive * nat).
Variable Deps : DependenceMap.

Lemma storeDepIfNeed_spec EM T T' :
  storeDepIfNeed Deps EM T = Some T' →
  ∃ Rec, Deps !! emId EM = Some Rec ∧
         depKindsOf (emtDptr T')
         = depKindsOf (emtDptr T) ∪ DependenceImp.mDptr Rec.
Proof.
  unfold storeDepIfNeed. destruct (Deps !! emId EM) as [Rec|]; [|done].
  cbn -[for_each_kind]. intros [= <-]. exists Rec. split; [done|].
  by rewrite foldl_setDependence, list_to_set_for_each_kind.
Qed.

(** One step of the loop over the estimate memory of a node. *)
Lemma storeMemory_step EMI st st' :
  storeMemory mAliasTree toDescriptor LatchDefs ExitingDefs cover N
    ExplicitAccesses Deps EMI st = Some st' →
  kindsCombined st →
  ∃ T0 T',
    stTraits st !! EMI.2 = Some T0 ∧
    stCombinedTrait st' = stCombinedTrait st &' T0 ∧
    stTraits st' !! EMI.2 = Some T' ∧
    (∀ c, c ≠ EMI.2 → stTraits st' !! c = stTraits st !! c) ∧
    kindsCombined st' ∧
    atUnknowns (stNode st') = atUnknowns (stNode st) ∧
    is_Some (atAccesses (stNode st') !! emId EMI.1) ∧
    (∀ id, is_Some (atAccesses (stNode st) !! id) →
           is_Some (atAccesses (stNode st') !! id)) ∧
    (∀ k, k ∈ stCombinedDepDptr st' ↔
          k ∈ stCombinedDepDptr st ∨
          (BitMemoryTrait.dropUnitFlag T' = BitMemoryTrait.Dependency ∧
           ∃ Rec, Deps !! emId EMI.1 = Some Rec ∧
                  k ∈ DependenceImp.mDptr Rec)).
Proof.
  unfold storeMemory. intros Hrun HK.
  destruct (stTraits st !! EMI.2) as [T0|] eqn:HT0; [|done]. cbn in Hrun.
  destruct (checkFirstPrivate _ _ _ _ _ _) as [[mem Dptr]|] eqn:Hcfp; [|done].
  cbn in Hrun.
  apply checkFirstPrivate_frame in Hcfp as (_ & Hframe & _).
  destruct (isExplicitAccess _ _ _ _ _) as [explicit|]; [|done]. cbn in Hrun.
  destruct (mem !! EMI.2) as [T'|] eqn:HT'; [|done]. cbn in Hrun.
  set (New := mkEstimateMemoryTrait EMI.1
                (unsetDeps (setExplicit explicit Dptr)) noDeps) in *.
  set (Accesses := insertIfAbsent (emId EMI.1) New (atAccesses (stNode st))) in *.
  assert (HAcc : ∀ id T, Accesses !! id = Some T →
                         depKindsOf (emtDptr T) ⊆ stCombinedDepDptr st).
  { intros id T. unfold Accesses. rewrite insertIfAbsent_lookup.
    destruct (atAccesses (stNode st) !! id) as [x|] eqn:Hx.
    - intros [= <-]. eauto.
    - destruct (decide (emId EMI.1 = id)); [|done]. intros [= <-].
      unfold New. cbn. rewrite depKindsOf_unsetDeps. set_solver. }
  assert (HAccSome : ∀ id, is_Some (atAccesses (stNode st) !! id) →
                           is_Some (Accesses !! id)).
  { intros id [x Hx]. unfold Accesses. rewrite insertIfAbsent_lookup, Hx. eauto. }
  assert (HAccNew : is_Some (Accesses !! emId EMI.1)).
  { unfold Accesses. rewrite insertIfAbsent_lookup.
    destruct (atAccesses (stNode st) !! emId EMI.1); [eauto|].
    destruct (decide (emId EMI.1 = emId EMI.1)); [eauto|done]. }
  destruct (bool_decide (BitMemoryTrait.dropUnitFlag T'
                         = BitMemoryTrait.Dependency)) eqn:HDep.
  - apply bool_decide_eq_true in HDep.
    destruct (Accesses !! emId EMI.1) as [EMTrait|] eqn:HEMT; [|done].
    cbn in Hrun.
    destruct (storeDepIfNeed Deps EMI.1 EMTrait) as [EMTrait'|] eqn:Hsd;
      [|done].
    cbn in Hrun. injection Hrun as <-. cbn.
    apply storeDepIfNeed_spec in Hsd as (Rec & HRec & Hkinds).
    pose proof (HAcc _ _ HEMT) as Hold.
    exists T0, T'. split_and!; try done.
    + intros id T. cbn. destruct (decide (emId EMI.1 = id)) as [<-|Hne].
      * rewrite lookup_insert_eq. intros [= <-].
        unfold setFromMemory. set_solver.
      * rewrite lookup_insert_ne by done. intros HT.
        apply HAcc in HT. unfold setFromMemory. set_solver.
    + by rewrite lookup_insert_eq.
    + intros id Hid. destruct (decide (emId EMI.1 = id)) as [<-|Hne].
      * by rewrite lookup_insert_eq.
      * rewrite lookup_insert_ne by done. auto.
    + intros k. unfold setFromMemory. rewrite elem_of_union, Hkinds.
      split.
      * intros [Hk|Hk]; [tauto|].
        apply elem_of_union in Hk as [Hk|Hk]; [left; set_solver|].
        right. eauto.
      * intros [Hk|(_ & Rec' & HRec' & Hk)]; [tauto|].
        right. rewrite HRec in HRec'. injection HRec' as <-. set_solver.
  - apply bool_decide_eq_false in HDep.
    injection Hrun as <-. cbn.
    exists T0, T'. split_and!; try done.
    intros k. split; [tauto|]. intros [Hk|[Hk _]]; [done|contradiction].
Qed.

(** The loop over the estimate memory of a node. *)
Lemma storeMemory_loop l st st' :
  forEach (storeMemory mAliasTree toDescriptor LatchDefs ExitingDefs cover N
             ExplicitAccesses Deps) l st = Some st' →
  NoDup l.*2 → kindsCombined st →
  ∃ Ts,
    Forall2 (λ c T, stTraits st !! c = Some T) l.*2 Ts ∧
    stCombinedTrait st' = foldl BitMemoryTrait.conj (stCombinedTrait st) Ts ∧
    (∀ c, c ∉ l.*2 → stTraits st' !! c = stTraits st !! c) ∧
    kindsCombined st' ∧
    atUnknowns (stNode st') = atUnknowns (stNode st) ∧
    (∀ EMI, EMI ∈ l → is_Some (atAccesses (stNode st') !! emId EMI.1)) ∧
    (∀ id, is_Some (atAccesses (stNode st) !! id) →
           is_Some (atAccesses (stNode st') !! id)) ∧
    (∀ k, k ∈ stCombinedDepDptr st' ↔
          k ∈ stCombinedDepDptr st ∨
          ∃ EMI T Rec,
            EMI ∈ l ∧ stTraits st' !! EMI.2 = Some T ∧
            BitMemoryTrait.dropUnitFlag T = BitMemoryTrait.Dependency ∧
            Deps !! emId EMI.1 = Some Rec ∧ k ∈ DependenceImp.mDptr Rec).
Proof.
  revert st. induction l as [|EMI l IH]; intros st Hrun Hnd HK; cbn in *.
  - injection Hrun as <-. exists []. split_and!; try done.
    + intros EMI H. inversion H.
    + intros k. split; [tauto|]. intros [H|(EMI & T & Rec & H & _)]; [done|].
      inversion H.
  - destruct (storeMemory _ _ _ _ _ _ _ _ EMI st) as [st1|] eqn:Hstep; [|done].
    cbn in Hrun. apply list.NoDup_cons in Hnd as [Hnin Hnd].
    apply storeMemory_step in Hstep
      as (T0 & T' & HT0 & HC1 & HT' & Hfr1 & HK1 & HU1 & HS1 & HM1 & Hk1);
      [|done].
    destruct (IH st1 Hrun Hnd HK1)
      as (Ts & HTs & HC & Hfr & HK' & HU & HS & HM & Hk).
    exists (T0 :: Ts). split_and!.
    + constructor; [done|].
      apply (Forall2_lookup_frame _ (stTraits st1)); [|done].
      intros c Hc. apply Hfr1. intros ->. done.
    + cbn. by rewrite HC, HC1.
    + intros c Hc. apply not_elem_of_cons in Hc as [Hc1 Hc2].
      rewrite Hfr by done. by apply Hfr1.
    + done.
    + congruence.
    + intros EMI' HE. apply elem_of_cons in HE as [->|HE]; auto.
    + auto.
    + intros k. rewrite Hk, Hk1. split.
      * intros [[H|(HD & Rec & HRec & Hin)]|(EMI' & T & Rec & HE & HT & HD & HRec & Hin)].
        -- tauto.
        -- right. exists EMI, T', Rec. split_and!; try done; [left|].
           rewrite Hfr by done. done.
        -- right. exists EMI', T, Rec. split_and!; try done. by right.
      * intros [H|(EMI' & T & Rec & HE & HT & HD & HRec & Hin)]; [tauto|].
        apply elem_of_cons in HE as [->|HE].
        -- left. right. rewrite Hfr in HT by done.
           rewrite HT' in HT. injection HT as <-. eauto.
        -- right. exists EMI', T, Rec. done.
Qed.

(** One step of the loop over the unknown memory of a node. *)
Lemma storeUnknown_step U st st' :
  storeUnknown toDescriptor N ExplicitUnknowns U st = Some st' →
  ∃ T,
    stTraits st !! U.2 = Some T ∧
    stCombinedTrait st' = stCombinedTrait st &' T ∧
    stTraits st' = stTraits st ∧
    atAccesses (stNode st') = atAccesses (stNode st) ∧
    (∀ k, k ∈ stCombinedDepDptr st' ↔
          k ∈ stCombinedDepDptr st ∨
          BitMemoryTrait.dropUnitFlag T = BitMemoryTrait.Dependency).
Proof.
  unfold storeUnknown. intros Hrun.
  destruct (stTraits st !! U.2) as [T|] eqn:HT; [|done]. cbn in Hrun.
  destruct (isExplicitUnknown _ _ _ _) as [explicit|]; [|done]. cbn in Hrun.
  injection Hrun as <-. cbn. exists T. split_and!; try done.
  intros k. destruct (bool_decide _) eqn:HD.
  - apply bool_decide_eq_true in HD. split; [tauto|]. intros _.
    apply elem_of_union. right. unfold allDepKinds. destruct k; set_solver.
  - apply bool_decide_eq_false in HD. tauto.
Qed.

Lemma storeUnknown_loop l st st' :
  forEach (storeUnknown toDescriptor N ExplicitUnknowns) l st = Some st' →
  ∃ Ts,
    Forall2 (λ c T, stTraits st !! c = Some T) l.*2 Ts ∧
    stCombinedTrait st' = foldl BitMemoryTrait.conj (stCombinedTrait st) Ts ∧
    stTraits st' = stTraits st ∧
    atAccesses (stNode st') = atAccesses (stNode st) ∧
    (∀ k, k ∈ stCombinedDepDptr st' ↔
          k ∈ stCombinedDepDptr st ∨
          ∃ U T, U ∈ l ∧ stTraits st !! U.2 = Some T ∧
                 BitMemoryTrait.dropUnitFlag T = BitMemoryTrait.Dependency).
Proof.
  revert st. induction l as [|U l IH]; intros st Hrun; cbn in *.
  - injection Hrun as <-. exists []. split_and!; try done.
    intros k. split; [tauto|]. intros [H|(U & T & H & _)]; [done|].
    inversion H.
  - destruct (storeUnknown _ _ _ U st) as [st1|] eqn:Hstep; [|done].
    cbn in Hrun.
    apply storeUnknown_step in Hstep as (T & HT & HC1 & HM1 & HA1 & Hk1).
    destruct (IH st1 Hrun) as (Ts & HTs & HC & HM & HA & Hk).
    exists (T :: Ts). split_and!.
    + constructor; [done|]. by rewrite <- HM1.
    + cbn. by rewrite HC, HC1.
    + congruence.
    + congruence.
    + intros k. rewrite Hk, Hk1. rewrite HM1. split.
      * intros [[H|H]|(U' & T' & HU & HT' & HD)]; [tauto|..].
        -- right. exists U, T. split_and!; [left|done|done].
        -- right. exists U', T'. split_and!; [by right|done|done].
      * intros [H|(U' & T' & HU & HT' & HD)]; [tauto|].
        apply elem_of_cons in HU as [->|HU].
        -- left. right. congruence.
        -- right. eauto.
Qed.

(** Both loops. *)
Lemma storeLoops_spec Traits mem st :
  storeLoops mAliasTree toDescriptor LatchDefs ExitingDefs cover N
    ExplicitAccesses ExplicitUnknowns Deps Traits mem = Some st →
  NoDup (traitCells Traits) →
  ∃ Ts,
    Forall2 (λ c T, mem !! c = Some T) (traitCells Traits) Ts ∧
    stCombinedTrait st = conjAll Ts ∧
    kindsCombined st ∧
    (∀ EMI, EMI ∈ Traits.1 → is_Some (atAccesses (stNode st) !! emId EMI.1)) ∧
    (∀ k, k ∈ stCombinedDepDptr st ↔
          (∃ EMI T Rec,
             EMI ∈ Traits.1 ∧ stTraits st !! EMI.2 = Some T ∧
             BitMemoryTrait.dropUnitFlag T = BitMemoryTrait.Dependency ∧
             Deps !! emId EMI.1 = Some Rec ∧ k ∈ DependenceImp.mDptr Rec) ∨
          (∃ U T, U ∈ Traits.2 ∧ stTraits st !! U.2 = Some T ∧
                  BitMemoryTrait.dropUnitFlag T = BitMemoryTrait.Dependency)).
Proof.
  unfold storeLoops, traitCells. intros Hrun Hnd.
  destruct (forEach _ Traits.1 _) as [st1|] eqn:H1; [|done]. cbn in Hrun.
  apply list.NoDup_app in Hnd as (Hnd1 & Hdisj & Hnd2).
  apply storeMemory_loop in H1
    as (Ts1 & HTs1 & HC1 & Hfr1 & HK1 & _ & HS1 & _ & Hk1); [|done|].
  2: { intros id T. cbn. by rewrite lookup_empty. }
  apply storeUnknown_loop in Hrun as (Ts2 & HTs2 & HC2 & HM2 & HA2 & Hk2).
  cbn in *.
  exists (Ts1 ++ Ts2). split_and!.
  - apply Forall2_app; [done|].
    apply (Forall2_lookup_frame _ (stTraits st1)); [|done].
    intros c Hc. apply Hfr1. intros Hc'. by apply (Hdisj c).
  - unfold conjAll. by rewrite foldl_app, <- HC1.
  - intros id T. rewrite HA2. intros HT. apply HK1 in HT.
    intros k Hk. apply Hk2. left. auto.
  - intros EMI HE. rewrite HA2. auto.
  - intros k. rewrite Hk2, Hk1, HM2. split.
    + intros [[H|H]|H]; [set_solver|tauto|tauto].
    + intros [H|H]; tauto.
Qed.

Lemma storeResults_several Traits mem DS :
  DS !! N = None → severalLocations Traits →
  storeResults mAliasTree toDescriptor LatchDefs ExitingDefs cover N
    ExplicitAccesses ExplicitUnknowns Deps Traits mem DS =
  st ← storeLoops mAliasTree toDescriptor LatchDefs ExitingDefs cover N
         ExplicitAccesses ExplicitUnknowns Deps Traits mem;
  Some (stTraits st, <[N := storeCombined toDescriptor st]> DS).
Proof.
  intros HDS Hsev. unfold storeResults. rewrite HDS.
  destruct Traits as [[|EMI [|EMI' TL]] [|U UL]]; cbn in *; done.
Qed.

(** What the node gets when [storeResults] returns. *)
Lemma storeResults_combined (Traits : TraitList * UnknownList)
    (mem mem' : list BitMemoryTrait.Id) (DS DS' : DependencySet) :
  DS !! N = None → severalLocations Traits → NoDup (traitCells Traits) →
  storeResults mAliasTree toDescriptor LatchDefs ExitingDefs cover N
    ExplicitAccesses ExplicitUnknowns Deps Traits mem DS = Some (mem', DS') →
  ∃ Ts Node,
    Forall2 (λ c T, mem !! c = Some T) (traitCells Traits) Ts ∧
    DS' !! N = Some Node ∧
    unsetDeps (atDptr Node) ∖ {[trait.ExplicitAccess]}
      = unsetDeps (toDescriptor (combineTrait (conjAll Ts)))
          ∖ {[trait.ExplicitAccess]} ∧
    (BitMemoryTrait.dropUnitFlag (conjAll Ts) = BitMemoryTrait.Readonly →
     BitMemoryTrait.dropUnitFlag (combineTrait (conjAll Ts))
       = BitMemoryTrait.Readonly) ∧
    (BitMemoryTrait.dropUnitFlag (conjAll Ts) = BitMemoryTrait.Shared →
     BitMemoryTrait.dropUnitFlag (combineTrait (conjAll Ts))
       = BitMemoryTrait.Shared) ∧
    (BitMemoryTrait.dropUnitFlag (conjAll Ts) ≠ BitMemoryTrait.Readonly →
     BitMemoryTrait.dropUnitFlag (conjAll Ts) ≠ BitMemoryTrait.Shared →
     BitMemoryTrait.dropUnitFlag (combineTrait (conjAll Ts))
       = BitMemoryTrait.Dependency) ∧
    (Forall (λ T, BitMemoryTrait.dropUnitFlag T = BitMemoryTrait.Readonly) Ts →
     BitMemoryTrait.dropUnitFlag (conjAll Ts) = BitMemoryTrait.Readonly) ∧
    (Forall (λ T, BitMemoryTrait.dropUnitFlag T = BitMemoryTrait.Shared) Ts →
     BitMemoryTrait.dropUnitFlag (conjAll Ts) = BitMemoryTrait.Shared).
Proof.
  intros HDS Hsev Hnd. rewrite storeResults_several by done.
  destruct (storeLoops _ _ _ _ _ _ _ _ _ Traits mem) as [st|] eqn:Hloops;
    [|done].
  cbn. intros [= <- <-].
  apply storeLoops_spec in Hloops as (Ts & HTs & HC & _); [|done].
  assert (Hne : Ts ≠ []).
  { intros ->. apply Forall2_nil_inv_r in HTs.
    unfold traitCells in HTs. apply app_eq_nil in HTs as [H1 H2].
    apply fmap_nil_inv in H1, H2.
    destruct Traits as [TL UL]. cbn in *. subst. done. }
  exists Ts, (storeCombined toDescriptor st).
  pose proof (combineTrait_class (conjAll Ts)) as (HR & HS & HD).
  split_and!; try done.
  - by rewrite lookup_insert_eq.
  - unfold storeCombined. cbn. rewrite HC.
    destruct (bool_decide _).
    + rewrite unsetDeps_union, unsetDeps_setFromDeps.
      unfold unsetDeps, depTraits. set_solver.
    + rewrite unsetDeps_setFromDeps. unfold unsetDeps. set_solver.
  - intros Hall. by apply conjAll_same.
  - intros Hall. by apply conjAll_same.
Qed.

(** The kinds of dependence of the node when [storeResults] returns. *)
Lemma storeResults_kinds (Traits : TraitList * UnknownList)
    (mem mem' : list BitMemoryTrait.Id) (DS DS' : DependencySet) :
  DS !! N = None → severalLocations Traits → NoDup (traitCells Traits) →
  storeResults mAliasTree toDescriptor LatchDefs ExitingDefs cover N
    ExplicitAccesses ExplicitUnknowns Deps Traits mem DS = Some (mem', DS') →
  ∃ Node K,
    DS' !! N = Some Node ∧
    depKindsOf (atDptr Node) = K ∧
    (∀ id T, atAccesses Node !! id = Some T → depKindsOf (emtDptr T) = K) ∧
    (∀ EMI, EMI ∈ Traits.1 → is_Some (atAccesses Node !! emId EMI.1)) ∧
    (∀ k, k ∈ K ↔
          (∃ EMI T Rec,
             EMI ∈ Traits.1 ∧ mem' !! EMI.2 = Some T ∧
             BitMemoryTrait.dropUnitFlag T = BitMemoryTrait.Dependency ∧
             Deps !! emId EMI.1 = Some Rec ∧ k ∈ DependenceImp.mDptr Rec) ∨
          (∃ U T, U ∈ Traits.2 ∧ mem' !! U.2 = Some T ∧
                  BitMemoryTrait.dropUnitFlag T = BitMemoryTrait.Dependency)).
Proof.
  intros HDS Hsev Hnd. rewrite storeResults_several by done.
  destruct (storeLoops _ _ _ _ _ _ _ _ _ Traits mem) as [st|] eqn:Hloops;
    [|done].
  cbn. intros [= <- <-].
  apply storeLoops_spec in Hloops as (Ts & _ & _ & HK & HS & Hk); [|done].
  exists (storeCombined toDescriptor st), (stCombinedDepDptr st).
  split_and!.
  - by rewrite lookup_insert_eq.
  - unfold storeCombined. cbn. destruct (bool_decide _).
    + rewrite depKindsOf_union, depKindsOf_setFromDeps, depKindsOf_unsetDeps.
      assert (depKindsOf {[trait.ExplicitAccess]} = ∅) as ->; [|set_solver].
      apply set_eq. intros k. rewrite elem_of_depKindsOf. set_solver.
    + rewrite depKindsOf_setFromDeps, depKindsOf_unsetDeps. set_solver.
  - intros id T. unfold storeCombined. cbn. rewrite lookup_fmap.
    destruct (atAccesses (stNode st) !! id) as [T0|] eqn:HT0; [|done].
    cbn. intros [= <-]. cbn. rewrite depKindsOf_setFromDeps.
    apply HK in HT0. set_solver.
  - intros EMI HE. unfold storeCombined. cbn. rewrite lookup_fmap.
    destruct (HS EMI HE) as [T0 HT0]. rewrite HT0. cbn. eauto.
  - exact Hk.
Qed.


(** [storeResults] returns when the lists can be stored. *)
Lemma checkFirstPrivate_returns TraitItr Dptr mem T :
  mem !! TraitItr.2 = Some T →
  ∃ mem' Dptr',
    checkFirstPrivate LatchDefs ExitingDefs cover TraitItr Dptr mem
      = Some (mem', Dptr') ∧
    length mem' = length mem ∧
    (mem' !! TraitItr.2 = Some T ∨
     mem' !! TraitItr.2 = Some (T &' BitMemoryTrait.FirstPrivate)).
Proof.
  intros HT. unfold checkFirstPrivate.
  destruct (_ || _); [eauto 6|].
  destruct (cover _ _); [eauto 6|].
  rewrite HT. cbn. do 2 eexists. split; [reflexivity|].
  split; [by rewrite length_insert|]. right.
  apply list_lookup_insert_eq. apply lookup_lt_is_Some. eauto.
Qed.

Lemma storeMemory_frame EMI st st' :
  storeMemory mAliasTree toDescriptor LatchDefs ExitingDefs cover N
    ExplicitAccesses Deps EMI st = Some st' →
  length (stTraits st') = length (stTraits st) ∧
  (∀ c, c ≠ EMI.2 → stTraits st' !! c = stTraits st !! c).
Proof.
  unfold storeMemory. intros Hrun.
  destruct (stTraits st !! EMI.2) as [T0|]; [|done]. cbn in Hrun.
  destruct (checkFirstPrivate _ _ _ _ _ _) as [[mem Dptr]|] eqn:Hcfp; [|done].
  cbn in Hrun.
  apply checkFirstPrivate_frame in Hcfp as (Hlen & Hframe & _).
  destruct (isExplicitAccess _ _ _ _ _); [|done]. cbn in Hrun.
  destruct (mem !! EMI.2); [|done]. cbn in Hrun.
  destruct (bool_decide _).
  - destruct (insertIfAbsent _ _ _ !! _); [|done]. cbn in Hrun.
    destruct (storeDepIfNeed _ _ _); [|done]. cbn in Hrun.
    injection Hrun as <-. done.
  - injection Hrun as <-. done.
Qed.

Lemma storeMemory_returns EMI st :
  EMI.2 < length (stTraits st) →
  (∀ c, ExplicitAccesses !! emId EMI.1 = Some c → c < length (stTraits st)) →
  (∀ T, stTraits st !! EMI.2 = Some T →
        BitMemoryTrait.dropUnitFlag T = BitMemoryTrait.Dependency ∨
        BitMemoryTrait.dropUnitFlag (T &' BitMemoryTrait.FirstPrivate)
          = BitMemoryTrait.Dependency →
        is_Some (Deps !! emId EMI.1)) →
  is_Some (storeMemory mAliasTree toDescriptor LatchDefs ExitingDefs cover N
             ExplicitAccesses Deps EMI st).
Proof.
  intros Hlt HEA HDeps. unfold storeMemory.
  apply lookup_lt_is_Some in Hlt as [T0 HT0]. rewrite HT0. cbn.
  destruct (checkFirstPrivate_returns EMI (toDescriptor T0) _ _ HT0)
    as (mem & Dptr & Hcfp & Hlen & HT').
  rewrite Hcfp. cbn.
  assert (Hexp : is_Some (isExplicitAccess mAliasTree N ExplicitAccesses mem
                            EMI.1)).
  { unfold isExplicitAccess.
    destruct (ExplicitAccesses !! emId EMI.1) as [c|] eqn:Hc; [|eauto].
    assert (Hc' : c < length mem) by (rewrite Hlen; eauto).
    apply lookup_lt_is_Some in Hc' as [Tc HTc]. rewrite HTc. cbn. eauto. }
  destruct Hexp as [explicit ->]. cbn.
  assert (HDep : ∀ T', mem !! EMI.2 = Some T' →
            BitMemoryTrait.dropUnitFlag T' = BitMemoryTrait.Dependency →
            is_Some (Deps !! emId EMI.1)).
  { intros T' HT'' HD. apply (HDeps T0 HT0).
    destruct HT' as [HT'|HT']; rewrite HT' in HT''; injection HT'' as <-; tauto. }
  destruct HT' as [HT'|HT']; rewrite HT'; cbn.
  all: destruct (bool_decide _) eqn:HD; [|eauto].
  all: apply bool_decide_eq_true in HD.
  all: rewrite insertIfAbsent_lookup.
  all: destruct (HDep _ HT' HD) as [Rec HRec].
  all: unfold storeDepIfNeed; rewrite HRec.
  all: destruct (atAccesses (stNode st) !! emId EMI.1); cbn; [eauto|].
  all: destruct (decide (emId EMI.1 = emId EMI.1)); [cbn; eauto|done].
Qed.

Lemma storeMemory_loop_returns l st :
  NoDup l.*2 →
  (∀ EMI, EMI ∈ l →
     EMI.2 < length (stTraits st) ∧
     (∀ c, ExplicitAccesses !! emId EMI.1 = Some c → c < length (stTraits st)) ∧
     (∀ T, stTraits st !! EMI.2 = Some T →
           BitMemoryTrait.dropUnitFlag T = BitMemoryTrait.Dependency ∨
           BitMemoryTrait.dropUnitFlag (T &' BitMemoryTrait.FirstPrivate)
             = BitMemoryTrait.Dependency →
           is_Some (Deps !! emId EMI.1))) →
  ∃ st', forEach (storeMemory mAliasTree toDescriptor LatchDefs ExitingDefs
                    cover N ExplicitAccesses Deps) l st = Some st' ∧
         length (stTraits st') = length (stTraits st).
Proof.
  revert st. induction l as [|EMI l IH]; intros st Hnd Hok; cbn.
  - eauto.
  - apply list.NoDup_cons in Hnd as [Hnin Hnd].
    destruct (Hok EMI) as (H1 & H2 & H3); [left|].
    destruct (storeMemory_returns EMI st H1 H2 H3) as [st1 Hst1].
    rewrite Hst1. cbn.
    apply storeMemory_frame in Hst1 as [Hlen Hframe].
    destruct (IH st1 Hnd) as (st' & Hrun & Hlen').
    + intros EMI' HE. destruct (Hok EMI') as (H1' & H2' & H3'); [by right|].
      rewrite Hlen. split_and!; [done|done|].
      intros T HT. apply H3'. rewrite <- Hframe; [done|].
      intros Heq. apply Hnin. rewrite <- Heq.
      apply list_elem_of_fmap. by exists EMI'.
    + exists st'. split; [done|congruence].
Qed.

Lemma storeUnknown_loop_returns l st :
  (∀ U, U ∈ l →
     U.2 < length (stTraits st) ∧
     (∀ n c, ExplicitUnknowns !! U.1 = Some (n, c) → c < length (stTraits st))) →
  is_Some (forEach (storeUnknown toDescriptor N ExplicitUnknowns) l st).
Proof.
  revert st. induction l as [|U l IH]; intros st Hok; cbn; [eauto|].
  destruct (Hok U) as [H1 H2]; [left|].
  assert (Hstep : is_Some (storeUnknown toDescriptor N ExplicitUnknowns U st)).
  { unfold storeUnknown. apply lookup_lt_is_Some in H1 as [T ->]. cbn.
    unfold isExplicitUnknown.
    destruct (ExplicitUnknowns !! U.1) as [[n c]|] eqn:Hc; cbn; [|eauto].
    destruct (lookup_lt_is_Some_2 (stTraits st) c) as [Tc ->]; [eauto|].
    cbn. eauto. }
  destruct Hstep as [st1 Hst1]. rewrite Hst1. cbn.
  apply storeUnknown_step in Hst1 as (T & _ & _ & HM & _).
  apply IH. intros U' HU'. rewrite HM. apply Hok. by right.
Qed.

Lemma storeResults_returns Traits mem DS :
  DS !! N = None → severalLocations Traits → NoDup (traitCells Traits) →
  storable ExplicitAccesses ExplicitUnknowns Deps Traits mem →
  is_Some (storeResults mAliasTree toDescriptor LatchDefs ExitingDefs cover N
             ExplicitAccesses ExplicitUnknowns Deps Traits mem DS).
Proof.
  intros HDS Hsev Hnd [HTL HUL]. rewrite storeResults_several by done.
  unfold storeLoops.
  apply list.NoDup_app in Hnd as (Hnd1 & _ & _).
  destruct (storeMemory_loop_returns Traits.1
              (mkStoreState mem (mkAliasTrait ∅ ∅ ∅) BitMemoryTrait.default ∅)
              Hnd1 HTL) as (st1 & -> & Hlen).
  cbn in *.
  destruct (storeUnknown_loop_returns Traits.2 st1) as [st ->]; [|cbn; eauto].
  intros U HU. rewrite Hlen. auto.
Qed.

(** C5, as amended. For a node with several estimate memory locations or
    some unknown memory, whose list nodes are distinct and can be stored,
    [storeResults] returns, and the descriptor that it stores for the node
    is the one of a combined trait which, unit flags apart, is
    Readonly when the conjunction of the traits of all the locations of the
    node is Readonly, Shared when this conjunction is Shared, and Dependency
    in every other case; the conjunction is Readonly when every location is
    Readonly and Shared when every location is Shared. *)
Theorem storeResults_combined_trait (Traits : TraitList * UnknownList)
    (mem : list BitMemoryTrait.Id) (DS : DependencySet) :
  DS !! N = None → severalLocations Traits → NoDup (traitCells Traits) →
  storable ExplicitAccesses ExplicitUnknowns Deps Traits mem →
  ∃ mem' DS' Ts Node,
    storeResults mAliasTree toDescriptor LatchDefs ExitingDefs cover N
      ExplicitAccesses ExplicitUnknowns Deps Traits mem DS = Some (mem', DS') ∧
    Forall2 (λ c T, mem !! c = Some T) (traitCells Traits) Ts ∧
    DS' !! N = Some Node ∧
    unsetDeps (atDptr Node) ∖ {[trait.ExplicitAccess]}
      = unsetDeps (toDescriptor (combineTrait (conjAll Ts)))
          ∖ {[trait.ExplicitAccess]} ∧
    (BitMemoryTrait.dropUnitFlag (conjAll Ts) = BitMemoryTrait.Readonly →
     BitMemoryTrait.dropUnitFlag (combineTrait (conjAll Ts))
       = BitMemoryTrait.Readonly) ∧
    (BitMemoryTrait.dropUnitFlag (conjAll Ts) = BitMemoryTrait.Shared →
     BitMemoryTrait.dropUnitFlag (combineTrait (conjAll Ts))
       = BitMemoryTrait.Shared) ∧
    (BitMemoryTrait.dropUnitFlag (conjAll Ts) ≠ BitMemoryTrait.Readonly →
     BitMemoryTrait.dropUnitFlag (conjAll Ts) ≠ BitMemoryTrait.Shared →
     BitMemoryTrait.dropUnitFlag (combineTrait (conjAll Ts))
       = BitMemoryTrait.Dependency) ∧
    (Forall (λ T, BitMemoryTrait.dropUnitFlag T = BitMemoryTrait.Readonly) Ts →
     BitMemoryTrait.dropUnitFlag (conjAll Ts) = BitMemoryTrait.Readonly) ∧
    (Forall (λ T, BitMemoryTrait.dropUnitFlag T = BitMemoryTrait.Shared) Ts →
     BitMemoryTrait.dropUnitFlag (conjAll Ts) = BitMemoryTrait.Shared).
Proof.
  intros HDS Hsev Hnd Hok.
  destruct (storeResults_returns Traits mem DS HDS Hsev Hnd Hok)
    as [[mem' DS'] Hrun].
  destruct (storeResults_combined Traits mem mem' DS DS' HDS Hsev Hnd Hrun)
    as (Ts & Node & H).
  exists mem', DS', Ts, Node. split; [exact Hrun|exact H].
Qed.

(** C6, as amended. For a node with several estimate memory locations or
    some unknown memory, whose list nodes are distinct and can be stored,
    [storeResults] returns and gives one and the same set of kinds of
    dependence to the descriptor of the node and to the traits of every
    estimate memory it keeps for the node, among which are all the
    locations of the list: the kinds recorded for the locations of the node
    whose traits are Dependency, with all three kinds when some unknown
    memory of the node is Dependency. *)
Theorem storeResults_same_dependence_kinds (Traits : TraitList * UnknownList)
    (mem : list BitMemoryTrait.Id) (DS : DependencySet) :
  DS !! N = None → severalLocations Traits → NoDup (traitCells Traits) →
  storable ExplicitAccesses ExplicitUnknowns Deps Traits mem →
  ∃ mem' DS' Node K,
    storeResults mAliasTree toDescriptor LatchDefs ExitingDefs cover N
      ExplicitAccesses ExplicitUnknowns Deps Traits mem DS = Some (mem', DS') ∧
    DS' !! N = Some Node ∧
    depKindsOf (atDptr Node) = K ∧
    (∀ id T, atAccesses Node !! id = Some T → depKindsOf (emtDptr T) = K) ∧
    (∀ EMI, EMI ∈ Traits.1 → is_Some (atAccesses Node !! emId EMI.1)) ∧
    (∀ k, k ∈ K ↔
          (∃ EMI T Rec,
             EMI ∈ Traits.1 ∧ mem' !! EMI.2 = Some T ∧
             BitMemoryTrait.dropUnitFlag T = BitMemoryTrait.Dependency ∧
             Deps !! emId EMI.1 = Some Rec ∧ k ∈ DependenceImp.mDptr Rec) ∨
          (∃ U T, U ∈ Traits.2 ∧ mem' !! U.2 = Some T ∧
                  BitMemoryTrait.dropUnitFlag T = BitMemoryTrait.Dependency)).
Proof.
  intros HDS Hsev Hnd Hok.
  destruct (storeResults_returns Traits mem DS HDS Hsev Hnd Hok)
    as [[mem' DS'] Hrun].
  destruct (storeResults_kinds Traits mem mem' DS DS' HDS Hsev Hnd Hrun)
    as (Node & K & H).
  exists mem', DS', Node, K. split; [exact Hrun|exact H].
Qed.

End StoreFacts.

Lemma storeResults_combined_trait_witness :
  ∃ mem' DS' Ts Node,
    SampleStore.store BitMemoryTrait.Readonly BitMemoryTrait.Readonly [] ∅
      = Some (mem', DS') ∧
    DS' !! 7%positive = Some Node ∧
    Ts = [BitMemoryTrait.Readonly; BitMemoryTrait.Readonly] ∧
    unsetDeps (atDptr Node) ∖ {[trait.ExplicitAccess]}
      = unsetDeps (SampleStore.toDescriptor (combineTrait (conjAll Ts)))
          ∖ {[trait.ExplicitAccess]} ∧
    BitMemoryTrait.dropUnitFlag (combineTrait (conjAll Ts))
      = BitMemoryTrait.Readonly.
Proof.
  destruct (storeResults_combined_trait SampleStore.tree SampleStore.toDescriptor
              (SampleTree.reach []) (SampleTree.reach []) SampleTree.cover
              7 {[21%positive := 0; 22%positive := 1]} ∅ ∅
              ([(SampleStore.B, 0); (SampleStore.C, 1)], [])
              [BitMemoryTrait.Readonly; BitMemoryTrait.Readonly] ∅)
    as (mem' & DS' & Ts & Node & Hrun & HTs & HN & HD & HR & _ & _ & HallR & _).
  - reflexivity.
  - exact I.
  - apply (bool_decide_unpack _). vm_compute. exact I.
  - split.
    + intros EMI HE. cbn in HE.
      apply elem_of_cons in HE as [->|HE];
        [|apply elem_of_cons in HE as [->|HE]; [|inversion HE]].
      * split_and!; [cbn; lia| |].
        -- intros c Hc. vm_compute in Hc. injection Hc as <-. cbn. lia.
        -- intros T HT [H|H]; injection HT as <-; vm_compute in H; discriminate.
      * split_and!; [cbn; lia| |].
        -- intros c Hc. vm_compute in Hc. injection Hc as <-. cbn. lia.
        -- intros T HT [H|H]; injection HT as <-; vm_compute in H; discriminate.
    + intros U HU. inversion HU.
  - apply Forall2_cons_inv_l in HTs as (T1 & Ts1 & H1 & HTs & ->).
    apply Forall2_cons_inv_l in HTs as (T2 & Ts2 & H2 & HTs & ->).
    apply Forall2_nil_inv_l in HTs as ->.
    injection H1 as <-. injection H2 as <-.
    exists mem', DS'. eexists _, Node.
    split_and!; [exact Hrun|exact HN|reflexivity|exact HD|].
    apply HR, HallR. repeat constructor.
Defined.

(** C5, the sentence as written fails: a node with a location whose address
    alone is taken in the loop (traits NoAccess with the AddressAccess flag)
    and a Readonly location is stored as Readonly, although not every
    location of the node is Readonly, nor every one Shared. *)
Lemma storeResults_readonly_beside_address :
  BitMemoryTrait.dropUnitFlag
    (BitMemoryTrait.NoAccess &' BitMemoryTrait.AddressAccess)
    = BitMemoryTrait.NoAccess ∧
  BitMemoryTrait.NoAccess ≠ BitMemoryTrait.Readonly ∧
  BitMemoryTrait.NoAccess ≠ BitMemoryTrait.Shared ∧
  BitMemoryTrait.dropUnitFlag
    (combineTrait
       (conjAll [BitMemoryTrait.NoAccess &' BitMemoryTrait.AddressAccess;
                 BitMemoryTrait.Readonly]))
    = BitMemoryTrait.Readonly ∧
  BitMemoryTrait.Readonly ≠ BitMemoryTrait.Dependency ∧
  (SampleStore.store
     (BitMemoryTrait.NoAccess &' BitMemoryTrait.AddressAccess)
     BitMemoryTrait.Readonly [] ∅
   ≫= λ r, atDptr <$> r.2 !! 7%positive)
    = Some {[trait.ExplicitAccess; trait.AddressAccess; trait.Readonly]}.
Proof.
  split_and!.
  - vm_compute. reflexivity.
  - vm_compute. discriminate.
  - vm_compute. discriminate.
  - vm_compute. reflexivity.
  - vm_compute. discriminate.
  - vm_compute. reflexivity.
Qed.

Lemma storeResults_same_dependence_kinds_witness :
  ∃ mem' DS' Node,
    SampleStore.store BitMemoryTrait.Dependency BitMemoryTrait.Dependency
      [BitMemoryTrait.Readonly] SampleStore.deps = Some (mem', DS') ∧
    DS' !! 7%positive = Some Node ∧
    (∀ id T, atAccesses Node !! id = Some T →
             depKindsOf (emtDptr T) = depKindsOf (atDptr Node)) ∧
    is_Some (atAccesses Node !! emId SampleStore.B) ∧
    is_Some (atAccesses Node !! emId SampleStore.C).
Proof.
  destruct (storeResults_same_dependence_kinds SampleStore.tree
              SampleStore.toDescriptor
              (SampleTree.reach []) (SampleTree.reach []) SampleTree.cover
              7 {[21%positive := 0; 22%positive := 1]} ∅ SampleStore.deps
              ([(SampleStore.B, 0); (SampleStore.C, 1)], [(30%positive, 2)])
              [BitMemoryTrait.Dependency; BitMemoryTrait.Dependency;
               BitMemoryTrait.Readonly] ∅)
    as (mem' & DS' & Node & K & Hrun & HN & HK & Hall & Hin & Hk).
  - reflexivity.
  - exact I.
  - apply (bool_decide_unpack _). vm_compute. exact I.
  - split.
    + intros EMI HE. cbn in HE.
      apply elem_of_cons in HE as [->|HE];
        [|apply elem_of_cons in HE as [->|HE]; [|inversion HE]].
      * split_and!; [cbn; lia| |].
        -- intros c Hc. vm_compute in Hc. injection Hc as <-. cbn. lia.
        -- intros T HT _. eexists. vm_compute. reflexivity.
      * split_and!; [cbn; lia| |].
        -- intros c Hc. vm_compute in Hc. injection Hc as <-. cbn. lia.
        -- intros T HT _. eexists. vm_compute. reflexivity.
    + intros U HU. cbn in HU. apply list_elem_of_singleton in HU as ->.
      split; [cbn; lia|]. intros n c Hc. rewrite lookup_empty in Hc. done.
  - exists mem', DS', Node. rewrite HK. split_and!.
    + exact Hrun.
    + exact HN.
    + exact Hall.
    + apply (Hin (SampleStore.B, 0)). left.
    + apply (Hin (SampleStore.C, 1)). right. left.
Defined.

(** C6, the sentence as written fails: in a node with two estimate memory
    locations whose traits are Dependency, with a flow and an anti
    dependence recorded, and an unknown memory whose traits are Readonly,
    the two locations are stored with the kinds Flow and Anti, and the
    unknown memory, which the node keeps too, with no kind of dependence:
    the last loop of [storeResults] visits the estimate memory only. *)
Lemma storeResults_unknown_keeps_kinds :
  BitMemoryTrait.dropUnitFlag BitMemoryTrait.Dependency
    = BitMemoryTrait.Dependency ∧
  (SampleStore.store BitMemoryTrait.Dependency BitMemoryTrait.Dependency
     [BitMemoryTrait.Readonly] SampleStore.deps
   ≫= λ r, Node ← r.2 !! 7%positive;
            T ← atAccesses Node !! emId SampleStore.B;
            Some (depKindsOf (emtDptr T)))
    = Some {[Flow; Anti]} ∧
  (SampleStore.store BitMemoryTrait.Dependency BitMemoryTrait.Dependency
     [BitMemoryTrait.Readonly] SampleStore.deps
   ≫= λ r, Node ← r.2 !! 7%positive;
            U ← atUnknowns Node !! 30%positive;
            Some (depKindsOf (umtDptr U)))
    = Some ∅ ∧
  ({[Flow; Anti]} : DependenceImp.Descriptor) ≠ ∅.
Proof.
  split_and!.
  - vm_compute. reflexivity.
  - vm_compute. reflexivity.
  - vm_compute. reflexivity.
  - intros H. apply (f_equal (λ K : DependenceImp.Descriptor,
                                bool_decide (Flow ∈ K))) in H.
    vm_compute in H. discriminate H.
Qed.

(** * Further properties *)

(** ** Dependence records in closed form *)

Lemma Tagged_eq {A} (t1 t2 : Tagged A) :
  (∀ k, tget k t1 = tget k t2) → t1 = t2.
Proof.
  intros H. destruct t1, t2.
  pose proof (H Flow). pose proof (H Anti). pose proof (H Output).
  cbn in *. congruence.
Qed.

Lemma DependenceImp_eq (D1 D2 : DependenceImp.t) :
  DependenceImp.mDptr D1 = DependenceImp.mDptr D2 →
  (∀ k, tget k (DependenceImp.mDists D1) = tget k (DependenceImp.mDists D2)) →
  (∀ k, tget k (DependenceImp.mFlags D1) = tget k (DependenceImp.mFlags D2)) →
  D1 = D2.
Proof.
  destruct D1, D2. cbn. intros -> H1 H2.
  by rewrite (Tagged_eq _ _ H1), (Tagged_eq _ _ H2).
Qed.

Lemma storedFlag_idemp F Dist : storedFlag (storedFlag F Dist) Dist = storedFlag F Dist.
Proof.
  destruct Dist; cbn; [done|].
  by rewrite <- Z.lor_assoc, Z.lor_diag.
Qed.

Lemma NoDup_for_each_kind (Dptr : gset DepKind) : NoDup (for_each_kind Dptr).
Proof.
  unfold for_each_kind. apply list.NoDup_filter. unfold allDepKinds.
  apply (bool_decide_unpack _). vm_compute. exact I.
Qed.

(** The fields of a record after the loop of [update]. *)
Lemma update_loop_fields l Dep fn :
  NoDup l →
  let F := storedFlag (DependenceImp.mFlag fn) (DependenceImp.mDist fn) in
  let r := foldl (λ st k, DependenceImp.UpdateFunctor_call k st) (Dep, fn) l in
  DependenceImp.mDptr r.1 = DependenceImp.mDptr Dep ∪ list_to_set l ∧
  (∀ k, tget k (DependenceImp.mFlags r.1) =
        if decide (k ∈ l) then Z.lor (tget k (DependenceImp.mFlags Dep)) F
        else tget k (DependenceImp.mFlags Dep)) ∧
  (∀ k, tget k (DependenceImp.mDists r.1) =
        if decide (k ∈ l) then
          if Dependence.hasUnknownDistance
               (Z.lor (tget k (DependenceImp.mFlags Dep)) F)
          then ∅
          else match DependenceImp.mDist fn with
               | Some D => {[D]} ∪ tget k (DependenceImp.mDists Dep)
               | None => tget k (DependenceImp.mDists Dep)
               end
        else tget k (DependenceImp.mDists Dep)).
Proof.
  revert Dep fn. induction l as [|k l IH]; intros Dep fn Hnd; cbn zeta.
  - cbn. split_and!; [set_solver| |]; intros k; destruct (decide _) as [H|H];
      try done; inversion H.
  - apply list.NoDup_cons in Hnd as [Hk Hnd]. cbn [foldl].
    destruct (IH (DependenceImp.UpdateFunctor_call k (Dep, fn)).1
                 (DependenceImp.UpdateFunctor_call k (Dep, fn)).2 Hnd)
      as (HD & HF & HS).
    rewrite <- surjective_pairing in HD, HF, HS.
    assert (HFlag : storedFlag
              (DependenceImp.mFlag (DependenceImp.UpdateFunctor_call k (Dep, fn)).2)
              (DependenceImp.mDist (DependenceImp.UpdateFunctor_call k (Dep, fn)).2)
              = storedFlag (DependenceImp.mFlag fn) (DependenceImp.mDist fn)).
    { cbn. apply storedFlag_idemp. }
    rewrite HFlag in HF, HS. split_and!.
    + rewrite HD. cbn. set_solver.
    + intros k'. rewrite HF. cbn. rewrite tget_tset.
      destruct (decide (k' ∈ l)) as [Hin|Hin].
      * destruct (decide (k = k')) as [->|Hne]; [done|].
        rewrite decide_True by (by right). done.
      * destruct (decide (k = k')) as [->|Hne].
        -- rewrite decide_True by left. done.
        -- rewrite decide_False; [done|].
           intros H. apply elem_of_cons in H as [->|H]; done.
    + intros k'. rewrite HS. cbn. rewrite !tget_tset.
      destruct (decide (k' ∈ l)) as [Hin|Hin].
      * destruct (decide (k = k')) as [->|Hne]; [done|].
        rewrite decide_True by (by right). done.
      * destruct (decide (k = k')) as [->|Hne].
        -- rewrite decide_True by left. done.
        -- rewrite decide_False; [done|].
           intros H. apply elem_of_cons in H as [->|H]; done.
Qed.

Lemma update_fields Dptr F Dist Dep :
  DependenceImp.mDptr (DependenceImp.update Dptr F Dist Dep)
    = DependenceImp.mDptr Dep ∪ Dptr ∧
  (∀ k, tget k (DependenceImp.mFlags (DependenceImp.update Dptr F Dist Dep)) =
        if decide (k ∈ Dptr)
        then Z.lor (tget k (DependenceImp.mFlags Dep)) (storedFlag F Dist)
        else tget k (DependenceImp.mFlags Dep)) ∧
  (∀ k, tget k (DependenceImp.mDists (DependenceImp.update Dptr F Dist Dep)) =
        if decide (k ∈ Dptr) then
          if Dependence.hasUnknownDistance
               (Z.lor (tget k (DependenceImp.mFlags Dep)) (storedFlag F Dist))
          then ∅
          else match Dist with
               | Some D => {[D]} ∪ tget k (DependenceImp.mDists Dep)
               | None => tget k (DependenceImp.mDists Dep)
               end
        else tget k (DependenceImp.mDists Dep)).
Proof.
  unfold DependenceImp.update.
  destruct (update_loop_fields (for_each_kind Dptr) Dep
              (DependenceImp.mkUpdateFunctor F Dist) (NoDup_for_each_kind Dptr))
    as (HD & HF & HS).
  cbn -[for_each_kind] in HD, HF, HS. split_and!.
  - by rewrite HD, list_to_set_for_each_kind.
  - intros k. rewrite HF.
    destruct (decide (k ∈ for_each_kind Dptr)) as [H|H], (decide (k ∈ Dptr))
      as [H'|H']; try done;
      rewrite DependenceImpFacts.elem_of_for_each_kind in H; done.
  - intros k. rewrite HS.
    destruct (decide (k ∈ for_each_kind Dptr)) as [H|H], (decide (k ∈ Dptr))
      as [H'|H']; try done;
      rewrite DependenceImpFacts.elem_of_for_each_kind in H; done.
Qed.

(** The fields of a record after the loop of the merge of [Src]. *)
Lemma updateFrom_loop_fields Src l Dep :
  NoDup l →
  let r := foldl (λ d k, DependenceImp.UpdateDepFunctor_call Src k d) Dep l in
  DependenceImp.mDptr r = DependenceImp.mDptr Dep ∪ list_to_set l ∧
  (∀ k, tget k (DependenceImp.mFlags r) =
        if decide (k ∈ l)
        then Z.lor (tget k (DependenceImp.mFlags Dep))
                   (tget k (DependenceImp.mFlags Src))
        else tget k (DependenceImp.mFlags Dep)) ∧
  (∀ k, tget k (DependenceImp.mDists r) =
        if decide (k ∈ l) then
          if Dependence.hasUnknownDistance
               (Z.lor (tget k (DependenceImp.mFlags Dep))
                      (tget k (DependenceImp.mFlags Src)))
          then ∅
          else tget k (DependenceImp.mDists Dep) ∪ tget k (DependenceImp.mDists Src)
        else tget k (DependenceImp.mDists Dep)).
Proof.
  revert Dep. induction l as [|k l IH]; intros Dep Hnd; cbn zeta.
  - cbn. split_and!; [set_solver| |]; intros k; destruct (decide _) as [H|H];
      try done; inversion H.
  - apply list.NoDup_cons in Hnd as [Hk Hnd]. cbn [foldl].
    destruct (IH (DependenceImp.UpdateDepFunctor_call Src k Dep) Hnd)
      as (HD & HF & HS).
    split_and!.
    + rewrite HD. cbn. set_solver.
    + intros k'. rewrite HF. cbn. rewrite tget_tset.
      destruct (decide (k' ∈ l)) as [Hin|Hin].
      * destruct (decide (k = k')) as [->|Hne]; [done|].
        rewrite decide_True by (by right). done.
      * destruct (decide (k = k')) as [->|Hne].
        -- rewrite decide_True by left. done.
        -- rewrite decide_False; [done|].
           intros H. apply elem_of_cons in H as [->|H]; done.
    + intros k'. rewrite HS. cbn. rewrite !tget_tset.
      destruct (decide (k' ∈ l)) as [Hin|Hin].
      * destruct (decide (k = k')) as [->|Hne]; [done|].
        rewrite decide_True by (by right). done.
      * destruct (decide (k = k')) as [->|Hne].
        -- rewrite decide_True by left. done.
        -- rewrite decide_False; [done|].
           intros H. apply elem_of_cons in H as [->|H]; done.
Qed.

Lemma updateFrom_fields Src Dep :
  DependenceImp.mDptr (DependenceImp.updateFrom Src Dep)
    = DependenceImp.mDptr Dep ∪ DependenceImp.mDptr Src ∧
  (∀ k, tget k (DependenceImp.mFlags (DependenceImp.updateFrom Src Dep)) =
        if decide (k ∈ DependenceImp.mDptr Src)
        then Z.lor (tget k (DependenceImp.mFlags Dep))
                   (tget k (DependenceImp.mFlags Src))
        else tget k (DependenceImp.mFlags Dep)) ∧
  (∀ k, tget k (DependenceImp.mDists (DependenceImp.updateFrom Src Dep)) =
        if decide (k ∈ DependenceImp.mDptr Src) then
          if Dependence.hasUnknownDistance
               (Z.lor (tget k (DependenceImp.mFlags Dep))
                      (tget k (DependenceImp.mFlags Src)))
          then ∅
          else tget k (DependenceImp.mDists Dep) ∪ tget k (DependenceImp.mDists Src)
        else tget k (DependenceImp.mDists Dep)).
Proof.
  unfold DependenceImp.updateFrom.
  destruct (updateFrom_loop_fields Src (for_each_kind (DependenceImp.mDptr Src))
              Dep (NoDup_for_each_kind _)) as (HD & HF & HS).
  cbn zeta in HD, HF, HS. split_and!.
  - by rewrite HD, list_to_set_for_each_kind.
  - intros k. rewrite HF.
    destruct (decide (k ∈ for_each_kind (DependenceImp.mDptr Src))) as [H|H],
      (decide (k ∈ DependenceImp.mDptr Src)) as [H'|H']; try done;
      rewrite DependenceImpFacts.elem_of_for_each_kind in H; done.
  - intros k. rewrite HS.
    destruct (decide (k ∈ for_each_kind (DependenceImp.mDptr Src))) as [H|H],
      (decide (k ∈ DependenceImp.mDptr Src)) as [H'|H']; try done;
      rewrite DependenceImpFacts.elem_of_for_each_kind in H; done.
Qed.

Lemma apply_fields o Dep :
  DependenceImp.mDptr (DependenceImp.apply Dep o)
    = DependenceImp.mDptr Dep ∪ opDptr o ∧
  (∀ k, tget k (DependenceImp.mFlags (DependenceImp.apply Dep o)) =
        if decide (k ∈ opDptr o)
        then Z.lor (tget k (DependenceImp.mFlags Dep)) (opFlag o k)
        else tget k (DependenceImp.mFlags Dep)) ∧
  (∀ k, tget k (DependenceImp.mDists (DependenceImp.apply Dep o)) =
        if decide (k ∈ opDptr o) then
          if Dependence.hasUnknownDistance
               (Z.lor (tget k (DependenceImp.mFlags Dep)) (opFlag o k))
          then ∅
          else tget k (DependenceImp.mDists Dep) ∪ opDists o k
        else tget k (DependenceImp.mDists Dep)).
Proof.
  destruct o as [Dptr F Dist|Src]; cbn [DependenceImp.apply opDptr opFlag opDists].
  - destruct (update_fields Dptr F Dist Dep) as (HD & HF & HS).
    split_and!; [done|done|].
    intros k. rewrite HS. repeat case_match; try done.
    + apply union_comm_L.
    + by rewrite union_empty_r_L.
  - apply updateFrom_fields.
Qed.

Lemma hasUnknownDistance_lor_false F G :
  Dependence.hasUnknownDistance (Z.lor F G) = false →
  Dependence.hasUnknownDistance F = false ∧
  Dependence.hasUnknownDistance G = false.
Proof.
  rewrite hasUnknownDistance_lor. apply orb_false_elim.
Qed.

Lemma apply_Summarizable o Dep :
  Summarizable Dep →
  (∀ k, k ∈ opDptr o → Dependence.hasUnknownDistance (opFlag o k) = false →
        opDists o k ≠ ∅) →
  Summarizable (DependenceImp.apply Dep o).
Proof.
  intros HDep Ho k. destruct (apply_fields o Dep) as (HD & HF & HS).
  rewrite HD, HF, HS. intros Hk HU.
  destruct (decide (k ∈ opDptr o)) as [Hin|Hin].
  - rewrite HU. apply hasUnknownDistance_lor_false in HU as [_ HU].
    specialize (Ho k Hin HU). set_solver.
  - apply HDep; [set_solver|done].
Qed.

Lemma Built_Summarizable Dep : Built Dep → Summarizable Dep.
Proof.
  induction 1 as [|Dptr F Dist Dep _ IH|Src Dep _ IHSrc _ IH].
  - intros k Hk. cbn in Hk. set_solver.
  - apply (apply_Summarizable (DependenceImp.OpUpdate Dptr F Dist)); [done|].
    intros k _. cbn. destruct Dist as [D|]; cbn.
    + intros _. set_solver.
    + rewrite hasUnknownDistance_lor, hasUnknownDistance_UnknownDistance.
      by rewrite orb_true_r.
  - apply (apply_Summarizable (DependenceImp.OpMerge Src)); [done|].
    intros k Hk HU. by apply IHSrc.
Qed.

(** X1. A record built from a new one by updates, and by merges of records
    built in the same way, gives the summary of a kind of its descriptor
    whose distance is known at least one operand: the maximum that bounds the
    distance range is never taken over an empty list. *)
Theorem SummarizeFunctor_operands (Dep : DependenceImp.t) (k : DepKind) :
  Built Dep →
  k ∈ DependenceImp.mDptr Dep →
  Dependence.hasUnknownDistance (tget k (DependenceImp.mFlags Dep)) = false →
  ∃ op ops,
    DependenceImp.SummarizeFunctor_call k Dep =
    mkIRDependence (tget k (DependenceImp.mFlags Dep))
      (Some (getNotSCEV (getUMaxExpr (getNotSCEV <$> op :: ops))),
       Some (getUMaxExpr (op :: ops))).
Proof.
  intros HB Hk HU. pose proof (Built_Summarizable Dep HB k Hk HU) as Hne.
  unfold DependenceImp.SummarizeFunctor_call. rewrite HU.
  destruct (elements (tget k (DependenceImp.mDists Dep))) as [|D Ds] eqn:HE.
  - apply elements_empty_iff in HE. apply leibniz_equiv in HE. done.
  - cbn. eauto.
Qed.

Lemma SummarizeFunctor_operands_witness :
  let Dep := DependenceImp.update {[Flow]} Dependence.LoadStoreCause (Some 1%positive)
               DependenceImp.empty in
  Built Dep ∧ Flow ∈ DependenceImp.mDptr Dep ∧
  ∃ op ops,
    DependenceImp.SummarizeFunctor_call Flow Dep =
    mkIRDependence (tget Flow (DependenceImp.mFlags Dep))
      (Some (getNotSCEV (getUMaxExpr (getNotSCEV <$> op :: ops))),
       Some (getUMaxExpr (op :: ops))).
Proof.
  cbn zeta. split_and!.
  - apply built_update, built_empty.
  - apply (bool_decide_unpack _). vm_compute. exact I.
  - apply (SummarizeFunctor_operands
             (DependenceImp.update {[Flow]} Dependence.LoadStoreCause
                (Some 1%positive) DependenceImp.empty) Flow).
    + apply built_update, built_empty.
    + apply (bool_decide_unpack _). vm_compute. exact I.
    + vm_compute. reflexivity.
Defined.

Lemma apply_comm o1 o2 Dep :
  DependenceImp.apply (DependenceImp.apply Dep o1) o2 =
  DependenceImp.apply (DependenceImp.apply Dep o2) o1.
Proof.
  destruct (apply_fields o1 Dep) as (D1 & F1 & S1).
  destruct (apply_fields o2 Dep) as (D2 & F2 & S2).
  destruct (apply_fields o2 (DependenceImp.apply Dep o1)) as (D21 & F21 & S21).
  destruct (apply_fields o1 (DependenceImp.apply Dep o2)) as (D12 & F12 & S12).
  apply DependenceImp_eq.
  - rewrite D21, D12, D1, D2. set_solver.
  - intros k. rewrite S21, S12, F1, F2, S1, S2.
    destruct (decide (k ∈ opDptr o1)), (decide (k ∈ opDptr o2)); try done.
    rewrite !hasUnknownDistance_lor.
    destruct (Dependence.hasUnknownDistance (tget k (DependenceImp.mFlags Dep))),
      (Dependence.hasUnknownDistance (opFlag o1 k)),
      (Dependence.hasUnknownDistance (opFlag o2 k)); cbn; try done.
    set_solver.
  - intros k. rewrite F21, F12, F1, F2.
    destruct (decide (k ∈ opDptr o1)), (decide (k ∈ opDptr o2)); try done.
    rewrite <- !Z.lor_assoc. f_equal. apply Z.lor_comm.
Qed.

(** X2. The record that a sequence of updates and merges builds does not
    depend on the order of the sequence. *)
Theorem run_Permutation (ops ops' : list DependenceImp.Op) (Dep : DependenceImp.t) :
  ops ≡ₚ ops' → DependenceImp.run ops Dep = DependenceImp.run ops' Dep.
Proof.
  intros HP. revert Dep. unfold DependenceImp.run.
  induction HP as [|o l l' _ IH|o1 o2 l|l1 l2 l3 _ IH1 _ IH2]; intros Dep; cbn.
  - done.
  - apply IH.
  - by rewrite apply_comm.
  - by rewrite IH1.
Qed.

Lemma run_Permutation_witness :
  let o1 := DependenceImp.OpUpdate {[Flow]} Dependence.LoadStoreCause
              (Some 1%positive) in
  let o2 := DependenceImp.OpUpdate {[Flow; Anti]} Dependence.May None in
  [o1; o2] ≡ₚ [o2; o1] ∧
  DependenceImp.run [o1; o2] DependenceImp.empty =
  DependenceImp.run [o2; o1] DependenceImp.empty.
Proof.
  cbn zeta. split.
  - apply perm_swap.
  - apply (run_Permutation _ _ DependenceImp.empty). apply perm_swap.
Defined.

Lemma apply_idemp o Dep :
  DependenceImp.apply (DependenceImp.apply Dep o) o = DependenceImp.apply Dep o.
Proof.
  destruct (apply_fields o Dep) as (D1 & F1 & S1).
  destruct (apply_fields o (DependenceImp.apply Dep o)) as (D2 & F2 & S2).
  apply DependenceImp_eq.
  - rewrite D2, D1. set_solver.
  - intros k. rewrite S2, F1, S1.
    destruct (decide (k ∈ opDptr o)); [|done].
    rewrite <- Z.lor_assoc, Z.lor_diag.
    destruct (Dependence.hasUnknownDistance _); [done|set_solver].
  - intros k. rewrite F2, F1.
    destruct (decide (k ∈ opDptr o)); [|done].
    by rewrite <- Z.lor_assoc, Z.lor_diag.
Qed.

(** X3. Repeating an update or a merge changes nothing; and merging into
    itself a record whose kinds of unknown distance store no distance, which
    is what the merge of an estimate memory with itself does, leaves the
    record as it is. *)
Theorem updateFrom_self (Dep : DependenceImp.t) :
  DependenceImp.Consistent Dep →
  DependenceImp.updateFrom Dep Dep = Dep ∧
  ∀ o Dep', DependenceImp.apply (DependenceImp.apply Dep' o) o
            = DependenceImp.apply Dep' o.
Proof.
  intros HC. split; [|intros; apply apply_idemp].
  destruct (updateFrom_fields Dep Dep) as (HD & HF & HS).
  apply DependenceImp_eq.
  - rewrite HD. set_solver.
  - intros k. rewrite HS. destruct (decide _); [|done].
    rewrite Z.lor_diag.
    destruct (Dependence.hasUnknownDistance _) eqn:HU; [|set_solver].
    symmetry. by apply HC.
  - intros k. rewrite HF. destruct (decide _); [|done]. apply Z.lor_diag.
Qed.

Lemma updateFrom_self_witness :
  let Dep := DependenceImp.update {[Flow; Output]} Dependence.May None
               (DependenceImp.update {[Flow]} Dependence.LoadStoreCause
                  (Some 1%positive) DependenceImp.empty) in
  DependenceImp.Consistent Dep ∧ DependenceImp.updateFrom Dep Dep = Dep.
Proof.
  cbn zeta.
  assert (HC : DependenceImp.Consistent
                 (DependenceImp.update {[Flow; Output]} Dependence.May None
                    (DependenceImp.update {[Flow]} Dependence.LoadStoreCause
                       (Some 1%positive) DependenceImp.empty))).
  { do 2 apply DependenceImpFacts.update_Consistent.
    apply DependenceImpFacts.Consistent_empty. }
  split; [exact HC|].
  exact (proj1 (updateFrom_self _ HC)).
Defined.

Lemma flagsIncluded_lor F G : flagsIncluded F (Z.lor F G).
Proof.
  unfold flagsIncluded. apply Z.bits_inj'. intros n _.
  rewrite Z.land_spec, Z.lor_spec. by destruct (Z.testbit F n).
Qed.

Lemma flagsIncluded_refl F : flagsIncluded F F.
Proof. apply Z.land_diag. Qed.

(** X4. An update or a merge never removes a kind from the descriptor of a
    record and never clears a flag of a kind; and the distances of a kind are
    kept whenever the distance of that kind is still known afterwards. *)
Theorem apply_grows (o : DependenceImp.Op) (Dep : DependenceImp.t) (k : DepKind) :
  let Dep' := DependenceImp.apply Dep o in
  DependenceImp.mDptr Dep ⊆ DependenceImp.mDptr Dep' ∧
  flagsIncluded (tget k (DependenceImp.mFlags Dep))
                (tget k (DependenceImp.mFlags Dep')) ∧
  (Dependence.hasUnknownDistance (tget k (DependenceImp.mFlags Dep')) = false →
   tget k (DependenceImp.mDists Dep) ⊆ tget k (DependenceImp.mDists Dep')) ∧
  (Dependence.hasUnknownDistance (tget k (DependenceImp.mFlags Dep)) = true →
   Dependence.hasUnknownDistance (tget k (DependenceImp.mFlags Dep')) = true).
Proof.
  cbn zeta. destruct (apply_fields o Dep) as (HD & HF & HS).
  rewrite HD, HF, HS. split_and!.
  - set_solver.
  - destruct (decide _); [apply flagsIncluded_lor|apply flagsIncluded_refl].
  - destruct (decide _); [|done]. intros ->. set_solver.
  - destruct (decide _); [|done]. intros HU.
    by rewrite hasUnknownDistance_lor, HU.
Qed.

(** ** The dependence map of the collector *)

Lemma Built_Consistent Dep : Built Dep → DependenceImp.Consistent Dep.
Proof.
  induction 1.
  - apply DependenceImpFacts.Consistent_empty.
  - by apply DependenceImpFacts.update_Consistent.
  - by apply DependenceImpFacts.updateFrom_Consistent.
Qed.

Lemma DepsBuilt_empty : DepsBuilt ∅.
Proof. apply map_Forall_empty. Qed.

Lemma DepsBuilt_default Deps id :
  DepsBuilt Deps → Built (default DependenceImp.empty (Deps !! id)).
Proof.
  intros HB. destruct (Deps !! id) as [Rec|] eqn:HRec; cbn.
  - by apply (HB id).
  - apply built_empty.
Qed.

Lemma updateDependence_Built EM Dptr F Dist Deps :
  DepsBuilt Deps → DepsBuilt (updateDependence EM Dptr F Dist Deps).
Proof.
  intros HB. unfold updateDependence. apply map_Forall_insert_2; [|done].
  apply built_update. by apply DepsBuilt_default.
Qed.

Lemma mergeDependence_Built To ToTrait From Deps :
  DepsBuilt Deps → DepsBuilt (mergeDependence To ToTrait From Deps).
Proof.
  intros HB. unfold mergeDependence.
  destruct (Deps !! emId From) as [FromDep|] eqn:HFrom.
  - apply map_Forall_insert_2; [|done].
    apply built_merge; [by apply (HB (emId From))|by apply DepsBuilt_default].
  - case_bool_decide; [done|].
    apply map_Forall_insert_2; [|done]. by apply DepsBuilt_default.
Qed.

Lemma foldl_invariant {A B} (P : A → Prop) (f : A → B → A) l a :
  (∀ a b, P a → P (f a b)) → P a → P (foldl f a l).
Proof.
  intros Hf. revert a. induction l as [|b l IH]; intros a Ha; cbn; auto.
Qed.

Section CollectorFacts.

Variable mAliasTree : AliasTree.
Variable isNoModRef : Instruction → MemoryLocation → bool.
Variable depends : Instruction → Instruction → option llvm.Dependence.
Variable LoopDepth : nat.

(** A property of the map that every update of a record keeps. *)
Variable P : DependenceMap → Prop.
Hypothesis P_update :
  ∀ EM Dptr F Dist Deps, P Deps → P (updateDependence EM Dptr F Dist Deps).

Lemma insertDependence_invariant Dep Src Dst Flag Depth Deps :
  P Deps → P (insertDependence mAliasTree Dep Src Dst Flag Depth Deps).
Proof.
  intros HP. unfold insertDependence.
  repeat case_match; auto.
Qed.

Lemma collectLoadStorePair_invariant D Src Dst Depth Deps :
  P Deps → P (collectLoadStorePair mAliasTree D Src Dst Depth Deps).
Proof.
  intros HP. unfold collectLoadStorePair.
  repeat case_match; auto using insertDependence_invariant.
Qed.

Lemma insertUnknownDep_invariant Src Dst Flag Deps M :
  P Deps → P (insertUnknownDep mAliasTree isNoModRef Src Dst Flag Deps M).
Proof.
  intros HP. unfold insertUnknownDep. destruct M as [[Loc R] W].
  repeat case_match; auto.
Qed.

Lemma collectUnknownPair_invariant Src Dst Deps :
  P Deps → P (collectUnknownPair mAliasTree isNoModRef Src Dst Deps).
Proof.
  intros HP. unfold collectUnknownPair.
  repeat case_match; auto;
    repeat (apply foldl_invariant;
            [intros; by apply insertUnknownDep_invariant|]); done.
Qed.

Lemma collectKnownPair_invariant Src SrcLoc Dst Deps :
  P Deps →
  P (collectKnownPair mAliasTree isNoModRef depends LoopDepth Src SrcLoc Dst Deps).
Proof.
  intros HP. unfold collectKnownPair.
  repeat case_match; auto using collectLoadStorePair_invariant.
Qed.

Lemma collectSource_invariant Src Dsts Deps :
  P Deps →
  P (collectSource mAliasTree isNoModRef depends LoopDepth Src Dsts Deps).
Proof.
  intros HP. unfold collectSource.
  repeat case_match; auto; apply foldl_invariant; auto;
    intros; by (apply collectUnknownPair_invariant
                || apply collectKnownPair_invariant).
Qed.

Lemma collectDependencies_invariant LoopInsts Deps :
  P Deps →
  P (collectDependencies mAliasTree isNoModRef depends LoopDepth LoopInsts Deps).
Proof.
  revert Deps. induction LoopInsts as [|Src rest IH]; intros Deps HP; cbn.
  - done.
  - apply IH. by apply collectSource_invariant.
Qed.

End CollectorFacts.

(** X5. From an empty map the collector stores only records in which a kind
    of unknown distance has no distance, and a kind of the descriptor whose
    distance is known has at least one: every record can be summarized. *)
Theorem collectDependencies_records (mAliasTree : AliasTree)
    (isNoModRef : Instruction → MemoryLocation → bool)
    (depends : Instruction → Instruction → option llvm.Dependence)
    (LoopDepth : nat) (LoopInsts : list Instruction) :
  map_Forall (λ _ Rec, DependenceImp.Consistent Rec ∧ Summarizable Rec)
    (collectDependencies mAliasTree isNoModRef depends LoopDepth LoopInsts ∅).
Proof.
  assert (HB : DepsBuilt
            (collectDependencies mAliasTree isNoModRef depends LoopDepth
               LoopInsts ∅)).
  { apply (collectDependencies_invariant _ _ _ _ DepsBuilt).
    - intros. by apply updateDependence_Built.
    - apply DepsBuilt_empty. }
  intros id Rec HRec. specialize (HB id Rec HRec). cbn in HB.
  split; [by apply Built_Consistent|by apply Built_Summarizable].
Qed.

Lemma recordsKinds_apply o Rec K m :
  recordsKinds Rec K m → recordsKinds (DependenceImp.apply Rec o) K m.
Proof.
  intros [HK HF]. destruct (apply_fields o Rec) as (HD & HFl & _). split.
  - rewrite HD. set_solver.
  - intros k Hk. rewrite HFl. destruct (decide _); [|by apply HF].
    apply land_lor_nonzero. left. by apply HF.
Qed.

(** A map in which the memory [id] has a record with the kinds [K] flagged
    with [m]. *)
Lemma updateDependence_keeps id K m EM Dptr F Dist Deps :
  (∃ Rec, Deps !! id = Some Rec ∧ recordsKinds Rec K m) →
  ∃ Rec, updateDependence EM Dptr F Dist Deps !! id = Some Rec ∧
         recordsKinds Rec K m.
Proof.
  intros (Rec & HRec & HK). unfold updateDependence.
  destruct (decide (emId EM = id)) as [<-|Hne].
  - rewrite lookup_insert_eq, HRec. eexists. split; [done|].
    by apply (recordsKinds_apply (DependenceImp.OpUpdate Dptr F Dist)).
  - rewrite lookup_insert_ne by done. eauto.
Qed.

Lemma updateDependence_unknown EM F Deps :
  ∃ Rec, updateDependence EM allKinds F None Deps !! emId EM = Some Rec ∧
         recordsKinds Rec allKinds Dependence.UnknownDistance.
Proof.
  unfold updateDependence. rewrite lookup_insert_eq. eexists. split; [done|].
  destruct (update_fields allKinds F None
              (default DependenceImp.empty (Deps !! emId EM))) as (HD & HF & _).
  split.
  - rewrite HD. set_solver.
  - intros k Hk. rewrite HF, decide_True by done. cbn.
    apply land_lor_nonzero. right. apply land_lor_nonzero. right. done.
Qed.

Lemma foldl_establish {A B} (P : A → Prop) (f : A → B → A) l a x :
  x ∈ l → (∀ a, P (f a x)) → (∀ a b, P a → P (f a b)) → P (foldl f a l).
Proof.
  intros Hx Hest Hkeep. apply list_elem_of_split in Hx as (l1 & l2 & ->).
  rewrite foldl_app. cbn. apply foldl_invariant; auto.
Qed.

Lemma collectDependencies_app mAliasTree isNoModRef depends LoopDepth pre l Deps :
  ∃ Deps',
    collectDependencies mAliasTree isNoModRef depends LoopDepth (pre ++ l) Deps =
    collectDependencies mAliasTree isNoModRef depends LoopDepth l Deps'.
Proof.
  revert Deps. induction pre as [|p pre IH]; intros Deps; cbn; eauto.
Qed.

(** X6. A load or a store of a location, followed in the loop by an
    instruction that is no load or store, may access memory, is no memory
    marker and may access the location, gives the location a record with
    the three kinds of dependence, each of unknown distance. *)
Theorem collectDependencies_after_load_store (mAliasTree : AliasTree)
    (isNoModRef : Instruction → MemoryLocation → bool)
    (depends : Instruction → Instruction → option llvm.Dependence)
    (LoopDepth : nat) (pre rest : list Instruction) (Src Dst : Instruction)
    (SrcLoc : MemoryLocation) (Deps : DependenceMap) :
  mayReadOrWriteMemory Src = true →
  getLoadOrStoreLocation Src = Some SrcLoc →
  Dst ∈ rest →
  getLoadOrStoreLocation Dst = None →
  mayReadOrWriteMemory Dst = true →
  isMemoryMarker Dst = false →
  isNoModRef Dst SrcLoc = false →
  ∃ Rec,
    collectDependencies mAliasTree isNoModRef depends LoopDepth
      (pre ++ Src :: rest) Deps !! emId (find mAliasTree SrcLoc) = Some Rec ∧
    recordsKinds Rec allKinds Dependence.UnknownDistance.
Proof.
  intros HSrc HLoc HDst HDstLoc HDstRW HDstM HDstMR.
  destruct (collectDependencies_app mAliasTree isNoModRef depends LoopDepth
              pre (Src :: rest) Deps) as [Deps' ->].
  cbn [collectDependencies].
  apply (collectDependencies_invariant _ _ _ _
           (λ D, ∃ Rec, D !! emId (find mAliasTree SrcLoc) = Some Rec ∧
                        recordsKinds Rec allKinds Dependence.UnknownDistance)).
  { intros. by apply updateDependence_keeps. }
  unfold collectSource. rewrite HSrc, HLoc. cbn [negb].
  apply (foldl_establish
           (λ D, ∃ Rec, D !! emId (find mAliasTree SrcLoc) = Some Rec ∧
                        recordsKinds Rec allKinds Dependence.UnknownDistance)
           _ _ _ Dst).
  - by right.
  - intros D. unfold collectKnownPair.
    rewrite HDstLoc, HDstRW, HDstM, HDstMR. cbn [negb].
    apply updateDependence_unknown.
  - intros D I HD.
    apply (collectKnownPair_invariant _ _ _ _
             (λ D, ∃ Rec, D !! emId (find mAliasTree SrcLoc) = Some Rec ∧
                          recordsKinds Rec allKinds Dependence.UnknownDistance));
      [|done].
    intros. by apply updateDependence_keeps.
Qed.

Lemma collectDependencies_after_load_store_witness :
  ∃ Rec,
    collectDependencies Sample.tree SampleInsts.isNoModRef SampleInsts.depends 1
      ([] ++ SampleInsts.storeX :: [SampleInsts.call; SampleInsts.loadY]) ∅
      !! emId (find Sample.tree Sample.X) = Some Rec ∧
    recordsKinds Rec allKinds Dependence.UnknownDistance.
Proof.
  apply (collectDependencies_after_load_store Sample.tree SampleInsts.isNoModRef
           SampleInsts.depends 1 [] [SampleInsts.call; SampleInsts.loadY]
           SampleInsts.storeX SampleInsts.call Sample.X ∅);
    try reflexivity.
  apply list_elem_of_here.
Defined.

(** X7. An instruction that is no load or store, may access memory and is
    no memory marker, paired with itself or with a later instruction of the
    loop that may access memory and is no memory marker, gives every
    location that one of the two accesses and both may access a record with
    the three kinds of dependence, each of unknown distance. *)
Theorem collectDependencies_after_unknown (mAliasTree : AliasTree)
    (isNoModRef : Instruction → MemoryLocation → bool)
    (depends : Instruction → Instruction → option llvm.Dependence)
    (LoopDepth : nat) (pre rest : list Instruction) (Src Dst : Instruction)
    (Loc : MemoryLocation) (R W : AccessInfo) (Deps : DependenceMap) :
  mayReadOrWriteMemory Src = true →
  getLoadOrStoreLocation Src = None →
  isMemoryMarker Src = false →
  Dst ∈ Src :: rest →
  mayReadOrWriteMemory Dst = true →
  isMemoryMarker Dst = false →
  (Loc, R, W) ∈ instMemory Src ++ instMemory Dst →
  isAccessNo R && isAccessNo W = false →
  isNoModRef Src Loc = false →
  isNoModRef Dst Loc = false →
  ∃ Rec,
    collectDependencies mAliasTree isNoModRef depends LoopDepth
      (pre ++ Src :: rest) Deps !! emId (find mAliasTree Loc) = Some Rec ∧
    recordsKinds Rec allKinds Dependence.UnknownDistance.
Proof.
  intros HSrc HLoc HSrcM HDst HDstRW HDstM HMem HRW HSrcMR HDstMR.
  destruct (collectDependencies_app mAliasTree isNoModRef depends LoopDepth
              pre (Src :: rest) Deps) as [Deps' ->].
  cbn [collectDependencies].
  set (P := λ D : DependenceMap,
              ∃ Rec, D !! emId (find mAliasTree Loc) = Some Rec ∧
                     recordsKinds Rec allKinds Dependence.UnknownDistance).
  assert (HP : ∀ EM Dptr F Dist D, P D → P (updateDependence EM Dptr F Dist D)).
  { intros. by apply updateDependence_keeps. }
  apply (collectDependencies_invariant _ _ _ _ P HP).
  unfold collectSource. rewrite HSrc, HLoc, HSrcM. cbn [negb].
  apply (foldl_establish P _ _ _ Dst HDst).
  - intros D. unfold collectUnknownPair. rewrite HDstRW, HDstM. cbn [negb].
    rewrite <- foldl_app.
    apply (foldl_establish P _ _ _ (Loc, R, W) HMem).
    + intros D'. unfold insertUnknownDep. rewrite HRW, HSrcMR, HDstMR.
      apply updateDependence_unknown.
    + intros D' M HD'. by apply insertUnknownDep_invariant.
  - intros D I HD. by apply collectUnknownPair_invariant.
Qed.

Lemma collectDependencies_after_unknown_witness :
  ∃ Rec,
    collectDependencies Sample.tree SampleInsts.isNoModRef SampleInsts.depends 1
      ([SampleInsts.storeX] ++ SampleInsts.call :: [SampleInsts.loadY]) ∅
      !! emId (find Sample.tree Sample.Y) = Some Rec ∧
    recordsKinds Rec allKinds Dependence.UnknownDistance.
Proof.
  apply (collectDependencies_after_unknown Sample.tree SampleInsts.isNoModRef
           SampleInsts.depends 1 [SampleInsts.storeX] [SampleInsts.loadY]
           SampleInsts.call SampleInsts.loadY Sample.Y AccessMust AccessNo ∅);
    try reflexivity.
  - apply list_elem_of_further, list_elem_of_here.
  - apply list_elem_of_here.
Defined.

Lemma flagsIncluded_lor_r F G : flagsIncluded G (Z.lor F G).
Proof. rewrite Z.lor_comm. apply flagsIncluded_lor. Qed.

Lemma flagsIncluded_trans F G H :
  flagsIncluded F G → flagsIncluded G H → flagsIncluded F H.
Proof.
  unfold flagsIncluded. intros HFG HGH.
  rewrite <- HFG at 1. rewrite <- Z.land_assoc, HGH. done.
Qed.

Lemma DepsGrow_refl Deps : DepsGrow Deps Deps.
Proof.
  intros id Rec HRec. exists Rec. split_and!; [done|done|].
  intros k. apply flagsIncluded_refl.
Qed.

Lemma DepsGrow_trans D1 D2 D3 : DepsGrow D1 D2 → DepsGrow D2 D3 → DepsGrow D1 D3.
Proof.
  intros H12 H23 id Rec HRec.
  destruct (H12 id Rec HRec) as (Rec2 & HRec2 & HD2 & HF2).
  destruct (H23 id Rec2 HRec2) as (Rec3 & HRec3 & HD3 & HF3).
  exists Rec3. split_and!; [done|set_solver|].
  intros k. by eapply flagsIncluded_trans.
Qed.

Lemma DepsGrow_insert_apply Deps id o :
  DepsGrow Deps
    (<[id := DependenceImp.apply (default DependenceImp.empty (Deps !! id)) o]>
       Deps).
Proof.
  intros id' Rec HRec. destruct (decide (id = id')) as [<-|Hne].
  - rewrite lookup_insert_eq, HRec. cbn [default]. eexists. split; [done|].
    split; [apply (apply_grows o Rec Flow)|].
    intros k. apply (apply_grows o Rec k).
  - rewrite lookup_insert_ne by done. exists Rec. split_and!; [done|done|].
    intros k. apply flagsIncluded_refl.
Qed.

Lemma DepsGrow_insert_default Deps id :
  DepsGrow Deps (<[id := default DependenceImp.empty (Deps !! id)]> Deps).
Proof.
  intros id' Rec HRec. exists Rec. split_and!; [|done|].
  - destruct (decide (id = id')) as [<-|Hne].
    + by rewrite lookup_insert_eq, HRec.
    + by rewrite lookup_insert_ne.
  - intros k. apply flagsIncluded_refl.
Qed.

Lemma updateDependence_grows EM Dptr F Dist Deps :
  DepsGrow Deps (updateDependence EM Dptr F Dist Deps).
Proof. apply (DepsGrow_insert_apply Deps (emId EM) (DependenceImp.OpUpdate Dptr F Dist)). Qed.

Lemma mergeDependence_grows To ToTrait From Deps :
  DepsGrow Deps (mergeDependence To ToTrait From Deps).
Proof.
  unfold mergeDependence. destruct (Deps !! emId From) as [FromDep|].
  - apply (DepsGrow_insert_apply Deps (emId To) (DependenceImp.OpMerge FromDep)).
  - case_bool_decide; [apply DepsGrow_refl|apply DepsGrow_insert_default].
Qed.

(** X8. [mergeDependence] changes the record of [To] only, and never removes
    a record, a kind of a record or a flag of a kind.  When [From] has a
    record, [To] has one afterwards with the kinds and the flags of the
    record of [From]; when the traits of [To] are Dependency whatever their
    unit flags, [To] has a record afterwards; and with neither, the map is
    left as it is.  A map of records built by updates and merges stays
    one. *)
Theorem mergeDependence_spec (To From : EstimateMemory)
    (ToTrait : BitMemoryTrait.Id) (Deps : DependenceMap) :
  let Deps' := mergeDependence To ToTrait From Deps in
  (∀ id, id ≠ emId To → Deps' !! id = Deps !! id) ∧
  DepsGrow Deps Deps' ∧
  (∀ FromDep, Deps !! emId From = Some FromDep →
     ∃ Rec, Deps' !! emId To = Some Rec ∧
            DependenceImp.mDptr FromDep ⊆ DependenceImp.mDptr Rec ∧
            ∀ k, k ∈ DependenceImp.mDptr FromDep →
                 flagsIncluded (tget k (DependenceImp.mFlags FromDep))
                               (tget k (DependenceImp.mFlags Rec))) ∧
  (BitMemoryTrait.dropUnitFlag ToTrait = BitMemoryTrait.Dependency →
   is_Some (Deps' !! emId To)) ∧
  (Deps !! emId From = None →
   BitMemoryTrait.dropUnitFlag ToTrait ≠ BitMemoryTrait.Dependency →
   Deps' = Deps) ∧
  (DepsBuilt Deps → DepsBuilt Deps').
Proof.
  cbn zeta. split_and!.
  - intros id Hne. unfold mergeDependence.
    destruct (Deps !! emId From); [by rewrite lookup_insert_ne|].
    case_bool_decide; [done|by rewrite lookup_insert_ne].
  - apply mergeDependence_grows.
  - intros FromDep HFrom. unfold mergeDependence. rewrite HFrom.
    rewrite lookup_insert_eq. eexists. split; [done|].
    destruct (updateFrom_fields FromDep
                (default DependenceImp.empty (Deps !! emId To)))
      as (HD & HF & _).
    split; [rewrite HD; set_solver|].
    intros k Hk. rewrite HF, decide_True by done. apply flagsIncluded_lor_r.
  - intros HT. unfold mergeDependence.
    destruct (Deps !! emId From); [by rewrite lookup_insert_eq|].
    rewrite bool_decide_eq_false_2 by (by intros H).
    by rewrite lookup_insert_eq.
  - intros HFrom HT. unfold mergeDependence.
    by rewrite HFrom, bool_decide_eq_true_2.
  - apply mergeDependence_Built.
Qed.

(** ** The states of the resolvers *)

Lemma forEach_steps {A S} (body : A → S → option S) (P : S → Prop)
    (E : S → S → Prop) (Q : A → Prop) (R : A → S → Prop) l s :
  (∀ s, E s s) →
  (∀ a b c, E a b → E b c → E a c) →
  (∀ x s, Q x → P s → ∃ s', body x s = Some s' ∧ P s' ∧ E s s' ∧ R x s') →
  (∀ x s s', R x s → E s s' → R x s') →
  Forall Q l → P s →
  ∃ s', forEach body l s = Some s' ∧ P s' ∧ E s s' ∧ Forall (λ x, R x s') l.
Proof.
  intros Hrefl Htrans Hbody Hmono HQ. revert s.
  induction HQ as [|x l Hx _ IH]; intros s HP; cbn.
  - exists s. split_and!; auto.
  - destruct (Hbody x s Hx HP) as (s1 & -> & HP1 & HE1 & HR1). cbn.
    destruct (IH s1 HP1) as (s' & -> & HP' & HE' & HR').
    exists s'. split_and!; eauto.
Qed.

Lemma inLattice_conj T X : inLattice T → inLattice (T &' X).
Proof.
  unfold inLattice, BitMemoryTrait.conj. intros HT.
  rewrite <- Z.land_assoc, (Z.land_comm X), Z.land_assoc, HT. done.
Qed.

Lemma conj_below T X : (T &' X) &' T = T &' X.
Proof.
  unfold BitMemoryTrait.conj.
  rewrite (Z.land_comm T X), <- Z.land_assoc, Z.land_diag. done.
Qed.

Lemma Extends_refl st : Extends st st.
Proof.
  split; try done.
  - intros N TL UL H. exists TL, UL. done.
  - intros c T H. exists T. split; [done|]. apply Z.land_diag.
Qed.

Lemma Extends_trans s1 s2 s3 : Extends s1 s2 → Extends s2 s3 → Extends s1 s3.
Proof.
  intros [A1 U1 L1 T1] [A2 U2 L2 T2]. split.
  - by etrans.
  - by etrans.
  - intros N TL UL H. destruct (L1 _ _ _ H) as (TL' & UL' & H' & HT & HU).
    destruct (L2 _ _ _ H') as (TL'' & UL'' & H'' & HT' & HU').
    exists TL'', UL''. split_and!; [done| |]; by etrans.
  - intros c T H. destruct (T1 _ _ H) as (T' & H' & HT).
    destruct (T2 _ _ H') as (T'' & H'' & HT').
    exists T''. split; [done|]. unfold BitMemoryTrait.conj in *.
    rewrite <- HT' at 2. rewrite <- HT. rewrite Z.land_assoc, HT'. done.
Qed.

(** A trait of the store is conjoined with [X]. *)
Lemma setCell_spec mAliasTree st cell T X :
  ValidState mAliasTree st → traits st !! cell = Some T →
  ValidState mAliasTree (setTraits st (<[cell := T &' X]> (traits st))) ∧
  Extends st (setTraits st (<[cell := T &' X]> (traits st))).
Proof.
  intros [VA VU VL VT] Hcell. split; split; cbn; try done.
  - intros N TL UL H. rewrite length_insert. by apply (VL N).
  - apply Forall_insert; [done|]. apply inLattice_conj.
    by apply (Forall_lookup_1 _ _ _ _ VT Hcell).
  - intros N TL UL H. exists TL, UL. done.
  - intros c T0 Hc. destruct (decide (c = cell)) as [->|Hne].
    + rewrite list_lookup_insert_eq by (by eapply lookup_lt_Some).
      exists (T &' X). split; [done|]. rewrite Hcell in Hc.
      injection Hc as <-. apply conj_below.
    + rewrite list_lookup_insert_ne by done. exists T0. split; [done|].
      apply Z.land_diag.
Qed.

(** A node with the trait [V] is put at the front of the list of the alias
    node of [Base], and the map of explicit accesses points to it. *)
Lemma register_spec mAliasTree st Base V TL UL :
  ValidState mAliasTree st → inLattice V →
  ExplicitAccesses st !! emId Base = None →
  NodeTraits st !! getAliasNode mAliasTree Base = Some (TL, UL) →
  let st' :=
    mkPassState (traits st ++ [V])
      (<[emId Base := length (traits st)]> (ExplicitAccesses st))
      (ExplicitUnknowns st)
      (<[getAliasNode mAliasTree Base := ((Base, length (traits st)) :: TL, UL)]>
         (NodeTraits st)) in
  ValidState mAliasTree st' ∧ Extends st st'.
Proof.
  intros [VA VU VL VT] HV HEA HN. cbn zeta. split; split; cbn.
  - intros id cell H. destruct (decide (emId Base = id)) as [<-|Hne].
    + rewrite lookup_insert_eq in H. injection H as <-.
      exists Base, ((Base, length (traits st)) :: TL), UL.
      rewrite lookup_insert_eq. split_and!; [done|done|left].
    + rewrite lookup_insert_ne in H by done.
      destruct (VA _ _ H) as (B & TL0 & UL0 & Hid & HN0 & Hin).
      destruct (decide (getAliasNode mAliasTree Base = getAliasNode mAliasTree B))
        as [Heq|Hneq].
      * exists B, ((Base, length (traits st)) :: TL), UL.
        rewrite <- Heq, lookup_insert_eq. split_and!; [done|done|].
        rewrite <- Heq, HN in HN0. injection HN0 as <- <-. by right.
      * exists B, TL0, UL0. by rewrite lookup_insert_ne.
  - intros U N cell H. destruct (VU _ _ _ H) as (TL0 & UL0 & HN0 & Hin).
    destruct (decide (getAliasNode mAliasTree Base = N)) as [<-|Hneq].
    + rewrite HN in HN0. injection HN0 as <- <-.
      exists ((Base, length (traits st)) :: TL), UL.
      by rewrite lookup_insert_eq.
    + exists TL0, UL0. by rewrite lookup_insert_ne.
  - intros N TL0 UL0 H. rewrite length_app. cbn [length].
    destruct (decide (getAliasNode mAliasTree Base = N)) as [<-|Hneq].
    + rewrite lookup_insert_eq in H. injection H as <- <-.
      destruct (VL _ _ _ HN) as [Hnd Hlt]. unfold traitCells in *. cbn in *.
      split.
      * apply list.NoDup_cons. split; [|done].
        intros Hin. rewrite list.Forall_forall in Hlt. apply Hlt in Hin. lia.
      * constructor; [lia|]. eapply list.Forall_impl; [done|]. cbn. lia.
    + rewrite lookup_insert_ne in H by done.
      destruct (VL _ _ _ H) as [Hnd Hlt]. split; [done|].
      eapply list.Forall_impl; [done|]. cbn. lia.
  - apply Forall_app. split; [done|]. by constructor.
  - by apply insert_subseteq.
  - done.
  - intros N TL0 UL0 H.
    destruct (decide (getAliasNode mAliasTree Base = N)) as [<-|Hneq].
    + rewrite HN in H. injection H as <- <-.
      exists ((Base, length (traits st)) :: TL), UL.
      rewrite lookup_insert_eq. split_and!; [done| |done].
      intros x Hx. by right.
    + exists TL0, UL0. by rewrite lookup_insert_ne.
  - intros c T Hc. exists T. split; [|apply Z.land_diag].
    rewrite lookup_app_l; [done|]. by eapply lookup_lt_Some.
Qed.

Lemma valid_access_cell mAliasTree st id cell :
  ValidState mAliasTree st → ExplicitAccesses st !! id = Some cell →
  is_Some (traits st !! cell).
Proof.
  intros HV H. destruct (valid_access _ _ HV _ _ H) as (B & TL & UL & _ & HN & Hin).
  destruct (valid_lists _ _ HV _ _ _ HN) as [_ Hlt].
  apply lookup_lt_is_Some. rewrite list.Forall_forall in Hlt. apply Hlt.
  unfold traitCells. cbn. apply elem_of_app. left.
  apply list_elem_of_fmap. by exists (B, cell).
Qed.

Lemma valid_unknown_cell mAliasTree st U N cell :
  ValidState mAliasTree st → ExplicitUnknowns st !! U = Some (N, cell) →
  is_Some (traits st !! cell).
Proof.
  intros HV H. destruct (valid_unknown _ _ HV _ _ _ H) as (TL & UL & HN & Hin).
  destruct (valid_lists _ _ HV _ _ _ HN) as [_ Hlt].
  apply lookup_lt_is_Some. rewrite list.Forall_forall in Hlt. apply Hlt.
  unfold traitCells. cbn. apply elem_of_app. right.
  apply list_elem_of_fmap. by exists (U, cell).
Qed.

Lemma Extends_node st st' N :
  Extends st st' → is_Some (NodeTraits st !! N) → is_Some (NodeTraits st' !! N).
Proof.
  intros HE [[TL UL] H]. destruct (ext_lists _ _ HE _ _ _ H) as (? & ? & -> & _).
  done.
Qed.

Lemma Extends_access st st' id :
  Extends st st' → is_Some (ExplicitAccesses st !! id) →
  is_Some (ExplicitAccesses st' !! id).
Proof.
  intros HE [c H]. exists c.
  by apply (lookup_weaken _ _ _ _ H (ext_accesses _ _ HE)).
Qed.

Lemma Extends_unknown st st' U :
  Extends st st' → is_Some (ExplicitUnknowns st !! U) →
  is_Some (ExplicitUnknowns st' !! U).
Proof.
  intros HE [c H]. exists c.
  by apply (lookup_weaken _ _ _ _ H (ext_unknowns _ _ HE)).
Qed.

Section StageFacts.

Variable mAliasTree : AliasTree.
Variable onlyReadsMemoryCall : Value → bool.
Variable asLoadInst : Value → option MemoryLocation.
Variable DefUse : DefUseSet.
Variable LiveOut : LocationDFValue.
Variable LatchDefs ExitingDefs : DefinitionInfo.
Variable Deps : DependenceMap.

Lemma resolveAccess_step Loc st :
  ValidState mAliasTree st →
  is_Some (NodeTraits st !! getAliasNode mAliasTree (find mAliasTree Loc)) →
  ∃ st', resolveAccess mAliasTree DefUse LiveOut LatchDefs ExitingDefs Deps
           Loc st = Some st' ∧
         ValidState mAliasTree st' ∧ Extends st st' ∧
         is_Some (ExplicitAccesses st' !! emId (find mAliasTree Loc)).
Proof.
  intros HV [[TL UL] HN]. unfold resolveAccess, registerAccess.
  destruct (ExplicitAccesses st !! emId (find mAliasTree Loc)) as [cell|] eqn:HEA.
  - destruct (valid_access_cell _ _ _ _ HV HEA) as [T HT]. cbn. rewrite HT. cbn.
    eexists. split; [done|].
    destruct (setCell_spec mAliasTree st cell T
                (accessTrait DefUse LiveOut LatchDefs ExitingDefs Deps Loc
                   (find mAliasTree Loc)) HV HT) as [HV' HE'].
    split_and!; [done|done|]. cbn. by rewrite HEA.
  - rewrite HN. cbn. rewrite list_lookup_middle by done. cbn.
    eexists. split; [done|].
    destruct (register_spec mAliasTree st (find mAliasTree Loc)
                BitMemoryTrait.default TL UL HV eq_refl HEA HN) as [HV1 HE1].
    cbn zeta in HV1, HE1.
    match type of HV1 with ValidState _ ?s => set (st1 := s) in * end.
    assert (HT : traits st1 !! length (traits st) = Some BitMemoryTrait.default).
    { cbn. by rewrite list_lookup_middle. }
    destruct (setCell_spec mAliasTree st1 (length (traits st))
                BitMemoryTrait.default
                (accessTrait DefUse LiveOut LatchDefs ExitingDefs Deps Loc
                   (find mAliasTree Loc)) HV1 HT) as [HV' HE'].
    split_and!; [done| |].
    + by eapply Extends_trans.
    + cbn. by rewrite lookup_insert_eq.
Qed.

Lemma resolveUnknown_step U st :
  ValidState mAliasTree st →
  is_Some (NodeTraits st !! findUnknown mAliasTree U) →
  ∃ st', resolveUnknown mAliasTree onlyReadsMemoryCall U st = Some st' ∧
         ValidState mAliasTree st' ∧ Extends st st' ∧
         is_Some (ExplicitUnknowns st' !! U).
Proof.
  intros [VA VU VL VT] [[TL UL] HN]. unfold resolveUnknown. rewrite HN. cbn.
  eexists. split; [done|]. split_and!; [split; cbn|split; cbn|cbn].
  - intros id cell H. destruct (VA _ _ H) as (B & TL0 & UL0 & Hid & HN0 & Hin).
    destruct (decide (findUnknown mAliasTree U = getAliasNode mAliasTree B))
      as [Heq|Hneq].
    + rewrite <- Heq, HN in HN0. injection HN0 as <- <-.
      exists B, TL, ((U, length (traits st)) :: UL).
      by rewrite <- Heq, lookup_insert_eq.
    + exists B, TL0, UL0. by rewrite lookup_insert_ne.
  - intros U' N cell H.
    assert (HU' : (U' = U ∧ N = findUnknown mAliasTree U
                   ∧ cell = length (traits st)) ∨
                  ExplicitUnknowns st !! U' = Some (N, cell)).
    { destruct (ExplicitUnknowns st !! U) eqn:HEU; [by right|].
      destruct (decide (U = U')) as [<-|Hne].
      - rewrite lookup_insert_eq in H. injection H as <- <-. by left.
      - rewrite lookup_insert_ne in H by done. by right. }
    destruct HU' as [(-> & -> & ->)|HU'].
    + exists TL, ((U, length (traits st)) :: UL).
      rewrite lookup_insert_eq. split; [done|left].
    + destruct (VU _ _ _ HU') as (TL0 & UL0 & HN0 & Hin).
      destruct (decide (findUnknown mAliasTree U = N)) as [<-|Hneq].
      * rewrite HN in HN0. injection HN0 as <- <-.
        exists TL, ((U, length (traits st)) :: UL).
        rewrite lookup_insert_eq. split; [done|by right].
      * exists TL0, UL0. by rewrite lookup_insert_ne.
  - intros N TL0 UL0 H. rewrite length_app. cbn [length].
    destruct (decide (findUnknown mAliasTree U = N)) as [<-|Hneq].
    + rewrite lookup_insert_eq in H. injection H as <- <-.
      destruct (VL _ _ _ HN) as [Hnd Hlt]. unfold traitCells in *. cbn in *.
      split.
      * apply list.NoDup_app in Hnd as (HndT & Hdisj & HndU).
        apply list.NoDup_app. split_and!; [done| |].
        -- intros c Hc [->|Hin]%elem_of_cons; [|by eapply Hdisj].
           rewrite list.Forall_forall in Hlt.
           assert (length (traits st) < length (traits st)); [|lia].
           apply Hlt. apply elem_of_app. by left.
        -- apply list.NoDup_cons. split; [|done]. intros Hin.
           rewrite list.Forall_forall in Hlt.
           assert (length (traits st) < length (traits st)); [|lia].
           apply Hlt. apply elem_of_app. by right.
      * apply Forall_app in Hlt as [HltT HltU]. apply Forall_app. split.
        -- eapply list.Forall_impl; [done|]. cbn. lia.
        -- constructor; [lia|]. eapply list.Forall_impl; [done|]. cbn. lia.
    + rewrite lookup_insert_ne in H by done.
      destruct (VL _ _ _ H) as [Hnd Hlt]. split; [done|].
      eapply list.Forall_impl; [done|]. cbn. lia.
  - apply Forall_app. split; [done|]. constructor; [|done].
    by destruct (onlyReadsMemoryCall U).
  - done.
  - destruct (ExplicitUnknowns st !! U) eqn:HEU; [done|].
    by apply insert_subseteq.
  - intros N TL0 UL0 H.
    destruct (decide (findUnknown mAliasTree U = N)) as [<-|Hneq].
    + rewrite HN in H. injection H as <- <-.
      exists TL, ((U, length (traits st)) :: UL).
      rewrite lookup_insert_eq. split_and!; [done|done|].
      intros x Hx. by right.
    + exists TL0, UL0. by rewrite lookup_insert_ne.
  - intros c T Hc. exists T. split; [|apply Z.land_diag].
    rewrite lookup_app_l; [done|]. by eapply lookup_lt_Some.
  - destruct (ExplicitUnknowns st !! U) eqn:HEU; [by rewrite HEU|].
    by rewrite lookup_insert_eq.
Qed.

End StageFacts.

Lemma ValidState_initial mAliasTree Nodes :
  ValidState mAliasTree (initialState Nodes).
Proof.
  split; cbn.
  - intros id cell H. by rewrite lookup_empty in H.
  - intros U N cell H. by rewrite lookup_empty in H.
  - intros N TL UL H. apply lookup_gset_to_gmap_Some in H as [_ H].
    injection H as <- <-. split; [constructor|constructor].
  - constructor.
Qed.

Lemma resolveAccesses_stage (mAliasTree : AliasTree)
    (onlyReadsMemoryCall : Value → bool) (DefUse : DefUseSet)
    (LiveOut : LocationDFValue) (LatchDefs ExitingDefs : DefinitionInfo)
    (Deps : DependenceMap) (st : PassState) :
  ValidState mAliasTree st →
  Forall (λ Loc, is_Some (NodeTraits st
                            !! getAliasNode mAliasTree (find mAliasTree Loc)))
    (getExplicitAccesses DefUse) →
  Forall (λ U, is_Some (NodeTraits st !! findUnknown mAliasTree U))
    (getExplicitUnknowns DefUse) →
  ∃ st',
    resolveAccesses mAliasTree onlyReadsMemoryCall DefUse LiveOut LatchDefs
      ExitingDefs Deps st = Some st' ∧
    ValidState mAliasTree st' ∧ Extends st st' ∧
    Forall (λ Loc, is_Some (ExplicitAccesses st'
                              !! emId (find mAliasTree Loc)))
      (getExplicitAccesses DefUse) ∧
    Forall (λ U, is_Some (ExplicitUnknowns st' !! U))
      (getExplicitUnknowns DefUse).
Proof.
  intros HV HA HU. unfold resolveAccesses.
  destruct (forEach_steps
              (resolveAccess mAliasTree DefUse LiveOut LatchDefs ExitingDefs Deps)
              (λ s, ValidState mAliasTree s ∧ Extends st s) Extends
              (λ Loc, is_Some (NodeTraits st
                        !! getAliasNode mAliasTree (find mAliasTree Loc)))
              (λ Loc s, is_Some (ExplicitAccesses s
                                   !! emId (find mAliasTree Loc)))
              (getExplicitAccesses DefUse) st)
    as (st1 & -> & [HV1 _] & HE1 & HR1);
    [apply Extends_refl|apply Extends_trans| | |done|
     split; [done|apply Extends_refl]|].
  { intros Loc s HN [HVs HEs].
    destruct (resolveAccess_step mAliasTree DefUse LiveOut LatchDefs
                ExitingDefs Deps Loc s HVs (Extends_node _ _ _ HEs HN))
      as (s' & Hs' & HV' & HE' & HR').
    exists s'. split_and!; try done. by eapply Extends_trans. }
  { intros Loc s s' HR HE. by eapply Extends_access. }
  cbn.
  destruct (forEach_steps
              (resolveUnknown mAliasTree onlyReadsMemoryCall)
              (λ s, ValidState mAliasTree s ∧ Extends st s) Extends
              (λ U, is_Some (NodeTraits st !! findUnknown mAliasTree U))
              (λ U s, is_Some (ExplicitUnknowns s !! U))
              (getExplicitUnknowns DefUse) st1)
    as (st2 & -> & [HV2 HE2] & HE12 & HR2);
    [apply Extends_refl|apply Extends_trans| | |done|done|].
  { intros U s HN [HVs HEs].
    destruct (resolveUnknown_step mAliasTree onlyReadsMemoryCall U s HVs
                (Extends_node _ _ _ HEs HN))
      as (s' & Hs' & HV' & HE' & HR').
    exists s'. split_and!; try done. by eapply Extends_trans. }
  { intros U s s' HR HE. by eapply Extends_unknown. }
  exists st2. split_and!; try done.
  eapply list.Forall_impl; [exact HR1|]. cbn. intros Loc HLoc.
  by eapply Extends_access.
Qed.

Lemma conj_idemp_r T X : (T &' X) &' X = T &' X.
Proof.
  unfold BitMemoryTrait.conj. by rewrite <- Z.land_assoc, Z.land_diag.
Qed.

Lemma conjoins_refl X G st : conjoins X G st st.
Proof. intros c T H. by left. Qed.

Lemma conjoins_trans X G s1 s2 s3 :
  conjoins X G s1 s2 → conjoins X G s2 s3 → conjoins X G s1 s3.
Proof.
  intros H12 H23 c T H. destruct (H12 c T H) as [H2|[HG H2]].
  - by apply H23.
  - destruct (H23 c _ H2) as [H3|[_ H3]]; right; (split; [done|]); [done|].
    by rewrite H3, conj_idemp_r.
Qed.

Lemma sameMaps_refl st : sameMaps st st.
Proof. done. Qed.

Lemma sameMaps_trans s1 s2 s3 : sameMaps s1 s2 → sameMaps s2 s3 → sameMaps s1 s3.
Proof.
  intros (A1 & U1 & N1 & L1) (A2 & U2 & N2 & L2).
  split_and!; congruence.
Qed.

Lemma setCell_conjoins (G : BitMemoryTrait.Id → Prop) st cell T X :
  traits st !! cell = Some T → G T →
  sameMaps st (setTraits st (<[cell := T &' X]> (traits st))) ∧
  conjoins X G st (setTraits st (<[cell := T &' X]> (traits st))).
Proof.
  intros Hcell HG. split.
  - split_and!; try done. cbn. by rewrite length_insert.
  - intros c T0 Hc. cbn. destruct (decide (c = cell)) as [->|Hne].
    + right. rewrite Hcell in Hc. injection Hc as <-. split; [done|].
      rewrite list_lookup_insert_eq; [done|]. by eapply lookup_lt_Some.
    + left. by rewrite list_lookup_insert_ne.
Qed.

(** Conjoining a trait that has every bit but unit flags keeps the traits
    without their unit flags. *)
Lemma dropUnitFlag_conj_unit T X :
  inLattice T → BitMemoryTrait.dropUnitFlag X = BitMemoryTrait.NoAccess →
  BitMemoryTrait.dropUnitFlag (T &' X) = BitMemoryTrait.dropUnitFlag T.
Proof.
  intros HT HX. rewrite dropUnitFlag_conj, HX.
  unfold inLattice, BitMemoryTrait.conj, BitMemoryTrait.dropUnitFlag in *.
  rewrite Z.land_lor_distr_l, HT. done.
Qed.

Lemma conjoins_dropUnitFlag X G st st' c T T' :
  Forall inLattice (traits st) →
  BitMemoryTrait.dropUnitFlag X = BitMemoryTrait.NoAccess →
  conjoins X G st st' →
  traits st !! c = Some T → traits st' !! c = Some T' →
  BitMemoryTrait.dropUnitFlag T' = BitMemoryTrait.dropUnitFlag T.
Proof.
  intros HL HX HC HT HT'. destruct (HC c T HT) as [H|[_ H]];
    rewrite H in HT'; injection HT' as <-; [done|].
  apply dropUnitFlag_conj_unit; [|done].
  by apply (Forall_lookup_1 _ _ _ _ HL HT).
Qed.

Section HeaderFacts.

Variable mAliasTree : AliasTree.

Let HeaderStep (s s' : PassState) : Prop :=
  sameMaps s s' ∧ conjoins BitMemoryTrait.HeaderAccess (λ _, True) s s'.

Lemma HeaderStep_refl s : HeaderStep s s.
Proof. split; [apply sameMaps_refl|apply conjoins_refl]. Qed.

Lemma HeaderStep_trans a b c : HeaderStep a b → HeaderStep b c → HeaderStep a c.
Proof.
  intros [? ?] [? ?]. split; [by eapply sameMaps_trans|by eapply conjoins_trans].
Qed.

Lemma headerMarked_mono M s s' :
  headerMarked mAliasTree s M → HeaderStep s s' → headerMarked mAliasTree s' M.
Proof.
  intros HM [(HA & _) HC] Hacc. destruct (HM Hacc) as (c & T & HEA & HT & HH).
  rewrite HA. destruct (HC c T HT) as [H|[_ H]].
  - by exists c, T.
  - exists c, (T &' BitMemoryTrait.HeaderAccess). split_and!; [done|done|].
    apply conj_idemp_r.
Qed.

Lemma headerMemory_step M st :
  ValidState mAliasTree st →
  (isAccessNo M.1.2 && isAccessNo M.2 = false →
   is_Some (ExplicitAccesses st !! emId (find mAliasTree M.1.1))) →
  ∃ st', headerMemory mAliasTree M st = Some st' ∧
         ValidState mAliasTree st' ∧ HeaderStep st st' ∧
         headerMarked mAliasTree st' M.
Proof.
  intros HV HM. destruct M as [[Loc R] W]. unfold headerMemory, headerMarked.
  cbn in *. destruct (isAccessNo R && isAccessNo W) eqn:Hacc.
  - exists st. split_and!; [done|done|apply HeaderStep_refl|done].
  - destruct (HM eq_refl) as [cell HEA]. rewrite HEA. cbn.
    destruct (valid_access_cell _ _ _ _ HV HEA) as [T HT]. rewrite HT. cbn.
    eexists. split; [done|].
    destruct (setCell_spec mAliasTree st cell T BitMemoryTrait.HeaderAccess HV HT)
      as [HV' _].
    destruct (setCell_conjoins (λ _, True) st cell T BitMemoryTrait.HeaderAccess
                HT I) as [HS HC].
    split_and!; [done|by split|]. intros _. cbn.
    exists cell, (T &' BitMemoryTrait.HeaderAccess). rewrite HEA.
    split_and!; [done| |apply conj_idemp_r].
    rewrite list_lookup_insert_eq; [done|]. by eapply lookup_lt_Some.
Qed.

Lemma headerUnknown_step Itr st :
  ValidState mAliasTree st →
  is_Some (ExplicitUnknowns st !! instValue Itr) →
  ∃ st', headerUnknown Itr st = Some st' ∧
         ValidState mAliasTree st' ∧ HeaderStep st st'.
Proof.
  intros HV [[N cell] HEU]. unfold headerUnknown. rewrite HEU. cbn.
  destruct (valid_unknown_cell _ _ _ _ _ HV HEU) as [T HT]. rewrite HT. cbn.
  eexists. split; [done|].
  destruct (setCell_spec mAliasTree st cell T BitMemoryTrait.HeaderAccess HV HT)
    as [HV' _].
  destruct (setCell_conjoins (λ _, True) st cell T BitMemoryTrait.HeaderAccess
              HT I) as [HS HC].
  split; [done|by split].
Qed.

Lemma headerRegistered_mono s s' Itr :
  sameMaps s s' → headerRegistered mAliasTree s Itr →
  headerRegistered mAliasTree s' Itr.
Proof.
  intros (HA & HU & _) HR HRW. destruct (HR HRW) as [HM HUn].
  rewrite HA, HU. done.
Qed.

Lemma collectHeaderAccess_step Itr st :
  ValidState mAliasTree st →
  headerRegistered mAliasTree st Itr →
  ∃ st', collectHeaderAccess mAliasTree Itr st = Some st' ∧
         ValidState mAliasTree st' ∧ HeaderStep st st' ∧
         (mayReadOrWriteMemory Itr = true →
          Forall (headerMarked mAliasTree st') (instMemory Itr)).
Proof.
  intros HV HR. unfold collectHeaderAccess.
  destruct (mayReadOrWriteMemory Itr) eqn:HRW; cbn [negb].
  2:{ exists st. split_and!; [done|done|apply HeaderStep_refl|done]. }
  destruct (HR HRW) as [HM HU].
  destruct (forEach_steps (headerMemory mAliasTree)
              (λ s, ValidState mAliasTree s ∧ sameMaps st s) HeaderStep
              (λ M, isAccessNo M.1.2 && isAccessNo M.2 = false →
                    is_Some (ExplicitAccesses st !! emId (find mAliasTree M.1.1)))
              (λ M s, headerMarked mAliasTree s M) (instMemory Itr) st)
    as (st1 & -> & [HV1 HS1] & HE1 & HR1);
    [apply HeaderStep_refl|apply HeaderStep_trans| |
     intros; by eapply headerMarked_mono|done|done|].
  { intros M s HQ [HVs HSs].
    destruct (headerMemory_step M s HVs) as (s' & Hs' & HV' & HE' & HM').
    { destruct HSs as (-> & _). done. }
    exists s'. split_and!; try done.
    eapply sameMaps_trans; [done|apply HE']. }
  cbn. destruct (instUnknownMemory Itr) eqn:HUn.
  - destruct (headerUnknown_step Itr st1 HV1) as (st2 & -> & HV2 & HE2).
    { destruct HS1 as (_ & -> & _). by apply HU. }
    exists st2. split_and!; [done|done|by eapply HeaderStep_trans|].
    intros _. eapply list.Forall_impl; [exact HR1|]. cbn.
    intros M HMk. by eapply headerMarked_mono.
  - exists st1. split_and!; done.
Qed.

End HeaderFacts.

Lemma collectHeaderAccesses_stage (mAliasTree : AliasTree)
    (Header : list Instruction) (st : PassState) :
  ValidState mAliasTree st →
  Forall (headerRegistered mAliasTree st) Header →
  ∃ st',
    collectHeaderAccesses mAliasTree Header st = Some st' ∧
    ValidState mAliasTree st' ∧ sameMaps st st' ∧
    conjoins BitMemoryTrait.HeaderAccess (λ _, True) st st' ∧
    Forall (λ Itr, mayReadOrWriteMemory Itr = true →
                   Forall (headerMarked mAliasTree st') (instMemory Itr)) Header.
Proof.
  intros HV HR. unfold collectHeaderAccesses.
  set (Step := λ s s' : PassState,
         sameMaps s s' ∧
         conjoins BitMemoryTrait.HeaderAccess (λ _, True) s s').
  destruct (forEach_steps (collectHeaderAccess mAliasTree)
              (λ s, ValidState mAliasTree s ∧ sameMaps st s) Step
              (headerRegistered mAliasTree st)
              (λ Itr s, mayReadOrWriteMemory Itr = true →
                        Forall (headerMarked mAliasTree s) (instMemory Itr))
              Header st)
    as (st' & Hst' & [HV' HS'] & [_ HC'] & HR');
    [apply HeaderStep_refl|apply HeaderStep_trans| | |done|done|].
  { intros Itr s HQ [HVs HSs].
    destruct (collectHeaderAccess_step mAliasTree Itr s HVs)
      as (s' & Hs' & HVs' & HEs' & HMs').
    { by eapply headerRegistered_mono. }
    exists s'. split_and!; try done.
    eapply sameMaps_trans; [done|apply HEs']. }
  { intros Itr s s' HM HE HRW. eapply list.Forall_impl; [exact (HM HRW)|].
    cbn. intros M HMk. by eapply headerMarked_mono. }
  exists st'. split_and!; done.
Qed.

Lemma resolvePointer_step mAliasTree asLoadInst Loc st :
  ValidState mAliasTree st →
  pointerRegistered mAliasTree asLoadInst st Loc →
  ∃ st', resolvePointer mAliasTree asLoadInst Loc st = Some st' ∧
         ValidState mAliasTree st' ∧ sameMaps st st' ∧
         conjoins BitMemoryTrait.Dependency (λ T, ¬ traitResolved T) st st'.
Proof.
  intros HV HR. unfold resolvePointer.
  destruct (asLoadInst (Ptr Loc)) as [LI|] eqn:HLI.
  2:{ exists st. split_and!; [done|done|apply sameMaps_refl|apply conjoins_refl]. }
  destruct (HR LI HLI) as [[cell HEA] [pcell HPEA]].
  destruct (valid_access_cell _ _ _ _ HV HEA) as [T HT].
  destruct (valid_access_cell _ _ _ _ HV HPEA) as [PT HPT].
  rewrite HEA. cbn. rewrite HT. cbn.
  destruct (pointerTraitResolved T) eqn:HRes.
  { exists st. split_and!; [done|done|apply sameMaps_refl|apply conjoins_refl]. }
  rewrite HPEA. cbn. rewrite HPT. cbn.
  case_bool_decide.
  { exists st. split_and!; [done|done|apply sameMaps_refl|apply conjoins_refl]. }
  eexists. split; [done|].
  destruct (setCell_spec mAliasTree st cell T BitMemoryTrait.Dependency HV HT)
    as [HV' _].
  destruct (setCell_conjoins (λ T, ¬ traitResolved T) st cell T
              BitMemoryTrait.Dependency HT) as [HS HC].
  { intros HTR. apply pointerTraitResolved_spec in HTR. congruence. }
  done.
Qed.

Lemma pointerRegistered_mono mAliasTree asLoadInst s s' Loc :
  sameMaps s s' → pointerRegistered mAliasTree asLoadInst s Loc →
  pointerRegistered mAliasTree asLoadInst s' Loc.
Proof. intros (HA & _) HR LI HLI. rewrite HA. by apply HR. Qed.

Lemma resolvePointers_stage (mAliasTree : AliasTree)
    (asLoadInst : Value → option MemoryLocation) (DefUse : DefUseSet)
    (st : PassState) :
  ValidState mAliasTree st →
  Forall (pointerRegistered mAliasTree asLoadInst st)
    (getExplicitAccesses DefUse) →
  ∃ st',
    resolvePointers mAliasTree asLoadInst DefUse st = Some st' ∧
    ValidState mAliasTree st' ∧ sameMaps st st' ∧
    conjoins BitMemoryTrait.Dependency (λ T, ¬ traitResolved T) st st'.
Proof.
  intros HV HR. unfold resolvePointers.
  set (Step := λ s s' : PassState,
         sameMaps s s' ∧
         conjoins BitMemoryTrait.Dependency (λ T, ¬ traitResolved T) s s').
  destruct (forEach_steps (resolvePointer mAliasTree asLoadInst)
              (λ s, ValidState mAliasTree s ∧ sameMaps st s) Step
              (pointerRegistered mAliasTree asLoadInst st)
              (λ _ _, True) (getExplicitAccesses DefUse) st)
    as (st' & Hst' & [HV' HS'] & [_ HC'] & _); try done.
  { intros s. split; [apply sameMaps_refl|apply conjoins_refl]. }
  { intros a b c [? ?] [? ?].
    split; [by eapply sameMaps_trans|by eapply conjoins_trans]. }
  { intros Loc s HQ [HVs HSs].
    destruct (resolvePointer_step mAliasTree asLoadInst Loc s HVs)
      as (s' & Hs' & HVs' & HSs' & HCs').
    { by eapply pointerRegistered_mono. }
    exists s'. split_and!; try done. by eapply sameMaps_trans. }
  exists st'. split_and!; done.
Qed.

Section AddressFacts.

Variable mAliasTree : AliasTree.
Variable rootKind : EstimateMemory → RootKind.
Variable users : Value → list User.

Let AddressStep (s s' : PassState) : Prop :=
  Extends s s' ∧ conjoins BitMemoryTrait.AddressAccess (λ _, True) s s' ∧
  addsAddresses s s'.

Lemma AddressStep_refl s : AddressStep s s.
Proof.
  split_and!; [apply Extends_refl|apply conjoins_refl|].
  intros id c H1 H2. congruence.
Qed.

Lemma AddressStep_trans a b c : AddressStep a b → AddressStep b c → AddressStep a c.
Proof.
  intros (HE1 & HC1 & HA1) (HE2 & HC2 & HA2).
  split_and!; [by eapply Extends_trans|by eapply conjoins_trans|].
  intros id cell Ha Hc.
  destruct (ExplicitAccesses b !! id) as [cell'|] eqn:Hb.
  - pose proof (lookup_weaken _ _ _ _ Hb (ext_accesses _ _ HE2)) as Hc'.
    rewrite Hc in Hc'. injection Hc' as <-.
    destruct (HA1 id cell Ha Hb) as [Hnone Hval]. split; [done|].
    destruct (HC2 cell _ Hval) as [H|[_ H]]; rewrite H; [done|].
    by rewrite conj_idemp_r.
  - destruct (HA2 id cell Hb Hc) as [Hnone Hval]. split; [|done].
    destruct (traits a !! cell) as [T|] eqn:HT; [|done].
    destruct (ext_traits _ _ HE1 _ _ HT) as (T' & HT' & _). congruence.
Qed.

Lemma rememberAddress_step Base st :
  ValidState mAliasTree st →
  is_Some (NodeTraits st !! getAliasNode mAliasTree Base) →
  ∃ st', rememberAddress mAliasTree Base st = Some st' ∧
         ValidState mAliasTree st' ∧ AddressStep st st' ∧
         ∃ c T, ExplicitAccesses st' !! emId Base = Some c ∧
                traits st' !! c = Some T ∧
                T &' BitMemoryTrait.AddressAccess = T.
Proof.
  intros HV [[TL UL] HN]. unfold rememberAddress.
  destruct (ExplicitAccesses st !! emId Base) as [cell|] eqn:HEA.
  - destruct (valid_access_cell _ _ _ _ HV HEA) as [T HT]. rewrite HT. cbn.
    eexists. split; [done|].
    destruct (setCell_spec mAliasTree st cell T BitMemoryTrait.AddressAccess
                HV HT) as [HV' HE'].
    destruct (setCell_conjoins (λ _, True) st cell T
                BitMemoryTrait.AddressAccess HT I) as [HS HC].
    split_and!; [done|split_and!; [done|done|]|].
    + intros id c H1 H2. cbn in H2. congruence.
    + exists cell, (T &' BitMemoryTrait.AddressAccess). cbn.
      split_and!; [done| |apply conj_idemp_r].
      rewrite list_lookup_insert_eq; [done|]. by eapply lookup_lt_Some.
  - rewrite HN. cbn. eexists. split; [done|].
    destruct (register_spec mAliasTree st Base
                (BitMemoryTrait.NoAccess &' BitMemoryTrait.AddressAccess)
                TL UL HV eq_refl HEA HN) as [HV' HE'].
    cbn zeta in HV', HE'. split_and!; [done|split_and!; [done| |]|].
    + intros c T HT. left. cbn. rewrite lookup_app_l; [done|].
      by eapply lookup_lt_Some.
    + intros id c H1 H2. cbn in H2.
      destruct (decide (emId Base = id)) as [<-|Hne].
      * rewrite lookup_insert_eq in H2. injection H2 as <-. cbn.
        split; [by apply lookup_ge_None_2|by rewrite list_lookup_middle].
      * rewrite lookup_insert_ne in H2 by done. congruence.
    + exists (length (traits st)),
        (BitMemoryTrait.NoAccess &' BitMemoryTrait.AddressAccess). cbn.
      rewrite lookup_insert_eq, list_lookup_middle by done. done.
Qed.

Lemma resolveAddress_step Ptr st :
  ValidState mAliasTree st →
  is_Some (NodeTraits st
             !! getAliasNode mAliasTree
                  (find mAliasTree (mkMemoryLocation Ptr 0%N 0%N))) →
  ∃ st', resolveAddress mAliasTree rootKind users Ptr st = Some st' ∧
         ValidState mAliasTree st' ∧ AddressStep st st' ∧
         (addressUsed mAliasTree rootKind users Ptr →
          addressMarked mAliasTree st' Ptr).
Proof.
  intros HV HN. unfold resolveAddress, addressUsed, addressMarked.
  destruct (rememberAddress_step _ st HV HN) as (st' & Hst' & HV' & HE' & HM').
  destruct (rootKind _) as [[]| |] eqn:HK;
    try (exists st; split_and!; [done|done|apply AddressStep_refl|];
         intros [[?|?] ?]; congruence);
    (destruct (addressRemembered (users Ptr)) eqn:HU;
     [exists st'; split_and!; done|
      exists st; split_and!; [done|done|apply AddressStep_refl|];
      intros [_ ?]; congruence]).
Qed.

End AddressFacts.

Lemma addressMarked_mono mAliasTree s s' Ptr :
  Extends s s' → conjoins BitMemoryTrait.AddressAccess (λ _, True) s s' →
  addressMarked mAliasTree s Ptr → addressMarked mAliasTree s' Ptr.
Proof.
  intros HE HC (c & T & HEA & HT & HA).
  pose proof (lookup_weaken _ _ _ _ HEA (ext_accesses _ _ HE)) as HEA'.
  destruct (HC c T HT) as [H|[_ H]].
  - by exists c, T.
  - exists c, (T &' BitMemoryTrait.AddressAccess).
    split_and!; [done|done|apply conj_idemp_r].
Qed.

Lemma resolveAddresses_stage (mAliasTree : AliasTree)
    (getAddressAccesses : list Value) (rootKind : EstimateMemory → RootKind)
    (users : Value → list User) (st : PassState) :
  ValidState mAliasTree st →
  Forall (λ Ptr, is_Some (NodeTraits st
                    !! getAliasNode mAliasTree
                         (find mAliasTree (mkMemoryLocation Ptr 0%N 0%N))))
    getAddressAccesses →
  ∃ st',
    resolveAddresses mAliasTree getAddressAccesses rootKind users st = Some st' ∧
    ValidState mAliasTree st' ∧ Extends st st' ∧
    conjoins BitMemoryTrait.AddressAccess (λ _, True) st st' ∧
    addsAddresses st st' ∧
    Forall (λ Ptr, addressUsed mAliasTree rootKind users Ptr →
                   addressMarked mAliasTree st' Ptr) getAddressAccesses.
Proof.
  intros HV HN. unfold resolveAddresses.
  set (Step := λ s s' : PassState,
         Extends s s' ∧
         conjoins BitMemoryTrait.AddressAccess (λ _, True) s s' ∧
         addsAddresses s s').
  destruct (forEach_steps (resolveAddress mAliasTree rootKind users)
              (λ s, ValidState mAliasTree s ∧ Extends st s) Step
              (λ Ptr, is_Some (NodeTraits st
                         !! getAliasNode mAliasTree
                              (find mAliasTree (mkMemoryLocation Ptr 0%N 0%N))))
              (λ Ptr s, addressUsed mAliasTree rootKind users Ptr →
                        addressMarked mAliasTree s Ptr)
              getAddressAccesses st)
    as (st' & Hst' & [HV' _] & (HE' & HC' & HA') & HR');
    [apply AddressStep_refl|apply AddressStep_trans| | |done|
     split; [done|apply Extends_refl]|].
  { intros Ptr s HQ [HVs HEs].
    destruct (resolveAddress_step mAliasTree rootKind users Ptr s HVs
                (Extends_node _ _ _ HEs HQ))
      as (s' & Hs' & HVs' & HSs' & HMs').
    exists s'. split_and!; try done.
    eapply Extends_trans; [done|apply HSs']. }
  { intros Ptr s s' HM (HE & HC & _) HU.
    eapply addressMarked_mono; [done|done|by apply HM]. }
  exists st'. split_and!; done.
Qed.

(** ** The resolvers on the sample loop *)

Lemma sample_nodes_listed :
  Forall (λ Loc, is_Some (NodeTraits (initialState SampleStages.nodes)
                            !! getAliasNode Sample.tree (find Sample.tree Loc)))
    (getExplicitAccesses SampleLoop.defUse).
Proof. repeat constructor; vm_compute; eauto. Qed.

Lemma sample_accessed :
  resolveAccesses Sample.tree (λ _, false) SampleLoop.defUse SampleLoop.liveOut
    SampleLoop.noDefs SampleLoop.noDefs SampleLoop.depsY
    (initialState SampleStages.nodes) = Some SampleStages.accessed ∧
  ValidState Sample.tree SampleStages.accessed.
Proof.
  destruct (resolveAccesses_stage Sample.tree (λ _, false) SampleLoop.defUse
              SampleLoop.liveOut SampleLoop.noDefs SampleLoop.noDefs
              SampleLoop.depsY (initialState SampleStages.nodes)
              (ValidState_initial _ _) sample_nodes_listed)
    as (st' & Heq & HV & _); [constructor|].
  unfold SampleStages.accessed. rewrite Heq. split; [reflexivity|exact HV].
Qed.

Lemma sample_header_registered :
  Forall (headerRegistered Sample.tree SampleStages.accessed) SampleStages.header.
Proof.
  repeat apply Forall_cons; try apply Forall_nil; intros _;
    (split; [|intros; discriminate]);
    repeat apply Forall_cons; try apply Forall_nil; intros _; vm_compute; eauto.
Qed.

Lemma sample_marked :
  collectHeaderAccesses Sample.tree SampleStages.header SampleStages.accessed
    = Some SampleStages.marked ∧
  ValidState Sample.tree SampleStages.marked.
Proof.
  destruct (collectHeaderAccesses_stage Sample.tree SampleStages.header
              SampleStages.accessed (proj2 sample_accessed)
              sample_header_registered) as (st' & Heq & HV & _).
  unfold SampleStages.marked. rewrite Heq. split; [reflexivity|exact HV].
Qed.

Lemma sample_pointer_registered :
  Forall (pointerRegistered Sample.tree SampleLoop.asLoadInst SampleStages.marked)
    (getExplicitAccesses SampleLoop.defUse).
Proof.
  repeat apply Forall_cons; try apply Forall_nil; intros LI HLI;
    vm_compute in HLI;
    (discriminate || (injection HLI as <-; vm_compute; split; eauto)).
Qed.

Lemma sample_pointed :
  resolvePointers Sample.tree SampleLoop.asLoadInst SampleLoop.defUse
    SampleStages.marked = Some SampleStages.pointed ∧
  ValidState Sample.tree SampleStages.pointed.
Proof.
  destruct (resolvePointers_stage Sample.tree SampleLoop.asLoadInst
              SampleLoop.defUse SampleStages.marked (proj2 sample_marked)
              sample_pointer_registered) as (st' & Heq & HV & _).
  unfold SampleStages.pointed. rewrite Heq. split; [reflexivity|exact HV].
Qed.

Lemma sample_addresses_listed :
  Forall (λ Ptr, is_Some (NodeTraits SampleStages.pointed
                    !! getAliasNode Sample.tree
                         (find Sample.tree (mkMemoryLocation Ptr 0%N 0%N))))
    SampleStages.addresses.
Proof. repeat apply Forall_cons; try apply Forall_nil; vm_compute; eauto. Qed.

(** X9. In a state whose pointers are valid and in which the alias node of
    every explicit access and of every explicit unknown has its lists,
    [resolveAccesses] raises no assertion; afterwards the pointers are still
    valid, every explicit access and every explicit unknown has traits, the
    nodes of a list have traits of their own, and the state extends the one
    before: no map entry and no list node is lost, and the traits that were
    there have only lost bits. *)
Theorem resolveAccesses_registers (mAliasTree : AliasTree)
    (onlyReadsMemoryCall : Value → bool) (DefUse : DefUseSet)
    (LiveOut : LocationDFValue) (LatchDefs ExitingDefs : DefinitionInfo)
    (Deps : DependenceMap) (st : PassState) :
  ValidState mAliasTree st →
  Forall (λ Loc, is_Some (NodeTraits st
                            !! getAliasNode mAliasTree (find mAliasTree Loc)))
    (getExplicitAccesses DefUse) →
  Forall (λ U, is_Some (NodeTraits st !! findUnknown mAliasTree U))
    (getExplicitUnknowns DefUse) →
  ∃ st',
    resolveAccesses mAliasTree onlyReadsMemoryCall DefUse LiveOut LatchDefs
      ExitingDefs Deps st = Some st' ∧
    ValidState mAliasTree st' ∧ Extends st st' ∧
    Forall (λ Loc, ∃ cell T,
              ExplicitAccesses st' !! emId (find mAliasTree Loc) = Some cell ∧
              traits st' !! cell = Some T)
      (getExplicitAccesses DefUse) ∧
    Forall (λ U, ∃ N cell T,
              ExplicitUnknowns st' !! U = Some (N, cell) ∧
              traits st' !! cell = Some T)
      (getExplicitUnknowns DefUse).
Proof.
  intros HV HA HU.
  destruct (resolveAccesses_stage mAliasTree onlyReadsMemoryCall DefUse LiveOut
              LatchDefs ExitingDefs Deps st HV HA HU)
    as (st' & Hst' & HV' & HE' & HRA & HRU).
  exists st'. split_and!; try done.
  - eapply list.Forall_impl; [exact HRA|]. cbn. intros Loc [cell Hcell].
    destruct (valid_access_cell _ _ _ _ HV' Hcell) as [T HT]. eauto.
  - eapply list.Forall_impl; [exact HRU|]. cbn. intros U [[N cell] Hcell].
    destruct (valid_unknown_cell _ _ _ _ _ HV' Hcell) as [T HT]. eauto.
Qed.

Lemma resolveAccesses_registers_witness :
  ∃ st',
    resolveAccesses Sample.tree (λ _, false) SampleLoop.defUse
      SampleLoop.liveOut SampleLoop.noDefs SampleLoop.noDefs SampleLoop.depsY
      (initialState SampleStages.nodes) = Some st' ∧
    ValidState Sample.tree st' ∧
    Extends (initialState SampleStages.nodes) st' ∧
    Forall (λ Loc, ∃ cell T,
              ExplicitAccesses st' !! emId (find Sample.tree Loc) = Some cell ∧
              traits st' !! cell = Some T)
      (getExplicitAccesses SampleLoop.defUse) ∧
    Forall (λ U, ∃ N cell T,
              ExplicitUnknowns st' !! U = Some (N, cell) ∧
              traits st' !! cell = Some T)
      (getExplicitUnknowns SampleLoop.defUse).
Proof.
  apply (resolveAccesses_registers Sample.tree (λ _, false) SampleLoop.defUse
           SampleLoop.liveOut SampleLoop.noDefs SampleLoop.noDefs
           SampleLoop.depsY (initialState SampleStages.nodes)).
  - apply ValidState_initial.
  - apply sample_nodes_listed.
  - apply Forall_nil.
Defined.

(** X10. In a state whose pointers are valid and in which every memory that
    an instruction of the header accesses has traits, [collectHeaderAccesses]
    raises no assertion and leaves the maps and the lists as they are; a
    trait is kept or has HeaderAccess conjoined, so that it is the same
    without its unit flags; and the traits of every location that an
    instruction of the header accesses have HeaderAccess conjoined. *)
Theorem collectHeaderAccesses_marks (mAliasTree : AliasTree)
    (Header : list Instruction) (st : PassState) :
  ValidState mAliasTree st →
  Forall (headerRegistered mAliasTree st) Header →
  ∃ st',
    collectHeaderAccesses mAliasTree Header st = Some st' ∧
    ValidState mAliasTree st' ∧ sameMaps st st' ∧
    (∀ c T, traits st !! c = Some T →
       ∃ T', traits st' !! c = Some T' ∧
             (T' = T ∨ T' = T &' BitMemoryTrait.HeaderAccess) ∧
             BitMemoryTrait.dropUnitFlag T' = BitMemoryTrait.dropUnitFlag T) ∧
    Forall (λ Itr, mayReadOrWriteMemory Itr = true →
                   Forall (headerMarked mAliasTree st') (instMemory Itr)) Header.
Proof.
  intros HV HR.
  destruct (collectHeaderAccesses_stage mAliasTree Header st HV HR)
    as (st' & Hst' & HV' & HS' & HC' & HM').
  exists st'. split_and!; try done.
  intros c T HT. destruct (HC' c T HT) as [H|[_ H]].
  - exists T. split_and!; auto.
  - exists (T &' BitMemoryTrait.HeaderAccess). split_and!; auto.
    apply dropUnitFlag_conj_unit; [|done].
    by apply (Forall_lookup_1 _ _ _ _ (valid_traits _ _ HV) HT).
Qed.

Lemma collectHeaderAccesses_marks_witness :
  ∃ st',
    collectHeaderAccesses Sample.tree SampleStages.header SampleStages.accessed
      = Some st' ∧
    ValidState Sample.tree st' ∧ sameMaps SampleStages.accessed st' ∧
    (∀ c T, traits SampleStages.accessed !! c = Some T →
       ∃ T', traits st' !! c = Some T' ∧
             (T' = T ∨ T' = T &' BitMemoryTrait.HeaderAccess) ∧
             BitMemoryTrait.dropUnitFlag T' = BitMemoryTrait.dropUnitFlag T) ∧
    Forall (λ Itr, mayReadOrWriteMemory Itr = true →
                   Forall (headerMarked Sample.tree st') (instMemory Itr))
      SampleStages.header.
Proof.
  apply (collectHeaderAccesses_marks Sample.tree SampleStages.header
           SampleStages.accessed).
  - apply sample_accessed.
  - apply sample_header_registered.
Defined.

(** X11. In a state whose pointers are valid and in which every explicit
    access with a loaded pointer has traits, and the memory of its pointer
    too, [resolvePointers] raises no assertion and leaves the maps and the
    lists as they are; a trait that is Private, Readonly or Shared is kept,
    and any other trait is kept or has Dependency conjoined, which makes it
    Dependency whatever its unit flags. *)
Theorem resolvePointers_returns (mAliasTree : AliasTree)
    (asLoadInst : Value → option MemoryLocation) (DefUse : DefUseSet)
    (st : PassState) :
  ValidState mAliasTree st →
  Forall (pointerRegistered mAliasTree asLoadInst st)
    (getExplicitAccesses DefUse) →
  ∃ st',
    resolvePointers mAliasTree asLoadInst DefUse st = Some st' ∧
    ValidState mAliasTree st' ∧ sameMaps st st' ∧
    ∀ c T, traits st !! c = Some T →
      traits st' !! c = Some T ∨
      (¬ traitResolved T ∧
       traits st' !! c = Some (T &' BitMemoryTrait.Dependency) ∧
       BitMemoryTrait.dropUnitFlag (T &' BitMemoryTrait.Dependency)
         = BitMemoryTrait.Dependency).
Proof.
  intros HV HR.
  destruct (resolvePointers_stage mAliasTree asLoadInst DefUse st HV HR)
    as (st' & Hst' & HV' & HS' & HC').
  exists st'. split_and!; try done.
  intros c T HT. destruct (HC' c T HT) as [H|[HG H]]; [by left|right].
  split_and!; [done|done|apply dropUnitFlag_conj_Dependency].
Qed.

Lemma resolvePointers_returns_witness :
  ∃ st',
    resolvePointers Sample.tree SampleLoop.asLoadInst SampleLoop.defUse
      SampleStages.marked = Some st' ∧
    ValidState Sample.tree st' ∧ sameMaps SampleStages.marked st' ∧
    ∀ c T, traits SampleStages.marked !! c = Some T →
      traits st' !! c = Some T ∨
      (¬ traitResolved T ∧
       traits st' !! c = Some (T &' BitMemoryTrait.Dependency) ∧
       BitMemoryTrait.dropUnitFlag (T &' BitMemoryTrait.Dependency)
         = BitMemoryTrait.Dependency).
Proof.
  apply (resolvePointers_returns Sample.tree SampleLoop.asLoadInst
           SampleLoop.defUse SampleStages.marked).
  - apply sample_marked.
  - apply sample_pointer_registered.
Defined.

(** X12. In a state whose pointers are valid and in which the alias node of
    the memory of every address access has its lists, [resolveAddresses]
    returns a state with valid pointers that extends the one before.  A
    trait that was there is kept or has AddressAccess conjoined, so that it
    is the same without its unit flags; a memory that had no traits and has
    some afterwards has those of an address access only; and the memory of
    an address with a user in the loop that is a ptrtoint or stores the
    address, whose root is a global variable or an alloca outside the loop,
    has AddressAccess conjoined into its traits. *)
Theorem resolveAddresses_marks (mAliasTree : AliasTree)
    (getAddressAccesses : list Value) (rootKind : EstimateMemory → RootKind)
    (users : Value → list User) (st : PassState) :
  ValidState mAliasTree st →
  Forall (λ Ptr, is_Some (NodeTraits st
                    !! getAliasNode mAliasTree
                         (find mAliasTree (mkMemoryLocation Ptr 0%N 0%N))))
    getAddressAccesses →
  ∃ st',
    resolveAddresses mAliasTree getAddressAccesses rootKind users st = Some st' ∧
    ValidState mAliasTree st' ∧ Extends st st' ∧
    (∀ c T, traits st !! c = Some T →
       ∃ T', traits st' !! c = Some T' ∧
             (T' = T ∨ T' = T &' BitMemoryTrait.AddressAccess) ∧
             BitMemoryTrait.dropUnitFlag T' = BitMemoryTrait.dropUnitFlag T) ∧
    addsAddresses st st' ∧
    Forall (λ Ptr, addressUsed mAliasTree rootKind users Ptr →
                   addressMarked mAliasTree st' Ptr) getAddressAccesses.
Proof.
  intros HV HN.
  destruct (resolveAddresses_stage mAliasTree getAddressAccesses rootKind users
              st HV HN) as (st' & Hst' & HV' & HE' & HC' & HA' & HM').
  exists st'. split_and!; try done.
  intros c T HT. destruct (HC' c T HT) as [H|[_ H]].
  - exists T. split_and!; auto.
  - exists (T &' BitMemoryTrait.AddressAccess). split_and!; auto.
    apply dropUnitFlag_conj_unit; [|done].
    by apply (Forall_lookup_1 _ _ _ _ (valid_traits _ _ HV) HT).
Qed.

Lemma resolveAddresses_marks_witness :
  ∃ st',
    resolveAddresses Sample.tree SampleStages.addresses SampleStages.rootKind
      SampleStages.users SampleStages.pointed = Some st' ∧
    ValidState Sample.tree st' ∧ Extends SampleStages.pointed st' ∧
    (∀ c T, traits SampleStages.pointed !! c = Some T →
       ∃ T', traits st' !! c = Some T' ∧
             (T' = T ∨ T' = T &' BitMemoryTrait.AddressAccess) ∧
             BitMemoryTrait.dropUnitFlag T' = BitMemoryTrait.dropUnitFlag T) ∧
    addsAddresses SampleStages.pointed st' ∧
    Forall (λ Ptr, addressUsed Sample.tree SampleStages.rootKind
                     SampleStages.users Ptr →
                   addressMarked Sample.tree st' Ptr) SampleStages.addresses.
Proof.
  apply (resolveAddresses_marks Sample.tree SampleStages.addresses
           SampleStages.rootKind SampleStages.users SampleStages.pointed).
  - apply sample_pointed.
  - apply sample_addresses_listed.
Defined.

Lemma elem_of_explicitMemory mAliasTree DefUse (P : positive → Prop) id :
  Forall (λ Loc, P (emId (find mAliasTree Loc))) (getExplicitAccesses DefUse) →
  id ∈ explicitMemory mAliasTree DefUse → P id.
Proof.
  intros HF Hin. unfold explicitMemory in Hin.
  apply list_elem_of_fmap in Hin as (Loc & -> & HLoc).
  rewrite list.Forall_forall in HF. by apply HF.
Qed.

(** X13. The body of [resolveCandidats] for a loop raises no assertion up to
    the propagation of traits, whenever the tree has the alias nodes of the
    explicit accesses, of the explicit unknowns and of the address accesses,
    and the memory that the header accesses and the memory of the loaded
    pointers are accessed explicitly.  The state it reaches has valid
    pointers, traits for every explicit access and every explicit unknown,
    and a dependence map in which every record can be summarized. *)
Theorem resolveCandidats_returns (mAliasTree : AliasTree)
    (onlyReadsMemoryCall : Value → bool)
    (asLoadInst : Value → option MemoryLocation)
    (isNoModRef : Instruction → MemoryLocation → bool)
    (depends : Instruction → Instruction → option llvm.Dependence)
    (LoopDepth : nat) (DefUse : DefUseSet) (getAddressAccesses : list Value)
    (rootKind : EstimateMemory → RootKind) (users : Value → list User)
    (LiveOut : LocationDFValue) (LatchDefs ExitingDefs : DefinitionInfo)
    (Nodes : gset positive) (LoopInsts Header : list Instruction) :
  Forall (λ Loc, getAliasNode mAliasTree (find mAliasTree Loc) ∈ Nodes)
    (getExplicitAccesses DefUse) →
  Forall (λ U, findUnknown mAliasTree U ∈ Nodes) (getExplicitUnknowns DefUse) →
  Forall (headerListed mAliasTree DefUse) Header →
  Forall (pointerListed mAliasTree asLoadInst DefUse)
    (getExplicitAccesses DefUse) →
  Forall (λ Ptr, getAliasNode mAliasTree
                   (find mAliasTree (mkMemoryLocation Ptr 0%N 0%N)) ∈ Nodes)
    getAddressAccesses →
  ∃ Deps st,
    resolveCandidats mAliasTree onlyReadsMemoryCall asLoadInst isNoModRef
      depends LoopDepth DefUse getAddressAccesses rootKind users LiveOut
      LatchDefs ExitingDefs Nodes LoopInsts Header = Some (Deps, st) ∧
    ValidState mAliasTree st ∧
    map_Forall (λ _ Rec, DependenceImp.Consistent Rec ∧ Summarizable Rec) Deps ∧
    Forall (λ Loc, is_Some (ExplicitAccesses st !! emId (find mAliasTree Loc)))
      (getExplicitAccesses DefUse) ∧
    Forall (λ U, is_Some (ExplicitUnknowns st !! U))
      (getExplicitUnknowns DefUse).
Proof.
  intros HA HU HH HP HAd. unfold resolveCandidats.
  set (Deps := collectDependencies mAliasTree isNoModRef depends LoopDepth
                 LoopInsts ∅).
  assert (HN : ∀ N, N ∈ Nodes → is_Some (NodeTraits (initialState Nodes) !! N)).
  { intros N HNin. exists ([], []). cbn. by apply lookup_gset_to_gmap_Some. }
  destruct (resolveAccesses_stage mAliasTree onlyReadsMemoryCall DefUse LiveOut
              LatchDefs ExitingDefs Deps (initialState Nodes)
              (ValidState_initial _ _))
    as (st1 & -> & HV1 & HE1 & HR1 & HRU1).
  { eapply list.Forall_impl; [exact HA|]. cbn. auto. }
  { eapply list.Forall_impl; [exact HU|]. cbn. auto. }
  cbn.
  destruct (collectHeaderAccesses_stage mAliasTree Header st1 HV1)
    as (st2 & -> & HV2 & HS2 & _).
  { eapply list.Forall_impl; [exact HH|]. intros Itr HL HRW.
    destruct (HL HRW) as [HM HUn]. split.
    - eapply list.Forall_impl; [exact HM|]. cbn. intros M HMem Hacc.
      by apply (elem_of_explicitMemory mAliasTree DefUse
                  (λ id, is_Some (ExplicitAccesses st1 !! id)) _ HR1), HMem.
    - intros HUnk. rewrite list.Forall_forall in HRU1. by apply HRU1, HUn. }
  cbn.
  destruct (resolvePointers_stage mAliasTree asLoadInst DefUse st2 HV2)
    as (st3 & -> & HV3 & HS3 & _).
  { destruct HS2 as (HEA2 & _).
    apply list.Forall_forall. intros Loc HLoc LI HLI. rewrite HEA2. split.
    - rewrite list.Forall_forall in HR1. by apply HR1.
    - rewrite list.Forall_forall in HP.
      by apply (elem_of_explicitMemory mAliasTree DefUse
                  (λ id, is_Some (ExplicitAccesses st1 !! id)) _ HR1),
               (HP Loc HLoc LI HLI). }
  cbn.
  destruct (resolveAddresses_stage mAliasTree getAddressAccesses rootKind users
              st3 HV3) as (st4 & -> & HV4 & HE4 & _).
  { destruct HS2 as (_ & _ & HN2 & _). destruct HS3 as (_ & _ & HN3 & _).
    eapply list.Forall_impl; [exact HAd|]. cbn. intros Ptr HPtr.
    rewrite HN3, HN2. eapply Extends_node; [exact HE1|]. by apply HN. }
  cbn. exists Deps, st4. split_and!; [done|done| | |].
  - assert (HB : DepsBuilt Deps).
    { apply (collectDependencies_invariant _ _ _ _ DepsBuilt).
      - intros. by apply updateDependence_Built.
      - apply DepsBuilt_empty. }
    intros id Rec HRec. specialize (HB id Rec HRec). cbn in HB.
    split; [by apply Built_Consistent|by apply Built_Summarizable].
  - destruct HS2 as (HEA2 & _). destruct HS3 as (HEA3 & _).
    eapply list.Forall_impl; [exact HR1|]. cbn. intros Loc HLoc.
    eapply Extends_access; [exact HE4|]. by rewrite HEA3, HEA2.
  - destruct HS2 as (_ & HEU2 & _). destruct HS3 as (_ & HEU3 & _).
    eapply list.Forall_impl; [exact HRU1|]. cbn. intros U HUk.
    eapply Extends_unknown; [exact HE4|]. by rewrite HEU3, HEU2.
Qed.

Lemma resolveCandidats_returns_witness :
  ∃ Deps st,
    resolveCandidats Sample.tree (λ _, false) SampleLoop.asLoadInst
      SampleInsts.isNoModRef SampleInsts.depends 1 SampleLoop.defUse
      SampleStages.addresses SampleStages.rootKind SampleStages.users
      SampleLoop.liveOut SampleLoop.noDefs SampleLoop.noDefs SampleStages.nodes
      [SampleInsts.storeX; SampleInsts.call; SampleInsts.loadY]
      SampleStages.header = Some (Deps, st) ∧
    ValidState Sample.tree st ∧
    map_Forall (λ _ Rec, DependenceImp.Consistent Rec ∧ Summarizable Rec) Deps ∧
    Forall (λ Loc, is_Some (ExplicitAccesses st !! emId (find Sample.tree Loc)))
      (getExplicitAccesses SampleLoop.defUse) ∧
    Forall (λ U, is_Some (ExplicitUnknowns st !! U))
      (getExplicitUnknowns SampleLoop.defUse).
Proof.
  apply (resolveCandidats_returns Sample.tree (λ _, false) SampleLoop.asLoadInst
           SampleInsts.isNoModRef SampleInsts.depends 1 SampleLoop.defUse
           SampleStages.addresses SampleStages.rootKind SampleStages.users
           SampleLoop.liveOut SampleLoop.noDefs SampleLoop.noDefs
           SampleStages.nodes
           [SampleInsts.storeX; SampleInsts.call; SampleInsts.loadY]
           SampleStages.header).
  - repeat apply Forall_cons; try apply Forall_nil;
      apply (bool_decide_unpack _); vm_compute; exact I.
  - apply Forall_nil.
  - repeat apply Forall_cons; try apply Forall_nil; intros _;
      (split; [|intros; discriminate]);
      repeat apply Forall_cons; try apply Forall_nil; intros _;
      apply (bool_decide_unpack _); vm_compute; exact I.
  - repeat apply Forall_cons; try apply Forall_nil; intros LI HLI;
      vm_compute in HLI;
      (discriminate ||
       (injection HLI as <-; apply (bool_decide_unpack _); vm_compute; exact I)).
  - repeat apply Forall_cons; try apply Forall_nil;
      apply (bool_decide_unpack _); vm_compute; exact I.
Defined.

(** ** The results of a node *)

Section StoreResultsFacts.

Variable mAliasTree : AliasTree.
Variable toDescriptor : BitMemoryTrait.Id → MemoryDescriptor.
Variable LatchDefs ExitingDefs : DefinitionInfo.
Variable cover : EstimateMemory → list EstimateMemory → bool.
Variable N : positive.
Variable ExplicitAccesses : gmap positive nat.
Variable ExplicitUnknowns : gmap positive (positive * nat).
Variable Deps : DependenceMap.

Lemma isExplicitAccess_returns mem EM :
  (∀ c, ExplicitAccesses !! emId EM = Some c → c < length mem) →
  is_Some (isExplicitAccess mAliasTree N ExplicitAccesses mem EM).
Proof.
  intros HEA. unfold isExplicitAccess.
  destruct (ExplicitAccesses !! emId EM) as [c|]; [|eauto].
  destruct (lookup_lt_is_Some_2 mem c) as [T ->]; [auto|]. cbn. eauto.
Qed.

(** X14. For a node with one estimate memory and no unknown memory, whose
    traits are in the store and which has a dependence record when its
    traits are Dependency, [storeResults] returns and stores for the node
    the traits of this memory alone, with the descriptor of the memory as
    the descriptor of the node.  The kinds of dependence of the node are
    the ones of the record of the memory when its traits are Dependency,
    whatever the unit flags, and none otherwise.  Only the traits of the
    memory may change in the store, by the conjunction of FirstPrivate. *)
Theorem storeResults_single (EMI : EstimateMemory * nat)
    (mem : list BitMemoryTrait.Id) (DS : DependencySet) (T : BitMemoryTrait.Id) :
  DS !! N = None →
  mem !! EMI.2 = Some T →
  (∀ c, ExplicitAccesses !! emId EMI.1 = Some c → c < length mem) →
  (BitMemoryTrait.dropUnitFlag T = BitMemoryTrait.Dependency ∨
   BitMemoryTrait.dropUnitFlag (T &' BitMemoryTrait.FirstPrivate)
     = BitMemoryTrait.Dependency →
   is_Some (Deps !! emId EMI.1)) →
  ∃ mem' Node EMTrait T',
    storeResults mAliasTree toDescriptor LatchDefs ExitingDefs cover N
      ExplicitAccesses ExplicitUnknowns Deps ([EMI], []) mem DS
      = Some (mem', <[N := Node]> DS) ∧
    atAccesses Node = {[emId EMI.1 := EMTrait]} ∧ atUnknowns Node = ∅ ∧
    emtMemory EMTrait = EMI.1 ∧
    atDptr Node = emtDptr EMTrait ∧
    length mem' = length mem ∧
    (∀ c, c ≠ EMI.2 → mem' !! c = mem !! c) ∧
    mem' !! EMI.2 = Some T' ∧
    (T' = T ∨ T' = T &' BitMemoryTrait.FirstPrivate) ∧
    (BitMemoryTrait.dropUnitFlag T' = BitMemoryTrait.Dependency →
     ∃ Rec, Deps !! emId EMI.1 = Some Rec ∧
            depKindsOf (atDptr Node) = DependenceImp.mDptr Rec) ∧
    (BitMemoryTrait.dropUnitFlag T' ≠ BitMemoryTrait.Dependency →
     depKindsOf (atDptr Node) = ∅).
Proof.
  intros HDS HT HEA HDeps. unfold storeResults. rewrite HDS.
  unfold storeSingle. rewrite HT. cbn -[for_each_kind].
  destruct (checkFirstPrivate_returns LatchDefs ExitingDefs cover EMI
              (toDescriptor T) mem T HT) as (mem' & Dptr & Hcfp & Hlen & HT').
  rewrite Hcfp. cbn -[for_each_kind].
  apply checkFirstPrivate_frame in Hcfp as (_ & Hframe & _).
  destruct (isExplicitAccess_returns mem' EMI.1) as [explicit ->].
  { intros c Hc. rewrite Hlen. auto. }
  cbn -[for_each_kind].
  assert (∃ T', mem' !! EMI.2 = Some T' ∧
                (T' = T ∨ T' = T &' BitMemoryTrait.FirstPrivate))
    as (T' & HT'' & HTor) by (destruct HT'; eauto).
  rewrite HT''. cbn -[for_each_kind].
  destruct (bool_decide (BitMemoryTrait.dropUnitFlag T'
                         = BitMemoryTrait.Dependency)) eqn:HD.
  - apply bool_decide_eq_true in HD.
    destruct HDeps as [Rec HRec].
    { destruct HTor as [->| ->]; auto. }
    destruct (storeDepIfNeed Deps EMI.1
                (mkEstimateMemoryTrait EMI.1
                   (unsetDeps (setExplicit explicit Dptr)) noDeps))
      as [EMTrait|] eqn:Hsd.
    2:{ unfold storeDepIfNeed in Hsd. by rewrite HRec in Hsd. }
    cbn. exists mem', (mkAliasTrait (emtDptr EMTrait) {[emId EMI.1 := EMTrait]} ∅),
      EMTrait, T'.
    split_and!; try done.
    + unfold storeDepIfNeed in Hsd. rewrite HRec in Hsd.
      cbn -[for_each_kind] in Hsd. injection Hsd as <-.
      clear. induction (for_each_kind _) as [|k l IH] using rev_ind; [done|].
      by rewrite foldl_app.
    + intros _. exists Rec. split; [done|]. cbn.
      apply storeDepIfNeed_spec in Hsd as (Rec' & HRec' & ->).
      rewrite HRec in HRec'. injection HRec' as <-. cbn.
      rewrite depKindsOf_unsetDeps. set_solver.
  - apply bool_decide_eq_false in HD. cbn.
    exists mem', (mkAliasTrait (unsetDeps (setExplicit explicit Dptr))
                    {[emId EMI.1 :=
                        mkEstimateMemoryTrait EMI.1
                          (unsetDeps (setExplicit explicit Dptr)) noDeps]} ∅),
      (mkEstimateMemoryTrait EMI.1 (unsetDeps (setExplicit explicit Dptr)) noDeps),
      T'.
    split_and!; try done. intros _. cbn. apply depKindsOf_unsetDeps.
Qed.

End StoreResultsFacts.

Lemma storeResults_single_witness :
  ∃ mem' Node EMTrait T',
    storeResults SampleStore.tree SampleStore.toDescriptor (SampleTree.reach [])
      (SampleTree.reach []) SampleTree.cover 7 {[21%positive := 0]} ∅
      SampleStore.deps ([(SampleStore.B, 0)], []) [BitMemoryTrait.Dependency] ∅
      = Some (mem', <[7%positive := Node]> ∅) ∧
    atAccesses Node = {[emId SampleStore.B := EMTrait]} ∧ atUnknowns Node = ∅ ∧
    emtMemory EMTrait = SampleStore.B ∧
    atDptr Node = emtDptr EMTrait ∧
    length mem' = 1 ∧
    (∀ c, c ≠ 0 → mem' !! c = [BitMemoryTrait.Dependency] !! c) ∧
    mem' !! 0 = Some T' ∧
    (T' = BitMemoryTrait.Dependency ∨
     T' = BitMemoryTrait.Dependency &' BitMemoryTrait.FirstPrivate) ∧
    (BitMemoryTrait.dropUnitFlag T' = BitMemoryTrait.Dependency →
     ∃ Rec, SampleStore.deps !! emId SampleStore.B = Some Rec ∧
            depKindsOf (atDptr Node) = DependenceImp.mDptr Rec) ∧
    (BitMemoryTrait.dropUnitFlag T' ≠ BitMemoryTrait.Dependency →
     depKindsOf (atDptr Node) = ∅).
Proof.
  apply (storeResults_single SampleStore.tree SampleStore.toDescriptor
           (SampleTree.reach []) (SampleTree.reach []) SampleTree.cover 7
           {[21%positive := 0]} ∅ SampleStore.deps (SampleStore.B, 0)
           [BitMemoryTrait.Dependency] ∅ BitMemoryTrait.Dependency).
  - reflexivity.
  - reflexivity.
  - intros c Hc. vm_compute in Hc. injection Hc as <-. cbn. lia.
  - intros _. vm_compute. eauto.
Defined.

Section StoreFrameFacts.

Variable mAliasTree : AliasTree.
Variable toDescriptor : BitMemoryTrait.Id → MemoryDescriptor.
Variable LatchDefs ExitingDefs : DefinitionInfo.
Variable cover : EstimateMemory → list EstimateMemory → bool.
Variable N : positive.
Variable ExplicitAccesses : gmap positive nat.
Variable ExplicitUnknowns : gmap positive (positive * nat).
Variable Deps : DependenceMap.

(** The store [m'] is [m] but for the traits at [cells], into which
    FirstPrivate may be conjoined. *)
Let refined (cells : list nat) (m m' : list BitMemoryTrait.Id) : Prop :=
  length m' = length m ∧
  (∀ c, c ∉ cells → m' !! c = m !! c) ∧
  ∀ c T, m !! c = Some T →
         m' !! c = Some T ∨ m' !! c = Some (T &' BitMemoryTrait.FirstPrivate).

Lemma refined_refl cells m : refined cells m m.
Proof. split_and!; auto. Qed.

Lemma refined_step c cells m1 m2 m3 :
  refined [c] m1 m2 → refined cells m2 m3 → refined (c :: cells) m1 m3.
Proof.
  intros (L1 & F1 & C1) (L2 & F2 & C2). split_and!.
  - congruence.
  - intros c' Hc'. rewrite F2, F1; [done| |]; set_solver.
  - intros c' T HT. destruct (C1 c' T HT) as [H|H];
      destruct (C2 c' _ H) as [H'|H']; rewrite H'; auto.
    right. by rewrite conj_idemp_r.
Qed.

Lemma checkFirstPrivate_refined TraitItr Dptr mem mem' Dptr' :
  checkFirstPrivate LatchDefs ExitingDefs cover TraitItr Dptr mem
    = Some (mem', Dptr') →
  refined [TraitItr.2] mem mem'.
Proof.
  unfold checkFirstPrivate.
  destruct (_ || _); [intros [= <- <-]; apply refined_refl|].
  destruct (cover _ _); [intros [= <- <-]; apply refined_refl|].
  destruct (mem !! TraitItr.2) as [T|] eqn:HT; [|done]. cbn. intros [= <- <-].
  split_and!.
  - by rewrite length_insert.
  - intros c Hc. apply list_lookup_insert_ne. set_solver.
  - intros c T0 HT0. destruct (decide (c = TraitItr.2)) as [->|Hne].
    + right. rewrite HT in HT0. injection HT0 as <-.
      apply list_lookup_insert_eq. by eapply lookup_lt_Some.
    + left. by rewrite list_lookup_insert_ne.
Qed.

Lemma storeMemory_refined EMI st st' :
  storeMemory mAliasTree toDescriptor LatchDefs ExitingDefs cover N
    ExplicitAccesses Deps EMI st = Some st' →
  refined [EMI.2] (stTraits st) (stTraits st').
Proof.
  unfold storeMemory. intros Hrun.
  destruct (stTraits st !! EMI.2) as [T0|]; [|done]. cbn in Hrun.
  destruct (checkFirstPrivate _ _ _ _ _ _) as [[mem Dptr]|] eqn:Hcfp; [|done].
  cbn in Hrun. apply checkFirstPrivate_refined in Hcfp.
  destruct (isExplicitAccess _ _ _ _ _); [|done]. cbn in Hrun.
  destruct (mem !! EMI.2); [|done]. cbn in Hrun.
  destruct (bool_decide _).
  - destruct (insertIfAbsent _ _ _ !! _); [|done]. cbn in Hrun.
    destruct (storeDepIfNeed _ _ _); [|done]. cbn in Hrun.
    by injection Hrun as <-.
  - by injection Hrun as <-.
Qed.

Lemma storeMemory_loop_refined l st st' :
  forEach (storeMemory mAliasTree toDescriptor LatchDefs ExitingDefs cover N
             ExplicitAccesses Deps) l st = Some st' →
  refined l.*2 (stTraits st) (stTraits st').
Proof.
  revert st. induction l as [|EMI l IH]; intros st; cbn.
  - intros [= <-]. apply refined_refl.
  - destruct (storeMemory _ _ _ _ _ _ _ _ _ _) as [st1|] eqn:H1; [|done].
    cbn. intros Hrest. eapply refined_step.
    + by eapply storeMemory_refined.
    + by apply IH.
Qed.

Lemma storeUnknown_loop_traits l st st' :
  forEach (storeUnknown toDescriptor N ExplicitUnknowns) l st = Some st' →
  stTraits st' = stTraits st.
Proof.
  revert st. induction l as [|U l IH]; intros st; cbn.
  - by intros [= <-].
  - destruct (storeUnknown _ _ _ _ _) as [st1|] eqn:H1; [|done]. cbn.
    intros Hrest. apply IH in Hrest. rewrite Hrest.
    by apply storeUnknown_step in H1 as (_ & _ & _ & H & _).
Qed.

Lemma storeLoops_refined Traits mem st :
  storeLoops mAliasTree toDescriptor LatchDefs ExitingDefs cover N
    ExplicitAccesses ExplicitUnknowns Deps Traits mem = Some st →
  refined Traits.1.*2 mem (stTraits st).
Proof.
  unfold storeLoops.
  destruct (forEach (storeMemory _ _ _ _ _ _ _ _) _ _) as [st1|] eqn:H1;
    [|done].
  cbn. intros Hst. apply storeUnknown_loop_traits in Hst. rewrite Hst.
  by apply storeMemory_loop_refined in H1.
Qed.

(** X15. When [storeResults] returns, the results of the node were not
    stored before; the results of every other node are as they were; with
    no memory in the lists nothing is stored and nothing changes, and
    otherwise the node has results afterwards.  In the store only traits of
    estimate memory of the node change, and only by the conjunction of
    FirstPrivate. *)
Theorem storeResults_frame (Traits : TraitList * UnknownList)
    (mem mem' : list BitMemoryTrait.Id) (DS DS' : DependencySet) :
  storeResults mAliasTree toDescriptor LatchDefs ExitingDefs cover N
    ExplicitAccesses ExplicitUnknowns Deps Traits mem DS = Some (mem', DS') →
  DS !! N = None ∧
  (∀ M, M ≠ N → DS' !! M = DS !! M) ∧
  (Traits = ([], []) → mem' = mem ∧ DS' = DS) ∧
  (Traits ≠ ([], []) → is_Some (DS' !! N)) ∧
  length mem' = length mem ∧
  (∀ c, c ∉ Traits.1.*2 → mem' !! c = mem !! c) ∧
  (∀ c T, mem !! c = Some T →
     mem' !! c = Some T ∨
     mem' !! c = Some (T &' BitMemoryTrait.FirstPrivate)).
Proof.
  unfold storeResults. destruct (DS !! N) eqn:HDS; [done|]. intros Hrun.
  assert (HR : refined Traits.1.*2 mem mem' ∧
               ((Traits = ([], []) ∧ DS' = DS ∧ mem' = mem) ∨
                (Traits ≠ ([], []) ∧ ∃ Node, DS' = <[N := Node]> DS))).
  { destruct Traits as [[|EMI [|EMI' TL]] [|U UL]]; cbv beta iota in Hrun.
    - injection Hrun as <- <-. split; [apply refined_refl|by left].
    - destruct (storeLoops _ _ _ _ _ _ _ _ _ _ _) as [st|] eqn:Hst; [|done].
      cbn in Hrun. injection Hrun as <- <-. split; [|right; eauto].
      by apply storeLoops_refined in Hst.
    - destruct (storeSingle _ _ _ _ _ _ _ _ _ _) as [[m Node]|] eqn:Hst;
        [|done].
      cbn in Hrun. injection Hrun as <- <-. split; [|right; eauto].
      unfold storeSingle in Hst.
      destruct (mem !! EMI.2); [|done]. cbn in Hst.
      destruct (checkFirstPrivate _ _ _ _ _ _) as [[m0 Dptr]|] eqn:Hcfp;
        [|done].
      cbn in Hst. apply checkFirstPrivate_refined in Hcfp.
      destruct (isExplicitAccess _ _ _ _ _); [|done]. cbn in Hst.
      destruct (m0 !! EMI.2); [|done]. cbn in Hst.
      destruct (bool_decide _).
      + destruct (storeDepIfNeed _ _ _); [|done]. cbn in Hst.
        by injection Hst as <- <-.
      + by injection Hst as <- <-.
    - destruct (storeLoops _ _ _ _ _ _ _ _ _ _ _) as [st|] eqn:Hst; [|done].
      cbn in Hrun. injection Hrun as <- <-. split; [|right; eauto].
      by apply storeLoops_refined in Hst.
    - destruct (storeLoops _ _ _ _ _ _ _ _ _ _ _) as [st|] eqn:Hst; [|done].
      cbn in Hrun. injection Hrun as <- <-. split; [|right; eauto].
      by apply storeLoops_refined in Hst.
    - destruct (storeLoops _ _ _ _ _ _ _ _ _ _ _) as [st|] eqn:Hst; [|done].
      cbn in Hrun. injection Hrun as <- <-. split; [|right; eauto].
      by apply storeLoops_refined in Hst. }
  destruct HR as [(HL & HF & HC) Hcases]. split_and!; try done.
  - intros M HM. destruct Hcases as [(_ & -> & _)|(_ & Node & ->)]; [done|].
    by rewrite lookup_insert_ne.
  - intros HT. destruct Hcases as [(_ & -> & ->)|(Hne & _)]; done.
  - intros Hne. destruct Hcases as [(HT & _)|(_ & Node & ->)]; [done|].
    by rewrite lookup_insert_eq.
Qed.

End StoreFrameFacts.

Lemma storeResults_frame_witness :
  ∃ mem' DS',
    storeResults SampleStore.tree SampleStore.toDescriptor (SampleTree.reach [])
      (SampleTree.reach []) SampleTree.cover 7
      {[21%positive := 0; 22%positive := 1]} ∅ ∅
      ([(SampleStore.B, 0); (SampleStore.C, 1)], [])
      [BitMemoryTrait.Readonly; BitMemoryTrait.LastPrivate] ∅
      = Some (mem', DS') ∧
    (∀ M, M ≠ 7%positive → DS' !! M = (∅ : DependencySet) !! M) ∧
    is_Some (DS' !! 7%positive) ∧
    length mem' = 2 ∧
    (∀ c T, [BitMemoryTrait.Readonly; BitMemoryTrait.LastPrivate] !! c = Some T →
       mem' !! c = Some T ∨
       mem' !! c = Some (T &' BitMemoryTrait.FirstPrivate)).
Proof.
  destruct (storeResults SampleStore.tree SampleStore.toDescriptor
              (SampleTree.reach []) (SampleTree.reach []) SampleTree.cover 7
              {[21%positive := 0; 22%positive := 1]} ∅ ∅
              ([(SampleStore.B, 0); (SampleStore.C, 1)], [])
              [BitMemoryTrait.Readonly; BitMemoryTrait.LastPrivate] ∅)
    as [[mem' DS']|] eqn:H; [|vm_compute in H; discriminate].
  exists mem', DS'. split; [reflexivity|].
  destruct (storeResults_frame _ _ _ _ _ _ _ _ _ _ _ _ _ _ H)
    as (_ & HM & _ & HN & HL & _ & HC).
  split_and!; [exact HM|by apply HN|exact HL|exact HC].
Defined.

(** ** The closure in closed form *)

Lemma closeDescendant_lookup DS D n :
  closeDescendant DS D !! n =
  match DS !! n with
  | Some Itr =>
      if bool_decide (anId D = n ∧ trait.NoAccess ∉ atDptr Itr)
      then Some (closeTrait Itr) else Some Itr
  | None => None
  end.
Proof.
  unfold closeDescendant. destruct (decide (anId D = n)) as [<-|Hne].
  - destruct (DS !! anId D) as [Itr|] eqn:HD; [|by rewrite HD].
    destruct (decide (trait.NoAccess ∉ atDptr Itr)) as [HNA|HNA].
    + rewrite !bool_decide_eq_true_2 by auto. by rewrite lookup_insert_eq.
    + rewrite !bool_decide_eq_false_2 by tauto. by rewrite HD.
  - destruct (DS !! n) as [Itr|] eqn:Hn.
    + rewrite (bool_decide_eq_false_2 (_ ∧ _)) by tauto.
      destruct (DS !! anId D) as [ItrD|]; [|done].
      destruct (bool_decide _); [by rewrite lookup_insert_ne|done].
    + destruct (DS !! anId D) as [ItrD|]; [|done].
      destruct (bool_decide _); [by rewrite lookup_insert_ne|done].
Qed.

Lemma closeTrait_idemp Itr : closeTrait (closeTrait Itr) = closeTrait Itr.
Proof.
  unfold closeTrait. cbn. f_equal. set_solver.
Qed.

Lemma closeTrait_NoAccess Itr :
  trait.NoAccess ∉ atDptr Itr → trait.NoAccess ∉ atDptr (closeTrait Itr).
Proof. unfold closeTrait, depTraits. cbn. set_solver. Qed.

Lemma closeDescendants_lookup l DS n :
  foldl closeDescendant DS l !! n =
  match DS !! n with
  | Some Itr =>
      if bool_decide (n ∈ anId <$> l ∧ trait.NoAccess ∉ atDptr Itr)
      then Some (closeTrait Itr) else Some Itr
  | None => None
  end.
Proof.
  revert DS. induction l as [|D l IH]; intros DS; cbn [foldl].
  - destruct (DS !! n); [|done].
    rewrite bool_decide_eq_false_2; [done|]. intros [H _]. inversion H.
  - rewrite IH, closeDescendant_lookup.
    destruct (DS !! n) as [Itr|]; [|done].
    destruct (decide (trait.NoAccess ∉ atDptr Itr)) as [HNA|HNA].
    2:{ by rewrite !bool_decide_eq_false_2 by tauto. }
    destruct (decide (anId D = n)) as [Heq|Hne].
    + rewrite (bool_decide_eq_true_2 (anId D = n ∧ _)) by auto.
      rewrite (bool_decide_eq_true_2 (n ∈ anId <$> D :: l ∧ _)).
      2:{ split; [|done]. rewrite fmap_cons, Heq. left. }
      cbv beta iota. rewrite closeTrait_idemp. by destruct (bool_decide _).
    + rewrite (bool_decide_eq_false_2 (anId D = n ∧ _)) by tauto.
      cbv beta iota.
      destruct (decide (n ∈ anId <$> l)) as [Hin|Hnin].
      * rewrite !bool_decide_eq_true_2; [done| |done].
        split; [|done]. rewrite fmap_cons. by right.
      * rewrite !bool_decide_eq_false_2; [done| |tauto].
        intros [H _]. rewrite fmap_cons in H.
        apply elem_of_cons in H as [H|H]; [congruence|done].
Qed.

Lemma dfNodes_length_child id children C :
  C ∈ children →
  length (dfNodes C) < length (dfNodes (mkAliasNode id children)).
Proof.
  intros HC. cbn. induction children as [|C' cs IH]; [inversion HC|].
  cbn. rewrite length_app. apply elem_of_cons in HC as [<-|HC].
  - lia.
  - specialize (IH HC). lia.
Qed.

Lemma dfNodes_descendant Node D :
  D ∈ dfNodes Node → D = Node ∨ StrictDescendant Node D.
Proof.
  remember (length (dfNodes Node)) as k eqn:Hk.
  revert Node Hk D. induction k as [k IH] using lt_wf_ind.
  intros [id children] Hk D HD. cbn in HD.
  apply elem_of_cons in HD as [->|HD]; [by left|right].
  apply list_elem_of_In, in_flat_map in HD as (C & HC & HD).
  apply list_elem_of_In in HC. apply list_elem_of_In in HD.
  destruct (IH (length (dfNodes C))) with (Node := C) (D := D) as [->|HS];
    [|done|done| |].
  - subst k. by apply dfNodes_length_child.
  - by apply descendant_child.
  - by eapply descendant_below.
Qed.

Lemma belowCoverage_visited Coverage n :
  n ∈ anId <$> flat_map (λ Node, flat_map dfNodes (anChildren Node)) Coverage ↔
  belowCoverage Coverage n.
Proof.
  split.
  - intros (D & -> & HD)%list_elem_of_fmap.
    apply list_elem_of_In, in_flat_map in HD as (Node & HN & HD).
    apply in_flat_map in HD as (C & HC & HD).
    apply list_elem_of_In in HN. apply list_elem_of_In in HC.
    apply list_elem_of_In in HD.
    exists Node, D. split_and!; [done| |done].
    destruct (dfNodes_descendant C D HD) as [->|HS].
    + by apply descendant_child.
    + by eapply descendant_below.
  - intros (Node & D & HN & HD & <-). apply list_elem_of_fmap.
    exists D. split; [done|].
    apply list_elem_of_In, in_flat_map. exists Node.
    split; apply list_elem_of_In; [done|by apply StrictDescendant_visited].
Qed.

(** X16. The closure at the end of [propagateTraits] is exact: a node with
    stored results gets Flow, Anti and Output added to its descriptor when
    it is strictly below a node of the coverage and its descriptor is not
    NoAccess, and keeps its results as they are in every other case; so a
    node that is NoAccess, or that is below no node of the coverage, is
    never changed, and closing twice over the same coverage is closing
    once. *)
Theorem closeCoverage_exact (Coverage : list AliasNode) (DS : DependencySet)
    (n : positive) :
  (∀ Itr, DS !! n = Some Itr →
     (belowCoverage Coverage n → trait.NoAccess ∉ atDptr Itr →
      closeCoverage Coverage DS !! n = Some (closeTrait Itr)) ∧
     (trait.NoAccess ∈ atDptr Itr → closeCoverage Coverage DS !! n = Some Itr) ∧
     (¬ belowCoverage Coverage n → closeCoverage Coverage DS !! n = Some Itr)) ∧
  (DS !! n = None → closeCoverage Coverage DS !! n = None) ∧
  closeCoverage Coverage (closeCoverage Coverage DS) = closeCoverage Coverage DS.
Proof.
  assert (HL : ∀ DS n, closeCoverage Coverage DS !! n =
            match DS !! n with
            | Some Itr =>
                if bool_decide
                     (n ∈ anId <$> flat_map (λ Node, flat_map dfNodes
                                                   (anChildren Node)) Coverage
                      ∧ trait.NoAccess ∉ atDptr Itr)
                then Some (closeTrait Itr) else Some Itr
            | None => None
            end).
  { intros DS0 n0. by rewrite closeCoverage_visits, closeDescendants_lookup. }
  split_and!.
  - intros Itr HItr. rewrite HL, HItr. split_and!.
    + intros HB HNA. rewrite bool_decide_eq_true_2; [done|].
      split; [by apply belowCoverage_visited|done].
    + intros HNA. rewrite bool_decide_eq_false_2; [done|]. tauto.
    + intros HB. rewrite bool_decide_eq_false_2; [done|].
      intros [H _]. by apply HB, belowCoverage_visited.
  - intros Hn. by rewrite HL, Hn.
  - apply map_eq. intros m. rewrite (HL (closeCoverage Coverage DS) m), (HL DS m).
    destruct (DS !! m) as [Itr|]; [|done].
    destruct (bool_decide _) eqn:HB; [|by rewrite HB].
    apply bool_decide_eq_true in HB as [Hin HNA].
    cbv beta iota. rewrite closeTrait_idemp. by destruct (bool_decide _).
Qed.

(** ** Removal of redundant list nodes *)

Lemma foldl_conj_cons a T Ts :
  foldl BitMemoryTrait.conj a (T :: Ts) = T &' foldl BitMemoryTrait.conj a Ts.
Proof.
  cbn. revert a. induction Ts as [|T' Ts IH]; intros a; cbn.
  - apply Z.land_comm.
  - rewrite <- IH. f_equal. unfold BitMemoryTrait.conj.
    rewrite <- !Z.land_assoc. f_equal. apply Z.land_comm.
Qed.

Lemma conjAll_cons T Ts : conjAll (T :: Ts) = T &' conjAll Ts.
Proof. apply foldl_conj_cons. Qed.

Lemma conjAt_cons mem c cells :
  conjAt mem (c :: cells)
  = default BitMemoryTrait.NoAccess (mem !! c) &' conjAt mem cells.
Proof. unfold conjAt. rewrite fmap_cons. apply conjAll_cons. Qed.

Lemma conjAt_ext mem mem' cells :
  (∀ c, c ∈ cells → mem' !! c = mem !! c) → conjAt mem' cells = conjAt mem cells.
Proof.
  intros H. unfold conjAt. f_equal. apply list_fmap_ext.
  intros i c Hc. rewrite H; [done|]. by eapply list_elem_of_lookup_2.
Qed.

Lemma conjAt_insert_notin mem c T cells :
  c ∉ cells → conjAt (<[c := T]> mem) cells = conjAt mem cells.
Proof.
  intros Hc. apply conjAt_ext. intros c' Hc'.
  apply list_lookup_insert_ne. intros ->. done.
Qed.

Lemma conj_assoc3 a b c : a &' (b &' c) = (b &' a) &' c.
Proof.
  unfold BitMemoryTrait.conj. rewrite Z.land_assoc. f_equal. apply Z.land_comm.
Qed.

Lemma lookup_insert_conj (mem : list BitMemoryTrait.Id) c c' T X :
  mem !! c = Some T →
  ∀ T0, mem !! c' = Some T0 →
    ∃ T', <[c := T &' X]> mem !! c' = Some T' ∧ T' &' T0 = T'.
Proof.
  intros HT T0 HT0. destruct (decide (c' = c)) as [->|Hne].
  - rewrite list_lookup_insert_eq by (by eapply lookup_lt_Some).
    rewrite HT in HT0. injection HT0 as <-. eexists. split; [done|].
    apply conj_below.
  - rewrite list_lookup_insert_ne by done. exists T0. split; [done|].
    apply Z.land_diag.
Qed.

Lemma lowers_trans (m1 m2 m3 : list BitMemoryTrait.Id) :
  (∀ c T, m1 !! c = Some T → ∃ T', m2 !! c = Some T' ∧ T' &' T = T') →
  (∀ c T, m2 !! c = Some T → ∃ T', m3 !! c = Some T' ∧ T' &' T = T') →
  ∀ c T, m1 !! c = Some T → ∃ T', m3 !! c = Some T' ∧ T' &' T = T'.
Proof.
  intros H12 H23 c T HT. destruct (H12 c T HT) as (T2 & HT2 & HL2).
  destruct (H23 c T2 HT2) as (T3 & HT3 & HL3). exists T3. split; [done|].
  unfold BitMemoryTrait.conj in *.
  rewrite <- HL3 at 2. rewrite <- HL2. rewrite Z.land_assoc, HL3. done.
Qed.

Section PropagationFacts.

Variable mAliasTree : AliasTree.
Variable parents : EstimateMemory → list EstimateMemory.
Variable ancestor : EstimateMemory → EstimateMemory → option EstimateMemory.
Variable N : positive.

Lemma absorb_spec Current ccell rest mem Deps :
  ccell < length mem →
  Forall (λ c, c < length mem) rest.*2 →
  ccell ∉ rest.*2 → NoDup rest.*2 →
  ∃ erased rem mem' Deps',
    absorb ancestor Current ccell rest mem Deps
      = Some (erased, rem, mem', Deps') ∧
    rem `sublist_of` rest ∧
    length mem' = length mem ∧
    (∀ c, c ≠ ccell → c ∉ rest.*2 → mem' !! c = mem !! c) ∧
    (∀ c T, mem !! c = Some T → ∃ T', mem' !! c = Some T' ∧ T' &' T = T') ∧
    conjAt mem' (keptCell erased ccell ++ rem.*2) = conjAt mem (ccell :: rest.*2) ∧
    DepsGrow Deps Deps' ∧ (DepsBuilt Deps → DepsBuilt Deps').
Proof.
  revert mem Deps. induction rest as [|[EMI icell] rest IH];
    intros mem Deps Hc Hrest Hnin Hnd.
  { exists false, [], mem, Deps. cbn.
    split_and!; auto using DepsGrow_refl.
    intros c T HT. exists T. split; [done|apply Z.land_diag]. }
  rewrite fmap_cons in Hrest, Hnin, Hnd. cbn [snd] in *.
  apply list.Forall_cons in Hrest as [Hi Hrest].
  apply not_elem_of_cons in Hnin as [Hne Hnin].
  apply list.NoDup_cons in Hnd as [Hinin Hnd].
  destruct (lookup_lt_is_Some_2 mem icell Hi) as [TI HTI].
  destruct (lookup_lt_is_Some_2 mem ccell Hc) as [TC HTC].
  assert (Herase : ∀ Deps',
            DepsGrow Deps Deps' → (DepsBuilt Deps → DepsBuilt Deps') →
            ∃ erased rem mem' Deps'0,
              Some (true, (EMI, icell) :: rest, <[icell := TI &' TC]> mem, Deps')
                = Some (erased, rem, mem', Deps'0) ∧
              rem `sublist_of` (EMI, icell) :: rest ∧
              length mem' = length mem ∧
              (∀ c, c ≠ ccell → c ∉ ((EMI, icell) :: rest).*2 →
                    mem' !! c = mem !! c) ∧
              (∀ c T, mem !! c = Some T →
                      ∃ T', mem' !! c = Some T' ∧ T' &' T = T') ∧
              conjAt mem' (keptCell erased ccell ++ rem.*2)
                = conjAt mem (ccell :: ((EMI, icell) :: rest).*2) ∧
              DepsGrow Deps Deps'0 ∧ (DepsBuilt Deps → DepsBuilt Deps'0)).
  { intros Deps' HG HB. do 4 eexists. split; [done|]. split_and!; try done.
    - by rewrite length_insert.
    - intros c _ Hc'. rewrite ?fmap_cons in Hc'.
      apply not_elem_of_cons in Hc' as [Hc' _].
      by rewrite list_lookup_insert_ne.
    - intros c T HT. by apply lookup_insert_conj.
    - cbn [keptCell app]. rewrite ?fmap_cons. cbn [snd].
      rewrite !conjAt_cons, conjAt_insert_notin by done.
      rewrite list_lookup_insert_eq by done. rewrite HTC, HTI. cbn [default].
      by rewrite conj_assoc3. }
  cbn [absorb]. case_bool_decide.
  { rewrite HTI, HTC. cbn -[conjAt keptCell]. apply Herase; [apply DepsGrow_refl|done]. }
  destruct (isMemory (ancestor Current EMI) EMI).
  { rewrite HTI, HTC. cbn -[conjAt keptCell].
    apply Herase; [apply mergeDependence_grows|apply mergeDependence_Built]. }
  destruct (isMemory (ancestor Current EMI) Current).
  - rewrite HTC, HTI. cbn -[conjAt keptCell].
    destruct (IH (<[ccell := TC &' TI]> mem)
                (mergeDependence Current (TC &' TI) EMI Deps))
      as (erased & rem & mem' & Deps' & -> & Hsub & Hlen & Hfr & Hlow & Hconj
          & HG & HB); [by rewrite length_insert| |done|done|].
    { eapply list.Forall_impl; [exact Hrest|]. cbn. intros c.
      by rewrite length_insert. }
    exists erased, rem, mem', Deps'. split; [done|]. split_and!.
    + by apply sublist_cons.
    + by rewrite Hlen, length_insert.
    + intros c Hc1 Hc2. rewrite ?fmap_cons in Hc2.
      apply not_elem_of_cons in Hc2 as [_ Hc2].
      rewrite Hfr by done. by rewrite list_lookup_insert_ne.
    + eapply lowers_trans; [|exact Hlow].
      intros c T HT. by apply lookup_insert_conj.
    + rewrite Hconj, ?fmap_cons. cbn [snd].
      rewrite !conjAt_cons, conjAt_insert_notin by done.
      rewrite list_lookup_insert_eq by done. rewrite HTC, HTI. cbn [default].
      unfold BitMemoryTrait.conj. by rewrite Z.land_assoc.
    + eapply DepsGrow_trans; [apply mergeDependence_grows|done].
    + intros HD. by apply HB, mergeDependence_Built.
  - destruct (IH mem Deps Hc Hrest Hnin Hnd)
      as (erased & rem & mem' & Deps' & -> & Hsub & Hlen & Hfr & Hlow & Hconj
          & HG & HB).
    cbn -[conjAt keptCell]. exists erased, ((EMI, icell) :: rem), mem', Deps'.
    split; [done|]. split_and!; try done.
    + by apply sublist_skip.
    + intros c Hc1 Hc2. rewrite ?fmap_cons in Hc2.
      apply not_elem_of_cons in Hc2 as [_ Hc2]. by apply Hfr.
    + assert (Hicell : mem' !! icell = Some TI).
      { rewrite Hfr by done. done. }
      transitivity (TI &' conjAt mem' (keptCell erased ccell ++ rem.*2)).
      * rewrite ?fmap_cons. cbn [snd]. destruct erased; cbn [keptCell app].
        -- by rewrite conjAt_cons, Hicell.
        -- rewrite !conjAt_cons, Hicell. cbn [default].
           unfold BitMemoryTrait.conj. rewrite !Z.land_assoc. f_equal.
           apply Z.land_comm.
      * rewrite Hconj, ?fmap_cons. cbn [snd]. rewrite !conjAt_cons, HTI, HTC.
        cbn [default]. unfold BitMemoryTrait.conj.
        rewrite !Z.land_assoc. f_equal. apply Z.land_comm.
Qed.

Lemma removeRedundant_spec Curr rest mem Deps :
  Curr.2 < length mem →
  Forall (λ c, c < length mem) rest.*2 →
  Curr.2 ∉ rest.*2 → NoDup rest.*2 →
  ∃ erased Current rem mem' Deps',
    removeRedundant mAliasTree parents ancestor N Curr rest mem Deps
      = Some (if (erased : bool) then None else Some (Current, Curr.2),
              rem, mem', Deps') ∧
    Current = largestInNode mAliasTree parents N Curr.1 ∧
    rem `sublist_of` rest ∧
    length mem' = length mem ∧
    (∀ c, c ≠ Curr.2 → c ∉ rest.*2 → mem' !! c = mem !! c) ∧
    (∀ c T, mem !! c = Some T → ∃ T', mem' !! c = Some T' ∧ T' &' T = T') ∧
    conjAt mem' (keptCell erased Curr.2 ++ rem.*2)
      = conjAt mem (Curr.2 :: rest.*2) ∧
    DepsGrow Deps Deps' ∧ (DepsBuilt Deps → DepsBuilt Deps').
Proof.
  intros Hc Hrest Hnin Hnd. unfold removeRedundant.
  destruct (lookup_lt_is_Some_2 mem Curr.2 Hc) as [TC ->].
  cbn -[conjAt keptCell].
  set (Current := if bool_decide (getAliasNode mAliasTree Curr.1 = N)
                  then topInNode mAliasTree N Curr.1 (parents Curr.1)
                  else Curr.1).
  set (Deps1 := if bool_decide (getAliasNode mAliasTree Curr.1 = N)
                then mergeDependence Current TC Curr.1 Deps else Deps).
  destruct (absorb_spec Current Curr.2 rest mem Deps1 Hc Hrest Hnin Hnd)
    as (erased & rem & mem' & Deps' & -> & Hsub & Hlen & Hfr & Hlow & Hconj
        & HG & HB).
  cbn -[conjAt keptCell]. exists erased, Current, rem, mem', Deps'.
  split; [done|]. split_and!; try done.
  - eapply DepsGrow_trans; [|exact HG]. unfold Deps1.
    destruct (bool_decide _); [apply mergeDependence_grows|apply DepsGrow_refl].
  - intros HD. apply HB. unfold Deps1.
    destruct (bool_decide _); [by apply mergeDependence_Built|done].
Qed.

Lemma removeRedundantLoop_spec fuel TL mem Deps :
  length TL ≤ fuel → NoDup TL.*2 → Forall (λ c, c < length mem) TL.*2 →
  ∃ TL' mem' Deps',
    removeRedundantLoop mAliasTree parents ancestor N fuel TL mem Deps
      = Some (TL', mem', Deps') ∧
    TL'.*2 `sublist_of` TL.*2 ∧
    Forall (λ E', ∃ E, E ∈ TL ∧ E'.2 = E.2 ∧
                       E'.1 = largestInNode mAliasTree parents N E.1) TL' ∧
    length mem' = length mem ∧
    (∀ c, c ∉ TL.*2 → mem' !! c = mem !! c) ∧
    (∀ c T, mem !! c = Some T → ∃ T', mem' !! c = Some T' ∧ T' &' T = T') ∧
    conjAt mem' TL'.*2 = conjAt mem TL.*2 ∧
    DepsGrow Deps Deps' ∧ (DepsBuilt Deps → DepsBuilt Deps').
Proof.
  revert TL mem Deps. induction fuel as [|fuel IH]; intros TL mem Deps Hlen Hnd Hlt.
  { destruct TL; [|cbn in Hlen; lia]. exists [], mem, Deps. cbn.
    split_and!; auto using DepsGrow_refl.
    intros c T HT. exists T. split; [done|apply Z.land_diag]. }
  destruct TL as [|Curr rest].
  { exists [], mem, Deps. cbn. split_and!; auto using DepsGrow_refl.
    intros c T HT. exists T. split; [done|apply Z.land_diag]. }
  rewrite fmap_cons in Hnd, Hlt.
  apply list.NoDup_cons in Hnd as [Hnin Hnd].
  apply list.Forall_cons in Hlt as [Hc Hrest].
  destruct (removeRedundant_spec Curr rest mem Deps Hc Hrest Hnin Hnd)
    as (erased & Current & rem & mem1 & Deps1 & Hrun & HCur & Hsub & Hlen1
        & Hfr1 & Hlow1 & Hconj1 & HG1 & HB1).
  assert (Hsub2 : rem.*2 `sublist_of` rest.*2) by by apply fmap_sublist.
  destruct (IH rem mem1 Deps1)
    as (TL' & mem' & Deps' & Hloop & Hsub' & Hren' & Hlen' & Hfr' & Hlow'
        & Hconj' & HG' & HB').
  { apply sublist_length in Hsub. cbn in Hlen. lia. }
  { by eapply sublist_NoDup. }
  { rewrite Hlen1. rewrite list.Forall_forall in Hrest.
    apply list.Forall_forall. intros c Hin. apply Hrest.
    by eapply elem_of_sublist. }
  assert (Hcurr : mem' !! Curr.2 = mem1 !! Curr.2).
  { apply Hfr'. intros Hin. apply Hnin. by eapply elem_of_sublist. }
  cbn [removeRedundantLoop]. rewrite Hrun. cbn -[conjAt keptCell].
  rewrite Hloop. cbn -[conjAt keptCell].
  exists (if erased then TL' else (Current, Curr.2) :: TL'), mem', Deps'.
  split; [by destruct erased|]. split_and!.
  - rewrite ?fmap_cons. destruct erased.
    + apply sublist_cons. by etrans.
    + rewrite ?fmap_cons. apply sublist_skip. by etrans.
  - assert (Hren : Forall (λ E', ∃ E, E ∈ Curr :: rest ∧ E'.2 = E.2 ∧
                     E'.1 = largestInNode mAliasTree parents N E.1) TL').
    { eapply list.Forall_impl; [exact Hren'|]. cbn.
      intros E' (E & HE & H2 & H1). exists E. split_and!; [|done|done].
      right. by eapply elem_of_sublist. }
    destruct erased; [done|]. constructor; [|done].
    exists Curr. split_and!; [left|done|done].
  - congruence.
  - intros c Hcn. rewrite ?fmap_cons in Hcn.
    apply not_elem_of_cons in Hcn as [Hcn1 Hcn2].
    rewrite Hfr', Hfr1; [done|done|done|].
    intros Hin. apply Hcn2. by eapply elem_of_sublist.
  - by eapply lowers_trans.
  - rewrite <- Hconj1. destruct erased; cbn [keptCell app].
    + done.
    + rewrite ?fmap_cons. cbn [snd]. rewrite !conjAt_cons, Hcurr. by f_equal.
  - by eapply DepsGrow_trans.
  - auto.
Qed.

End PropagationFacts.

Lemma Forall2_traits_valid (mem : list BitMemoryTrait.Id) cells Ts :
  Forall2 (λ c T, mem !! c = Some T) cells Ts →
  Forall (λ c, c < length mem) cells ∧
  (λ c, default BitMemoryTrait.NoAccess (mem !! c)) <$> cells = Ts.
Proof.
  induction 1 as [|c T cells Ts HT _ [IH1 IH2]]; [done|]. split.
  - constructor; [by eapply lookup_lt_Some|done].
  - rewrite fmap_cons, HT, IH2. done.
Qed.

Lemma Forall2_traits_of (mem : list BitMemoryTrait.Id) cells :
  Forall (λ c, c < length mem) cells →
  Forall2 (λ c T, mem !! c = Some T) cells
    ((λ c, default BitMemoryTrait.NoAccess (mem !! c)) <$> cells).
Proof.
  induction 1 as [|c cells Hc _ IH]; [constructor|].
  rewrite fmap_cons. constructor; [|done].
  by destruct (lookup_lt_is_Some_2 mem c Hc) as [T ->].
Qed.

(** X17. On a list whose nodes have traits of their own in the store, the
    loop of [propagateTraits] that removes redundant nodes ends within as
    many calls of [removeRedundant] as the list has nodes.  The nodes that
    remain are nodes of the list, in their order, each standing for the
    largest memory of the alias node that covers its memory along the chain
    of parents; the traits in the store have only lost bits, and only those
    of nodes of the list have changed; the conjunction of the traits of the
    list is the same before and after; and the dependence map has only
    grown, by merges. *)
Theorem removeRedundantLoop_keeps (mAliasTree : AliasTree)
    (parents : EstimateMemory → list EstimateMemory)
    (ancestor : EstimateMemory → EstimateMemory → option EstimateMemory)
    (N : positive) (TL : TraitList) (mem : list BitMemoryTrait.Id)
    (Deps : DependenceMap) (Ts : list BitMemoryTrait.Id) :
  NoDup TL.*2 →
  Forall2 (λ c T, mem !! c = Some T) TL.*2 Ts →
  ∃ TL' mem' Deps' Ts',
    removeRedundantLoop mAliasTree parents ancestor N (length TL) TL mem Deps
      = Some (TL', mem', Deps') ∧
    TL'.*2 `sublist_of` TL.*2 ∧
    Forall (λ E', ∃ E, E ∈ TL ∧ E'.2 = E.2 ∧
                       E'.1 = largestInNode mAliasTree parents N E.1) TL' ∧
    length mem' = length mem ∧
    (∀ c, c ∉ TL.*2 → mem' !! c = mem !! c) ∧
    (∀ c T, mem !! c = Some T → ∃ T', mem' !! c = Some T' ∧ T' &' T = T') ∧
    Forall2 (λ c T, mem' !! c = Some T) TL'.*2 Ts' ∧
    conjAll Ts' = conjAll Ts ∧
    DepsGrow Deps Deps' ∧ (DepsBuilt Deps → DepsBuilt Deps').
Proof.
  intros Hnd HTs. apply Forall2_traits_valid in HTs as [Hlt HTs].
  destruct (removeRedundantLoop_spec mAliasTree parents ancestor N (length TL)
              TL mem Deps (le_n _) Hnd Hlt)
    as (TL' & mem' & Deps' & Hrun & Hsub & Hren & Hlen & Hfr & Hlow & Hconj
        & HG & HB).
  exists TL', mem', Deps',
    ((λ c, default BitMemoryTrait.NoAccess (mem' !! c)) <$> TL'.*2).
  split_and!; try done.
  - apply Forall2_traits_of. rewrite Hlen.
    rewrite list.Forall_forall in Hlt. apply list.Forall_forall.
    intros c Hc. apply Hlt. by eapply elem_of_sublist.
  - unfold conjAt in Hconj. by rewrite Hconj, HTs.
Qed.

Lemma removeRedundantLoop_keeps_witness :
  ∃ TL' mem' Deps' Ts',
    removeRedundantLoop SampleStore.tree (λ _, []) (λ _ _, None) 7 2
      [(SampleStore.B, 0); (SampleStore.B, 1)]
      [BitMemoryTrait.Readonly; BitMemoryTrait.Shared] ∅
      = Some (TL', mem', Deps') ∧
    TL'.*2 `sublist_of` [0; 1] ∧
    Forall (λ E', ∃ E, E ∈ [(SampleStore.B, 0); (SampleStore.B, 1)] ∧
                       E'.2 = E.2 ∧
                       E'.1 = largestInNode SampleStore.tree (λ _, []) 7 E.1)
      TL' ∧
    length mem' = 2 ∧
    (∀ c, c ∉ [0; 1] → mem' !! c
                       = [BitMemoryTrait.Readonly; BitMemoryTrait.Shared] !! c) ∧
    (∀ c T, [BitMemoryTrait.Readonly; BitMemoryTrait.Shared] !! c = Some T →
            ∃ T', mem' !! c = Some T' ∧ T' &' T = T') ∧
    Forall2 (λ c T, mem' !! c = Some T) TL'.*2 Ts' ∧
    conjAll Ts' = conjAll [BitMemoryTrait.Readonly; BitMemoryTrait.Shared] ∧
    DepsGrow ∅ Deps' ∧ (DepsBuilt ∅ → DepsBuilt Deps').
Proof.
  apply (removeRedundantLoop_keeps SampleStore.tree (λ _, []) (λ _ _, None) 7
           [(SampleStore.B, 0); (SampleStore.B, 1)]
           [BitMemoryTrait.Readonly; BitMemoryTrait.Shared] ∅
           [BitMemoryTrait.Readonly; BitMemoryTrait.Shared]).
  - apply (bool_decide_unpack _). vm_compute. exact I.
  - repeat constructor.
Defined.

(** ** Promotion of the nodes of a child *)

(** Equalities of conjunctions, bit by bit. *)
Ltac conj_bits :=
  unfold BitMemoryTrait.conj, id; apply Z.bits_inj'; intros ? _;
  rewrite ?Z.land_spec;
  repeat match goal with
         | |- context [Z.testbit ?a ?n] => destruct (Z.testbit a n)
         end;
  reflexivity.

Lemma conjAt_insert_conj (mem : list BitMemoryTrait.Id) p X T cells :
  mem !! p = Some X →
  T &' conjAt (<[p := X &' T]> mem) cells = T &' conjAt mem cells.
Proof.
  intros HX. induction cells as [|c cells IH].
  - done.
  - rewrite !conjAt_cons. destruct (decide (c = p)) as [->|Hne].
    + rewrite list_lookup_insert_eq by (by eapply lookup_lt_Some).
      rewrite HX. cbn [default].
      transitivity (X &' (T &' conjAt (<[p:=X &' T]> mem) cells));
        [conj_bits|].
      rewrite IH. conj_bits.
    + rewrite list_lookup_insert_ne by done.
      transitivity (default BitMemoryTrait.NoAccess (mem !! c)
                    &' (T &' conjAt (<[p:=X &' T]> mem) cells));
        [conj_bits|].
      rewrite IH. conj_bits.
Qed.

Lemma conjAt_app_new (mem : list BitMemoryTrait.Id) T cells :
  Forall (λ c, c < length mem) cells →
  conjAt (mem ++ [T]) cells = conjAt mem cells.
Proof.
  intros Hlt. apply conjAt_ext. intros c Hc.
  rewrite list.Forall_forall in Hlt. by rewrite lookup_app_l by auto.
Qed.

Lemma lowers_app_new (mem : list BitMemoryTrait.Id) T0 :
  ∀ c T, mem !! c = Some T → ∃ T', (mem ++ [T0]) !! c = Some T' ∧ T' &' T = T'.
Proof.
  intros c T HT. exists T. split; [|apply Z.land_diag].
  rewrite lookup_app_l; [done|]. by eapply lookup_lt_Some.
Qed.

(** X18. The promotion of a node of the list of a child always puts one new
    node at the front of the list of the node, with the traits of the
    promoted node: under the memory itself when it has no parent in the
    node, and under its parent otherwise, whether the parent is accessed
    explicitly or not.  The traits that were in the store have only lost
    bits, the conjunction of the traits of the list of the node has the
    promoted traits conjoined, and the dependence map has only grown. *)
Theorem promote_spec (mAliasTree : AliasTree)
    (parents : EstimateMemory → list EstimateMemory) (N : positive)
    (ExplicitAccesses : gmap positive nat) (EMToT : EstimateMemory * nat)
    (TL : TraitList) (mem : list BitMemoryTrait.Id) (Deps : DependenceMap)
    (T : BitMemoryTrait.Id) :
  mem !! EMToT.2 = Some T →
  Forall (λ c, c < length mem) TL.*2 →
  (∀ P c, getParent parents EMToT.1 = Some P →
          getAliasNode mAliasTree P = N →
          ExplicitAccesses !! emId P = Some c → c < length mem) →
  ∃ EM' mem' Deps',
    promote mAliasTree parents N ExplicitAccesses EMToT (TL, mem, Deps)
      = Some ((EM', length mem) :: TL, mem', Deps') ∧
    (match getParent parents EMToT.1 with
     | Some P => if bool_decide (getAliasNode mAliasTree P = N)
                 then EM' = P else EM' = EMToT.1
     | None => EM' = EMToT.1
     end) ∧
    length mem' = S (length mem) ∧
    mem' !! length mem = Some T ∧
    (∀ c, (∀ P, getParent parents EMToT.1 = Some P →
                getAliasNode mAliasTree P = N →
                ExplicitAccesses !! emId P ≠ Some c) →
          c < length mem → mem' !! c = mem !! c) ∧
    (∀ c T0, mem !! c = Some T0 → ∃ T', mem' !! c = Some T' ∧ T' &' T0 = T') ∧
    conjAt mem' (length mem :: TL.*2) = T &' conjAt mem TL.*2 ∧
    DepsGrow Deps Deps' ∧ (DepsBuilt Deps → DepsBuilt Deps').
Proof.
  intros HT Hlt HEA. unfold promote. rewrite HT. cbn -[conjAt].
  assert (Hplain : ∃ EM' mem' Deps',
            Some ((EMToT.1, length mem) :: TL, mem ++ [T], Deps)
              = Some ((EM', length mem) :: TL, mem', Deps') ∧
            EM' = EMToT.1 ∧
            length mem' = S (length mem) ∧
            mem' !! length mem = Some T ∧
            (∀ c, c < length mem → mem' !! c = mem !! c) ∧
            (∀ c T0, mem !! c = Some T0 →
                     ∃ T', mem' !! c = Some T' ∧ T' &' T0 = T') ∧
            conjAt mem' (length mem :: TL.*2) = T &' conjAt mem TL.*2 ∧
            DepsGrow Deps Deps' ∧ (DepsBuilt Deps → DepsBuilt Deps')).
  { do 3 eexists. split; [done|]. split_and!; try done.
    - rewrite length_app. cbn. lia.
    - by rewrite list_lookup_middle.
    - intros c Hc. by rewrite lookup_app_l.
    - apply lowers_app_new.
    - rewrite conjAt_cons, list_lookup_middle by done. cbn [default].
      by rewrite conjAt_app_new.
    - apply DepsGrow_refl. }
  destruct (getParent parents EMToT.1) as [P|] eqn:HP.
  2:{ destruct Hplain
        as (EM' & mem' & Deps' & H1 & H2 & H3 & H4 & H5 & H6 & H7 & H8 & H9).
      exists EM', mem', Deps'. split_and!; try done. intros c _. apply H5. }
  destruct (bool_decide (getAliasNode mAliasTree P = N)) eqn:HN.
  2:{ destruct Hplain
        as (EM' & mem' & Deps' & H1 & H2 & H3 & H4 & H5 & H6 & H7 & H8 & H9).
      exists EM', mem', Deps'. split_and!; try done. intros c _. apply H5. }
  apply bool_decide_eq_true in HN.
  destruct (ExplicitAccesses !! emId P) as [pcell|] eqn:HPc.
  - destruct (lookup_lt_is_Some_2 mem pcell (HEA P pcell eq_refl HN HPc))
      as [TP HTP].
    rewrite HTP. cbn -[conjAt]. rewrite length_insert.
    do 3 eexists. split; [done|]. split_and!; try done.
    + rewrite length_app, length_insert. cbn. lia.
    + rewrite lookup_app_r; rewrite length_insert; [|lia].
      by rewrite Nat.sub_diag.
    + intros c Hc Hlen. rewrite lookup_app_l by (by rewrite length_insert).
      apply list_lookup_insert_ne. intros ->. by apply (Hc P).
    + eapply lowers_trans; [|apply lowers_app_new].
      intros c T0 HT0. by apply lookup_insert_conj.
    + rewrite conjAt_cons.
      rewrite lookup_app_r; rewrite length_insert; [|lia].
      rewrite Nat.sub_diag. cbn [lookup list_lookup default].
      rewrite conjAt_app_new.
      * by apply conjAt_insert_conj.
      * rewrite length_insert. done.
    + apply mergeDependence_grows.
    + apply mergeDependence_Built.
  - do 3 eexists. split; [done|]. split_and!; try done.
    + rewrite length_app. cbn. lia.
    + by rewrite list_lookup_middle.
    + intros c _ Hc. by rewrite lookup_app_l.
    + apply lowers_app_new.
    + rewrite conjAt_cons, list_lookup_middle by done. cbn [default].
      by rewrite conjAt_app_new.
    + apply mergeDependence_grows.
    + apply mergeDependence_Built.
Qed.

Lemma promote_spec_witness :
  let parents := λ E : EstimateMemory,
    if bool_decide (emId E = 21%positive) then [SampleStore.C] else [] in
  ∃ EM' mem' Deps',
    promote SampleStore.tree parents 7 {[22%positive := 1]} (SampleStore.B, 0)
      ([(SampleStore.C, 1)],
       [BitMemoryTrait.Dependency; BitMemoryTrait.Shared], ∅)
      = Some ((EM', 2) :: [(SampleStore.C, 1)], mem', Deps') ∧
    EM' = SampleStore.C ∧
    length mem' = 3 ∧
    mem' !! 2 = Some BitMemoryTrait.Dependency ∧
    conjAt mem' [2; 1]
      = BitMemoryTrait.Dependency
        &' conjAt [BitMemoryTrait.Dependency; BitMemoryTrait.Shared] [1] ∧
    DepsGrow ∅ Deps'.
Proof.
  cbn zeta.
  destruct (promote_spec SampleStore.tree
              (λ E, if bool_decide (emId E = 21%positive)
                    then [SampleStore.C] else [])
              7 {[22%positive := 1]} (SampleStore.B, 0) [(SampleStore.C, 1)]
              [BitMemoryTrait.Dependency; BitMemoryTrait.Shared] ∅
              BitMemoryTrait.Dependency)
    as (EM' & mem' & Deps' & H1 & H2 & H3 & H4 & _ & _ & H7 & H8 & _).
  - reflexivity.
  - repeat constructor.
  - intros P c HP _ Hc. vm_compute in HP. injection HP as <-.
    vm_compute in Hc. injection Hc as <-. cbn. lia.
  - exists EM', mem', Deps'. split_and!; [exact H1|exact H2|exact H3|exact H4|
                                           exact H7|exact H8].
Defined.

Lemma forEach_concat {A S} (f : A → S → option S) (ls : list (list A)) s :
  forEach (λ l s, forEach f l s) ls s = forEach f (concat ls) s.
Proof.
  revert s. induction ls as [|l ls IH]; intros s; cbn; [done|].
  revert s. induction l as [|x l IHl]; intros s; cbn; [apply IH|].
  destruct (f x s) as [s'|]; cbn; [apply IHl|done].
Qed.

Lemma conjAt_app mem l1 l2 :
  conjAt mem (l1 ++ l2) =
  foldr (λ c acc, default BitMemoryTrait.NoAccess (mem !! c) &' acc)
    (conjAt mem l2) l1.
Proof.
  induction l1 as [|c l1 IH]; [done|].
  cbn [app foldr]. by rewrite conjAt_cons, IH.
Qed.

Lemma foldr_conj_pull (mem : list BitMemoryTrait.Id) T acc l :
  foldr (λ c acc, default BitMemoryTrait.NoAccess (mem !! c) &' acc)
    (T &' acc) l =
  T &' foldr (λ c acc, default BitMemoryTrait.NoAccess (mem !! c) &' acc) acc l.
Proof.
  induction l as [|c l IH]; [done|]. cbn [foldr]. rewrite IH. conj_bits.
Qed.

Lemma foldr_conj_ext (mem mem' : list BitMemoryTrait.Id) acc l :
  (∀ c, c ∈ l → mem' !! c = mem !! c) →
  foldr (λ c acc, default BitMemoryTrait.NoAccess (mem' !! c) &' acc) acc l =
  foldr (λ c acc, default BitMemoryTrait.NoAccess (mem !! c) &' acc) acc l.
Proof.
  intros H. induction l as [|c l IH]; [done|]. cbn [foldr].
  rewrite H by left. rewrite IH; [done|]. intros c' Hc'. apply H. by right.
Qed.

Section PropagateListsFacts.

Variable mAliasTree : AliasTree.
Variable parents : EstimateMemory → list EstimateMemory.
Variable ancestor : EstimateMemory → EstimateMemory → option EstimateMemory.
Variable N : positive.
Variable ExplicitAccesses : gmap positive nat.

Lemma promote_list CT TL mem Deps :
  NoDup TL.*2 →
  Forall (λ c, c < length mem) TL.*2 →
  Forall (λ c, c < length mem) CT.*2 →
  parentsApart mAliasTree parents N ExplicitAccesses CT mem →
  ∃ TL' mem' Deps',
    forEach (promote mAliasTree parents N ExplicitAccesses) CT (TL, mem, Deps)
      = Some (TL', mem', Deps') ∧
    length TL' = length CT + length TL ∧
    NoDup TL'.*2 ∧ Forall (λ c, c < length mem') TL'.*2 ∧
    (∀ c T0, mem !! c = Some T0 → ∃ T', mem' !! c = Some T' ∧ T' &' T0 = T') ∧
    conjAt mem' TL'.*2 = conjAt mem (CT.*2 ++ TL.*2) ∧
    DepsGrow Deps Deps' ∧ (DepsBuilt Deps → DepsBuilt Deps').
Proof.
  revert TL mem Deps. induction CT as [|E CT IH];
    intros TL mem Deps Hnd Hlt HCT Hap.
  { exists TL, mem, Deps. cbn -[conjAt]. split_and!; auto using DepsGrow_refl.
    intros c T HT. exists T. split; [done|apply Z.land_diag]. }
  rewrite fmap_cons in HCT. apply list.Forall_cons in HCT as [HE HCT].
  destruct (lookup_lt_is_Some_2 mem E.2 HE) as [T HT].
  destruct (promote_spec mAliasTree parents N ExplicitAccesses E TL mem Deps T
              HT Hlt)
    as (EM' & mem1 & Deps1 & Hrun & _ & Hlen1 & Hnew & Hfr1 & Hlow1 & Hconj1
        & HG1 & HB1).
  { intros P c HP HN Hc. apply (Hap E P c); [left|done|done|done]. }
  assert (Hsame : ∀ c, c ∈ CT.*2 → mem1 !! c = mem !! c).
  { intros c Hc. apply Hfr1.
    - intros P HP HN HPc.
      destruct (Hap E P c) as [_ Hnin]; [left|done|done|done|].
      apply Hnin. rewrite fmap_cons. by right.
    - rewrite list.Forall_forall in HCT. by apply HCT. }
  destruct (IH ((EM', length mem) :: TL) mem1 Deps1)
    as (TL' & mem' & Deps' & Hloop & Hlen' & Hnd' & Hlt' & Hlow' & Hconj'
        & HG' & HB').
  { rewrite fmap_cons. apply list.NoDup_cons. split; [|done].
    intros Hin. rewrite list.Forall_forall in Hlt. apply Hlt in Hin. cbn in Hin.
    lia. }
  { rewrite fmap_cons, Hlen1. constructor; [cbn; lia|].
    eapply list.Forall_impl; [exact Hlt|]. cbn. lia. }
  { rewrite Hlen1. eapply list.Forall_impl; [exact HCT|]. cbn. lia. }
  { intros E0 P c HE0 HP HN Hc.
    destruct (Hap E0 P c) as [Hc1 Hc2]; [by right|done|done|done|].
    rewrite Hlen1. split; [lia|]. rewrite fmap_cons in Hc2.
    by apply not_elem_of_cons in Hc2 as [_ Hc2]. }
  cbn [forEach]. rewrite Hrun. cbn -[conjAt]. rewrite Hloop.
  exists TL', mem', Deps'. split; [done|]. split_and!; try done.
  - rewrite Hlen'. cbn. lia.
  - by eapply lowers_trans.
  - rewrite Hconj', fmap_cons. cbn [snd].
    rewrite (conjAt_cons mem E.2), HT. cbn [default].
    rewrite !conjAt_app, Hconj1, foldr_conj_pull.
    by rewrite (foldr_conj_ext mem mem1).
  - by eapply DepsGrow_trans.
  - auto.
Qed.

End PropagateListsFacts.

(** X19. When [propagateTraits] visits a node, it moves the nodes of the
    lists of the children to the list of the node and removes the redundant
    nodes of the result.  Provided the nodes have traits of their own in
    the store, this part of the visit returns; the nodes of the list it
    leaves have distinct traits, of which there are at most as many as the
    lists had together; the traits in the store have only lost bits; the
    conjunction of the traits of the list of the node is afterwards the
    conjunction of the traits that the list and the lists of the children
    had before; and the dependence map has only grown. *)
Theorem propagateLists_conj (mAliasTree : AliasTree)
    (parents : EstimateMemory → list EstimateMemory)
    (ancestor : EstimateMemory → EstimateMemory → option EstimateMemory)
    (N : positive) (ExplicitAccesses : gmap positive nat)
    (Children : list TraitList) (TL : TraitList)
    (mem : list BitMemoryTrait.Id) (Deps : DependenceMap)
    (Ts : list BitMemoryTrait.Id) :
  NoDup TL.*2 →
  Forall2 (λ c T, mem !! c = Some T) ((concat Children).*2 ++ TL.*2) Ts →
  parentsApart mAliasTree parents N ExplicitAccesses (concat Children) mem →
  ∃ TL' mem' Deps' Ts',
    propagateLists mAliasTree parents ancestor N ExplicitAccesses Children
      (TL, mem, Deps) = Some (TL', mem', Deps') ∧
    length TL' ≤ length (concat Children) + length TL ∧
    NoDup TL'.*2 ∧
    (∀ c T, mem !! c = Some T → ∃ T', mem' !! c = Some T' ∧ T' &' T = T') ∧
    Forall2 (λ c T, mem' !! c = Some T) TL'.*2 Ts' ∧
    conjAll Ts' = conjAll Ts ∧
    DepsGrow Deps Deps' ∧ (DepsBuilt Deps → DepsBuilt Deps').
Proof.
  intros Hnd HTs Hap. apply Forall2_traits_valid in HTs as [Hlt HTs].
  apply Forall_app in Hlt as [HCT HTL].
  destruct (promote_list mAliasTree parents N ExplicitAccesses
              (concat Children) TL mem Deps Hnd HTL HCT Hap)
    as (TL1 & mem1 & Deps1 & Hrun1 & Hlen1 & Hnd1 & Hlt1 & Hlow1 & Hconj1
        & HG1 & HB1).
  destruct (removeRedundantLoop_spec mAliasTree parents ancestor N (length TL1)
              TL1 mem1 Deps1 (le_n _) Hnd1 Hlt1)
    as (TL' & mem' & Deps' & Hrun & Hsub & _ & Hlen & _ & Hlow & Hconj
        & HG & HB).
  exists TL', mem', Deps',
    ((λ c, default BitMemoryTrait.NoAccess (mem' !! c)) <$> TL'.*2).
  split_and!.
  - unfold propagateLists. rewrite forEach_concat, Hrun1. cbn. exact Hrun.
  - apply sublist_length in Hsub. rewrite !length_fmap in Hsub. lia.
  - by eapply sublist_NoDup.
  - by eapply lowers_trans.
  - apply Forall2_traits_of. rewrite Hlen.
    rewrite list.Forall_forall in Hlt1. apply list.Forall_forall.
    intros c Hc. apply Hlt1. by eapply elem_of_sublist.
  - unfold conjAt in Hconj, Hconj1. by rewrite Hconj, Hconj1, HTs.
  - by eapply DepsGrow_trans.
  - auto.
Qed.

Lemma propagateLists_conj_witness :
  let parents := λ E : EstimateMemory,
    if bool_decide (emId E = 21%positive) then [SampleStore.C] else [] in
  let ancestor := λ A B : EstimateMemory,
    if bool_decide (emId A = 22%positive) then Some A else None in
  ∃ TL' mem' Deps' Ts',
    propagateLists SampleStore.tree parents ancestor 7 {[22%positive := 1]}
      [[(SampleStore.B, 0)]]
      ([(SampleStore.C, 1)],
       [BitMemoryTrait.Dependency; BitMemoryTrait.Shared], ∅)
      = Some (TL', mem', Deps') ∧
    length TL' ≤ 1 + 1 ∧
    NoDup TL'.*2 ∧
    Forall2 (λ c T, mem' !! c = Some T) TL'.*2 Ts' ∧
    conjAll Ts' = conjAll [BitMemoryTrait.Dependency; BitMemoryTrait.Shared].
Proof.
  cbn zeta.
  destruct (propagateLists_conj SampleStore.tree
              (λ E, if bool_decide (emId E = 21%positive)
                    then [SampleStore.C] else [])
              (λ A B, if bool_decide (emId A = 22%positive)
                      then Some A else None)
              7 {[22%positive := 1]} [[(SampleStore.B, 0)]]
              [(SampleStore.C, 1)]
              [BitMemoryTrait.Dependency; BitMemoryTrait.Shared] ∅
              [BitMemoryTrait.Dependency; BitMemoryTrait.Shared])
    as (TL' & mem' & Deps' & Ts' & H1 & H2 & H3 & _ & H5 & H6 & _).
  - apply (bool_decide_unpack _). vm_compute. exact I.
  - repeat constructor.
  - intros E P c HE HP _ Hc. apply list_elem_of_singleton in HE as ->.
    vm_compute in HP. injection HP as <-.
    vm_compute in Hc. injection Hc as <-. split; [cbn; lia|].
    apply (bool_decide_unpack _). vm_compute. exact I.
  - exists TL', mem', Deps', Ts'.
    split_and!; [exact H1|exact H2|exact H3|exact H5|exact H6].
Defined.

(** ** The traits after the resolution of the accesses *)

Lemma conjAll_snoc Ts T : conjAll (Ts ++ [T]) = conjAll Ts &' T.
Proof. unfold conjAll. by rewrite foldl_app. Qed.

Lemma accessesOf_snoc mAliasTree id Locs Loc :
  accessesOf mAliasTree id (Locs ++ [Loc]) =
  accessesOf mAliasTree id Locs ++
  (if decide (emId (find mAliasTree Loc) = id) then [Loc] else []).
Proof.
  unfold accessesOf. rewrite list.filter_app. f_equal.
Qed.

Section AccessTraitsFacts.

Variable mAliasTree : AliasTree.
Variable onlyReadsMemoryCall : Value → bool.
Variable DefUse : DefUseSet.
Variable LiveOut : LocationDFValue.
Variable LatchDefs ExitingDefs : DefinitionInfo.
Variable Deps : DependenceMap.

Let A (Loc : MemoryLocation) : BitMemoryTrait.Id :=
  accessTrait DefUse LiveOut LatchDefs ExitingDefs Deps Loc
    (find mAliasTree Loc).

Lemma resolveAccess_conjoined pre Loc st :
  ValidState mAliasTree st →
  accessesConjoined mAliasTree A pre st →
  is_Some (NodeTraits st !! getAliasNode mAliasTree (find mAliasTree Loc)) →
  ∃ st', resolveAccess mAliasTree DefUse LiveOut LatchDefs ExitingDefs Deps
           Loc st = Some st' ∧
         ValidState mAliasTree st' ∧ Extends st st' ∧
         accessesConjoined mAliasTree A (pre ++ [Loc]) st'.
Proof.
  intros HV (HC & HN & HI) HNode.
  destruct (resolveAccess_step mAliasTree DefUse LiveOut LatchDefs ExitingDefs
              Deps Loc st HV HNode) as (st' & Hrun & HV' & HE' & _).
  exists st'. split_and!; try done.
  unfold resolveAccess, registerAccess in Hrun.
  destruct (ExplicitAccesses st !! emId (find mAliasTree Loc)) as [cell|] eqn:HEA.
  - cbn in Hrun. pose proof (HC _ _ HEA) as HT. rewrite HT in Hrun.
    cbn in Hrun. injection Hrun as <-. split_and!; cbn.
    + intros id c Hid. rewrite accessesOf_snoc.
      destruct (decide (emId (find mAliasTree Loc) = id)) as [<-|Hne].
      * rewrite HEA in Hid. injection Hid as <-.
        rewrite list_lookup_insert_eq by (by eapply lookup_lt_Some).
        rewrite fmap_app. change (A <$> [Loc]) with [A Loc].
        by rewrite conjAll_snoc.
      * rewrite app_nil_r, list_lookup_insert_ne; [by apply HC|].
        intros <-. apply Hne. by eapply HI.
    + intros id Hid. rewrite accessesOf_snoc, (HN id Hid).
      rewrite decide_False; [done|]. intros <-. congruence.
    + done.
  - destruct (NodeTraits st !! _) as [[TL UL]|]; [|done]. cbn in Hrun.
    rewrite list_lookup_middle in Hrun by done. cbn in Hrun.
    injection Hrun as <-. split_and!; cbn.
    + intros id c Hid. rewrite accessesOf_snoc.
      destruct (decide (emId (find mAliasTree Loc) = id)) as [<-|Hne].
      * rewrite lookup_insert_eq in Hid. injection Hid as <-.
        rewrite list_lookup_insert_eq by (rewrite length_app; cbn; lia).
        rewrite (HN _ HEA). reflexivity.
      * rewrite lookup_insert_ne in Hid by done.
        destruct (valid_access_cell _ _ _ _ HV Hid) as [T HT].
        apply lookup_lt_Some in HT as Hlt.
        rewrite app_nil_r, list_lookup_insert_ne by lia.
        rewrite lookup_app_l by done. by apply HC.
    + intros id Hid. rewrite accessesOf_snoc.
      destruct (decide (emId (find mAliasTree Loc) = id)) as [<-|Hne].
      * by rewrite lookup_insert_eq in Hid.
      * rewrite lookup_insert_ne in Hid by done. by rewrite (HN id Hid).
    + intros id1 id2 c H1 H2.
      destruct (decide (emId (find mAliasTree Loc) = id1)) as [<-|Hne1];
        destruct (decide (emId (find mAliasTree Loc) = id2)) as [<-|Hne2];
        [done| | |].
      * rewrite lookup_insert_eq in H1. injection H1 as <-.
        rewrite lookup_insert_ne in H2 by done.
        destruct (valid_access_cell _ _ _ _ HV H2) as [T HT].
        apply lookup_lt_Some in HT. lia.
      * rewrite lookup_insert_eq in H2. injection H2 as <-.
        rewrite lookup_insert_ne in H1 by done.
        destruct (valid_access_cell _ _ _ _ HV H1) as [T HT].
        apply lookup_lt_Some in HT. lia.
      * rewrite lookup_insert_ne in H1, H2 by done. by eapply HI.
Qed.

Lemma resolveAccess_loop_conjoined l pre st :
  ValidState mAliasTree st →
  accessesConjoined mAliasTree A pre st →
  Forall (λ Loc, is_Some (NodeTraits st
                            !! getAliasNode mAliasTree (find mAliasTree Loc))) l →
  ∃ st', forEach (resolveAccess mAliasTree DefUse LiveOut LatchDefs ExitingDefs
                    Deps) l st = Some st' ∧
         ValidState mAliasTree st' ∧ Extends st st' ∧
         accessesConjoined mAliasTree A (pre ++ l) st'.
Proof.
  revert pre st. induction l as [|Loc l IH]; intros pre st HV HC HN.
  { exists st. rewrite app_nil_r. split_and!; try done. apply Extends_refl. }
  apply list.Forall_cons in HN as [HLoc HN].
  destruct (resolveAccess_conjoined pre Loc st HV HC HLoc)
    as (st1 & Hrun1 & HV1 & HE1 & HC1).
  destruct (IH (pre ++ [Loc]) st1 HV1 HC1) as (st' & Hrun & HV' & HE' & HC').
  { eapply list.Forall_impl; [exact HN|]. cbn. intros L HL.
    by eapply Extends_node. }
  exists st'. cbn. rewrite Hrun1. cbn. rewrite <- app_assoc in HC'.
  split_and!; try done. by eapply Extends_trans.
Qed.

Lemma resolveUnknown_loop_conjoined l Locs st :
  ValidState mAliasTree st →
  accessesConjoined mAliasTree A Locs st →
  Forall (λ U, is_Some (NodeTraits st !! findUnknown mAliasTree U)) l →
  ∃ st', forEach (resolveUnknown mAliasTree onlyReadsMemoryCall) l st = Some st' ∧
         ValidState mAliasTree st' ∧ Extends st st' ∧
         accessesConjoined mAliasTree A Locs st'.
Proof.
  revert st. induction l as [|U l IH]; intros st HV HC HN.
  { exists st. split_and!; try done. apply Extends_refl. }
  apply list.Forall_cons in HN as [HU HN].
  destruct (resolveUnknown_step mAliasTree onlyReadsMemoryCall U st HV HU)
    as (st1 & Hrun1 & HV1 & HE1 & _).
  assert (HC1 : accessesConjoined mAliasTree A Locs st1).
  { destruct HC as (HC & HNn & HI).
    unfold resolveUnknown in Hrun1.
    destruct (NodeTraits st !! _) as [[TL UL]|]; [|done]. cbn in Hrun1.
    injection Hrun1 as <-. split_and!; cbn; [|done|done].
    intros id c Hid. destruct (valid_access_cell _ _ _ _ HV Hid) as [T HT].
    rewrite lookup_app_l by (by eapply lookup_lt_Some). by apply HC. }
  destruct (IH st1 HV1 HC1) as (st' & Hrun & HV' & HE' & HC').
  { eapply list.Forall_impl; [exact HN|]. cbn. intros L HL.
    by eapply Extends_node. }
  exists st'. cbn. rewrite Hrun1. cbn.
  split_and!; try done. by eapply Extends_trans.
Qed.

End AccessTraitsFacts.

(** X20. From the state in which every alias node has empty lists,
    [resolveAccesses] gives the estimate memory of every explicit access
    traits that are the conjunction, over all the explicit accesses to this
    memory, of the traits that the body of the loop conjoins for the
    access; and no two estimate memory locations share their traits. *)
Theorem resolveAccesses_conjunction (mAliasTree : AliasTree)
    (onlyReadsMemoryCall : Value → bool) (DefUse : DefUseSet)
    (LiveOut : LocationDFValue) (LatchDefs ExitingDefs : DefinitionInfo)
    (Deps : DependenceMap) (Nodes : gset positive) :
  Forall (λ Loc, getAliasNode mAliasTree (find mAliasTree Loc) ∈ Nodes)
    (getExplicitAccesses DefUse) →
  Forall (λ U, findUnknown mAliasTree U ∈ Nodes) (getExplicitUnknowns DefUse) →
  ∃ st',
    resolveAccesses mAliasTree onlyReadsMemoryCall DefUse LiveOut LatchDefs
      ExitingDefs Deps (initialState Nodes) = Some st' ∧
    Forall (λ Loc, ∃ cell,
              ExplicitAccesses st' !! emId (find mAliasTree Loc) = Some cell ∧
              traits st' !! cell =
              Some (conjAll
                      ((λ L, accessTrait DefUse LiveOut LatchDefs ExitingDefs
                               Deps L (find mAliasTree L))
                         <$> accessesOf mAliasTree (emId (find mAliasTree Loc))
                               (getExplicitAccesses DefUse))))
      (getExplicitAccesses DefUse) ∧
    (∀ id1 id2 c, ExplicitAccesses st' !! id1 = Some c →
                  ExplicitAccesses st' !! id2 = Some c → id1 = id2).
Proof.
  intros HA HU.
  assert (HN : ∀ n, n ∈ Nodes → is_Some (NodeTraits (initialState Nodes) !! n)).
  { intros n Hn. exists ([], []). cbn. by apply lookup_gset_to_gmap_Some. }
  destruct (resolveAccess_loop_conjoined mAliasTree DefUse LiveOut LatchDefs
              ExitingDefs Deps (getExplicitAccesses DefUse) []
              (initialState Nodes) (ValidState_initial _ _))
    as (st1 & Hrun1 & HV1 & HE1 & HC1).
  { split_and!; cbn; [|done|]; intros; by rewrite lookup_empty in *. }
  { eapply list.Forall_impl; [exact HA|]. cbn. auto. }
  destruct (resolveUnknown_loop_conjoined mAliasTree onlyReadsMemoryCall DefUse
              LiveOut LatchDefs ExitingDefs Deps (getExplicitUnknowns DefUse)
              (getExplicitAccesses DefUse) st1 HV1 HC1)
    as (st' & Hrun & HV' & HE' & (HC & HNone & HI)).
  { eapply list.Forall_impl; [exact HU|]. cbn. intros U HUn.
    eapply Extends_node; [exact HE1|]. by apply HN. }
  exists st'. split_and!.
  - unfold resolveAccesses. rewrite Hrun1. exact Hrun.
  - apply list.Forall_forall. intros Loc HLoc.
    destruct (ExplicitAccesses st' !! emId (find mAliasTree Loc)) as [cell|]
      eqn:HEA.
    + exists cell. split; [done|]. by apply HC.
    + apply HNone in HEA.
      assert (Hin : Loc ∈ accessesOf mAliasTree (emId (find mAliasTree Loc))
                      (getExplicitAccesses DefUse)).
      { unfold accessesOf. by apply list_elem_of_filter. }
      rewrite HEA in Hin. inversion Hin.
  - exact HI.
Qed.

Lemma resolveAccesses_conjunction_witness :
  ∃ st',
    resolveAccesses Sample.tree (λ _, false) SampleLoop.defUse
      SampleLoop.liveOut SampleLoop.noDefs SampleLoop.noDefs SampleLoop.depsY
      (initialState SampleStages.nodes) = Some st' ∧
    Forall (λ Loc, ∃ cell,
              ExplicitAccesses st' !! emId (find Sample.tree Loc) = Some cell ∧
              traits st' !! cell =
              Some (conjAll
                      ((λ L, accessTrait SampleLoop.defUse SampleLoop.liveOut
                               SampleLoop.noDefs SampleLoop.noDefs
                               SampleLoop.depsY L (find Sample.tree L))
                         <$> accessesOf Sample.tree (emId (find Sample.tree Loc))
                               (getExplicitAccesses SampleLoop.defUse))))
      (getExplicitAccesses SampleLoop.defUse) ∧
    (∀ id1 id2 c, ExplicitAccesses st' !! id1 = Some c →
                  ExplicitAccesses st' !! id2 = Some c → id1 = id2).
Proof.
  apply (resolveAccesses_conjunction Sample.tree (λ _, false) SampleLoop.defUse
           SampleLoop.liveOut SampleLoop.noDefs SampleLoop.noDefs
           SampleLoop.depsY SampleStages.nodes).
  - repeat apply Forall_cons; try apply Forall_nil;
      apply (bool_decide_unpack _); vm_compute; exact I.
  - apply Forall_nil.
Defined.

(** ** The loop of the explicit access resolver *)

Lemma accessesOf_split mAliasTree pre Loc post :
  accessesOf mAliasTree (emId (find mAliasTree Loc)) (pre ++ Loc :: post) =
  accessesOf mAliasTree (emId (find mAliasTree Loc)) pre ++
  Loc :: accessesOf mAliasTree (emId (find mAliasTree Loc)) post.
Proof.
  unfold accessesOf. rewrite list.filter_app. f_equal.
  by rewrite filter_cons_True.
Qed.

Lemma conjAll_split pre T post :
  conjAll (pre ++ T :: post) = foldl BitMemoryTrait.conj (conjAll pre &' T) post.
Proof. unfold conjAll. by rewrite foldl_app. Qed.

Lemma conjAll_repeat T Ts :
  Ts ≠ [] → Forall (λ T', T' = T) Ts →
  conjAll Ts = BitMemoryTrait.default &' T.
Proof.
  intros Hne HTs. destruct HTs as [|T0 Ts -> HTs]; [done|].
  unfold conjAll. cbn. clear Hne.
  induction HTs as [|T' Ts -> _ IH]; cbn; [done|].
  replace (BitMemoryTrait.default &' T &' T) with (BitMemoryTrait.default &' T);
    [exact IH|].
  unfold BitMemoryTrait.conj. by rewrite <- Z.land_assoc, Z.land_diag.
Qed.

(** C1. From the state in which every alias node has empty lists,
    [resolveAccesses] returns, and for every explicit access [Loc] that is
    not used before its definition in the loop the estimate memory of [Loc]
    has traits into which the visit of [Loc] has conjoined one kind together
    with SharedTrait: Private when the location is not live after the loop;
    LastPrivate when it is live and has a must definition in the loop;
    SecondToLastPrivate and FirstPrivate when it is live, has no must
    definition, is a must-reaching definition at the latch and is not a
    may-reaching definition at the exit; DynamicPrivate and FirstPrivate
    otherwise.  The traits after the loop are the conjunction of the default
    traits and of what the earlier accesses to the same memory conjoin, then
    of this kind with SharedTrait, then of what the later accesses to the same
    memory conjoin.  When every explicit access to the memory is neither
    used before its definition nor live after the loop, and the memory has
    no recorded dependence, the traits are Private once the shared-join flag
    is dropped. *)
Theorem resolveAccesses_private_kinds (mAliasTree : AliasTree)
    (onlyReadsMemoryCall : Value → bool) (DefUse : DefUseSet)
    (LiveOut : LocationDFValue) (LatchDefs ExitingDefs : DefinitionInfo)
    (Deps : DependenceMap) (Nodes : gset positive) :
  Forall (λ Loc, getAliasNode mAliasTree (find mAliasTree Loc) ∈ Nodes)
    (getExplicitAccesses DefUse) →
  Forall (λ U, findUnknown mAliasTree U ∈ Nodes) (getExplicitUnknowns DefUse) →
  ∃ st',
    resolveAccesses mAliasTree onlyReadsMemoryCall DefUse LiveOut LatchDefs
      ExitingDefs Deps (initialState Nodes) = Some st' ∧
    ∀ pre Loc post,
      getExplicitAccesses DefUse = pre ++ Loc :: post →
      hasUse DefUse Loc = false →
      ∃ cell Kind,
        ExplicitAccesses st' !! emId (find mAliasTree Loc) = Some cell ∧
        (overlap LiveOut Loc = false → Kind = BitMemoryTrait.Private) ∧
        (overlap LiveOut Loc = true → hasDef DefUse Loc = true →
           Kind = BitMemoryTrait.LastPrivate) ∧
        (overlap LiveOut Loc = true → hasDef DefUse Loc = false →
         contain (MustReach LatchDefs) Loc = true →
         overlap (MayReach ExitingDefs) Loc = false →
           Kind = BitMemoryTrait.SecondToLastPrivate
                    &' BitMemoryTrait.FirstPrivate) ∧
        (overlap LiveOut Loc = true → hasDef DefUse Loc = false →
         contain (MustReach LatchDefs) Loc = false ∨
         overlap (MayReach ExitingDefs) Loc = true →
           Kind = BitMemoryTrait.DynamicPrivate &' BitMemoryTrait.FirstPrivate) ∧
        traits st' !! cell =
          Some (foldl BitMemoryTrait.conj
                  (conjAll
                     ((λ L, accessTrait DefUse LiveOut LatchDefs ExitingDefs
                              Deps L (find mAliasTree L))
                        <$> accessesOf mAliasTree (emId (find mAliasTree Loc))
                              pre)
                   &' (Kind &' SharedTrait Deps (find mAliasTree Loc)))
                  ((λ L, accessTrait DefUse LiveOut LatchDefs ExitingDefs
                           Deps L (find mAliasTree L))
                     <$> accessesOf mAliasTree (emId (find mAliasTree Loc))
                           post)) ∧
        (Forall (λ L, hasUse DefUse L = false ∧ overlap LiveOut L = false)
           (accessesOf mAliasTree (emId (find mAliasTree Loc))
              (getExplicitAccesses DefUse)) →
         Deps !! emId (find mAliasTree Loc) = None →
         ∃ T, traits st' !! cell = Some T ∧
              BitMemoryTrait.dropSharedFlag (BitMemoryTrait.dropUnitFlag T)
                = BitMemoryTrait.Private).
Proof.
  intros HA HU.
  assert (HN : ∀ n, n ∈ Nodes → is_Some (NodeTraits (initialState Nodes) !! n)).
  { intros n Hn. exists ([], []). cbn. by apply lookup_gset_to_gmap_Some. }
  destruct (resolveAccess_loop_conjoined mAliasTree DefUse LiveOut LatchDefs
              ExitingDefs Deps (getExplicitAccesses DefUse) []
              (initialState Nodes) (ValidState_initial _ _))
    as (st1 & Hrun1 & HV1 & HE1 & HC1).
  { split_and!; cbn; [|done|]; intros; by rewrite lookup_empty in *. }
  { eapply list.Forall_impl; [exact HA|]. cbn. auto. }
  destruct (resolveUnknown_loop_conjoined mAliasTree onlyReadsMemoryCall DefUse
              LiveOut LatchDefs ExitingDefs Deps (getExplicitUnknowns DefUse)
              (getExplicitAccesses DefUse) st1 HV1 HC1)
    as (st' & Hrun & HV' & HE' & (HC & HNone & HI)).
  { eapply list.Forall_impl; [exact HU|]. cbn. intros U HUn.
    eapply Extends_node; [exact HE1|]. by apply HN. }
  exists st'. split.
  { unfold resolveAccesses. rewrite Hrun1. exact Hrun. }
  cbn in HC, HNone.
  intros pre Loc post Hsplit Huse.
  destruct (accessTrait_private_cases DefUse LiveOut LatchDefs ExitingDefs Deps
              Loc (find mAliasTree Loc) Huse)
    as (Kind & HKind & HP & HL & HS & HD).
  destruct (ExplicitAccesses st' !! emId (find mAliasTree Loc)) as [cell|]
    eqn:HEA.
  2:{ apply HNone in HEA. rewrite Hsplit, accessesOf_split in HEA.
      by destruct (accessesOf mAliasTree _ pre). }
  pose proof (HC _ _ HEA) as HT.
  exists cell, Kind. split_and!; try done.
  - rewrite HT, Hsplit, accessesOf_split, fmap_app, fmap_cons, conjAll_split.
    by rewrite HKind.
  - intros Hall Hdeps. eexists. split; [exact HT|].
    rewrite (conjAll_repeat (BitMemoryTrait.Private &' BitMemoryTrait.Shared)).
    + reflexivity.
    + rewrite Hsplit, accessesOf_split. by destruct (accessesOf mAliasTree _ pre).
    + apply Forall_fmap. rewrite list.Forall_forall in Hall.
      apply list.Forall_forall. intros L HLin. cbn.
      destruct (Hall L HLin) as [HLu HLl].
      apply list_elem_of_filter in HLin as [Hid _].
      unfold accessTrait, SharedTrait. rewrite HLu, HLl, Hid, Hdeps. reflexivity.
Qed.

Lemma resolveAccesses_private_kinds_witness :
  ∃ st' cell T,
    resolveAccesses Sample.tree (λ _, false) SampleLoop.defUse
      SampleLoop.liveOut SampleLoop.noDefs SampleLoop.noDefs SampleLoop.depsY
      (initialState SampleStages.nodes) = Some st' ∧
    ExplicitAccesses st' !! emId (find Sample.tree SampleLoop.X) = Some cell ∧
    traits st' !! cell = Some T ∧
    BitMemoryTrait.dropSharedFlag (BitMemoryTrait.dropUnitFlag T)
      = BitMemoryTrait.Private.
Proof.
  destruct (resolveAccesses_private_kinds Sample.tree (λ _, false)
              SampleLoop.defUse SampleLoop.liveOut SampleLoop.noDefs
              SampleLoop.noDefs SampleLoop.depsY SampleStages.nodes)
    as (st' & Hrun & Hall).
  - repeat apply Forall_cons; try apply Forall_nil;
      apply (bool_decide_unpack _); vm_compute; exact I.
  - apply Forall_nil.
  - destruct (Hall [] SampleLoop.X
                [SampleLoop.Y; SampleLoop.P; SampleLoop.Q; SampleLoop.R;
                 SampleLoop.S])
      as (cell & Kind & HEA & _ & _ & _ & _ & _ & Hpriv);
      [reflexivity..|].
    destruct Hpriv as (T & HT & HP).
    + replace (accessesOf Sample.tree (emId (find Sample.tree SampleLoop.X))
                 (getExplicitAccesses SampleLoop.defUse))
        with [SampleLoop.X] by (vm_compute; reflexivity).
      apply Forall_cons; [split; reflexivity|apply Forall_nil].
    + reflexivity.
    + exists st', cell, T. split_and!; assumption.
Defined.

(** ** The loop of the pointer resolver *)

Lemma forEach_app {A S : Type} (body : A → S → option S) l1 l2 (s : S) :
  forEach body (l1 ++ l2) s = forEach body l1 s ≫= forEach body l2.
Proof.
  revert s. induction l1 as [|x l1 IH]; intros s; cbn; [done|].
  destruct (body x s) as [s1|]; cbn; [apply IH|done].
Qed.

Lemma conj_Dependency_idemp T :
  T &' BitMemoryTrait.Dependency &' BitMemoryTrait.Dependency
  = T &' BitMemoryTrait.Dependency.
Proof.
  unfold BitMemoryTrait.conj. by rewrite <- Z.land_assoc, Z.land_diag.
Qed.

Lemma conj_Dependency_not_Readonly T :
  BitMemoryTrait.dropUnitFlag (T &' BitMemoryTrait.Dependency)
  ≠ BitMemoryTrait.Readonly.
Proof. rewrite dropUnitFlag_conj_Dependency. discriminate. Qed.

Lemma pointersRefined_start mAliasTree asLoadInst st :
  pointersRefined mAliasTree asLoadInst st [] st.
Proof.
  split; [by apply sameMaps_refl|]. intros c T HT. split_and!.
  - by left.
  - intros (L & HL & _). inversion HL.
  - done.
Qed.

Lemma resolvePointer_refined mAliasTree asLoadInst st visited Loc s :
  ValidState mAliasTree st →
  pointerRegistered mAliasTree asLoadInst st Loc →
  pointersRefined mAliasTree asLoadInst st visited s →
  ∃ s', resolvePointer mAliasTree asLoadInst Loc s = Some s' ∧
        pointersRefined mAliasTree asLoadInst st (visited ++ [Loc]) s'.
Proof.
  intros HV HR [HS HI]. unfold resolvePointer.
  destruct (asLoadInst (Ptr Loc)) as [LI|] eqn:HLI.
  2:{ exists s. split; [done|]. split; [done|]. intros c T HT.
      destruct (HI c T HT) as (H1 & H2 & H3). split_and!; [done| |].
      - intros (L & HL & HRf). apply H2. exists L. split; [|done].
        apply elem_of_app in HL as [HL|HL]; [done|].
        apply list_elem_of_singleton in HL as ->.
        destruct HRf as (LI & ? & HLI' & _). congruence.
      - intros Hno. apply H3. intros L HL. apply Hno, elem_of_app. by left. }
  destruct (HR LI HLI) as [[cell Hcell] [pcell Hpcell]].
  destruct (valid_access_cell _ _ _ _ HV Hcell) as [T0 HT0].
  destruct (valid_access_cell _ _ _ _ HV Hpcell) as [PT0 HPT0].
  destruct HS as (HEA & HEU & HNT & Hlen).
  rewrite HEA, Hcell. cbn.
  destruct (HI cell T0 HT0) as (HT & HTyes & HTno).
  destruct (HI pcell PT0 HPT0) as (HPT & _ & _).
  assert (Hsame : sameMaps st s) by done.
  assert (Hold : ∀ L c, L ∈ visited ++ [Loc] →
            refinesAt mAliasTree asLoadInst st c L →
            L ∈ visited ∨ (c = cell ∧ ¬ traitResolved T0 ∧
                           ¬ pointerReadonly mAliasTree st LI)).
  { intros L c HL HRf. apply elem_of_app in HL as [HL|HL]; [by left|right].
    apply list_elem_of_singleton in HL as ->.
    destruct HRf as (LI' & T' & H1 & H2 & H3 & H4 & H5).
    assert (c = cell) as -> by congruence.
    assert (LI' = LI) as -> by congruence.
    assert (T' = T0) as -> by congruence. done. }
  (* the state is kept when the visit refines nothing *)
  assert (Hstay : (¬ traitResolved T0 → ¬ pointerReadonly mAliasTree st LI →
                   traits s !! cell = Some (T0 &' BitMemoryTrait.Dependency)) →
                  pointersRefined mAliasTree asLoadInst st (visited ++ [Loc]) s).
  { intros Hdone. split; [done|]. intros c T HTc.
    destruct (HI c T HTc) as (H1 & H2 & H3). split_and!; [done| |].
    - intros (L & HL & HRf).
      destruct (Hold L c HL HRf) as [HLv|(-> & Hn1 & Hn2)].
      + apply H2. by exists L.
      + assert (T = T0) as -> by congruence. by apply Hdone.
    - intros Hno. apply H3. intros L HL. apply Hno, elem_of_app. by left. }
  destruct HT as [HT|[HnT0 HT]].
  - (* the traits of the location are the ones of [st] *)
    rewrite HT. cbn.
    destruct (pointerTraitResolved T0) eqn:HRes.
    { exists s. split; [done|]. apply Hstay. intros Hn.
      apply pointerTraitResolved_spec in HRes. contradiction. }
    assert (HnT0 : ¬ traitResolved T0).
    { intros H. apply pointerTraitResolved_spec in H. congruence. }
    rewrite Hpcell. cbn.
    destruct HPT as [HPT|[HnPT0 HPT]]; rewrite HPT; cbn.
    + destruct (bool_decide (BitMemoryTrait.dropUnitFlag PT0
                             = BitMemoryTrait.Readonly)) eqn:HRO.
      { exists s. split; [done|]. apply Hstay. intros _ Hn. exfalso.
        apply Hn. exists pcell, PT0. split_and!; [done|done|].
        by apply bool_decide_eq_true in HRO. }
      apply bool_decide_eq_false in HRO.
      eexists. split; [reflexivity|].
      split; [split_and!; cbn; [done|done|done|by rewrite length_insert]|].
      intros c T HTc. cbn.
      destruct (decide (c = cell)) as [->|Hne].
      * assert (T = T0) as -> by congruence.
        rewrite list_lookup_insert_eq by (by eapply lookup_lt_Some).
        split_and!; [by right|done|].
        intros Hno. exfalso. apply (Hno Loc); [apply elem_of_app; right; left|].
        exists LI, T0. split_and!; try done.
        intros (pc & PT & H1 & H2 & H3).
        assert (pc = pcell) as -> by congruence.
        assert (PT = PT0) as -> by congruence. done.
      * rewrite list_lookup_insert_ne by done.
        destruct (HI c T HTc) as (H1 & H2 & H3). split_and!; [done| |].
        -- intros (L & HL & HRf).
           destruct (Hold L c HL HRf) as [HLv|(-> & _)]; [|done].
           apply H2. by exists L.
        -- intros Hno. apply H3. intros L HL. apply Hno, elem_of_app. by left.
    + rewrite bool_decide_eq_false_2 by apply conj_Dependency_not_Readonly.
      eexists. split; [reflexivity|].
      split; [split_and!; cbn; [done|done|done|by rewrite length_insert]|].
      intros c T HTc. cbn.
      destruct (decide (c = cell)) as [->|Hne].
      * assert (T = T0) as -> by congruence.
        rewrite list_lookup_insert_eq by (by eapply lookup_lt_Some).
        split_and!; [by right|done|].
        intros Hno. exfalso. apply (Hno Loc); [apply elem_of_app; right; left|].
        exists LI, T0. split_and!; try done.
        intros (pc & PT & H1 & H2 & H3).
        assert (pc = pcell) as -> by congruence.
        assert (PT = PT0) as -> by congruence.
        apply HnPT0. right. by left.
      * rewrite list_lookup_insert_ne by done.
        destruct (HI c T HTc) as (H1 & H2 & H3). split_and!; [done| |].
        -- intros (L & HL & HRf).
           destruct (Hold L c HL HRf) as [HLv|(-> & _)]; [|done].
           apply H2. by exists L.
        -- intros Hno. apply H3. intros L HL. apply Hno, elem_of_app. by left.
  - (* Dependency is conjoined already *)
    rewrite HT. cbn.
    destruct (pointerTraitResolved (T0 &' BitMemoryTrait.Dependency)).
    { exists s. split; [done|]. by apply Hstay. }
    rewrite Hpcell. cbn.
    assert (HPTs : ∃ PT, traits s !! pcell = Some PT).
    { destruct HPT as [H|[_ H]]; eauto. }
    destruct HPTs as [PT HPTs]. rewrite HPTs. cbn.
    destruct (bool_decide (BitMemoryTrait.dropUnitFlag PT
                           = BitMemoryTrait.Readonly)).
    { exists s. split; [done|]. by apply Hstay. }
    eexists. split; [reflexivity|].
    rewrite conj_Dependency_idemp.
    rewrite list_insert_id by done.
    replace (setTraits s (traits s)) with s by (by destruct s).
    by apply Hstay.
Qed.

Lemma resolvePointer_loop_refined mAliasTree asLoadInst st l visited s :
  ValidState mAliasTree st →
  Forall (pointerRegistered mAliasTree asLoadInst st) l →
  pointersRefined mAliasTree asLoadInst st visited s →
  ∃ s', forEach (resolvePointer mAliasTree asLoadInst) l s = Some s' ∧
        pointersRefined mAliasTree asLoadInst st (visited ++ l) s'.
Proof.
  intros HV HR. revert visited s.
  induction HR as [|Loc l HLoc _ IH]; intros visited s HI.
  { exists s. by rewrite app_nil_r. }
  destruct (resolvePointer_refined mAliasTree asLoadInst st visited Loc s
              HV HLoc HI) as (s1 & Hs1 & HI1).
  destruct (IH (visited ++ [Loc]) s1 HI1) as (s' & Hs' & HI').
  exists s'. cbn. rewrite Hs1. cbn. rewrite <- app_assoc in HI'. done.
Qed.

(** C9. In a state whose pointers are valid and in which every explicit
    access with a loaded pointer has traits, and the memory of its pointer
    too, [resolvePointers] returns and leaves the maps and the lists as they
    are.  It visits every explicit access [Loc] whose pointer is a load
    [LI]: with [T] the traits of the memory of [Loc] and [PT] the traits of
    the memory of the pointer at the visit, the visit changes nothing when
    [T] is Private, Readonly or Shared or when [PT] is Readonly, and in every
    other case conjoins Dependency into [T] and changes no other trait.
    Hence, with [T] and [PT] the traits before the loop: the traits of
    [Loc] after the loop are [T] when [T] is Private, Readonly or Shared;
    they are [T] with Dependency conjoined when [T] is none of these and
    [PT] is not Readonly; and they are [T] when the memory of the pointer
    is Readonly, for [Loc] and for every other access with a loaded pointer
    that has the same traits.  The traits that belong to no explicit access
    with a loaded pointer are the same after the loop. *)
Theorem resolvePointers_refines (mAliasTree : AliasTree)
    (asLoadInst : Value → option MemoryLocation) (DefUse : DefUseSet)
    (st : PassState) :
  ValidState mAliasTree st →
  Forall (pointerRegistered mAliasTree asLoadInst st)
    (getExplicitAccesses DefUse) →
  ∃ st',
    resolvePointers mAliasTree asLoadInst DefUse st = Some st' ∧
    sameMaps st st' ∧
    (∀ pre Loc post LI,
       getExplicitAccesses DefUse = pre ++ Loc :: post →
       asLoadInst (Ptr Loc) = Some LI →
       ∃ s1 s2 cell T pcell PT,
         forEach (resolvePointer mAliasTree asLoadInst) pre st = Some s1 ∧
         resolvePointer mAliasTree asLoadInst Loc s1 = Some s2 ∧
         forEach (resolvePointer mAliasTree asLoadInst) post s2 = Some st' ∧
         ExplicitAccesses s1 !! emId (find mAliasTree Loc) = Some cell ∧
         traits s1 !! cell = Some T ∧
         ExplicitAccesses s1 !! emId (find mAliasTree LI) = Some pcell ∧
         traits s1 !! pcell = Some PT ∧
         (traitResolved T → s2 = s1) ∧
         (BitMemoryTrait.dropUnitFlag PT = BitMemoryTrait.Readonly → s2 = s1) ∧
         (¬ traitResolved T →
          BitMemoryTrait.dropUnitFlag PT ≠ BitMemoryTrait.Readonly →
          s2 = setTraits s1
                 (<[cell := T &' BitMemoryTrait.Dependency]> (traits s1)))) ∧
    (∀ Loc LI,
       Loc ∈ getExplicitAccesses DefUse → asLoadInst (Ptr Loc) = Some LI →
       ∃ cell T pcell PT,
         ExplicitAccesses st !! emId (find mAliasTree Loc) = Some cell ∧
         traits st !! cell = Some T ∧
         ExplicitAccesses st !! emId (find mAliasTree LI) = Some pcell ∧
         traits st !! pcell = Some PT ∧
         (traitResolved T → traits st' !! cell = Some T) ∧
         (¬ traitResolved T →
          BitMemoryTrait.dropUnitFlag PT ≠ BitMemoryTrait.Readonly →
          traits st' !! cell = Some (T &' BitMemoryTrait.Dependency)) ∧
         ((∀ L LI', L ∈ getExplicitAccesses DefUse →
                    asLoadInst (Ptr L) = Some LI' →
                    ExplicitAccesses st !! emId (find mAliasTree L) = Some cell →
                    pointerReadonly mAliasTree st LI') →
          traits st' !! cell = Some T)) ∧
    (∀ c, (∀ L, L ∈ getExplicitAccesses DefUse →
                is_Some (asLoadInst (Ptr L)) →
                ExplicitAccesses st !! emId (find mAliasTree L) ≠ Some c) →
          traits st' !! c = traits st !! c).
Proof.
  intros HV HR.
  destruct (resolvePointer_loop_refined mAliasTree asLoadInst st
              (getExplicitAccesses DefUse) [] st HV HR
              (pointersRefined_start _ _ _)) as (st' & Hrun & HS & HI).
  cbn in HI. exists st'. split_and!; [exact Hrun|exact HS| | |].
  - (* the visits *)
    intros pre Loc post LI Hsplit HLI.
    rewrite Hsplit in HR. apply Forall_app in HR as [HRpre HRrest].
    apply list.Forall_cons in HRrest as [HRLoc HRpost].
    destruct (resolvePointer_loop_refined mAliasTree asLoadInst st pre [] st
                HV HRpre (pointersRefined_start _ _ _))
      as (s1 & Hs1 & HS1 & HI1).
    destruct (resolvePointer_refined mAliasTree asLoadInst st ([] ++ pre) Loc
                s1 HV HRLoc (conj HS1 HI1)) as (s2 & Hs2 & _).
    unfold resolvePointers in Hrun. rewrite Hsplit, forEach_app, Hs1 in Hrun.
    cbn in Hrun. rewrite Hs2 in Hrun. cbn in Hrun.
    destruct (HRLoc LI HLI) as [[cell Hcell] [pcell Hpcell]].
    destruct HS1 as (HEA1 & _ & _ & _).
    destruct (valid_access_cell _ _ _ _ HV Hcell) as [T0 HT0].
    destruct (valid_access_cell _ _ _ _ HV Hpcell) as [PT0 HPT0].
    assert (HT : ∃ T, traits s1 !! cell = Some T).
    { destruct (HI1 cell T0 HT0) as ([H|[_ H]] & _); eauto. }
    assert (HPT : ∃ PT, traits s1 !! pcell = Some PT).
    { destruct (HI1 pcell PT0 HPT0) as ([H|[_ H]] & _); eauto. }
    destruct HT as [T HT], HPT as [PT HPT].
    rewrite <- HEA1 in Hcell, Hpcell.
    exists s1, s2, cell, T, pcell, PT.
    split_and!; try done; revert Hs2; unfold resolvePointer;
      rewrite HLI, Hcell; cbn; rewrite HT; cbn.
    + intros Hs2 HRes. apply pointerTraitResolved_spec in HRes.
      rewrite HRes in Hs2. congruence.
    + rewrite Hpcell. cbn. rewrite HPT. cbn. intros Hs2 HRO.
      rewrite (bool_decide_eq_true_2 _ HRO) in Hs2.
      destruct (pointerTraitResolved T); congruence.
    + rewrite Hpcell. cbn. rewrite HPT. cbn. intros Hs2 HnRes HnRO.
      rewrite (bool_decide_eq_false_2 _ HnRO) in Hs2.
      destruct (pointerTraitResolved T) eqn:HRes; [|congruence].
      apply pointerTraitResolved_spec in HRes. contradiction.
  - (* the traits after the loop *)
    intros Loc LI HLoc HLI.
    rewrite list.Forall_forall in HR.
    destruct (HR Loc HLoc LI HLI) as [[cell Hcell] [pcell Hpcell]].
    destruct (valid_access_cell _ _ _ _ HV Hcell) as [T HT].
    destruct (valid_access_cell _ _ _ _ HV Hpcell) as [PT HPT].
    destruct (HI cell T HT) as (_ & Hyes & Hno).
    exists cell, T, pcell, PT. split_and!; try done.
    + intros HRes. apply Hno. intros L _ (LI' & T' & _ & _ & HT' & HnRes & _).
      apply HnRes. congruence.
    + intros HnRes HnRO. apply Hyes. exists Loc. split; [done|].
      exists LI, T. split_and!; try done.
      intros (pc & PT' & H1 & H2 & H3). apply HnRO. congruence.
    + intros Hall. apply Hno. intros L HL (LI' & T' & H1 & H2 & _ & _ & HnP).
      apply HnP. by eapply Hall.
  - (* the other traits *)
    intros c Hc. destruct (traits st !! c) as [T|] eqn:HT.
    + destruct (HI c T HT) as (_ & _ & Hno). apply Hno.
      intros L HL (LI' & T' & H1 & H2 & _). by eapply Hc.
    + destruct HS as (_ & _ & _ & Hlen).
      apply lookup_ge_None. rewrite Hlen. by apply lookup_ge_None.
Qed.

Lemma resolvePointers_refines_witness :
  ∃ st',
    resolvePointers Sample.tree SampleLoop.asLoadInst SampleLoop.defUse
      SampleStages.marked = Some st' ∧
    traits SampleStages.marked !! 5 = Some 405%Z ∧
    traits st' !! 5 = Some BitMemoryTrait.Dependency ∧
    traits SampleStages.marked !! 3 = Some 405%Z ∧
    traits st' !! 3 = Some 405%Z.
Proof.
  destruct (resolvePointers_refines Sample.tree SampleLoop.asLoadInst
              SampleLoop.defUse SampleStages.marked (proj2 sample_marked)
              sample_pointer_registered)
    as (st' & Hrun & _ & _ & Hres & _).
  exists st'. split_and!.
  - exact Hrun.
  - vm_compute. reflexivity.
  - destruct (Hres SampleLoop.S SampleLoop.R) as
      (cell & T & pcell & PT & Hc & HT & Hpc & HPT & _ & Hdep & _).
    + apply (bool_decide_unpack _). vm_compute. exact I.
    + reflexivity.
    + vm_compute in Hc. injection Hc as <-.
      vm_compute in HT. injection HT as <-.
      vm_compute in Hpc. injection Hpc as <-.
      vm_compute in HPT. injection HPT as <-.
      apply Hdep.
      * intros [H|[H|H]]; vm_compute in H; discriminate.
      * vm_compute. discriminate.
  - vm_compute. reflexivity.
  - destruct (Hres SampleLoop.Q SampleLoop.P) as
      (cell & T & pcell & PT & Hc & HT & Hpc & HPT & _ & _ & Hkeep).
    + apply (bool_decide_unpack _). vm_compute. exact I.
    + reflexivity.
    + vm_compute in Hc. injection Hc as <-.
      vm_compute in HT. injection HT as <-.
      refine (Hkeep _). intros L LI' HL HLI' HEA.
      repeat (apply elem_of_cons in HL as [->|HL]);
        try (vm_compute in HLI'; discriminate HLI');
        try (vm_compute in HEA; discriminate HEA); [|inversion HL].
      vm_compute in HLI'. injection HLI' as <-.
      exists 2, 447%Z. split_and!; vm_compute; reflexivity.
Defined.
